(** * Allocation and execution planner of the inference engine

    A shallow embedding of [core/framework/allocation_planner.cc]
    (the non-training, non-profiling build) together with the properties
    of the planner that the specification states.

    Conventions of the embedding.
    - [int] values ([OrtValueIndex], use counts, alias indices) are [Z];
      [size_t] values ([NodeIndex], positions, counters) are [N] or [nat].
    - A failed [ORT_ENFORCE] / [ORT_THROW] is [Throw EnforceFailed], a
      non-OK [Status] is [Throw StatusFail], a failed [assert] is
      [Throw AssertFailed]; an unchecked access outside a container
      (undefined behaviour in the source) is [Throw OutOfBounds].
    - A [NodeArg] pointer is the record [NodeArg]; pointer identity is
      equality of the field [arg_addr].
    - Profiling intervals, [program_counter] and [value_type] of an
      allocation plan entry are bookkeeping for the executor and are left
      out of the plan record.
    - The two recursions whose depth depends on the data (the traversal
      and the depth-first search of the multi-stream optimizer) run on
      fuel computed from the size of the dependency graph; a run that the
      fuel cuts short is [Throw OutOfFuel].  Counters of type [int] that
      count nodes or edges stay far below [2^31] and are not wrapped. *)

From stdpp Require Import gmap strings list fin_maps sorting.
From Stdlib Require Import ZArith Lia Ascii.

Local Open Scope Z_scope.

(** ** Results of fallible code *)

Inductive Failure :=
| EnforceFailed
| StatusFail
| AssertFailed
| OutOfBounds
| OutOfFuel.

Inductive Result (A : Type) :=
| Ok (a : A)
| Throw (f : Failure).
Arguments Ok {A} a.
Arguments Throw {A} f.

#[global] Instance Failure_eq_dec : EqDecision Failure.
Proof. solve_decision. Defined.

#[global] Instance Result_eq_dec {A} `{EqDecision A} : EqDecision (Result A).
Proof. solve_decision. Defined.

#[global] Instance Result_ret : MRet Result := @Ok.
#[global] Instance Result_bind : MBind Result :=
  λ A B f m, match m with Ok a => f a | Throw e => Throw e end.

(** [ORT_ENFORCE(cond)] *)
Definition ORT_ENFORCE (cond : bool) : Result unit :=
  if cond then Ok tt else Throw EnforceFailed.

(** ** Data model *)

Abbreviation NodeIndex := N (only parsing).
Abbreviation OrtValueIndex := Z (only parsing).
Abbreviation OrtValueName := string (only parsing).
Abbreviation NotificationIndex := N (only parsing).

(** One dimension of a [TensorShapeProto]: the protobuf [oneof] holds a
    known value, a symbolic parameter, or nothing. *)
Inductive Dimension :=
| DimValue (dim_value : Z)
| DimParam (dim_param : string)
| DimNotSet.

Abbreviation TensorShapeProto := (list Dimension) (only parsing).

Definition HasDimValue (d : Dimension) : bool :=
  match d with DimValue _ => true | _ => false end.
Definition HasDimParam (d : Dimension) : bool :=
  match d with DimParam _ => true | _ => false end.

(** [TypeProto::value_case()] *)
Inductive TypeCase :=
| kTensorType
| kSequenceType
| kMapType
| kOptionalType
| kSparseTensorType
| kTypeNotSet.

#[global] Instance TypeCase_eq_dec : EqDecision TypeCase.
Proof. solve_decision. Defined.

#[global] Instance Dimension_eq_dec : EqDecision Dimension.
Proof. solve_decision. Defined.

(** [ONNX_NAMESPACE::TensorProto_DataType_STRING] *)
Definition TensorProto_DataType_STRING : Z := 8.

(** A [NodeArg].  [elem_type] is [TypeAsProto()->tensor_type().elem_type()],
    [elem_size] is the [Size()] of the element type that the data type
    registry reports for a tensor type; both come from declarations
    outside this translation unit and are carried by the argument. *)
Record NodeArg := mkNodeArg {
  arg_addr : N;
  Name : OrtValueName;
  type_case : TypeCase;
  elem_type : Z;
  elem_size : N;
}.

#[global] Instance NodeArg_eq_dec : EqDecision NodeArg.
Proof. solve_decision. Defined.

(** [NodeArg::Exists()]: a missing optional argument has the empty name. *)
Definition Exists (a : NodeArg) : bool :=
  negb (bool_decide (Name a = EmptyString)).

(** Pointer equality of two [NodeArg*]. *)
Definition same_ptr (a b : NodeArg) : bool :=
  bool_decide (arg_addr a = arg_addr b).

(** [ISequentialPlannerContext] *)
Record ISequentialPlannerContext := mkContext {
  GetShape : NodeArg → option TensorShapeProto;
  IsParallelExecutionEnabled : bool;
  GetEnableMemoryReuse : bool;
}.

(** ** Size equality ([SameShape], [GetElementSize], [SameSize]) *)

Definition same_dimension (val1 val2 : Dimension) : bool :=
  if HasDimValue val1 && HasDimValue val2 &&
     match val1, val2 with
     | DimValue v1, DimValue v2 => bool_decide (v1 = v2)
     | _, _ => false
     end
  then true (* same known dimension *)
  else if HasDimParam val1 && HasDimParam val2 then
    match val1, val2 with
    | DimParam val1_param, DimParam val2_param =>
        bool_decide (val1_param = val2_param) &&
        negb (bool_decide (val1_param = EmptyString))
    | _, _ => false
    end
  else false.

(** The loop [for (int i = 0; i < rank1; i++)] of [SameShape], entered
    once the ranks are known to be equal. *)
Fixpoint SameShape_dims (shape1 shape2 : TensorShapeProto) : bool :=
  match shape1, shape2 with
  | val1 :: rest1, val2 :: rest2 =>
      if same_dimension val1 val2 then SameShape_dims rest1 rest2 else false
  | _, _ => true
  end.

Definition SameShape (shape1 shape2 : TensorShapeProto) : bool :=
  let rank1 := length shape1 in
  if negb (bool_decide (length shape2 = rank1)) then false
  else SameShape_dims shape1 shape2.

(** [GetElementSize]: the [ORT_ENFORCE] on [AsTensorType()] fails for every
    type that is not a dense tensor. *)
Definition GetElementSize (arg : NodeArg) : Result N :=
  _ ← ORT_ENFORCE (bool_decide (type_case arg = kTensorType));
  mret (elem_size arg).

Definition is_string_tensor (arg : NodeArg) : bool :=
  bool_decide (elem_type arg = TensorProto_DataType_STRING).

(** The static four-argument [SameSize]. *)
Definition SameSize (shape1 : TensorShapeProto) (arg1 : NodeArg)
    (shape2 : TensorShapeProto) (arg2 : NodeArg) : Result bool :=
  type1_size ← GetElementSize arg1;
  type2_size ← GetElementSize arg2;
  let is_type1_string := is_string_tensor arg1 in
  let is_type2_string := is_string_tensor arg2 in
  mret (negb (is_type1_string || is_type2_string) &&
        bool_decide (type1_size = type2_size) &&
        SameShape shape1 shape2).

(** The two-argument member [SameSize], which asks the context for the
    shapes. *)
Definition SameSizeArgs (ctx : ISequentialPlannerContext)
    (arg1 arg2 : NodeArg) : Result bool :=
  if negb (Exists arg1) || negb (Exists arg2) then mret false
  else
    match GetShape ctx arg1, GetShape ctx arg2 with
    | Some p_shape1, Some p_shape2 => SameSize p_shape1 arg1 p_shape2 arg2
    | _, _ => mret false
    end.

(** *** The rule in the words of the specification *)

Definition dims_agree (d1 d2 : Dimension) : Prop :=
  (∃ v, d1 = DimValue v ∧ d2 = DimValue v) ∨
  (∃ p, d1 = DimParam p ∧ d2 = DimParam p ∧ p ≠ EmptyString).

Definition shapes_agree (s1 s2 : TensorShapeProto) : Prop :=
  length s1 = length s2 ∧
  ∀ (i : nat) d1 d2, s1 !! i = Some d1 → s2 !! i = Some d2 → dims_agree d1 d2.

Definition same_size_rule (s1 : TensorShapeProto) (a1 : NodeArg)
    (s2 : TensorShapeProto) (a2 : NodeArg) : Prop :=
  elem_type a1 ≠ TensorProto_DataType_STRING ∧
  elem_type a2 ≠ TensorProto_DataType_STRING ∧
  (∃ sz, GetElementSize a1 = Ok sz ∧ GetElementSize a2 = Ok sz) ∧
  shapes_agree s1 s2.

(** ** Graph, kernels and planner state *)

Inductive AllocKind :=
| kAllocate
| kAllocateStatically
| kPreExisting
| kReuse
| kAllocateOutput
| kShare
| kAllocatedExternally
| kNotSet.

#[global] Instance AllocKind_eq_dec : EqDecision AllocKind.
Proof. solve_decision. Defined.

Record OrtMemoryInfo := mkMemoryInfo {
  mem_name : string;
  mem_id : Z;
  mem_type : Z;
}.

#[global] Instance OrtMemoryInfo_eq_dec : EqDecision OrtMemoryInfo.
Proof. solve_decision. Defined.

#[global] Instance OrtMemoryInfo_countable : Countable OrtMemoryInfo :=
  inj_countable' (λ m, (mem_name m, mem_id m, mem_type m))
                 (λ t, mkMemoryInfo t.1.1 t.1.2 t.2) (λ m, match m with mkMemoryInfo _ _ _ => eq_refl end).

Record AllocPlanPerValue := mkAllocPlan {
  alloc_kind : AllocKind;
  reused_buffer : OrtValueIndex;
  location : OrtMemoryInfo;
}.

(** The kernel metadata the planner reads from a [KernelDef]. *)
Record KernelDef := mkKernelDef {
  Alias : list (Z * Z);
  VariadicAlias : option (Z * Z);
  MayInplace : list (Z * Z);
  KernelDef_HasExternalOutputs : bool;
}.

Record KernelCreateInfo := mkKernelCreateInfo {
  kernel_def : option KernelDef;
}.

Record Node := mkNode {
  Node_Index : NodeIndex;
  Node_Name : string;
  OpType : string;
  GetExecutionProviderType : string;
  InputDefs : list NodeArg;
  ImplicitInputDefs : list NodeArg;
  OutputDefs : list NodeArg;
  InputNodes : list NodeIndex;   (* producers, one per input edge *)
  OutputNodes : list NodeIndex;  (* consumers, one per output edge *)
}.

Record GraphViewer := mkGraphViewer {
  GetNodesInTopologicalOrder : list NodeIndex;
  graph_nodes : gmap NodeIndex Node;
  GetInputs : list NodeArg;
  GetOutputs : list NodeArg;
  GetAllInitializedTensors : list OrtValueName;
  MaxNodeIndex : N;
}.

Definition GetNode (g : GraphViewer) (node_index : NodeIndex) : option Node :=
  graph_nodes g !! node_index.

(** The members of [PlannerImpl] that planning only reads. *)
Record PlannerEnv := mkPlannerEnv {
  context_ : ISequentialPlannerContext;
  parent_node_ : option Node;
  graph_viewer_ : GraphViewer;
  outer_scope_node_args_ : list NodeArg;
  kernel_create_info_map_ : gmap NodeIndex KernelCreateInfo;
  ort_value_name_idx_map_ : gmap OrtValueName OrtValueIndex;
  stream_nodes_ : list (list NodeIndex);
  node_stream_map_ : list N;
}.

Record OrtValueInfo := mkOrtValueInfo {
  p_def_site : option NodeArg;
  usecount : Z;
  reused_buffer_index : OrtValueIndex;
}.

Record FreeBufferInfo := mkFreeBufferInfo {
  ml_value : OrtValueIndex;
  deallocate_point : nat;
}.

(** The members of [PlannerImpl] (and of the plan) that reuse planning
    mutates. *)
Record PlannerState := mkPlannerState {
  ort_value_info_ : list OrtValueInfo;
  allocation_plan : list AllocPlanPerValue;
  freelist_ : list FreeBufferInfo;
}.

(** Element [n] of a vector indexed by an [int]. *)
Definition at_index {A} (l : list A) (n : Z) : option A :=
  if bool_decide (0 ≤ n) then l !! Z.to_nat n else None.

Definition checked {A} (o : option A) : Result A :=
  match o with Some a => Ok a | None => Throw EnforceFailed end.

Definition unchecked {A} (o : option A) : Result A :=
  match o with Some a => Ok a | None => Throw OutOfBounds end.

Definition Index (E : PlannerEnv) (name : OrtValueName) : Result OrtValueIndex :=
  checked (ort_value_name_idx_map_ E !! name).

Definition UseCount (st : PlannerState) (n : OrtValueIndex) : Result Z :=
  checked (usecount <$> at_index (ort_value_info_ st) n).

Definition Buffer (st : PlannerState) (n : OrtValueIndex) : Result OrtValueIndex :=
  checked (reused_buffer_index <$> at_index (ort_value_info_ st) n).

Definition AllocPlan (st : PlannerState) (n : OrtValueIndex) : Result AllocPlanPerValue :=
  checked (at_index (allocation_plan st) n).

Definition update_info (f : OrtValueInfo → OrtValueInfo) (st : PlannerState)
    (n : OrtValueIndex) : Result PlannerState :=
  info ← checked (at_index (ort_value_info_ st) n);
  mret (mkPlannerState (<[Z.to_nat n := f info]> (ort_value_info_ st))
                       (allocation_plan st) (freelist_ st)).

Definition set_UseCount (st : PlannerState) (n : OrtValueIndex) (c : Z) :=
  update_info (λ i, mkOrtValueInfo (p_def_site i) c (reused_buffer_index i)) st n.

Definition set_Buffer (st : PlannerState) (n : OrtValueIndex) (b : OrtValueIndex) :=
  update_info (λ i, mkOrtValueInfo (p_def_site i) (usecount i) b) st n.

Definition update_plan (f : AllocPlanPerValue → AllocPlanPerValue)
    (st : PlannerState) (n : OrtValueIndex) : Result PlannerState :=
  p ← AllocPlan st n;
  mret (mkPlannerState (ort_value_info_ st)
                       (<[Z.to_nat n := f p]> (allocation_plan st)) (freelist_ st)).

Definition set_alloc_kind (st : PlannerState) (n : OrtValueIndex) (k : AllocKind) :=
  update_plan (λ p, mkAllocPlan k (reused_buffer p) (location p)) st n.

(** [int DecrementUseCount(OrtValueIndex n)] *)
Definition DecrementUseCount (st : PlannerState) (n : OrtValueIndex)
    : Result (Z * PlannerState) :=
  c ← UseCount st n;
  let use_count := c - 1 in
  st' ← set_UseCount st n use_count;
  if bool_decide (0 ≤ use_count) then mret (use_count, st') else Throw AssertFailed.

(** [void Reuse(OrtValueIndex reused, OrtValueIndex reused_for, AllocKind)] *)
Definition Reuse (st : PlannerState) (reused reused_for : OrtValueIndex)
    (kind : AllocKind) : Result PlannerState :=
  _ ← ORT_ENFORCE (negb (bool_decide (reused = reused_for)));
  original ← Buffer st reused;
  st1 ← set_Buffer st reused_for original;
  c_for ← UseCount st1 reused_for;
  c_orig ← UseCount st1 original;
  st2 ← set_UseCount st1 original (c_orig + c_for);
  update_plan (λ p, mkAllocPlan kind original (location p)) st2 reused_for.

Definition GetKernelCreateInfo (m : gmap NodeIndex KernelCreateInfo)
    (node_index : NodeIndex) : Result KernelCreateInfo :=
  checked (m !! node_index).

(** [bool HasExternalOutputs(const Node&)] *)
Definition HasExternalOutputs (E : PlannerEnv) (node : Node) : Result bool :=
  ci ← GetKernelCreateInfo (kernel_create_info_map_ E) (Node_Index node);
  match kernel_def ci with
  | None => mret false
  | Some kd => mret (KernelDef_HasExternalOutputs kd)
  end.

(** ** [FindReusableInput] *)

(** The input an entry [(input, output)] of an alias or in-place map names
    for output [output_arg_num]: the entry must be for this output and its
    first component must be a position of [input_args]. *)
Definition paired_input (input_args : list NodeArg) (output_arg_num : Z)
    (entry : Z * Z) : option NodeArg :=
  if bool_decide (entry.2 = output_arg_num) then
    if bool_decide (entry.1 < Z.of_nat (length input_args)) then at_index input_args entry.1
    else None
  else None.

Fixpoint FindReusableInput_alias (E : PlannerEnv) (input_args : list NodeArg)
    (output_arg_num : Z) (alias_map : list (Z * Z)) : Result (option OrtValueIndex) :=
  match alias_map with
  | [] => mret None
  | entry :: rest =>
      match paired_input input_args output_arg_num entry with
      | Some p_input_arg =>
          if Exists p_input_arg then
            (* we must reuse this input to satisfy the aliasing requirement *)
            reusable_input ← Index E (Name p_input_arg);
            mret (Some reusable_input)
          else FindReusableInput_alias E input_args output_arg_num rest
      | None => FindReusableInput_alias E input_args output_arg_num rest
      end
  end.

Definition FindReusableInput_variadic (E : PlannerEnv) (input_args : list NodeArg)
    (output_arg_num : Z) (variadic_alias_offsets : option (Z * Z))
    : Result (option OrtValueIndex) :=
  match variadic_alias_offsets with
  | Some (input_offset, output_offset) =>
      let alias_input_index := output_arg_num - output_offset + input_offset in
      match at_index input_args alias_input_index with
      | Some p_input_arg =>
          if Exists p_input_arg then
            reusable_input ← Index E (Name p_input_arg);
            mret (Some reusable_input)
          else mret None
      | None => mret None
      end
  | None => mret None
  end.

Fixpoint FindReusableInput_inplace (E : PlannerEnv) (st : PlannerState)
    (input_args : list NodeArg) (p_output_arg : NodeArg) (output_arg_num : Z)
    (inplace_map : list (Z * Z)) : Result (option OrtValueIndex) :=
  match inplace_map with
  | [] => mret None
  | entry :: rest =>
      let next := FindReusableInput_inplace E st input_args p_output_arg output_arg_num rest in
      match paired_input input_args output_arg_num entry with
      | Some p_input_arg =>
          if Exists p_input_arg then
            input_arg_index ← Index E (Name p_input_arg);
            original ← Buffer st input_arg_index;
            c ← UseCount st original;
            if bool_decide (1 = c) then
              same ← SameSizeArgs (context_ E) p_input_arg p_output_arg;
              if same : bool then
                (* last use of the input, and in-place update is permitted *)
                mret (Some input_arg_index)
              else next
            else next
          else next
      | None => next
      end
  end.

(** [FindReusableInput] of the non-training build; [None] is its [false].
    The strided-tensor flag is constantly [false] in this build. *)
Definition FindReusableInput (E : PlannerEnv) (st : PlannerState) (node : Node)
    (output_arg_num : Z) : Result (option OrtValueIndex) :=
  p_output_arg ← unchecked (at_index (OutputDefs node) output_arg_num);
  ci ← GetKernelCreateInfo (kernel_create_info_map_ E) (Node_Index node);
  match kernel_def ci with
  | None => mret None
  | Some kd =>
      let input_args := InputDefs node in
      by_alias ← FindReusableInput_alias E input_args output_arg_num (Alias kd);
      match by_alias with
      | Some reusable_input => mret (Some reusable_input)
      | None =>
          by_variadic ← FindReusableInput_variadic E input_args output_arg_num
                          (VariadicAlias kd);
          match by_variadic with
          | Some reusable_input => mret (Some reusable_input)
          | None =>
              FindReusableInput_inplace E st input_args p_output_arg output_arg_num
                (MayInplace kd)
          end
      end
  end.

(** The existing inputs of a node all have an entry in the name/index
    map. *)
Definition names_resolve (E : PlannerEnv) (args : list NodeArg) : Prop :=
  ∀ p, p ∈ args → Exists p = true →
       is_Some (ort_value_name_idx_map_ E !! Name p).

(** An entry of an alias or in-place map that names an existing input for
    output [out]. *)
Definition entry_applies (input_args : list NodeArg) (out : Z)
    (entry : Z * Z) (p : NodeArg) : Prop :=
  entry.2 = out ∧ at_index input_args entry.1 = Some p ∧ Exists p = true.

(** ** Loops over containers *)

(** A [for] loop whose body may throw or return a non-OK status. *)
Fixpoint foldR {A St} (body : St → A → Result St) (l : list A) (st : St) : Result St :=
  match l with
  | [] => mret st
  | x :: rest => st' ← body st x; foldR body rest st'
  end.

(** The same with the loop counter passed to the body. *)
Fixpoint foldR_indexed {A St} (body : St → nat → A → Result St) (i : nat)
    (l : list A) (st : St) : Result St :=
  match l with
  | [] => mret st
  | x :: rest => st' ← body st i x; foldR_indexed body (S i) rest st'
  end.

(** [Node::ForEachWithIndex] (declared with the graph, outside this file):
    it calls [func] on every argument that exists and skips the missing
    ones.  None of the callbacks embedded here reads the position it is
    handed, so the position is not passed on. *)
Definition ForEachWithIndex {St} (node_args : list NodeArg)
    (func : St → NodeArg → Result St) (st : St) : Result St :=
  foldR (λ st arg, if Exists arg then func st arg else mret st) node_args st.

(** ** [ComputeReuseCount] *)

(** [UseCount(n) += k] *)
Definition add_UseCount (st : PlannerState) (n : OrtValueIndex) (k : Z)
    : Result PlannerState :=
  c ← UseCount st n;
  set_UseCount st n (c + k).

(** [UseCount(name) += k] *)
Definition add_UseCount_name (E : PlannerEnv) (st : PlannerState)
    (name : OrtValueName) (k : Z) : Result PlannerState :=
  index ← Index E name;
  add_UseCount st index k.

(** The body of the loop over the nodes of one stream. *)
Definition ComputeReuseCount_node (E : PlannerEnv) (st : PlannerState)
    (node_index : NodeIndex) : Result PlannerState :=
  match GetNode (graph_viewer_ E) node_index with
  | None => Throw StatusFail
  | Some pnode =>
      let process_input := λ st (input : NodeArg), add_UseCount_name E st (Name input) 1 in
      st ← ForEachWithIndex (InputDefs pnode) process_input st;
      st ← ForEachWithIndex (ImplicitInputDefs pnode) process_input st;
      has_external_outputs ← HasExternalOutputs E pnode;
      foldR (λ st node_output,
               if negb (Exists node_output) then mret st
               else
                 index ← Index E (Name node_output);
                 (* Ensures external outputs will not be reused. *)
                 add_UseCount st index (if has_external_outputs : bool then 2 else 1))
            (OutputDefs pnode) st
  end.

Definition ComputeReuseCount (E : PlannerEnv) (st : PlannerState)
    : Result PlannerState :=
  let g := graph_viewer_ E in
  st ← foldR (λ st graph_input, add_UseCount_name E st (Name graph_input) 1)
             (GetInputs g) st;
  st ← foldR (λ st node_arg, add_UseCount_name E st (Name node_arg) 1)
             (outer_scope_node_args_ E) st;
  st ← foldR (λ st initializer_name, add_UseCount_name E st initializer_name 1)
             (GetAllInitializedTensors g) st;
  st ← foldR (λ st stream_execution_order,
                foldR (ComputeReuseCount_node E) stream_execution_order st)
             (stream_nodes_ E) st;
  foldR (λ st graph_output, add_UseCount_name E st (Name graph_output) 1)
        (GetOutputs g) st.

(** *** The count in the words of the specification *)

Definition sumZ {A} (w : A → Z) (l : list A) : Z :=
  foldr (λ x acc, w x + acc) 0 l.

(** [1] when the name is the name of value [v], [0] otherwise. *)
Definition names_value (E : PlannerEnv) (v : OrtValueIndex) (name : OrtValueName) : Z :=
  if bool_decide (ort_value_name_idx_map_ E !! name = Some v) then 1 else 0.

(** Number of occurrences of value [v] among the existing arguments. *)
Definition occurrences (E : PlannerEnv) (v : OrtValueIndex) (args : list NodeArg) : Z :=
  sumZ (λ a, if Exists a then names_value E v (Name a) else 0) args.

Definition node_use_count (E : PlannerEnv) (v : OrtValueIndex)
    (node_index : NodeIndex) : Z :=
  match GetNode (graph_viewer_ E) node_index with
  | None => 0
  | Some pnode =>
      occurrences E v (InputDefs pnode) +
      occurrences E v (ImplicitInputDefs pnode) +
      (match HasExternalOutputs E pnode with Ok true => 2 | _ => 1 end) *
        occurrences E v (OutputDefs pnode)
  end.

Definition static_use_count (E : PlannerEnv) (v : OrtValueIndex) : Z :=
  let g := graph_viewer_ E in
  sumZ (λ a, names_value E v (Name a)) (GetInputs g) +
  sumZ (λ a, names_value E v (Name a)) (outer_scope_node_args_ E) +
  sumZ (names_value E v) (GetAllInitializedTensors g) +
  sumZ (sumZ (node_use_count E v)) (stream_nodes_ E) +
  sumZ (λ a, names_value E v (Name a)) (GetOutputs g).

(** Running from [st] to [st'] adds [d] to the use count of [v]. *)
Definition counts_add (v : OrtValueIndex) (d : Z) (st st' : PlannerState) : Prop :=
  ∀ c, UseCount st v = Ok c → UseCount st' v = Ok (c + d).

(** ** [FindReusableTensor] *)

Definition IsNonTensor (nodearg : NodeArg) : bool :=
  negb (bool_decide (type_case nodearg = kTensorType)).

Definition IsOptionalType (nodearg : NodeArg) : bool :=
  bool_decide (type_case nodearg = kOptionalType).

(** The loop over [freelist_]: [passed] holds the entries already skipped,
    [rest] those still to visit.  On success the chosen value and the
    freelist without its entry are returned. *)
Fixpoint FindReusableTensor_scan (E : PlannerEnv) (st : PlannerState)
    (output_arg : NodeArg) (p_required_buffer_shape : TensorShapeProto)
    (required_memory_info : OrtMemoryInfo)
    (passed rest : list FreeBufferInfo)
    : Result (option (OrtValueIndex * list FreeBufferInfo)) :=
  match rest with
  | [] => mret None
  | it :: rest' =>
      let next := FindReusableTensor_scan E st output_arg p_required_buffer_shape
                    required_memory_info (passed ++ [it]) rest' in
      info ← checked (at_index (ort_value_info_ st) (ml_value it));
      match p_def_site info with
      | None => next
      | Some p_node_arg =>
          if IsOptionalType p_node_arg then next
          else
            idx ← Index E (Name p_node_arg);
            available ← AllocPlan st idx;
            if negb (bool_decide (location available = required_memory_info)) then next
            else
              match GetShape (context_ E) p_node_arg with
              | Some p_available_buffer_shape =>
                  same ← SameSize p_available_buffer_shape p_node_arg
                                  p_required_buffer_shape output_arg;
                  if same : bool then mret (Some (ml_value it, passed ++ rest'))
                  else next
              | None => next
              end
      end
  end.

Definition FindReusableTensor (E : PlannerEnv) (st : PlannerState)
    (output_arg : NodeArg) : Result (option OrtValueIndex * PlannerState) :=
  if negb (GetEnableMemoryReuse (context_ E)) then mret (None, st)
  else
    match GetShape (context_ E) output_arg with
    | None => mret (None, st)
    | Some p_required_buffer_shape =>
        if bool_decide (length p_required_buffer_shape = 0%nat) then mret (None, st)
        else
          idx ← Index E (Name output_arg);
          required ← AllocPlan st idx;
          found ← FindReusableTensor_scan E st output_arg p_required_buffer_shape
                    (location required) [] (freelist_ st);
          match found with
          | Some (reusable_tensor, freelist') =>
              mret (Some reusable_tensor,
                    mkPlannerState (ort_value_info_ st) (allocation_plan st) freelist')
          | None => mret (None, st)
          end
    end.

(** ** [ComputeSingleStreamReusePlan] *)

(** [std::find(graph_outputs.begin(), graph_outputs.end(), node_output)]
    compares pointers. *)
Definition is_graph_output (g : GraphViewer) (node_output : NodeArg) : bool :=
  existsb (same_ptr node_output) (GetOutputs g).

Definition is_loop_identity (E : PlannerEnv) (pnode : Node) : bool :=
  match parent_node_ E with
  | Some parent =>
      bool_decide (OpType pnode = "Identity") && bool_decide (OpType parent = "Loop")
  | None => false
  end.

(** The branch taken for a node output that is a graph output. *)
Definition plan_graph_output (E : PlannerEnv) (pnode : Node)
    (st : PlannerState) (current : OrtValueIndex) : Result PlannerState :=
  st ← set_alloc_kind st current kAllocateOutput;
  if is_loop_identity E pnode then
    input ← unchecked (InputDefs pnode !! 0%nat);
    first_input ← unchecked (GetInputs (graph_viewer_ E) !! 0%nat);
    (* first input to the Loop subgraph is the iteration number. *)
    let input_is_loop_iteration_number := same_ptr input first_input in
    if input_is_loop_iteration_number then mret st
    else
      input_index ← Index E (Name input);
      alloc_plan ← AllocPlan st input_index;
      if bool_decide (alloc_kind alloc_plan = kPreExisting)
      then Reuse st input_index current kShare
      else mret st
  else mret st.

(** The body of the loop over the outputs of a node. *)
Definition plan_output (E : PlannerEnv) (pnode : Node) (has_external_outputs : bool)
    (st : PlannerState) (output_arg_def_index : nat) (node_output : NodeArg)
    : Result PlannerState :=
  if negb (Exists node_output) then mret st
  else
    current ← Index E (Name node_output);
    _ ← AllocPlan st current;
    let parallel := IsParallelExecutionEnabled (context_ E) in
    if has_external_outputs then
      _ ← ORT_ENFORCE (negb (IsNonTensor node_output));
      set_alloc_kind st current kAllocatedExternally
    else if is_graph_output (graph_viewer_ E) node_output then
      (* node_output is graph's output, so we can't reuse intermediate buffer *)
      plan_graph_output E pnode st current
    else
      by_input ← (if negb parallel
                  then FindReusableInput E st pnode (Z.of_nat output_arg_def_index)
                  else mret None);
      match by_input with
      | Some reused => Reuse st reused current kReuse
      | None =>
          if IsNonTensor node_output then set_alloc_kind st current kAllocate
          else
            by_freelist ← (if negb parallel
                           then FindReusableTensor E st node_output
                           else mret (None, st));
            match by_freelist with
            | (Some reused, st) =>
                (* Reuse an available (dead) buffer for this output *)
                st ← Reuse st reused current kReuse;
                original ← Buffer st reused;
                _ ← AllocPlan st original;
                mret st
            | (None, st) =>
                (* otherwise: allocate a new buffer for this output *)
                set_alloc_kind st current kAllocate
            end
      end.

Definition push_front_freelist (st : PlannerState) (original : OrtValueIndex)
    (program_counter : nat) : PlannerState :=
  mkPlannerState (ort_value_info_ st) (allocation_plan st)
                 (mkFreeBufferInfo original program_counter :: freelist_ st).

(** [if (0 == DecrementUseCount(original)) freelist_.push_front(...)] *)
Definition release_use (st : PlannerState) (original : OrtValueIndex)
    (program_counter : nat) : Result PlannerState :=
  '(use_count, st) ← DecrementUseCount st original;
  if bool_decide (0 = use_count) then
    _ ← AllocPlan st original;
    mret (push_front_freelist st original program_counter)
  else mret st.

(** The body of the loops over the explicit and the implicit inputs. *)
Definition free_input (E : PlannerEnv) (program_counter : nat)
    (st : PlannerState) (node_input : NodeArg) : Result PlannerState :=
  if Exists node_input then
    sym ← Index E (Name node_input);
    original ← Buffer st sym;
    (* The index will be -1 if it's an initializer that was removed *)
    if negb (bool_decide (original = -1)) then release_use st original program_counter
    else mret st
  else mret st.

(** The body of the loop over the outputs that frees the unused ones. *)
Definition free_output (E : PlannerEnv) (program_counter : nat)
    (st : PlannerState) (node_output : NodeArg) : Result PlannerState :=
  if Exists node_output then
    sym ← Index E (Name node_output);
    original ← Buffer st sym;
    release_use st original program_counter
  else mret st.

(** The body of the loop over the execution plan. *)
Definition plan_node (E : PlannerEnv) (st : PlannerState)
    (program_counter : nat) (node_index : NodeIndex) : Result PlannerState :=
  pnode ← unchecked (GetNode (graph_viewer_ E) node_index);
  has_external_outputs ← HasExternalOutputs E pnode;
  st ← foldR_indexed (plan_output E pnode has_external_outputs) 0 (OutputDefs pnode) st;
  st ← foldR (free_input E program_counter) (InputDefs pnode) st;
  st ← foldR (free_input E program_counter) (ImplicitInputDefs pnode) st;
  foldR (free_output E program_counter) (OutputDefs pnode) st.

Definition ComputeSingleStreamReusePlan (E : PlannerEnv) (st : PlannerState)
    : Result PlannerState :=
  foldR_indexed (plan_node E) 0
    (GetNodesInTopologicalOrder (graph_viewer_ E)) st.

(** *** The decision taken for one output

    The rules of the single-stream planner, one constructor per rule, with
    what the rule reuses. *)
Inductive PlanDecision :=
| External
| GraphOutput
| ReuseInput (reused : OrtValueIndex)
| NonTensor
| ReuseFreed (reused : OrtValueIndex) (freelist' : list FreeBufferInfo)
| Fresh.

(** A freelist entry is usable for [output_arg] of shape [shape] at
    [required_memory_info]: its value has a definition site that is not of
    optional type, is planned at the same location, has a known shape and
    the same size. *)
Definition freed_matches (E : PlannerEnv) (st : PlannerState)
    (output_arg : NodeArg) (shape : TensorShapeProto)
    (required_memory_info : OrtMemoryInfo) (it : FreeBufferInfo) : Prop :=
  ∃ info p_node_arg idx available shape_a,
    at_index (ort_value_info_ st) (ml_value it) = Some info ∧
    p_def_site info = Some p_node_arg ∧
    IsOptionalType p_node_arg = false ∧
    Index E (Name p_node_arg) = Ok idx ∧
    AllocPlan st idx = Ok available ∧
    location available = required_memory_info ∧
    GetShape (context_ E) p_node_arg = Some shape_a ∧
    SameSize shape_a p_node_arg shape output_arg = Ok true.

(** [reused] is the value of the first entry of the freelist, most recently
    freed first, that is usable for [output_arg]; [freelist'] is the
    freelist without that entry. *)
Definition first_freed_match (E : PlannerEnv) (st : PlannerState)
    (output_arg : NodeArg) (reused : OrtValueIndex)
    (freelist' : list FreeBufferInfo) : Prop :=
  ∃ current required shape skipped it rest,
    Index E (Name output_arg) = Ok current ∧
    AllocPlan st current = Ok required ∧
    GetShape (context_ E) output_arg = Some shape ∧
    freelist_ st = skipped ++ it :: rest ∧
    reused = ml_value it ∧ freelist' = skipped ++ rest ∧
    freed_matches E st output_arg shape (location required) it ∧
    Forall (λ e, ¬ freed_matches E st output_arg shape (location required) e) skipped.

Definition no_freed_match (E : PlannerEnv) (st : PlannerState)
    (output_arg : NodeArg) : Prop :=
  ∃ current required shape,
    Index E (Name output_arg) = Ok current ∧
    AllocPlan st current = Ok required ∧
    GetShape (context_ E) output_arg = Some shape ∧
    Forall (λ e, ¬ freed_matches E st output_arg shape (location required) e)
           (freelist_ st).

(** The freelist may be searched at all: reuse is enabled and the shape of
    the output is known and not of rank 0. *)
Definition freelist_searched (E : PlannerEnv) (output_arg : NodeArg) : Prop :=
  GetEnableMemoryReuse (context_ E) = true ∧
  ∃ shape, GetShape (context_ E) output_arg = Some shape ∧ shape ≠ [].

(** No input of the node is reused for the output. *)
Definition no_input_reused (E : PlannerEnv) (st : PlannerState) (pnode : Node)
    (output_arg_def_index : nat) : Prop :=
  IsParallelExecutionEnabled (context_ E) = true ∨
  FindReusableInput E st pnode (Z.of_nat output_arg_def_index) = Ok None.

(** The first rule that matches, in the fixed order of the planner. *)
Definition rule_applies (E : PlannerEnv) (pnode : Node) (has_external_outputs : bool)
    (st : PlannerState) (output_arg_def_index : nat) (node_output : NodeArg)
    (d : PlanDecision) : Prop :=
  let g := graph_viewer_ E in
  let parallel := IsParallelExecutionEnabled (context_ E) in
  match d with
  | External => has_external_outputs = true
  | GraphOutput =>
      has_external_outputs = false ∧ is_graph_output g node_output = true
  | ReuseInput reused =>
      has_external_outputs = false ∧ is_graph_output g node_output = false ∧
      parallel = false ∧
      FindReusableInput E st pnode (Z.of_nat output_arg_def_index) = Ok (Some reused)
  | NonTensor =>
      has_external_outputs = false ∧ is_graph_output g node_output = false ∧
      no_input_reused E st pnode output_arg_def_index ∧
      IsNonTensor node_output = true
  | ReuseFreed reused freelist' =>
      has_external_outputs = false ∧ is_graph_output g node_output = false ∧
      no_input_reused E st pnode output_arg_def_index ∧
      IsNonTensor node_output = false ∧
      parallel = false ∧ freelist_searched E node_output ∧
      first_freed_match E st node_output reused freelist'
  | Fresh =>
      has_external_outputs = false ∧ is_graph_output g node_output = false ∧
      no_input_reused E st pnode output_arg_def_index ∧
      IsNonTensor node_output = false ∧
      (parallel = true ∨ ¬ freelist_searched E node_output ∨
       no_freed_match E st node_output)
  end.

(** The state with the freelist replaced. *)
Definition with_freelist (st : PlannerState) (fl : list FreeBufferInfo) : PlannerState :=
  mkPlannerState (ort_value_info_ st) (allocation_plan st) fl.

(** What the planner does to the state once the rule is chosen. *)
Definition decision_effect (E : PlannerEnv) (pnode : Node) (st : PlannerState)
    (current : OrtValueIndex) (d : PlanDecision) (st' : PlannerState) : Prop :=
  match d with
  | External => set_alloc_kind st current kAllocatedExternally = Ok st'
  | GraphOutput => plan_graph_output E pnode st current = Ok st'
  | ReuseInput reused => Reuse st reused current kReuse = Ok st'
  | NonTensor => set_alloc_kind st current kAllocate = Ok st'
  | ReuseFreed reused freelist' =>
      Reuse (with_freelist st freelist') reused current kReuse = Ok st'
  | Fresh => set_alloc_kind st current kAllocate = Ok st'
  end.

(** *** Use counts against the uses still to come

    The walk of the planner decrements the use count of the buffer of a
    value once for each occurrence of the value as an existing explicit
    input, implicit input or output of a node. *)

(** The value an argument names, when it exists and has an index. *)
Definition arg_value (E : PlannerEnv) (a : NodeArg) : option OrtValueIndex :=
  if Exists a then ort_value_name_idx_map_ E !! Name a else None.

(** The values whose buffers node [pnode] releases, in the order of the
    three loops that end [plan_node]. *)
Definition node_uses (E : PlannerEnv) (pnode : Node) : list OrtValueIndex :=
  omap (arg_value E) (InputDefs pnode) ++
  omap (arg_value E) (ImplicitInputDefs pnode) ++
  omap (arg_value E) (OutputDefs pnode).

(** The values node [pnode] defines. *)
Definition node_defs (E : PlannerEnv) (pnode : Node) : list OrtValueIndex :=
  omap (arg_value E) (OutputDefs pnode).

Definition of_node {A} (E : PlannerEnv) (f : Node → list A) (node_index : NodeIndex)
    : list A :=
  match GetNode (graph_viewer_ E) node_index with
  | Some pnode => f pnode
  | None => []
  end.

Definition order_uses (E : PlannerEnv) (order : list NodeIndex) : list OrtValueIndex :=
  order ≫= of_node E (node_uses E).

Definition order_defs (E : PlannerEnv) (order : list NodeIndex) : list OrtValueIndex :=
  order ≫= of_node E (node_defs E).

(** How many of the [events] act on buffer [t] in state [st]. *)
Definition pending_on (st : PlannerState) (events : list OrtValueIndex)
    (t : OrtValueIndex) : Z :=
  sumZ (λ e, if bool_decide (Buffer st e = Ok t) then 1 else 0) events.

(** Every use count covers the events still to act on its buffer. *)
Definition counts_cover (st : PlannerState) (events : list OrtValueIndex) : Prop :=
  ∀ t c, UseCount st t = Ok c → pending_on st events t ≤ c.

(** The values of [defs] still own their buffers. *)
Definition self_owned (st : PlannerState) (defs : list OrtValueIndex) : Prop :=
  ∀ v b, v ∈ defs → Buffer st v = Ok b → b = v.

(** The run does not end in a failed [assert]. *)
Definition no_assert {A} (r : Result A) : Prop := r ≠ Throw AssertFailed.

(** The outcome of a step that may fail: it keeps [Q], or it fails, but
    not by an assertion. *)
Definition keeps {A} (r : Result A) (Q : A → Prop) : Prop :=
  match r with
  | Ok a => Q a
  | Throw f => f ≠ AssertFailed
  end.

(** The reuse decisions recorded so far are the same in both states. *)
Definition same_buffers (st st' : PlannerState) : Prop :=
  ∀ v, Buffer st' v = Buffer st v.

(** The number of the events that name value [t]. *)
Definition named_in (t : OrtValueIndex) (events : list OrtValueIndex) : Z :=
  sumZ (λ e, if bool_decide (e = t) then 1 else 0) events.

(** The state [ComputeValueLocation] leaves for reuse planning: use
    counts are not negative, every value either went through [ProcessDef]
    (and owns its buffer) or was never touched (buffer [-1]), and the
    values that nodes define went through [ProcessDef]. *)
Definition defs_processed (E : PlannerEnv) (st : PlannerState) : Prop :=
  (∀ v c, UseCount st v = Ok c → 0 ≤ c) ∧
  (∀ v b, Buffer st v = Ok b → b = v ∨ b = -1) ∧
  self_owned st (order_defs E (GetNodesInTopologicalOrder (graph_viewer_ E))).

(** ** [GenerateDeallocationPlan] *)

Record ReleaseAction := mkReleaseAction {
  value_index : nat;
  ref_count : nat;
}.

(** The part of the plan the deallocation planner fills. *)
Record ReleasePlan := mkReleasePlan {
  release_actions : list ReleaseAction;
  node_release_list : list (list nat);
}.

(** [process_input] of step 1: add the node as consumer of the buffer that
    backs the input, when that buffer is one the planner allocates. *)
Definition record_consumer (E : PlannerEnv) (st : PlannerState)
    (node_index : NodeIndex) (value_consumers : list (list NodeIndex))
    (input : NodeArg) : Result (list (list NodeIndex)) :=
  if Exists input then
    value_idx ← match ort_value_name_idx_map_ E !! Name input with
                | Some idx => Ok idx
                | None => Throw StatusFail
                end;
    origin ← Buffer st value_idx;
    if negb (bool_decide (origin = -1)) then
      plan ← unchecked (at_index (allocation_plan st) origin);
      if bool_decide (alloc_kind plan = kAllocate) then
        (* add current node as consumer for origin buffer *)
        consumers ← unchecked (at_index value_consumers origin);
        mret (<[Z.to_nat origin := consumers ++ [node_index]]> value_consumers)
      else mret value_consumers
    else mret value_consumers
  else mret value_consumers.

Definition record_node_consumers (E : PlannerEnv) (st : PlannerState)
    (value_consumers : list (list NodeIndex)) (node_index : NodeIndex)
    : Result (list (list NodeIndex)) :=
  node ← unchecked (GetNode (graph_viewer_ E) node_index);
  value_consumers ← ForEachWithIndex (InputDefs node)
                      (record_consumer E st node_index) value_consumers;
  ForEachWithIndex (ImplicitInputDefs node)
    (record_consumer E st node_index) value_consumers.

(** Step 1: the consumer list of each value; every stream is walked from
    its back.  [Initialize] sized the allocation plan with the number of
    values that sizes [value_consumers] here. *)
Definition collect_consumers (E : PlannerEnv) (st : PlannerState)
    : Result (list (list NodeIndex)) :=
  let num_ml_values := length (allocation_plan st) in
  foldR (λ value_consumers stream,
           foldR (record_node_consumers E st) (rev stream) value_consumers)
        (stream_nodes_ E) (replicate num_ml_values []).

(** [process_consumer] of step 2. *)
Definition process_consumer (release_action_idx : nat) (plan : ReleasePlan)
    (node_index : NodeIndex) : Result ReleasePlan :=
  action ← unchecked (release_actions plan !! release_action_idx);
  list ← unchecked (node_release_list plan !! N.to_nat node_index);
  mret (mkReleasePlan
          (<[release_action_idx :=
               mkReleaseAction (value_index action) (S (ref_count action))]>
             (release_actions plan))
          (<[N.to_nat node_index := list ++ [release_action_idx]]>
             (node_release_list plan))).

Definition stream_of (E : PlannerEnv) (node_index : NodeIndex) : Result N :=
  unchecked (node_stream_map_ E !! N.to_nat node_index).

(** The loop [for (size_t j = 1; ...)] with its [break]. *)
Fixpoint is_all_consumer_same_stream (E : PlannerEnv) (stream_idx : N)
    (others : list NodeIndex) : Result bool :=
  match others with
  | [] => mret true
  | node_index :: rest =>
      s ← stream_of E node_index;
      if negb (bool_decide (s = stream_idx)) then mret false
      else is_all_consumer_same_stream E stream_idx rest
  end.

(** The body of the loop over the values in step 2. *)
Definition release_value (E : PlannerEnv) (value_consumers : list (list NodeIndex))
    (plan : ReleasePlan) (i : nat) : Result ReleasePlan :=
  match value_consumers !! i with
  | Some (first :: others) =>
      let plan := mkReleasePlan (release_actions plan ++ [mkReleaseAction i 0])
                                (node_release_list plan) in
      let release_action_idx := (length (release_actions plan) - 1)%nat in
      stream_idx ← stream_of E first;
      same ← is_all_consumer_same_stream E stream_idx others;
      if same : bool then
        (* the first element is the last consumer in the stream *)
        process_consumer release_action_idx plan first
      else
        (* add all the consumers, the ref count decides at run time *)
        foldR (process_consumer release_action_idx) (first :: others) plan
  | _ => mret plan
  end.

Definition build_release_actions (E : PlannerEnv)
    (value_consumers : list (list NodeIndex)) : Result ReleasePlan :=
  let node_release_list :=
    replicate (N.to_nat (MaxNodeIndex (graph_viewer_ E) + 1)) [] in
  foldR (release_value E value_consumers) (seq 0 (length value_consumers))
        (mkReleasePlan [] node_release_list).

Definition GenerateDeallocationPlan (E : PlannerEnv) (st : PlannerState)
    : Result ReleasePlan :=
  value_consumers ← collect_consumers E st;
  build_release_actions E value_consumers.

(** *** The consumers in the words of the specification *)

(** The root buffer an input is recorded for, if any. *)
Definition consumed_root (E : PlannerEnv) (st : PlannerState) (input : NodeArg)
    : option OrtValueIndex :=
  value_idx ← arg_value E input;
  info ← at_index (ort_value_info_ st) value_idx;
  let origin := reused_buffer_index info in
  plan ← at_index (allocation_plan st) origin;
  if bool_decide (alloc_kind plan = kAllocate) then Some origin else None.

(** The consumers of root buffer [i], one entry per consuming input, in
    the order of the reverse walk of the streams. *)
Definition consumers_of (E : PlannerEnv) (st : PlannerState) (i : nat)
    : list NodeIndex :=
  stream ← stream_nodes_ E;
  node_index ← rev stream;
  input ← of_node E (λ node, InputDefs node ++ ImplicitInputDefs node) node_index;
  if bool_decide (consumed_root E st input = Some (Z.of_nat i)) then [node_index] else [].

(** All the consumers are on the stream of the first one. *)
Definition on_one_stream (E : PlannerEnv) (consumers : list NodeIndex) : Prop :=
  ∀ first n, head consumers = Some first → n ∈ consumers →
             node_stream_map_ E !! N.to_nat n = node_stream_map_ E !! N.to_nat first.

(** Number of occurrences of [x] in [l]. *)
Definition occ {A} `{EqDecision A} (x : A) (l : list A) : nat :=
  length (filter (λ y, y = x) l).

(** How many times release action [k] is attached to node [n]. *)
Definition attached (plan : ReleasePlan) (k : nat) (n : NodeIndex) : nat :=
  occ k (default [] (node_release_list plan !! N.to_nat n)).

(** How many times release action [k] is attached over all nodes: the
    decrements the runtime performs on it. *)
Definition scheduled_decrements (plan : ReleasePlan) (k : nat) : nat :=
  occ k (concat (node_release_list plan)).

(** Attaching release action [k] to the nodes [cs], one after the other,
    takes [plan] to [plan']. *)
Definition attach_effect (k : nat) (cs : list NodeIndex)
    (plan plan' : ReleasePlan) : Prop :=
  (k < length (release_actions plan))%nat ∧
  length (release_actions plan') = length (release_actions plan) ∧
  (∀ k', release_actions plan' !! k' =
         if decide (k' = k)
         then (λ a, mkReleaseAction (value_index a) (ref_count a + length cs))
                <$> release_actions plan !! k
         else release_actions plan !! k') ∧
  (∀ k' n, attached plan' k' n =
           (attached plan k' n + if decide (k' = k) then occ n cs else 0)%nat) ∧
  (∀ k', scheduled_decrements plan' k' =
         (scheduled_decrements plan k' + if decide (k' = k) then length cs else 0)%nat) ∧
  (∀ x, x ∈ concat (node_release_list plan') →
        x = k ∨ x ∈ concat (node_release_list plan)).

(** What the release plan satisfies once the values [processed] are
    done. *)
Definition release_inv (E : PlannerEnv) (value_consumers : list (list NodeIndex))
    (processed : list nat) (plan : ReleasePlan) : Prop :=
  map value_index (release_actions plan) =
    filter (λ i, default [] (value_consumers !! i) ≠ []) processed ∧
  (∀ x, x ∈ concat (node_release_list plan) → (x < length (release_actions plan))%nat) ∧
  (∀ k action cs,
     release_actions plan !! k = Some action →
     value_consumers !! value_index action = Some cs →
     (on_one_stream E cs →
        ref_count action = 1%nat ∧
        ∀ n, attached plan k n = if bool_decide (head cs = Some n) then 1%nat else 0%nat) ∧
     (¬ on_one_stream E cs →
        ref_count action = length cs ∧ ∀ n, attached plan k n = occ n cs)) ∧
  (∀ k action, release_actions plan !! k = Some action →
               scheduled_decrements plan k = ref_count action).

(** Every step of the loop [body] appends, to the consumer list of each
    value [i], the nodes [f x i]. *)
Definition appends {A} (f : A → nat → list NodeIndex)
    (body : list (list NodeIndex) → A → Result (list (list NodeIndex))) : Prop :=
  ∀ vc x vc', body vc x = Ok vc' →
    length vc' = length vc ∧
    ∀ i, vc' !! i = (λ l, l ++ f x i) <$> vc !! i.

(** ** The partitioner ([DummyPartitioner], [INodePartitioner]) *)

(** [INodePartitioner::Split]: the loop [while (getline(ss, column,
    splitor))].  [getline] fails only when it reaches the end without
    having read a character, so a trailing separator does not produce a
    last empty column. *)
Fixpoint Split_columns (splitor : ascii) (column : string) (extracted : bool)
    (line : string) : list string :=
  match line with
  | EmptyString => if extracted then [column] else []
  | String c rest =>
      if bool_decide (c = splitor)
      then column :: Split_columns splitor EmptyString false rest
      else Split_columns splitor (column +:+ String c EmptyString) true rest
  end.

Definition Split (line : string) (splitor : ascii) : list string :=
  Split_columns splitor EmptyString false line.

(** [atoi]: optional white space, an optional sign, then decimal digits up
    to the first character that is not one; [0] when there is no digit.
    The result is the value of the numeral.  The [atoi] of the source
    returns an [int]: that is this value for a numeral within [int]; for
    a numeral outside of [int] the C library leaves the result undefined
    (its usual implementation returns the low 32 bits of the numeral read
    as a [long]), and there this definition differs from the program. *)
Definition is_space (c : ascii) : bool :=
  let n := nat_of_ascii c in
  bool_decide (n = 32%nat) || (bool_decide (9 ≤ n)%nat && bool_decide (n ≤ 13)%nat).

Definition digit_of (c : ascii) : option Z :=
  let n := nat_of_ascii c in
  if bool_decide (48 ≤ n)%nat && bool_decide (n ≤ 57)%nat
  then Some (Z.of_nat n - 48) else None.

Fixpoint atoi_digits (acc : Z) (s : string) : Z :=
  match s with
  | EmptyString => acc
  | String c rest =>
      match digit_of c with
      | Some d => atoi_digits (10 * acc + d) rest
      | None => acc
      end
  end.

Definition atoi_signed (s : string) : Z :=
  match s with
  | String "-"%char rest => - atoi_digits 0 rest
  | String "+"%char rest => atoi_digits 0 rest
  | _ => atoi_digits 0 s
  end.

Fixpoint atoi (s : string) : Z :=
  match s with
  | EmptyString => 0
  | String c rest => if is_space c then atoi rest else atoi_signed s
  end.

Inductive Status :=
| StatusOK
| StatusFAIL (msg : string).

Definition IsOK (s : Status) : bool :=
  match s with StatusOK => true | StatusFAIL _ => false end.

Record DummyPartitioner := mkDummyPartitioner {
  status_ : Status;
  num_streams_ : Z;
  max_streams_ : gmap string Z;
  node_names_by_stream_ : list (list string);
  need_dump_ : bool;
}.

Definition DummyPartitioner_name : string := "DummyPartition".

(** [EXIT_ON_ERR(err)]: record the failure and return what has been read
    so far. *)
Definition EXIT_ON_ERR (p : DummyPartitioner) (err : string) : DummyPartitioner :=
  mkDummyPartitioner (StatusFAIL err) (num_streams_ p) (max_streams_ p)
                     (node_names_by_stream_ p) (need_dump_ p).

(** The loop [while (getline(if_stream, line))] over the lines of node
    names, followed by the check of their number. *)
Fixpoint Initialize_names (p : DummyPartitioner) (lines : list string)
    : DummyPartitioner :=
  match lines with
  | [] =>
      (* (size_t)num_streams_ *)
      if negb (bool_decide (Z.of_nat (length (node_names_by_stream_ p))
                            = num_streams_ p `mod` 2 ^ 64))
      then EXIT_ON_ERR p "invalid configuration - the total number of line of streams mismatch with the sum of execution provider stream setting"
      else p
  | line :: rest =>
      let names := Split line ","%char in
      let p := mkDummyPartitioner (status_ p) (num_streams_ p) (max_streams_ p)
                 (node_names_by_stream_ p ++ [names]) (need_dump_ p) in
      if bool_decide (names = [])
      then EXIT_ON_ERR p "invalid configuration - the line of node names is empty"
      else Initialize_names p rest
  end.

(** The loop [for (int i = 0; i < eps; ++i)] over the provider lines;
    [remaining] counts the iterations still to run. *)
Fixpoint Initialize_providers (p : DummyPartitioner) (remaining : nat)
    (lines : list string) : DummyPartitioner :=
  match remaining with
  | O => Initialize_names p lines
  | S remaining =>
      match lines with
      | [] =>
          EXIT_ON_ERR p "invalid configuration - failed to read execution provider stream setting"
      | line :: rest =>
          match Split line ":"%char with
          | [name; count] =>
              let num_current_stream := atoi count in
              let p := mkDummyPartitioner (status_ p)
                         (num_streams_ p + num_current_stream)
                         (<[name := num_current_stream]> (max_streams_ p))
                         (node_names_by_stream_ p) (need_dump_ p) in
              Initialize_providers p remaining rest
          | _ =>
              EXIT_ON_ERR p "invalid configuration - failed to read execution provider stream setting"
          end
      end
  end.

(** [DummyPartitioner::Initialize].  [file] is what opening
    [configuration_file_] gives: [None] when it cannot be opened, the
    lines of the file otherwise. *)
Definition Initialize (configuration_file_ : string) (file : option (list string))
    : DummyPartitioner :=
  let p := mkDummyPartitioner StatusOK 0 ∅ [] false in
  if bool_decide (configuration_file_ = EmptyString) then p
  else
    match file with
    | None => p
    | Some [] =>
        EXIT_ON_ERR p "configuration file should start with a line of partition name"
    | Some (line :: rest) =>
        if negb (bool_decide (line = DummyPartitioner_name))
        then EXIT_ON_ERR p "configuration file should start with a line of partition name"
        else
          match rest with
          | [] => mkDummyPartitioner StatusOK 0 ∅ [] true
          | line :: rest =>
              match Split line ":"%char with
              | [key; count] =>
                  if negb (bool_decide (key = "ExecutionProviders"))
                  then EXIT_ON_ERR p "2nd line of configuration file should be of format: ExecutionProviders,<an integer>"
                  else
                    let eps := atoi count in
                    if bool_decide (eps ≤ 0)
                    then EXIT_ON_ERR p "2nd line, the number of ExecutionProviders must be a positive value"
                    else Initialize_providers p (Z.to_nat eps) rest
              | _ =>
                  EXIT_ON_ERR p "2nd line of configuration file should be of format: ExecutionProviders,<an integer>"
              end
          end
    end.

(** [INodePartitioner::CreateNodePartitioner]: the name on the first line
    selects the partitioner; a file that cannot be opened is created with
    the name of the default partitioner, which is enforced to succeed
    ([is_open]: the file can be opened for writing).  The result carries
    the file as it is afterwards. *)
Definition CreateNodePartitioner (configuration_file : string)
    (file : option (list string)) (is_open : bool)
    : Result (DummyPartitioner * option (list string)) :=
  if negb (bool_decide (configuration_file = EmptyString)) then
    match file with
    | Some lines =>
        let partitioner_name := default EmptyString (head lines) in
        _ ← ORT_ENFORCE (bool_decide (partitioner_name = "DummyPartition"));
        mret (Initialize configuration_file file, file)
    | None =>
        (* create and initialize the configure file if not already there *)
        _ ← ORT_ENFORCE is_open;
        let file := Some ["DummyPartition"] in
        mret (Initialize configuration_file file, file)
    end
  else mret (Initialize configuration_file file, file).

(** The part of [PartitionIntoStreams] that can fail: the partitioner is
    created and its status is enforced; [PartitionNodes] runs after it. *)
Definition PartitionIntoStreams_partitioner (partition_config_file : string)
    (file : option (list string)) (is_open : bool) : Result DummyPartitioner :=
  created ← CreateNodePartitioner partition_config_file file is_open;
  let partitioner := created.1 in
  _ ← ORT_ENFORCE (IsOK (status_ partitioner));
  mret partitioner.

(** *** Malformed configuration files, in the words of the specification *)

(** The provider lines of a configuration: the [n] lines after the
    second. *)
Definition provider_lines (n : nat) (lines : list string) : list string :=
  take n (drop 2 lines).

(** A per-provider stream count that is not positive. *)
Definition has_nonpositive_stream_count (n : nat) (lines : list string) : Prop :=
  ∃ line name count,
    line ∈ provider_lines n lines ∧ Split line ":"%char = [name; count] ∧ atoi count ≤ 0.

(** A configuration with a per-provider stream count that is not positive:
    provider [CpuExecutionProvider] is given [-1] streams. *)
Definition negative_stream_count_config : list string :=
  ["DummyPartition";
   "ExecutionProviders:2";
   "CpuExecutionProvider:-1";
   "GpuExecutionProvider:2";
   "node_a,node_b"].

(** ** [BuildExecutionPlan] *)

Inductive ExecutionStep :=
| BarrierStep (barrier_id : nat)
| WaitOnEPStep (wait_handle : N) (notification_idx : nat)
| LaunchKernelStep (node_index : NodeIndex)
| ActivateNotificationStep (notification_idx : nat)
| TriggerDownstreamStep (notification_idx : nat).

#[global] Instance ExecutionStep_eq_dec : EqDecision ExecutionStep.
Proof. solve_decision. Defined.

(** A logic stream of the plan; the execution provider is known by its
    type name, [None] is the null pointer. *)
Record LogicStream := mkLogicStream {
  steps_ : list ExecutionStep;
  ep_ : option string;
}.

(** What [BuildExecutionPlan] reads besides the planner itself: the
    registered execution providers, and the wait handles of the stream
    command registry, by producer and consumer provider type. *)
Record BuildInputs := mkBuildInputs {
  registered_providers : list string;
  GetWaitHandle : string → string → option N;
}.

(** [ExecutionProviders::Get(provider_type)] *)
Definition Get_provider (B : BuildInputs) (provider_type : string) : option string :=
  if bool_decide (provider_type ∈ registered_providers B) then Some provider_type
  else None.

(** The parts of the plan and of the planner that [BuildExecutionPlan]
    writes. *)
Record BuildState := mkBuildState {
  execution_plan : list LogicStream;
  notification_owners : list nat;
  num_barriers : nat;
  downstream_map : gmap nat (list (nat * Z));
  dependence_graph_ : gmap NodeIndex (gset NodeIndex);
  value_to_stream_map : gmap OrtValueIndex N;
  value_node_map_ : gmap OrtValueIndex NodeIndex;
}.

(** [std::find(stream.begin(), stream.end(), n) != stream.end()] *)
Definition in_stream (stream : list NodeIndex) (n : NodeIndex) : bool :=
  bool_decide (n ∈ stream).

(** Step 2: a notification for every node with a consumer on another
    stream. *)
Definition assign_notification (E : PlannerEnv) (stream : list NodeIndex)
    (acc : gmap NodeIndex nat * nat) (node_index : NodeIndex)
    : Result (gmap NodeIndex nat * nat) :=
  node ← unchecked (GetNode (graph_viewer_ E) node_index);
  if existsb (λ it, negb (in_stream stream it)) (OutputNodes node)
  then mret (<[node_index := acc.2]> acc.1, S acc.2)
  else mret acc.

Definition assign_notifications (E : PlannerEnv)
    : Result (gmap NodeIndex nat * nat) :=
  foldR (λ acc stream, foldR (assign_notification E stream) stream acc)
        (stream_nodes_ E) (∅, 0%nat).

(** Step 3: the execution provider of each logic stream. *)
Definition set_stream_provider (E : PlannerEnv) (B : BuildInputs)
    (plan : list LogicStream) (node_index : NodeIndex) : Result (list LogicStream) :=
  node ← unchecked (GetNode (graph_viewer_ E) node_index);
  let ep := Get_provider B (GetExecutionProviderType node) in
  s ← stream_of E node_index;
  stream ← unchecked (plan !! N.to_nat s);
  match ep_ stream with
  | Some current =>
      _ ← ORT_ENFORCE (bool_decide (Some current = ep));
      mret plan
  | None => mret (<[N.to_nat s := mkLogicStream (steps_ stream) ep]> plan)
  end.

(** Step 4: the stream that owns each notification. *)
Definition set_notification_owner (E : PlannerEnv)
    (node_to_notification : gmap NodeIndex nat) (owners : list nat)
    (node_index : NodeIndex) : Result (list nat) :=
  match node_to_notification !! node_index with
  | Some notification =>
      (* notification owned by the node who produced it. *)
      s ← stream_of E node_index;
      _ ← unchecked (owners !! notification);
      mret (<[notification := N.to_nat s]> owners)
  | None => mret owners
  end.

(** [execution_plan[i]->steps_.emplace_back(step)] *)
Definition push_step (i : nat) (step : ExecutionStep) (st : BuildState)
    : Result BuildState :=
  stream ← unchecked (execution_plan st !! i);
  mret (mkBuildState
          (<[i := mkLogicStream (steps_ stream ++ [step]) (ep_ stream)]>
             (execution_plan st))
          (notification_owners st) (num_barriers st) (downstream_map st)
          (dependence_graph_ st) (value_to_stream_map st) (value_node_map_ st)).

(** [dependence_graph_[downstream].insert(upstream)] *)
Definition add_dependence (downstream upstream : NodeIndex) (st : BuildState)
    : BuildState :=
  mkBuildState (execution_plan st) (notification_owners st) (num_barriers st)
    (downstream_map st)
    (<[downstream := {[upstream]} ∪ default ∅ (dependence_graph_ st !! downstream)]>
       (dependence_graph_ st))
    (value_to_stream_map st) (value_node_map_ st).

(** The barrier and the [(stream, step)] entry of the downstream map:
    [plan_.num_barriers++] and [plan_.downstream_map[n].push_back(...)]. *)
Definition register_barrier (i : nat) (notification_index : nat) (offset : nat)
    (st : BuildState) : BuildState :=
  mkBuildState (execution_plan st) (notification_owners st) (S (num_barriers st))
    (<[notification_index :=
         default [] (downstream_map st !! notification_index)
         ++ [(i, Z.of_nat offset)]]> (downstream_map st))
    (dependence_graph_ st) (value_to_stream_map st) (value_node_map_ st).

(** The body of the loop over the producers of a node in step 5: a
    producer on another stream gets a barrier and, when a wait handle is
    registered for the two providers, a wait. *)
Definition emit_wait (E : PlannerEnv) (B : BuildInputs)
    (node_to_notification : gmap NodeIndex nat) (i : nat)
    (stream : list NodeIndex) (node : Node) (st : BuildState) (it : NodeIndex)
    : Result BuildState :=
  if negb (in_stream stream it) then
    (* find the notification id *)
    notification_index ← checked (node_to_notification !! it);
    (* push a barrier *)
    let barrier_id := num_barriers st in
    current ← unchecked (execution_plan st !! i);
    let st := register_barrier i notification_index (length (steps_ current)) st in
    st ← push_step i (BarrierStep barrier_id) st;
    (* push a wait command if has EP registered it. *)
    owner ← unchecked (notification_owners st !! notification_index);
    owner_stream ← unchecked (execution_plan st !! owner);
    owner_ep ← unchecked (ep_ owner_stream);
    match GetWaitHandle B owner_ep (GetExecutionProviderType node) with
    | Some wait_handle =>
        push_step i (WaitOnEPStep wait_handle notification_index) st
    | None => mret st
    end
  else mret st.

(** The body of the loop over the nodes of stream [i] in step 5. *)
Definition emit_node (E : PlannerEnv) (B : BuildInputs)
    (node_to_notification : gmap NodeIndex nat) (i : nat)
    (stream : list NodeIndex) (st : BuildState) (j : nat) (node_index : NodeIndex)
    : Result BuildState :=
  st ← (if bool_decide (0 < j)%nat then
          (* add dependency for current logic stream *)
          previous ← unchecked (stream !! (j - 1)%nat);
          mret (add_dependence node_index previous st)
        else mret st);
  node ← unchecked (GetNode (graph_viewer_ E) node_index);
  st ← foldR (emit_wait E B node_to_notification i stream node) (InputNodes node) st;
  (* add dependency for model graph *)
  let st := foldl (λ st it, add_dependence it node_index st) st (OutputNodes node) in
  (* push launch kernel command *)
  st ← push_step i (LaunchKernelStep node_index) st;
  (* check if any notification generated by this node, if yes, push a activate *)
  match node_to_notification !! node_index with
  | Some notification_index =>
      st ← push_step i (ActivateNotificationStep notification_index) st;
      (* notify downstreams *)
      push_step i (TriggerDownstreamStep notification_index) st
  | None => mret st
  end.

(** The last loop: the stream and the producing node of every value. *)
Definition record_value_node (E : PlannerEnv) (node_index : NodeIndex)
    (st : BuildState) (node_output : NodeArg) : Result BuildState :=
  if negb (Exists node_output) then mret st
  else
    output_idx_global ← checked (ort_value_name_idx_map_ E !! Name node_output);
    s ← stream_of E node_index;
    mret (mkBuildState (execution_plan st) (notification_owners st) (num_barriers st)
            (downstream_map st) (dependence_graph_ st)
            (<[output_idx_global := s]> (value_to_stream_map st))
            (<[output_idx_global := node_index]> (value_node_map_ st))).

Definition BuildExecutionPlan (E : PlannerEnv) (B : BuildInputs) : Result BuildState :=
  let g := graph_viewer_ E in
  let num_logic_streams_ := length (stream_nodes_ E) in
  (* 1. create logic stream instance *)
  let execution_plan := replicate num_logic_streams_ (mkLogicStream [] None) in
  (* 2. for each node, if any of its consumer partitioned to another stream,
        generate a notification *)
  notifications ← assign_notifications E;
  let node_to_notification := notifications.1 in
  let num_notifications := notifications.2 in
  (* 3. Check the nodes in each logical stream, set EP instance *)
  execution_plan ← foldR (λ plan stream, foldR (set_stream_provider E B) stream plan)
                         (stream_nodes_ E) execution_plan;
  (* 4. set notification owners *)
  owners ← foldR (set_notification_owner E node_to_notification)
                 (GetNodesInTopologicalOrder g) (replicate num_notifications 0%nat);
  (* 5. add commands to logic queue *)
  st ← foldR_indexed
         (λ st i stream,
            foldR_indexed (emit_node E B node_to_notification i stream) 0 stream st)
         0 (stream_nodes_ E)
         (mkBuildState execution_plan owners 0 ∅ ∅ ∅ ∅);
  foldR (λ st node_index,
           node ← unchecked (GetNode g node_index);
           foldR (record_value_node E node_index) (OutputDefs node) st)
        (GetNodesInTopologicalOrder g) st.

(** *** What the execution plan promises *)

Definition steps_of (st : BuildState) (i : nat) : list ExecutionStep :=
  default [] (steps_ <$> execution_plan st !! i).

Definition stream_ep (st : BuildState) (i : nat) : option string :=
  execution_plan st !! i ≫= ep_.

Definition downstream_of (st : BuildState) (n : nat) : list (nat * Z) :=
  default [] (downstream_map st !! n).

(** A later state of the builder: the streams and the downstream lists
    only grow at their end, providers and owners stay. *)
Definition extends (st st' : BuildState) : Prop :=
  notification_owners st' = notification_owners st ∧
  (∀ i, stream_ep st' i = stream_ep st i) ∧
  (∀ i, steps_of st i `prefix_of` steps_of st' i) ∧
  (∀ n, downstream_of st n `prefix_of` downstream_of st' n).

(** Stream [i] waits for producer [p] before step [l]: a barrier at some
    step [b < l] that the downstream map lists under the notification of
    [p], followed by the wait when the registry has a handle. *)
Definition synchronised (B : BuildInputs) (node_to_notification : gmap NodeIndex nat)
    (st : BuildState) (i : nat) (consumer_ep : string) (p : NodeIndex) (l : nat)
    : Prop :=
  ∃ n b barrier_id owner owner_ep,
    node_to_notification !! p = Some n ∧
    (b < l)%nat ∧
    steps_of st i !! b = Some (BarrierStep barrier_id) ∧
    (i, Z.of_nat b) ∈ downstream_of st n ∧
    notification_owners st !! n = Some owner ∧
    stream_ep st owner = Some owner_ep ∧
    match GetWaitHandle B owner_ep consumer_ep with
    | Some wait_handle =>
        (S b < l)%nat ∧ steps_of st i !! S b = Some (WaitOnEPStep wait_handle n)
    | None => True
    end.

(** Node [c] is launched at step [l] of stream [i], and its notification,
    if it has one, is activated and triggered right after. *)
Definition launched (node_to_notification : gmap NodeIndex nat) (st : BuildState)
    (i : nat) (c : NodeIndex) (l : nat) : Prop :=
  steps_of st i !! l = Some (LaunchKernelStep c) ∧
  match node_to_notification !! c with
  | Some n =>
      steps_of st i !! S l = Some (ActivateNotificationStep n) ∧
      steps_of st i !! S (S l) = Some (TriggerDownstreamStep n)
  | None => True
  end.

Definition node_emitted (E : PlannerEnv) (B : BuildInputs)
    (node_to_notification : gmap NodeIndex nat) (st : BuildState) (i : nat)
    (stream : list NodeIndex) (c : NodeIndex) : Prop :=
  ∃ node l,
    GetNode (graph_viewer_ E) c = Some node ∧
    launched node_to_notification st i c l ∧
    ∀ p, p ∈ InputNodes node → p ∉ stream →
      synchronised B node_to_notification st i (GetExecutionProviderType node) p l.

(** The provider of a stream is the provider of its nodes: for every
    node of [processed] whose provider is registered, the stream that
    [node_stream_map_] gives it runs on that provider. *)
Definition providers_agree (E : PlannerEnv) (B : BuildInputs)
    (plan : list LogicStream) (processed : list NodeIndex) : Prop :=
  ∀ q node_q s logic_stream t,
    q ∈ processed → GetNode (graph_viewer_ E) q = Some node_q →
    node_stream_map_ E !! N.to_nat q = Some s →
    plan !! N.to_nat s = Some logic_stream →
    Get_provider B (GetExecutionProviderType node_q) = Some t →
    ep_ logic_stream = Some t.

(** The loop of [PartitionIntoStreams] that fills [node_stream_map_],
    after [node_stream_map_.resize(MaxNodeIndex() + 1)]. *)
Definition assign_node_stream (i : nat) (node_stream_map : list N)
    (node_index : NodeIndex) : Result (list N) :=
  _ ← unchecked (node_stream_map !! N.to_nat node_index);
  mret (<[N.to_nat node_index := N.of_nat i]> node_stream_map).

Definition assign_node_streams (stream_nodes : list (list NodeIndex))
    (max_node_index : N) : Result (list N) :=
  foldR_indexed (λ node_stream_map i stream,
                   foldR (assign_node_stream i) stream node_stream_map)
                0 stream_nodes (replicate (N.to_nat max_node_index + 1) 0%N).

(** What [PartitionIntoStreams] leaves behind when the partitioner puts
    every node on one stream: [node_stream_map_] agrees with
    [stream_nodes_], and the nodes of the streams are nodes of the graph
    viewer's order. *)
Definition valid_partition (E : PlannerEnv) : Prop :=
  ∀ i stream node_index,
    stream_nodes_ E !! i = Some stream → node_index ∈ stream →
    node_stream_map_ E !! N.to_nat node_index = Some (N.of_nat i) ∧
    node_index ∈ GetNodesInTopologicalOrder (graph_viewer_ E).

(** The notifications of step 2 name nodes of the streams, below the
    counter, and no two nodes share one. *)
Definition notifications_inv (E : PlannerEnv) (acc : gmap NodeIndex nat * nat)
    : Prop :=
  ∀ p n, acc.1 !! p = Some n →
    (n < acc.2)%nat ∧
    (∃ k stream, stream_nodes_ E !! k = Some stream ∧ p ∈ stream) ∧
    ∀ q, acc.1 !! q = Some n → q = p.

(** ** [OptimizeReusePlanForMultiStream] *)

(** What the optimizer takes from outside this file: the serialized size
    of a shape ([TensorShapeProto::ByteSizeLong]), and the order in which
    a hash set of node indices (or the keys of the hash map
    [dependence_graph_]) is iterated, which the containers leave open. *)
Record OptimizerInputs := mkOptimizerInputs {
  ByteSizeLong : TensorShapeProto → N;
  iteration_order : gset NodeIndex → list NodeIndex;
}.

(** The plan together with the locals of the optimizer.  An entry of the
    waiting list holds a pointer to [dependents_map[node]]; the model
    keeps the node and reads the map when the pointer is followed.  The
    innermost map of the waiting list is ordered by [NodeArg] address. *)
Record OptimizerState := mkOptimizerState {
  planner : PlannerState;
  value_consumer_map_ : gmap OrtValueIndex (gset NodeIndex);
  waiting_list : gmap OrtMemoryInfo (gmap N (list (NodeArg * NodeIndex)));
  dependents_map : gmap NodeIndex (gset NodeIndex);
  input_output_map : gmap OrtValueIndex (gset OrtValueIndex);
  reused : gset OrtValueIndex;
}.

(** [allocation_plan[idx]], not bounds-checked. *)
Definition plan_at (st : OptimizerState) (idx : OrtValueIndex)
    : Result AllocPlanPerValue :=
  unchecked (at_index (allocation_plan (planner st)) idx).

Definition value_consumers (st : OptimizerState) (v : OrtValueIndex) : gset NodeIndex :=
  default ∅ (value_consumer_map_ st !! v).

Definition outputs_of_input (st : OptimizerState) (v : OrtValueIndex)
    : gset OrtValueIndex :=
  default ∅ (input_output_map st !! v).

(** [alloc_kind = kReuse; reused_buffer = target] on the entry of [value]. *)
Definition set_reuse (st : OptimizerState) (value target : OrtValueIndex)
    : Result OptimizerState :=
  entry ← plan_at st value;
  mret (mkOptimizerState
          (mkPlannerState (ort_value_info_ (planner st))
             (<[Z.to_nat value := mkAllocPlan kReuse target (location entry)]>
                (allocation_plan (planner st)))
             (freelist_ (planner st)))
          (value_consumer_map_ st) (waiting_list st) (dependents_map st)
          (input_output_map st) (reused st)).

Definition add_consumers (st : OptimizerState) (v : OrtValueIndex)
    (nodes : gset NodeIndex) : OptimizerState :=
  mkOptimizerState (planner st)
    (<[v := value_consumers st v ∪ nodes]> (value_consumer_map_ st))
    (waiting_list st) (dependents_map st) (input_output_map st) (reused st).

Definition mark_reused (st : OptimizerState) (v : OrtValueIndex) : OptimizerState :=
  mkOptimizerState (planner st) (value_consumer_map_ st) (waiting_list st)
    (dependents_map st) (input_output_map st) ({[v]} ∪ reused st).

(** The four statements that every branch of [TryReuseInput] runs when it
    reuses an input. *)
Definition reuse_input (st : OptimizerState) (reusable_input output_idx_global : OrtValueIndex)
    : Result OptimizerState :=
  st ← set_reuse st output_idx_global reusable_input;
  let st := add_consumers st reusable_input (value_consumers st output_idx_global) in
  mret (mark_reused st reusable_input).

(** [input_output_map[input_idx_global].insert(output_idx_global)] for the
    inputs that have an index. *)
Definition record_input_output (E : PlannerEnv) (output_idx_global : OrtValueIndex)
    (st : OptimizerState) (input_arg : NodeArg) : OptimizerState :=
  match ort_value_name_idx_map_ E !! Name input_arg with
  | Some input_idx_global =>
      mkOptimizerState (planner st) (value_consumer_map_ st) (waiting_list st)
        (dependents_map st)
        (<[input_idx_global := {[output_idx_global]} ∪ outputs_of_input st input_idx_global]>
           (input_output_map st))
        (reused st)
  | None => st
  end.

(** The candidate of an alias or in-place pair: the input exists, has an
    index, and its entry is still [kAllocate]. *)
Definition allocated_input (E : PlannerEnv) (st : OptimizerState)
    (p_input_arg : NodeArg) : Result (option OrtValueIndex) :=
  if Exists p_input_arg then
    match ort_value_name_idx_map_ E !! Name p_input_arg with
    | Some reusable_input =>
        entry ← plan_at st reusable_input;
        if bool_decide (alloc_kind entry = kAllocate) then mret (Some reusable_input)
        else mret None
    | None => mret None
    end
  else mret None.

(** The loop over the alias map, with its [break]; the flag is
    [found_reusable]. *)
Fixpoint TryReuseInput_alias (E : PlannerEnv) (input_args : list NodeArg)
    (output_arg_num : nat) (output_idx_global : OrtValueIndex)
    (alias_map : list (Z * Z)) (st : OptimizerState) : Result (bool * OptimizerState) :=
  match alias_map with
  | [] => mret (false, st)
  | entry :: rest =>
      let next :=
        TryReuseInput_alias E input_args output_arg_num output_idx_global rest st in
      match paired_input input_args (Z.of_nat output_arg_num) entry with
      | Some p_input_arg =>
          candidate ← allocated_input E st p_input_arg;
          match candidate with
          | Some reusable_input =>
              st ← reuse_input st reusable_input output_idx_global;
              mret (true, st)
          | None => next
          end
      | None => next
      end
  end.

(** The variadic alias; [alias_input_index] is a [size_t]. *)
Definition TryReuseInput_variadic (E : PlannerEnv) (input_args : list NodeArg)
    (output_arg_num : nat) (output_idx_global : OrtValueIndex)
    (variadic_alias_offsets : option (Z * Z)) (st : OptimizerState)
    : Result (bool * OptimizerState) :=
  match variadic_alias_offsets with
  | Some (input_offset, output_offset) =>
      let alias_input_index :=
        (Z.of_nat output_arg_num - output_offset + input_offset) `mod` 2 ^ 64 in
      match at_index input_args alias_input_index with
      | Some p_input_arg =>
          candidate ← allocated_input E st p_input_arg;
          match candidate with
          | Some reusable_input =>
              st ← reuse_input st reusable_input output_idx_global;
              mret (true, st)
          | None => mret (false, st)
          end
      | None => mret (false, st)
      end
  | None => mret (false, st)
  end.

(** The body of the loop over the may-inplace map; this loop has no
    [break]. *)
Definition TryReuseInput_inplace (E : PlannerEnv) (input_args : list NodeArg)
    (p_output_arg : NodeArg) (output_arg_num : nat) (output_idx_global : OrtValueIndex)
    (st : OptimizerState) (entry : Z * Z) : Result OptimizerState :=
  match paired_input input_args (Z.of_nat output_arg_num) entry with
  | Some p_input_arg =>
      candidate ← allocated_input E st p_input_arg;
      match candidate with
      | Some input_arg_index =>
          if bool_decide (size (value_consumers st input_arg_index) = 1%nat) then
            same ← SameSizeArgs (context_ E) p_input_arg p_output_arg;
            if same : bool then reuse_input st input_arg_index output_idx_global
            else mret st
          else mret st
      | None => mret st
      end
  | None => mret st
  end.

(** The body of the loop of [TryReuseInput] over the outputs of a node. *)
Definition TryReuseInput_output (E : PlannerEnv) (node_index : NodeIndex) (node : Node)
    (st : OptimizerState) (output_arg_num : nat) (p_output_arg : NodeArg)
    : Result OptimizerState :=
  match ort_value_name_idx_map_ E !! Name p_output_arg with
  | None => mret st
  | Some output_idx_global =>
      entry ← plan_at st output_idx_global;
      if negb (bool_decide (alloc_kind entry = kAllocate)) then mret st
      else
        match kernel_create_info_map_ E !! node_index with
        | None => mret st
        | Some ci =>
            match kernel_def ci with
            | None => mret st
            | Some kd =>
                let input_args := InputDefs node in
                let st := foldl (record_input_output E output_idx_global) st input_args in
                '(found_reusable, st) ← TryReuseInput_alias E input_args output_arg_num
                                          output_idx_global (Alias kd) st;
                if found_reusable : bool then mret st
                else
                  '(found_reusable, st) ← TryReuseInput_variadic E input_args
                                            output_arg_num output_idx_global
                                            (VariadicAlias kd) st;
                  if found_reusable : bool then mret st
                  else
                    foldR (TryReuseInput_inplace E input_args p_output_arg output_arg_num
                             output_idx_global)
                          (MayInplace kd) st
            end
        end
  end.

Definition TryReuseInput (E : PlannerEnv) (node_index : NodeIndex)
    (st : OptimizerState) : Result OptimizerState :=
  node ← unchecked (GetNode (graph_viewer_ E) node_index);
  foldR_indexed (TryReuseInput_output E node_index node) 0 (OutputDefs node) st.

(** [dependence_graph_[n]] *)
Definition upstream_of (graph : gmap NodeIndex (gset NodeIndex)) (n : NodeIndex)
    : gset NodeIndex :=
  default ∅ (graph !! n).

(** The recursive lambda [dfs] of [fetch_all_dependents]. *)
Fixpoint dfs (fuel : nat) (opt : OptimizerInputs) (graph : gmap NodeIndex (gset NodeIndex))
    (dependents : gset NodeIndex) (curr : NodeIndex) : Result (gset NodeIndex) :=
  match fuel with
  | 0%nat => Throw OutOfFuel
  | S fuel =>
      if bool_decide (curr ∈ dependents) then mret dependents
      else foldR (dfs fuel opt graph) (iteration_order opt (upstream_of graph curr))
                 ({[curr]} ∪ dependents)
  end.

(** All nodes that the dependence graph mentions. *)
Definition graph_nodes_of (graph : gmap NodeIndex (gset NodeIndex)) : gset NodeIndex :=
  dom graph ∪ map_fold (λ _ ups acc, ups ∪ acc) ∅ graph.

(** [fetch_all_dependents]; the recursion is as deep as a path of
    distinct nodes, which bounds the fuel. *)
Definition fetch_all_dependents (opt : OptimizerInputs)
    (graph : gmap NodeIndex (gset NodeIndex)) (node_index : NodeIndex)
    : Result (gset NodeIndex) :=
  dfs (2 + size (graph_nodes_of graph)) opt graph ∅ node_index.

Definition waiting_at (st : OptimizerState) (location : OrtMemoryInfo)
    (size_in_bytes : N) : option (list (NodeArg * NodeIndex)) :=
  waiting_list st !! location ≫= λ by_size, by_size !! size_in_bytes.

Definition set_waiting (st : OptimizerState) (location : OrtMemoryInfo)
    (size_in_bytes : N) (entries : option (list (NodeArg * NodeIndex)))
    : OptimizerState :=
  let by_size := default ∅ (waiting_list st !! location) in
  mkOptimizerState (planner st) (value_consumer_map_ st)
    (<[location := match entries with
                   | Some l => <[size_in_bytes := l]> by_size
                   | None => delete size_in_bytes by_size
                   end]> (waiting_list st))
    (dependents_map st) (input_output_map st) (reused st).

(** [m[arg] = deps] on a map ordered by the address of [arg]. *)
Fixpoint insert_by_address (arg : NodeArg) (owner : NodeIndex)
    (l : list (NodeArg * NodeIndex)) : list (NodeArg * NodeIndex) :=
  match l with
  | [] => [(arg, owner)]
  | entry :: rest =>
      if (arg_addr arg <? arg_addr entry.1)%N then (arg, owner) :: l
      else if (arg_addr arg =? arg_addr entry.1)%N then (arg, owner) :: rest
      else entry :: insert_by_address arg owner rest
  end.

(** [waiting_list[location][size_in_bytes][node_output] = &dependents_map[node_index]] *)
Definition wait_for_reuse (st : OptimizerState) (location : OrtMemoryInfo)
    (size_in_bytes : N) (node_output : NodeArg) (node_index : NodeIndex)
    : OptimizerState :=
  set_waiting st location size_in_bytes
    (Some (insert_by_address node_output node_index
             (default [] (waiting_at st location size_in_bytes)))).

(** The loop of [TryReuseOutput] over the waiting values of one location
    and size.  It returns the entry that took the buffer, if one did. *)
Fixpoint offer_to_waiting (E : PlannerEnv) (value_node_map : gmap OrtValueIndex NodeIndex)
    (node_index : NodeIndex) (node_output : NodeArg) (shape : TensorShapeProto)
    (output_idx_global : OrtValueIndex) (entries : list (NodeArg * NodeIndex))
    (st : OptimizerState) : Result (option NodeArg * OptimizerState) :=
  match entries with
  | [] => mret (None, st)
  | (downstream_arg, owner) :: rest =>
      let next := offer_to_waiting E value_node_map node_index node_output shape
                    output_idx_global rest st in
      match ort_value_name_idx_map_ E !! Name downstream_arg with
      | None => next
      | Some downstream_value =>
          (* skip if it is a pair of input and output *)
          if bool_decide (downstream_value ∈ outputs_of_input st output_idx_global)
          then next
          else
            downstream_shape ← unchecked (GetShape (context_ E) downstream_arg);
            same ← SameSize downstream_shape downstream_arg shape node_output;
            if negb same then next
            else
              let deps := default ∅ (dependents_map st !! owner) in
              if negb (bool_decide (node_index ∈ deps)) then next
              else
                let all_covered :=
                  bool_decide (set_Forall (λ consumer, consumer ∈ deps)
                                 (value_consumers st output_idx_global)) in
                if all_covered then
                  st ← set_reuse st downstream_value output_idx_global;
                  (* add new consumer for the value to be reused *)
                  let st := add_consumers st output_idx_global
                              {[default 0%N (value_node_map !! downstream_value)]} in
                  let st := add_consumers st output_idx_global
                              (value_consumers st downstream_value) in
                  mret (Some downstream_arg, st)
                else
                  (* dependents not fully covered, cannot reuse, try next one *)
                  next
      end
  end.

(** The body of the loop of [TryReuseOutput] over the outputs of a node. *)
Definition TryReuseOutput_output (E : PlannerEnv) (opt : OptimizerInputs)
    (value_node_map : gmap OrtValueIndex NodeIndex) (node_index : NodeIndex)
    (st : OptimizerState) (node_output : NodeArg) : Result OptimizerState :=
  if negb (Exists node_output) then mret st
  else
    match ort_value_name_idx_map_ E !! Name node_output with
    | None => mret st
    | Some output_idx_global =>
        skip ← (if bool_decide (output_idx_global ∈ reused st) then mret true
                else entry ← plan_at st output_idx_global;
                     mret (negb (bool_decide (alloc_kind entry = kAllocate))));
        if skip : bool then mret st (* skip when it is already reused *)
        else
          match GetShape (context_ E) node_output with
          | None => mret st
          | Some shape =>
              let size_in_bytes := ByteSizeLong opt shape in
              entry ← plan_at st output_idx_global;
              let location := location entry in
              match waiting_at st location size_in_bytes with
              | None =>
                  mret (wait_for_reuse st location size_in_bytes node_output node_index)
              | Some entries =>
                  '(get_reused, st) ← offer_to_waiting E value_node_map node_index
                                        node_output shape output_idx_global entries st;
                  match get_reused with
                  | Some taken =>
                      let remaining :=
                        filter (λ e, arg_addr e.1 ≠ arg_addr taken) entries in
                      let st := set_waiting st location size_in_bytes
                                  (if bool_decide (remaining = []) then None
                                   else Some remaining) in
                      mret (mark_reused st output_idx_global)
                  | None =>
                      (* if not getting reused, add to waiting *)
                      mret (wait_for_reuse st location size_in_bytes
                              node_output node_index)
                  end
              end
          end
    end.

(** Go over the outputs of [node_index] and try to reuse its memory. *)
Definition TryReuseOutput (E : PlannerEnv) (opt : OptimizerInputs)
    (graph : gmap NodeIndex (gset NodeIndex))
    (value_node_map : gmap OrtValueIndex NodeIndex) (node_index : NodeIndex)
    (st : OptimizerState) : Result OptimizerState :=
  deps ← fetch_all_dependents opt graph node_index;
  let st := mkOptimizerState (planner st) (value_consumer_map_ st) (waiting_list st)
              (<[node_index := deps]> (dependents_map st)) (input_output_map st)
              (reused st) in
  node ← unchecked (GetNode (graph_viewer_ E) node_index);
  foldR (TryReuseOutput_output E opt value_node_map node_index) (OutputDefs node) st.

(** [dependents[node]]: how many nodes depend on [node] directly. *)
Definition count_dependents (opt : OptimizerInputs)
    (graph : gmap NodeIndex (gset NodeIndex)) : gmap NodeIndex Z :=
  foldl (λ dependents downstream,
           foldl (λ dependents node_index,
                    <[node_index := default 0 (dependents !! node_index) + 1]> dependents)
                 dependents (iteration_order opt (upstream_of graph downstream)))
        ∅ (iteration_order opt (dom graph)).

(** [if (--dependents[next_node_index] == 0) que.push_back(next_node_index)] *)
Definition release_dependent (acc : list NodeIndex * gmap NodeIndex Z)
    (next_node_index : NodeIndex) : list NodeIndex * gmap NodeIndex Z :=
  let count := default 0 (acc.2 !! next_node_index) - 1 in
  (if bool_decide (count = 0) then acc.1 ++ [next_node_index] else acc.1,
   <[next_node_index := count]> acc.2).

(** The topological traverse of the dependency graph.  Every turn of the
    loop takes one node off the queue; [fuel] bounds the turns. *)
Fixpoint traverse (fuel : nat) (E : PlannerEnv) (opt : OptimizerInputs)
    (graph : gmap NodeIndex (gset NodeIndex))
    (value_node_map : gmap OrtValueIndex NodeIndex)
    (que : list NodeIndex) (dependents : gmap NodeIndex Z) (st : OptimizerState)
    : Result OptimizerState :=
  match que with
  | [] => mret st
  | node_index :: que =>
      match fuel with
      | 0%nat => Throw OutOfFuel
      | S fuel =>
          (* try reuse node's inputs as its outputs *)
          st ← TryReuseInput E node_index st;
          (* try reuse node's outputs for downstream nodes *)
          st ← TryReuseOutput E opt graph value_node_map node_index st;
          let next := foldl release_dependent (que, dependents)
                        (iteration_order opt (upstream_of graph node_index)) in
          traverse fuel E opt graph value_node_map next.1 next.2 st
      end
  end.

(** [OptimizeReusePlanForMultiStream]: [graph] is [dependence_graph_] and
    [value_node_map] is [value_node_map_], both left by
    [BuildExecutionPlan].  A node enters the queue when its count reaches
    zero, which happens once, so the loop takes at most as many turns as
    the graph has nodes. *)
Definition OptimizeReusePlanForMultiStream (E : PlannerEnv) (opt : OptimizerInputs)
    (graph : gmap NodeIndex (gset NodeIndex))
    (value_node_map : gmap OrtValueIndex NodeIndex) (st : PlannerState)
    : Result PlannerState :=
  let dependents := count_dependents opt graph in
  let que := filter (λ n, default 0 (dependents !! n) = 0)
                    (iteration_order opt (dom graph)) in
  st ← traverse (size (graph_nodes_of graph)) E opt graph value_node_map que dependents
         (mkOptimizerState st ∅ ∅ ∅ ∅ ∅);
  mret (planner st).

(** [IsSingleStream]: each execution provider has at most one stream
    with nodes. *)
Fixpoint IsSingleStream_from (execution_plan : list LogicStream) (i : nat)
    (streams : list (list NodeIndex)) (stream_providers_set : gset string)
    : Result bool :=
  match streams with
  | [] => mret true
  | stream :: rest =>
      if bool_decide (stream = []) then
        IsSingleStream_from execution_plan (S i) rest stream_providers_set
      else
        logic_stream ← unchecked (execution_plan !! i);
        ep_type ← unchecked (ep_ logic_stream);
        if bool_decide (ep_type ∈ stream_providers_set) then mret false
        else IsSingleStream_from execution_plan (S i) rest
               ({[ep_type]} ∪ stream_providers_set)
  end.

Definition IsSingleStream (E : PlannerEnv) (built : BuildState) : Result bool :=
  IsSingleStream_from (execution_plan built) 0 (stream_nodes_ E) ∅.

Definition with_context (E : PlannerEnv) (ctx : ISequentialPlannerContext) : PlannerEnv :=
  mkPlannerEnv ctx (parent_node_ E) (graph_viewer_ E) (outer_scope_node_args_ E)
    (kernel_create_info_map_ E) (ort_value_name_idx_map_ E) (stream_nodes_ E)
    (node_stream_map_ E).

(** [ComputeReusePlan].  The class [ParalllelPlannerContext] is declared
    outside this file; its instance is the parameter [parallel_context].
    It stays in force while the optimizer runs. *)
Definition ComputeReusePlan (E : PlannerEnv) (opt : OptimizerInputs)
    (parallel_context : ISequentialPlannerContext) (built : BuildState)
    (st : PlannerState) : Result PlannerState :=
  single ← IsSingleStream E built;
  let E := if single : bool then E else with_context E parallel_context in
  (* compute use count first *)
  st ← ComputeReuseCount E st;
  st ← ComputeSingleStreamReusePlan E st;
  if single : bool then mret st
  else OptimizeReusePlanForMultiStream E opt (dependence_graph_ built)
         (value_node_map_ built) st.

(** Node [n] depends on node [m], directly or through other nodes. *)
Definition depends_on (graph : gmap NodeIndex (gset NodeIndex)) : relation NodeIndex :=
  rtc (λ n m, m ∈ upstream_of graph n).

(** ** Graph outputs as reuse targets *)

(** The values of the graph outputs: the entries whose use count
    [ComputeReuseCount] raises last. *)
Definition graph_output_values (E : PlannerEnv) : list OrtValueIndex :=
  omap (λ a, ort_value_name_idx_map_ E !! Name a) (GetOutputs (graph_viewer_ E)).

(** The claim as the specification words it: no value that is not a graph
    output reuses the buffer of a graph output, and every graph output is
    planned as [kAllocateOutput], [kShare] or [kAllocatedExternally]. *)
Definition output_kind (k : AllocKind) : Prop :=
  k = kAllocateOutput ∨ k = kShare ∨ k = kAllocatedExternally.

Definition no_reuse_of_outputs (E : PlannerEnv) (st : PlannerState) : Prop :=
  ∀ v entry, AllocPlan st v = Ok entry → alloc_kind entry = kReuse →
             v ∉ graph_output_values E →
             reused_buffer entry ∉ graph_output_values E.

Definition outputs_have_output_kind (E : PlannerEnv) (st : PlannerState) : Prop :=
  ∀ g entry, g ∈ graph_output_values E → AllocPlan st g = Ok entry →
             output_kind (alloc_kind entry).

Definition graph_outputs_immortal (E : PlannerEnv) (st : PlannerState) : Prop :=
  no_reuse_of_outputs E st ∧ outputs_have_output_kind E st.

(** Output [output_arg_num] of [pnode] must share the buffer of an input:
    the alias map or the variadic alias of its kernel pairs it with an
    input that exists. *)
Definition alias_required (E : PlannerEnv) (pnode : Node) (output_arg_num : nat)
    : Prop :=
  ∃ ci kd,
    kernel_create_info_map_ E !! Node_Index pnode = Some ci ∧
    kernel_def ci = Some kd ∧
    ((∃ entry p, entry ∈ Alias kd ∧
                 entry_applies (InputDefs pnode) (Z.of_nat output_arg_num) entry p) ∨
     (∃ input_offset output_offset p,
        VariadicAlias kd = Some (input_offset, output_offset) ∧
        at_index (InputDefs pnode)
                 (Z.of_nat output_arg_num - output_offset + input_offset) = Some p ∧
        Exists p = true)).

(** Value [v] is an output of a node of the order that must share the
    buffer of an input. *)
Definition aliased (E : PlannerEnv) (v : OrtValueIndex) : Prop :=
  ∃ node_index pnode output_arg_num node_output,
    node_index ∈ GetNodesInTopologicalOrder (graph_viewer_ E) ∧
    GetNode (graph_viewer_ E) node_index = Some pnode ∧
    OutputDefs pnode !! output_arg_num = Some node_output ∧
    arg_value E node_output = Some v ∧
    alias_required E pnode output_arg_num.

(** The entries that reuse the buffer of a graph output belong to aliased
    values. *)
Definition only_aliases_reuse_outputs (E : PlannerEnv) (st : PlannerState) : Prop :=
  ∀ v entry, AllocPlan st v = Ok entry → alloc_kind entry = kReuse →
             reused_buffer entry ∈ graph_output_values E → aliased E v.

(** The graph outputs among [defined] have the kind of an output. *)
Definition outputs_planned (E : PlannerEnv) (st : PlannerState)
    (defined : list OrtValueIndex) : Prop :=
  ∀ g entry, g ∈ graph_output_values E → g ∈ defined → AllocPlan st g = Ok entry →
             output_kind (alloc_kind entry).

(** The values node [pnode] reads. *)
Definition node_inputs (E : PlannerEnv) (pnode : Node) : list OrtValueIndex :=
  omap (arg_value E) (InputDefs pnode) ++ omap (arg_value E) (ImplicitInputDefs pnode).

(** The order is topological: no node reads a value that it or a later
    node defines. *)
Definition inputs_defined_before (E : PlannerEnv) (order : list NodeIndex) : Prop :=
  ∀ before n after, order = before ++ n :: after →
    ∀ u, u ∈ of_node E (node_inputs E) n → u ∉ order_defs E (n :: after).

(** One [NodeArg] per value: a node output whose value is the value of a
    graph output is that graph output. *)
Definition outputs_by_name (E : PlannerEnv) : Prop :=
  ∀ node_index pnode node_output v,
    GetNode (graph_viewer_ E) node_index = Some pnode →
    node_output ∈ OutputDefs pnode → arg_value E node_output = Some v →
    v ∈ graph_output_values E →
    is_graph_output (graph_viewer_ E) node_output = true.

(** The plan that [ComputePlanForInputsAndWeights] leaves: entries are
    not set, pre-existing or static, the freelist is empty, and the empty
    name of a missing argument has no value. *)
Definition plan_initial (E : PlannerEnv) (st : PlannerState) : Prop :=
  (∀ v entry, AllocPlan st v = Ok entry →
              alloc_kind entry ≠ kReuse ∧ alloc_kind entry ≠ kAllocate) ∧
  freelist_ st = [] ∧
  ort_value_name_idx_map_ E !! EmptyString = None.

(** What the walk keeps true of the plan: only aliased values reuse the
    buffer of a graph output, no graph output is planned as [kAllocate] or
    [kReuse], and the graph outputs among [defined] have the kind of an
    output. *)
Definition plan_facts (E : PlannerEnv) (st : PlannerState)
    (defined : list OrtValueIndex) : Prop :=
  only_aliases_reuse_outputs E st ∧
  (∀ g entry, g ∈ graph_output_values E → AllocPlan st g = Ok entry →
              alloc_kind entry ≠ kAllocate ∧ alloc_kind entry ≠ kReuse) ∧
  outputs_planned E st defined.

(** Value [v] is planned as [kAllocate] in the baseline plan. *)
Definition allocate_in (baseline : PlannerState) (v : OrtValueIndex) : Prop :=
  ∃ entry, AllocPlan baseline v = Ok entry ∧ alloc_kind entry = kAllocate.

(** What the optimizer keeps true of its state: an entry is the entry of
    the baseline, or it was [kAllocate] there and now reuses a value that
    was [kAllocate] there; and the values on the waiting list were
    [kAllocate] in the baseline. *)
Definition optimizer_inv (E : PlannerEnv) (baseline : PlannerState)
    (st : OptimizerState) : Prop :=
  (∀ v, AllocPlan (planner st) v = AllocPlan baseline v ∨
        (allocate_in baseline v ∧
         ∃ entry, AllocPlan (planner st) v = Ok entry ∧ alloc_kind entry = kReuse ∧
                  allocate_in baseline (reused_buffer entry))) ∧
  (∀ location size_in_bytes entries arg owner idx,
     waiting_at st location size_in_bytes = Some entries →
     (arg, owner) ∈ entries →
     ort_value_name_idx_map_ E !! Name arg = Some idx →
     allocate_in baseline idx).

(** Every buffer is its own buffer, unless it is the [-1] of a removed
    initializer. *)
Definition buffers_are_roots (st : PlannerState) : Prop :=
  ∀ v b, Buffer st v = Ok b → b = -1 ∨ Buffer st b = Ok b.

(** No other value has taken the buffer of a value of [later]. *)
Definition unreferenced (st : PlannerState) (later : list OrtValueIndex) : Prop :=
  ∀ v d, d ∈ later → 0 ≤ d → Buffer st v = Ok d → v = d.

(** The freelist holds distinct buffers, none of [later], each with use
    count zero. *)
Definition freelist_dead (st : PlannerState) (later : list OrtValueIndex) : Prop :=
  NoDup (ml_value <$> freelist_ st) ∧
  ∀ it, it ∈ freelist_ st →
    (ml_value it ∉ later) ∧
    Buffer st (ml_value it) = Ok (ml_value it) ∧
    UseCount st (ml_value it) = Ok 0.

(** The invariant of the walk of the planner: [events] are the uses still
    to come, [later] the values still to be defined, [pins] the values
    whose count is never released. *)
Definition planner_inv (st : PlannerState) (events later pins : list OrtValueIndex)
    : Prop :=
  counts_cover st (events ++ pins) ∧
  self_owned st later ∧
  unreferenced st later ∧
  buffers_are_roots st ∧
  freelist_dead st later.

(** ** Scenario S1: a linear graph on a single stream

    Three nodes [A → B → C] on one provider; every value is a float tensor
    of shape [[4]].  [x] is the graph input, [c] the graph output, and the
    kernel of [B] may write its output in place of its input. *)
Module S1.

Definition float_arg (addr : N) (name : string) : NodeArg :=
  mkNodeArg addr name kTensorType 1 4.

Definition x := float_arg 100 "x".
Definition a := float_arg 101 "a".
Definition b := float_arg 102 "b".
Definition c := float_arg 103 "c".

Definition cpu : OrtMemoryInfo := mkMemoryInfo "Cpu" 0 0.

Definition node_A : Node := mkNode 0 "A" "Relu" "CPUExecutionProvider" [x] [] [a] [] [1%N].
Definition node_B : Node := mkNode 1 "B" "Relu" "CPUExecutionProvider" [a] [] [b] [0%N] [2%N].
Definition node_C : Node := mkNode 2 "C" "Relu" "CPUExecutionProvider" [b] [] [c] [1%N] [].

Definition graph : GraphViewer :=
  mkGraphViewer [0%N; 1%N; 2%N]
    (list_to_map [(0%N, node_A); (1%N, node_B); (2%N, node_C)])
    [x] [c] [] 2.

Definition plain_kernel : KernelCreateInfo :=
  mkKernelCreateInfo (Some (mkKernelDef [] None [] false)).
Definition inplace_kernel : KernelCreateInfo :=
  mkKernelCreateInfo (Some (mkKernelDef [] None [(0, 0)] false)).

Definition context : ISequentialPlannerContext :=
  mkContext (λ _, Some [DimValue 4]) false true.

Definition env : PlannerEnv :=
  mkPlannerEnv context None graph []
    (list_to_map [(0%N, plain_kernel); (1%N, inplace_kernel); (2%N, plain_kernel)])
    (list_to_map [("x", 0); ("a", 1); ("b", 2); ("c", 3)])
    [[0%N; 1%N; 2%N]] [0%N; 0%N; 0%N].

(** The state after [ComputeValueLocation] and
    [ComputePlanForInputsAndWeights]: every value has been through
    [ProcessDef], the graph input is pre-existing. *)
Definition init : PlannerState :=
  mkPlannerState
    [mkOrtValueInfo (Some x) 0 0; mkOrtValueInfo (Some a) 0 1;
     mkOrtValueInfo (Some b) 0 2; mkOrtValueInfo (Some c) 0 3]
    [mkAllocPlan kPreExisting 0 cpu; mkAllocPlan kNotSet 0 cpu;
     mkAllocPlan kNotSet 0 cpu; mkAllocPlan kNotSet 0 cpu]
    [].

Definition counted : PlannerState :=
  match ComputeReuseCount env init with Ok st => st | Throw _ => init end.

Definition planned : PlannerState :=
  match ComputeSingleStreamReusePlan env counted with Ok st => st | Throw _ => init end.

(** The state when the planner reaches node [B], and after the output of
    [B] is planned. *)
Definition before_B : PlannerState :=
  match plan_node env counted 0 0%N with Ok st => st | Throw _ => init end.

Definition after_b : PlannerState :=
  match plan_output env node_B false before_B 0 b with
  | Ok st => st
  | Throw _ => init
  end.

Definition released : ReleasePlan :=
  match GenerateDeallocationPlan env planned with
  | Ok plan => plan
  | Throw _ => mkReleasePlan [] []
  end.

End S1.

(** *** The rule order as the specification words it

    Rule 5 of the specification asks only for a freed value "with identical
    location and equal byte-size" on the freelist. *)
Inductive Rule := Rule1 | Rule2 | Rule3 | Rule4 | Rule5 | Rule6.

Definition freelist_holds_same_size (E : PlannerEnv) (st : PlannerState)
    (output_arg : NodeArg) : Prop :=
  ∃ it info p_node_arg idx available current required shape_a shape,
    it ∈ freelist_ st ∧
    at_index (ort_value_info_ st) (ml_value it) = Some info ∧
    p_def_site info = Some p_node_arg ∧
    Index E (Name p_node_arg) = Ok idx ∧ AllocPlan st idx = Ok available ∧
    Index E (Name output_arg) = Ok current ∧ AllocPlan st current = Ok required ∧
    location available = location required ∧
    GetShape (context_ E) p_node_arg = Some shape_a ∧
    GetShape (context_ E) output_arg = Some shape ∧
    SameSize shape_a p_node_arg shape output_arg = Ok true.

Definition stated_rule_applies (E : PlannerEnv) (pnode : Node)
    (has_external_outputs : bool) (st : PlannerState)
    (output_arg_def_index : nat) (node_output : NodeArg) (r : Rule) : Prop :=
  let g := graph_viewer_ E in
  let parallel := IsParallelExecutionEnabled (context_ E) in
  match r with
  | Rule1 => has_external_outputs = true
  | Rule2 => has_external_outputs = false ∧ is_graph_output g node_output = true
  | Rule3 =>
      has_external_outputs = false ∧ is_graph_output g node_output = false ∧
      parallel = false ∧
      ∃ reused,
        FindReusableInput E st pnode (Z.of_nat output_arg_def_index) = Ok (Some reused)
  | Rule4 =>
      has_external_outputs = false ∧ is_graph_output g node_output = false ∧
      no_input_reused E st pnode output_arg_def_index ∧
      IsNonTensor node_output = true
  | Rule5 =>
      has_external_outputs = false ∧ is_graph_output g node_output = false ∧
      no_input_reused E st pnode output_arg_def_index ∧
      IsNonTensor node_output = false ∧
      parallel = false ∧ freelist_holds_same_size E st node_output
  | Rule6 =>
      has_external_outputs = false ∧ is_graph_output g node_output = false ∧
      no_input_reused E st pnode output_arg_def_index ∧
      IsNonTensor node_output = false ∧
      ¬ (parallel = false ∧ freelist_holds_same_size E st node_output)
  end.

Definition stated_kind (r : Rule) (k : AllocKind) : Prop :=
  match r with
  | Rule1 => k = kAllocatedExternally
  | Rule2 => k = kAllocateOutput ∨ k = kShare
  | Rule3 => k = kReuse
  | Rule4 => k = kAllocate
  | Rule5 => k = kReuse
  | Rule6 => k = kAllocate
  end.

(** The claim for one run of the loop body. *)
Definition stated_rule_order (E : PlannerEnv) (pnode : Node)
    (has_external_outputs : bool) (st : PlannerState)
    (output_arg_def_index : nat) (node_output : NodeArg) : Prop :=
  ∀ st' current plan',
    plan_output E pnode has_external_outputs st output_arg_def_index node_output
      = Ok st' →
    Index E (Name node_output) = Ok current →
    AllocPlan st' current = Ok plan' →
    ∃ r, stated_rule_applies E pnode has_external_outputs st output_arg_def_index
           node_output r ∧
         stated_kind r (alloc_kind plan').

(** ** Scenario: a chain of scalars

    Four nodes [A → B → C → D] on one stream; every value is a float
    tensor of rank 0.  When the output of [C] is planned, the buffer of
    [a] is on the freelist. *)
Module Scalar.

Definition float_arg (addr : N) (name : string) : NodeArg :=
  mkNodeArg addr name kTensorType 1 4.

Definition x := float_arg 100 "x".
Definition a := float_arg 101 "a".
Definition b := float_arg 102 "b".
Definition c := float_arg 103 "c".
Definition d := float_arg 104 "d".

Definition cpu : OrtMemoryInfo := mkMemoryInfo "Cpu" 0 0.

Definition node_A : Node := mkNode 0 "A" "Neg" "CPUExecutionProvider" [x] [] [a] [] [1%N].
Definition node_B : Node := mkNode 1 "B" "Neg" "CPUExecutionProvider" [a] [] [b] [0%N] [2%N].
Definition node_C : Node := mkNode 2 "C" "Neg" "CPUExecutionProvider" [b] [] [c] [1%N] [3%N].
Definition node_D : Node := mkNode 3 "D" "Neg" "CPUExecutionProvider" [c] [] [d] [2%N] [].

Definition graph : GraphViewer :=
  mkGraphViewer [0%N; 1%N; 2%N; 3%N]
    (list_to_map [(0%N, node_A); (1%N, node_B); (2%N, node_C); (3%N, node_D)])
    [x] [d] [] 3.

Definition plain_kernel : KernelCreateInfo :=
  mkKernelCreateInfo (Some (mkKernelDef [] None [] false)).

(** Shapes are known and of rank 0; sequential execution, reuse enabled. *)
Definition context : ISequentialPlannerContext :=
  mkContext (λ _, Some []) false true.

Definition env : PlannerEnv :=
  mkPlannerEnv context None graph []
    (list_to_map [(0%N, plain_kernel); (1%N, plain_kernel);
                  (2%N, plain_kernel); (3%N, plain_kernel)])
    (list_to_map [("x", 0); ("a", 1); ("b", 2); ("c", 3); ("d", 4)])
    [[0%N; 1%N; 2%N; 3%N]] [0%N; 0%N; 0%N; 0%N].

Definition init : PlannerState :=
  mkPlannerState
    [mkOrtValueInfo (Some x) 0 0; mkOrtValueInfo (Some a) 0 1;
     mkOrtValueInfo (Some b) 0 2; mkOrtValueInfo (Some c) 0 3;
     mkOrtValueInfo (Some d) 0 4]
    [mkAllocPlan kPreExisting 0 cpu; mkAllocPlan kNotSet 0 cpu;
     mkAllocPlan kNotSet 0 cpu; mkAllocPlan kNotSet 0 cpu;
     mkAllocPlan kNotSet 0 cpu]
    [].

Definition counted : PlannerState :=
  match ComputeReuseCount env init with Ok st => st | Throw _ => init end.

(** The state when the planner reaches node [C]. *)
Definition before_C : PlannerState :=
  match (st ← plan_node env counted 0 0%N; plan_node env st 1 1%N) with
  | Ok st => st
  | Throw _ => init
  end.

Definition after_c : PlannerState :=
  match plan_output env node_C false before_C 0 c with
  | Ok st => st
  | Throw _ => init
  end.

End Scalar.

(** ** Scenario S2: the same chain on two streams

    [A] and [C] run on stream 0, [B] on stream 1, so both edges of the
    chain cross streams.  The registry has wait handle 7 for the CPU
    provider waiting on itself. *)
Module S2.

Definition env : PlannerEnv :=
  mkPlannerEnv S1.context None S1.graph []
    (list_to_map [(0%N, S1.plain_kernel); (1%N, S1.plain_kernel); (2%N, S1.plain_kernel)])
    (list_to_map [("x", 0); ("a", 1); ("b", 2); ("c", 3)])
    [[0%N; 2%N]; [1%N]] [0%N; 1%N; 0%N].

Definition inputs : BuildInputs :=
  mkBuildInputs ["CPUExecutionProvider"] (λ _ _, Some 7%N).

Definition built : BuildState :=
  match BuildExecutionPlan env inputs with
  | Ok st => st
  | Throw _ => mkBuildState [] [] 0 ∅ ∅ ∅ ∅
  end.

End S2.

(** ** Scenario Race: a reader on another stream

    [A] (stream 0) writes [a], which [C] (stream 1) reads.  [D] follows
    [A] on stream 0 and writes [d] from the graph input; it does not
    depend on [C].  [F] (stream 0) reads [d] and [c] and writes the graph
    output [y].  All values are float tensors of shape [[4]] on one
    device, and both streams run on the CPU provider, so the planner
    takes the multi-stream path. *)
Module Race.

Definition x := S1.float_arg 100 "x".
Definition a := S1.float_arg 101 "a".
Definition c := S1.float_arg 102 "c".
Definition d := S1.float_arg 103 "d".
Definition y := S1.float_arg 104 "y".

Definition node_A : Node := mkNode 0 "A" "Relu" "CPUExecutionProvider" [x] [] [a] [] [1%N].
Definition node_C : Node := mkNode 1 "C" "Relu" "CPUExecutionProvider" [a] [] [c] [0%N] [3%N].
Definition node_D : Node := mkNode 2 "D" "Relu" "CPUExecutionProvider" [x] [] [d] [] [3%N].
Definition node_F : Node :=
  mkNode 3 "F" "Add" "CPUExecutionProvider" [d; c] [] [y] [2%N; 1%N] [].

Definition graph : GraphViewer :=
  mkGraphViewer [0%N; 1%N; 2%N; 3%N]
    (list_to_map [(0%N, node_A); (1%N, node_C); (2%N, node_D); (3%N, node_F)])
    [x] [y] [] 3.

Definition env : PlannerEnv :=
  mkPlannerEnv S1.context None graph []
    (list_to_map [(0%N, S1.plain_kernel); (1%N, S1.plain_kernel);
                  (2%N, S1.plain_kernel); (3%N, S1.plain_kernel)])
    (list_to_map [("x", 0); ("a", 1); ("c", 2); ("d", 3); ("y", 4)])
    [[0%N; 2%N; 3%N]; [1%N]] [0%N; 1%N; 0%N; 0%N].

Definition parallel_context : ISequentialPlannerContext :=
  mkContext (λ _, Some [DimValue 4]) true false.

Definition init : PlannerState :=
  mkPlannerState
    [mkOrtValueInfo (Some x) 0 0; mkOrtValueInfo (Some a) 0 1;
     mkOrtValueInfo (Some c) 0 2; mkOrtValueInfo (Some d) 0 3;
     mkOrtValueInfo (Some y) 0 4]
    [mkAllocPlan kPreExisting 0 S1.cpu; mkAllocPlan kNotSet 0 S1.cpu;
     mkAllocPlan kNotSet 0 S1.cpu; mkAllocPlan kNotSet 0 S1.cpu;
     mkAllocPlan kNotSet 0 S1.cpu]
    [].

Definition built : BuildState :=
  match BuildExecutionPlan env S2.inputs with
  | Ok st => st
  | Throw _ => mkBuildState [] [] 0 ∅ ∅ ∅ ∅
  end.

(** Every dimension of the scenario serializes to four bytes; the hash
    sets are walked in ascending or in descending order. *)
Definition ascending : OptimizerInputs :=
  mkOptimizerInputs (λ shape, N.of_nat (4 * length shape)) elements.
Definition descending : OptimizerInputs :=
  mkOptimizerInputs (λ shape, N.of_nat (4 * length shape)) (λ s, reverse (elements s)).

End Race.

(** ** Scenario Shared: an alias of a graph output

    [A] writes [g], which is a graph output and the input of [R]; the
    kernel of [R] aliases its output [r] to that input, as a reshape
    does; [C] reads [r] and writes the graph output [y].  The graph input
    [x] is passed through as a third graph output.  One stream,
    sequential execution. *)
Module Shared.

Definition x := S1.float_arg 100 "x".
Definition g := S1.float_arg 101 "g".
Definition r := S1.float_arg 102 "r".
Definition y := S1.float_arg 103 "y".

Definition node_A : Node := mkNode 0 "A" "Relu" "CPUExecutionProvider" [x] [] [g] [] [1%N].
Definition node_R : Node :=
  mkNode 1 "R" "Reshape" "CPUExecutionProvider" [g] [] [r] [0%N] [2%N].
Definition node_C : Node := mkNode 2 "C" "Relu" "CPUExecutionProvider" [r] [] [y] [1%N] [].

Definition graph : GraphViewer :=
  mkGraphViewer [0%N; 1%N; 2%N]
    (list_to_map [(0%N, node_A); (1%N, node_R); (2%N, node_C)])
    [x] [g; y; x] [] 2.

Definition alias_kernel : KernelCreateInfo :=
  mkKernelCreateInfo (Some (mkKernelDef [(0, 0)] None [] false)).

Definition env : PlannerEnv :=
  mkPlannerEnv S1.context None graph []
    (list_to_map [(0%N, S1.plain_kernel); (1%N, alias_kernel); (2%N, S1.plain_kernel)])
    (list_to_map [("x", 0); ("g", 1); ("r", 2); ("y", 3)])
    [[0%N; 1%N; 2%N]] [0%N; 0%N; 0%N].

Definition init : PlannerState :=
  mkPlannerState
    [mkOrtValueInfo (Some x) 0 0; mkOrtValueInfo (Some g) 0 1;
     mkOrtValueInfo (Some r) 0 2; mkOrtValueInfo (Some y) 0 3]
    [mkAllocPlan kPreExisting 0 S1.cpu; mkAllocPlan kNotSet 0 S1.cpu;
     mkAllocPlan kNotSet 0 S1.cpu; mkAllocPlan kNotSet 0 S1.cpu]
    [].

Definition counted : PlannerState :=
  match ComputeReuseCount env init with Ok st => st | Throw _ => init end.

Definition planned : PlannerState :=
  match ComputeSingleStreamReusePlan env counted with
  | Ok st => st
  | Throw _ => init
  end.

End Shared.

(** The plans of scenario Race: the baseline of the single-stream pass
    under the parallel context, and the plan the optimizer makes of it. *)
Module RacePlan.

Definition env : PlannerEnv := with_context Race.env Race.parallel_context.

Definition counted : PlannerState :=
  match ComputeReuseCount env Race.init with Ok st => st | Throw _ => Race.init end.

Definition baseline : PlannerState :=
  match ComputeSingleStreamReusePlan env counted with
  | Ok st => st
  | Throw _ => Race.init
  end.

Definition optimized : PlannerState :=
  match OptimizeReusePlanForMultiStream env Race.ascending
          (dependence_graph_ Race.built) (value_node_map_ Race.built) baseline with
  | Ok st => st
  | Throw _ => Race.init
  end.

End RacePlan.

(** ** Scenario S5: reuse across streams

    [A → B] on stream 0, [C] on stream 1 also reads the output of [A],
    [D] on stream 0 reads the outputs of [B] and [C], and [F] turns the
    output of [D] into the graph output.  All values are float tensors of
    shape [[4]] on one device. *)
Module S5.

Definition x := S1.float_arg 100 "x".
Definition a := S1.float_arg 101 "a".
Definition b := S1.float_arg 102 "b".
Definition c := S1.float_arg 103 "c".
Definition d := S1.float_arg 104 "d".
Definition y := S1.float_arg 105 "y".

Definition node_A : Node :=
  mkNode 0 "A" "Relu" "CPUExecutionProvider" [x] [] [a] [] [1%N; 2%N].
Definition node_B : Node := mkNode 1 "B" "Relu" "CPUExecutionProvider" [a] [] [b] [0%N] [3%N].
Definition node_C : Node := mkNode 2 "C" "Relu" "CPUExecutionProvider" [a] [] [c] [0%N] [3%N].
Definition node_D : Node :=
  mkNode 3 "D" "Add" "CPUExecutionProvider" [b; c] [] [d] [1%N; 2%N] [4%N].
Definition node_F : Node := mkNode 4 "F" "Relu" "CPUExecutionProvider" [d] [] [y] [3%N] [].

Definition graph : GraphViewer :=
  mkGraphViewer [0%N; 1%N; 2%N; 3%N; 4%N]
    (list_to_map [(0%N, node_A); (1%N, node_B); (2%N, node_C); (3%N, node_D);
                  (4%N, node_F)])
    [x] [y] [] 4.

Definition env : PlannerEnv :=
  mkPlannerEnv S1.context None graph []
    (list_to_map [(0%N, S1.plain_kernel); (1%N, S1.plain_kernel);
                  (2%N, S1.plain_kernel); (3%N, S1.plain_kernel);
                  (4%N, S1.plain_kernel)])
    (list_to_map [("x", 0); ("a", 1); ("b", 2); ("c", 3); ("d", 4); ("y", 5)])
    [[0%N; 1%N; 3%N; 4%N]; [2%N]] [0%N; 0%N; 1%N; 0%N; 0%N].

Definition init : PlannerState :=
  mkPlannerState
    [mkOrtValueInfo (Some x) 0 0; mkOrtValueInfo (Some a) 0 1;
     mkOrtValueInfo (Some b) 0 2; mkOrtValueInfo (Some c) 0 3;
     mkOrtValueInfo (Some d) 0 4; mkOrtValueInfo (Some y) 0 5]
    [mkAllocPlan kPreExisting 0 S1.cpu; mkAllocPlan kNotSet 0 S1.cpu;
     mkAllocPlan kNotSet 0 S1.cpu; mkAllocPlan kNotSet 0 S1.cpu;
     mkAllocPlan kNotSet 0 S1.cpu; mkAllocPlan kNotSet 0 S1.cpu]
    [].

Definition built : BuildState :=
  match BuildExecutionPlan env S2.inputs with
  | Ok st => st
  | Throw _ => mkBuildState [] [] 0 ∅ ∅ ∅ ∅
  end.

Definition planned : PlannerState :=
  match ComputeReusePlan env Race.ascending Race.parallel_context built init with
  | Ok st => st
  | Throw _ => init
  end.

End S5.

(** * The rest of the partitioner *)

(** ** Writing the configuration: [DummyPartitioner::DumpPartition] *)

Definition newline : ascii := "010"%char.

(** [std::endl] *)
Definition endl : string := String newline EmptyString.

(** The character [c] is one of the characters of [s]. *)
Fixpoint occurs_in (c : ascii) (s : string) : bool :=
  match s with
  | EmptyString => false
  | String c' rest => bool_decide (c' = c) || occurs_in c rest
  end.

(** The decimal digits that [operator<<] and [std::to_string] print for a
    number that is not negative, most significant first, in front of
    [acc]. *)
Definition digit_char (d : Z) : ascii := ascii_of_nat (Z.to_nat (48 + d)).

Fixpoint decimal_digits (fuel : nat) (n : Z) (acc : string) : string :=
  match fuel with
  | O => acc
  | S fuel =>
      let acc := String (digit_char (n `mod` 10)) acc in
      if bool_decide (n `div` 10 = 0) then acc
      else decimal_digits fuel (n `div` 10) acc
  end.

(** [std::to_string(int)], also what [of_stream << n] writes for an [int]
    or a [size_t]. *)
Definition to_string (n : Z) : string :=
  if bool_decide (n < 0)
  then String "-"%char (decimal_digits (S (Z.to_nat (Z.log2 (- n)))) (- n) EmptyString)
  else decimal_digits (S (Z.to_nat (Z.log2 n))) n EmptyString.

(** The entries of a [std::map<std::string, int>] in the order of its
    iteration: ascending keys. *)
Definition map_in_order (m : gmap string Z) : list (string * Z) :=
  merge_sort (λ a b, String.leb a.1 b.1) (map_to_list m).

(** What the loop body of [DumpPartition] writes for one stream:
    [std::copy(nodes.begin(), nodes.end() - 1, ostream_iterator(of_stream, ","))],
    then the last name and [endl].  [nodes.end() - 1] lies before
    [nodes.begin()] for a stream without names. *)
Definition dump_names (nodes : list string) : Result string :=
  back ← unchecked (last nodes);
  let copied := foldr (λ name out, name +:+ "," +:+ out) EmptyString
                      (take (length nodes - 1) nodes) in
  mret (copied +:+ back +:+ endl).

(** [DummyPartitioner::DumpPartition].  [is_open] tells whether the file
    can be opened for writing; the result is the new content of the file,
    [None] when the file is not written. *)
Definition DumpPartition (configuration_file_ : string) (is_open : bool)
    (p : DummyPartitioner) : Result (option string) :=
  if bool_decide (configuration_file_ = EmptyString) then mret None
  else if is_open then
    let out := DummyPartitioner_name +:+ endl in
    let out := out +:+ "ExecutionProviders:"
                   +:+ to_string (Z.of_nat (size (max_streams_ p))) +:+ endl in
    let out := foldl (λ out kv, out +:+ kv.1 +:+ ":" +:+ to_string kv.2 +:+ endl)
                     out (map_in_order (max_streams_ p)) in
    out ← foldR (λ out nodes, names ← dump_names nodes; mret (out +:+ names))
                (node_names_by_stream_ p) out;
    mret (Some out)
  else mret None.

(** The lines that [std::getline(if_stream, line)] reads from a file with
    the given content. *)
Definition lines_of (content : string) : list string := Split content newline.

(** The sum of the stream counts of the providers. *)
Definition total_streams (m : gmap string Z) : Z :=
  sumZ snd (map_to_list m).

(** ** [DummyPartitioner::PartitionNodes] *)

(** [op_type + std::to_string(op_type_counter[op_type]++)] *)
Definition tmp_name (op_type_counter : gmap string Z) (op_type : string)
    : string * gmap string Z :=
  let count := default 0 (op_type_counter !! op_type) in
  (op_type +:+ to_string count, <[op_type := count + 1]> op_type_counter).

(** The variables of the loop that partitions from scratch. *)
Record ScratchPartition := mkScratchPartition {
  scratch_max_streams : gmap string Z;
  scratch_names : list (list string);
  ep_to_stream : gmap string Z;
  scratch_counter : gmap string Z;
}.

(** Partition by execution provider, each has one stream: the body of
    the first loop over the nodes. *)
Definition partition_by_provider (graph_viewer : GraphViewer)
    (s : ScratchPartition) (node_index : NodeIndex) : Result ScratchPartition :=
  node ← unchecked (GetNode graph_viewer node_index);
  let op_type := OpType node in
  let node_name := Node_Name node in
  let exec_provider_name := GetExecutionProviderType node in
  let max_streams :=
    if bool_decide (scratch_max_streams s !! exec_provider_name = None)
    then <[exec_provider_name := 1]> (scratch_max_streams s)
    else scratch_max_streams s in
  let '(names, streams) :=
    match ep_to_stream s !! exec_provider_name with
    | None =>
        (scratch_names s ++ [[]],
         <[exec_provider_name := Z.of_nat (length (scratch_names s))]> (ep_to_stream s))
    | Some _ => (scratch_names s, ep_to_stream s)
    end in
  it ← unchecked (streams !! exec_provider_name);
  stream ← unchecked (at_index names it);
  if bool_decide (node_name = EmptyString) then
    let '(name, counter) := tmp_name (scratch_counter s) op_type in
    mret (mkScratchPartition max_streams (<[Z.to_nat it := stream ++ [name]]> names)
            streams counter)
  else
    mret (mkScratchPartition max_streams (<[Z.to_nat it := stream ++ [node_name]]> names)
            streams (scratch_counter s)).

(** [node_stream_map[node_name] = i] for every name of every stream. *)
Definition name_stream_map (names : list (list string)) : gmap string nat :=
  foldl (λ m entry, foldl (λ m node_name, <[node_name := entry.1]> m) m entry.2)
        ∅ (imap pair names).

(** The variables of the loop that fills [stream_nodes]. *)
Record Placement := mkPlacement {
  placed : list (list NodeIndex);
  placement_counter : gmap string Z;
  node_stream_map : gmap string nat;
}.

(** The body of the second loop over the nodes.  [node_stream_map[name]]
    adds the name with stream [0] when the map does not have it. *)
Definition place_node (graph_viewer : GraphViewer) (s : Placement)
    (node_index : NodeIndex) : Result Placement :=
  node ← unchecked (GetNode graph_viewer node_index);
  let op_type := OpType node in
  let node_name := Node_Name node in
  if bool_decide (node_name = EmptyString) then
    let '(tmp, counter) := tmp_name (placement_counter s) op_type in
    _ ← ORT_ENFORCE (bool_decide (is_Some (node_stream_map s !! tmp)));
    let i := default 0%nat (node_stream_map s !! tmp) in
    stream ← unchecked (placed s !! i);
    mret (mkPlacement (<[i := stream ++ [node_index]]> (placed s)) counter
            (node_stream_map s))
  else
    let i := default 0%nat (node_stream_map s !! node_name) in
    stream ← unchecked (placed s !! i);
    mret (mkPlacement (<[i := stream ++ [node_index]]> (placed s))
            (placement_counter s) (<[node_name := i]> (node_stream_map s))).

(** [PartitionNodes] changes the partitioner (when it partitions from
    scratch) and [stream_nodes]. *)
Definition PartitionNodes (p : DummyPartitioner) (graph_viewer : GraphViewer)
    (stream_nodes : list (list NodeIndex))
    : Result (DummyPartitioner * list (list NodeIndex)) :=
  if negb (IsOK (status_ p)) then
    mret (p, stream_nodes)  (* input configuration has errors, do nothing *)
  else
    let p_graph_nodes := GetNodesInTopologicalOrder graph_viewer in
    p ← (if bool_decide (max_streams_ p = ∅) && bool_decide (node_names_by_stream_ p = [])
         then (* input configure empty, do it from scratch *)
           s ← foldR (partition_by_provider graph_viewer) p_graph_nodes
                     (mkScratchPartition (max_streams_ p) (node_names_by_stream_ p) ∅ ∅);
           mret (mkDummyPartitioner (status_ p) (num_streams_ p) (scratch_max_streams s)
                   (scratch_names s) (need_dump_ p))
         else mret p);
    let stream_nodes := replicate (length (node_names_by_stream_ p)) [] in
    s ← foldR (place_node graph_viewer) p_graph_nodes
              (mkPlacement stream_nodes ∅ (name_stream_map (node_names_by_stream_ p)));
    mret (p, placed s).

(** [PlannerImpl::PartitionIntoStreams]: the partitioner is created and
    checked, the nodes are partitioned, [node_stream_map_] is filled, and
    the partitioner is destroyed, which dumps the partition when the file
    held only the name of the partitioner ([is_open]: the file can be
    opened for writing, when it is created and when it is dumped).  The result is [stream_nodes_],
    [node_stream_map_], [num_logic_streams_] and the file afterwards. *)
Definition PartitionIntoStreams (partition_config_file : string)
    (file : option (list string)) (is_open : bool) (graph_viewer : GraphViewer)
    (stream_nodes : list (list NodeIndex))
    : Result (list (list NodeIndex) * list N * nat * option (list string)) :=
  created ← CreateNodePartitioner partition_config_file file is_open;
  let '(partitioner, file) := created in
  _ ← ORT_ENFORCE (IsOK (status_ partitioner));
  partitioned ← PartitionNodes partitioner graph_viewer stream_nodes;
  let '(partitioner, stream_nodes) := partitioned in
  node_stream_map ← assign_node_streams stream_nodes (MaxNodeIndex graph_viewer);
  (* ~DummyPartitioner *)
  file ← (if need_dump_ partitioner then
            dumped ← DumpPartition partition_config_file is_open partitioner;
            mret (match dumped with
                  | Some content => Some (lines_of content)
                  | None => file
                  end)
          else mret file);
  mret (stream_nodes, node_stream_map, length stream_nodes, file).

(** The execution providers of the nodes in the order in which the nodes
    first name them. *)
Definition providers_in_order (graph_viewer : GraphViewer) (nodes : list NodeIndex)
    : list string :=
  foldl (λ seen node_index,
           match GetNode graph_viewer node_index with
           | Some node =>
               if bool_decide (GetExecutionProviderType node ∈ seen) then seen
               else seen ++ [GetExecutionProviderType node]
           | None => seen
           end) [] nodes.

Definition on_provider (graph_viewer : GraphViewer) (provider : string)
    (node_index : NodeIndex) : Prop :=
  GetExecutionProviderType <$> GetNode graph_viewer node_index = Some provider.

#[global] Instance on_provider_dec graph_viewer provider node_index :
  Decision (on_provider graph_viewer provider node_index).
Proof. unfold on_provider. apply _. Defined.

(** The lines of the file that [DumpPartition] writes: a provider with
    its stream count, the names of a stream, and lines put together with
    [endl] after each. *)
Definition provider_line (kv : string * Z) : string :=
  kv.1 +:+ ":" +:+ to_string kv.2.

Definition names_line (nodes : list string) : string :=
  foldr (λ name out, name +:+ "," +:+ out) EmptyString (take (length nodes - 1) nodes)
  +:+ default EmptyString (last nodes).

Definition unlines (lines : list string) : string :=
  foldr (λ line out, line +:+ String newline out) EmptyString lines.

Definition dumped_lines (p : DummyPartitioner) : list string :=
  DummyPartitioner_name
  :: ("ExecutionProviders:" +:+ to_string (Z.of_nat (size (max_streams_ p))))
  :: (provider_line <$> map_in_order (max_streams_ p))
  ++ (names_line <$> node_names_by_stream_ p).

(** Names that can be written to the file and read back: the names of a
    stream hold no comma and no line break and the last is not empty, the
    name of a provider holds no colon and no line break. *)
Definition writable_names (nodes : list string) : Prop :=
  (∃ back, last nodes = Some back ∧ back ≠ EmptyString) ∧
  ∀ name, name ∈ nodes →
    occurs_in ","%char name = false ∧ occurs_in newline name = false.

Definition writable_provider (name : string) : Prop :=
  occurs_in ":"%char name = false ∧ occurs_in newline name = false.

(** The name under which [PartitionNodes] knows a node: its name, or,
    for a node without a name, its operator type followed by the number
    of nodes of that type without a name that come [before] it. *)
Definition is_unnamed (graph_viewer : GraphViewer) (op_type : string)
    (node_index : NodeIndex) : bool :=
  match GetNode graph_viewer node_index with
  | Some node =>
      bool_decide (Node_Name node = EmptyString) && bool_decide (OpType node = op_type)
  | None => false
  end.

Definition unnamed_before (graph_viewer : GraphViewer) (op_type : string)
    (before : list NodeIndex) : nat :=
  length (filter (λ n, is_unnamed graph_viewer op_type n = true) before).

Definition partition_name (graph_viewer : GraphViewer) (before : list NodeIndex)
    (node : Node) : string :=
  if bool_decide (Node_Name node = EmptyString)
  then OpType node +:+ to_string (Z.of_nat (unnamed_before graph_viewer (OpType node) before))
  else Node_Name node.

(** The nodes of a list with these names; a node that the graph does not
    have ends the list. *)
Fixpoint named_from (graph_viewer : GraphViewer) (before nodes : list NodeIndex)
    : list (NodeIndex * string) :=
  match nodes with
  | [] => []
  | node_index :: rest =>
      match GetNode graph_viewer node_index with
      | Some node =>
          (node_index, partition_name graph_viewer before node)
          :: named_from graph_viewer (before ++ [node_index]) rest
      | None => []
      end
  end.

Definition named (graph_viewer : GraphViewer) (nodes : list NodeIndex)
    : list (NodeIndex * string) :=
  named_from graph_viewer [] nodes.

(** The last stream of a configuration that lists a name, stream [0]
    when none does. *)
Definition listed_stream (names : list (list string)) (name : string) : nat :=
  default 0%nat (last (filter (λ i, name ∈ default [] (names !! i))
                              (seq 0 (length names)))).

(** The nodes that a configuration puts on stream [i], in the order of
    the list. *)
Definition nodes_on (names : list (list string)) (nodes : list (NodeIndex * string))
    (i : nat) : list NodeIndex :=
  (filter (λ x, listed_stream names x.2 = i) nodes).*1.

(** The counters of [op_type_counter] after the nodes of [before]. *)
Definition counter_counts (graph_viewer : GraphViewer) (counter : gmap string Z)
    (before : list NodeIndex) : Prop :=
  ∀ op_type,
    default 0 (counter !! op_type) = Z.of_nat (unnamed_before graph_viewer op_type before).

(** The names of the nodes of a provider. *)
Definition provider_names (graph_viewer : GraphViewer)
    (nodes : list (NodeIndex * string)) (provider : string) : list string :=
  (filter (λ x, on_provider graph_viewer provider x.1) nodes).*2.

(** The variables of the loop that partitions from scratch, after the
    nodes of [before]: one stream for every provider, in the order in
    which the nodes name the providers, with the names of its nodes. *)
Definition partitioned_by_provider (graph_viewer : GraphViewer)
    (s : ScratchPartition) (before : list NodeIndex) : Prop :=
  let providers := providers_in_order graph_viewer before in
  (named graph_viewer before).*1 = before ∧
  counter_counts graph_viewer (scratch_counter s) before ∧
  NoDup providers ∧
  (∀ n node, n ∈ before → GetNode graph_viewer n = Some node →
             GetExecutionProviderType node ∈ providers) ∧
  (∀ provider i, providers !! i = Some provider →
                 ep_to_stream s !! provider = Some (Z.of_nat i)) ∧
  (∀ provider, provider ∉ providers → ep_to_stream s !! provider = None) ∧
  (∀ provider, scratch_max_streams s !! provider
               = if bool_decide (provider ∈ providers) then Some 1 else None) ∧
  scratch_names s
  = provider_names graph_viewer (named graph_viewer before) <$> providers.

(** A graph whose partition can be written to the configuration file:
    the names and operator types of its nodes hold no comma and no line
    break, the types of its providers no colon and no line break. *)
Definition writable_name (name : string) : Prop :=
  occurs_in ","%char name = false ∧ occurs_in newline name = false.

Definition writable_graph (graph_viewer : GraphViewer) : Prop :=
  ∀ n node, GetNode graph_viewer n = Some node →
    writable_name (Node_Name node) ∧ writable_name (OpType node) ∧
    writable_provider (GetExecutionProviderType node).

(** The columns of a line put together again, with the separator between
    them. *)
Fixpoint join_columns (splitor : ascii) (columns : list string) : string :=
  match columns with
  | [] => EmptyString
  | [column] => column
  | column :: rest => column +:+ String splitor (join_columns splitor rest)
  end.

(** ** Scenario: three nodes on two providers, one of them without a name *)
Module Partitioned.

Definition node_conv : Node :=
  mkNode 0 "conv" "Conv" "CpuExecutionProvider" [] [] [] [] [1%N].
Definition node_relu : Node :=
  mkNode 1 EmptyString "Relu" "GpuExecutionProvider" [] [] [] [0%N] [2%N].
Definition node_gemm : Node :=
  mkNode 2 "gemm" "Gemm" "CpuExecutionProvider" [] [] [] [1%N] [].

Definition nodes : list (NodeIndex * Node) :=
  [(0%N, node_conv); (1%N, node_relu); (2%N, node_gemm)].

Definition graph : GraphViewer :=
  mkGraphViewer [0%N; 1%N; 2%N] (list_to_map nodes) [] [] [] 2.

Definition config_file : string := "partition.cfg".

(** The partitioner before [PartitionNodes], without a configuration. *)
Definition fresh : DummyPartitioner := mkDummyPartitioner StatusOK 0 ∅ [] true.

(** The partition by provider. *)
Definition partitioner : DummyPartitioner :=
  mkDummyPartitioner StatusOK 0
    (<["CpuExecutionProvider" := 1]> (<["GpuExecutionProvider" := 1]> ∅))
    [["conv"; "gemm"]; ["Relu0"]] true.

Definition stream_nodes : list (list NodeIndex) := [[0%N; 2%N]; [1%N]].

Definition written : list string :=
  ["DummyPartition"; "ExecutionProviders:2"; "CpuExecutionProvider:1";
   "GpuExecutionProvider:1"; "conv,gemm"; "Relu0"].

(** A configuration that lists [gemm] twice and does not list [conv]. *)
Definition configured : DummyPartitioner :=
  mkDummyPartitioner StatusOK 2
    (<["CpuExecutionProvider" := 1]> (<["GpuExecutionProvider" := 1]> ∅))
    [["gemm"]; ["Relu0"; "gemm"]] false.

Definition env : PlannerEnv :=
  mkPlannerEnv S1.context None graph [] ∅ ∅ stream_nodes [0%N; 1%N; 0%N].

End Partitioned.

(** * More about [BuildExecutionPlan] *)

Definition barrier_of (step : ExecutionStep) : option nat :=
  match step with BarrierStep barrier_id => Some barrier_id | _ => None end.

Definition launch_of (step : ExecutionStep) : option NodeIndex :=
  match step with LaunchKernelStep node_index => Some node_index | _ => None end.

(** The steps of all the streams of the plan. *)
Definition all_steps (st : BuildState) : list ExecutionStep :=
  concat (steps_ <$> execution_plan st).

(** The barriers of the plan and the downstream map: the barriers carry
    the numbers below [num_barriers], each once; every entry of the
    downstream map is the position of a barrier, and every barrier is the
    entry of some notification. *)
Definition barriers_inv (st : BuildState) : Prop :=
  omap barrier_of (all_steps st) ≡ₚ seq 0 (num_barriers st) ∧
  (∀ n i b, (i, b) ∈ downstream_of st n →
     0 ≤ b ∧ ∃ barrier_id, steps_of st i !! Z.to_nat b = Some (BarrierStep barrier_id)) ∧
  (∀ i b barrier_id, steps_of st i !! b = Some (BarrierStep barrier_id) →
     ∃ n, (i, Z.of_nat b) ∈ downstream_of st n).

(** Node [u] is right before node [d] on a stream. *)
Definition stream_edge (E : PlannerEnv) (u d : NodeIndex) : Prop :=
  ∃ stream j, stream ∈ stream_nodes_ E ∧ stream !! j = Some u ∧ stream !! S j = Some d.

(** Node [d] consumes an output of node [u], a node of a stream. *)
Definition graph_edge (E : PlannerEnv) (u d : NodeIndex) : Prop :=
  ∃ stream node, stream ∈ stream_nodes_ E ∧ u ∈ stream ∧
    GetNode (graph_viewer_ E) u = Some node ∧ d ∈ OutputNodes node.

Definition dependence_of (st : BuildState) (d : NodeIndex) : gset NodeIndex :=
  default ∅ (dependence_graph_ st !! d).

(** The nodes that stream [i] launches, in the order of its steps. *)
Definition launches (st : BuildState) (i : nat) : list NodeIndex :=
  omap launch_of (steps_of st i).

(** No edge of the graph connects two streams: the producers and the
    consumers of every node of a stream are on that stream. *)
Definition no_cross_stream_edge (E : PlannerEnv) : Prop :=
  ∀ stream c node,
    stream ∈ stream_nodes_ E → c ∈ stream →
    GetNode (graph_viewer_ E) c = Some node →
    (∀ it, it ∈ InputNodes node → it ∈ stream) ∧
    (∀ it, it ∈ OutputNodes node → it ∈ stream).

(** A plan without synchronisation: launches only. *)
Definition plain_plan (st : BuildState) : Prop :=
  (∀ k, Forall (λ step, is_Some (launch_of step)) (steps_of st k)) ∧
  num_barriers st = 0%nat ∧ downstream_map st = ∅ ∧ notification_owners st = [].

(** ** Scenario: the three nodes of S1 on one stream *)
Module Sequential.

Definition built : BuildState :=
  match BuildExecutionPlan S1.env S2.inputs with
  | Ok st => st
  | Throw _ => mkBuildState [] [] 0 ∅ ∅ ∅ ∅
  end.

End Sequential.

(** The state [st'] has the dependences of [st] and those of [R]. *)
Definition adds_dependences (R : NodeIndex → NodeIndex → Prop)
    (st st' : BuildState) : Prop :=
  ∀ d u, u ∈ dependence_of st' d ↔ u ∈ dependence_of st d ∨ R u d.

(** The dependences that the node at position [j] of a stream adds: on
    the node before it in the stream, and of its consumers on itself. *)
Definition node_dependences (E : PlannerEnv) (stream : list NodeIndex) (j : nat)
    (c : NodeIndex) (u d : NodeIndex) : Prop :=
  ((0 < j)%nat ∧ d = c ∧ stream !! (j - 1)%nat = Some u) ∨
  (u = c ∧ ∃ node, GetNode (graph_viewer_ E) c = Some node ∧ d ∈ OutputNodes node).

(** The node that defines value [v] last in a list of nodes. *)
Definition last_definer (E : PlannerEnv) (nodes : list NodeIndex) (v : OrtValueIndex)
    : option NodeIndex :=
  last (filter (λ n, v ∈ of_node E (node_defs E) n) nodes).

(** * More about the size of values *)

(** A dimension that [SameShape] can compare: a known value or a
    symbolic name that is not empty. *)
Definition comparable (d : Dimension) : bool :=
  match d with
  | DimValue _ => true
  | DimParam p => negb (bool_decide (p = EmptyString))
  | DimNotSet => false
  end.

(** * One stream per provider *)

(** Stream [i] of the partition has nodes. *)
Definition busy (streams : list (list NodeIndex)) (i : nat) : Prop :=
  ∃ stream, streams !! i = Some stream ∧ stream ≠ [].

(** The provider of the stream at position [i] of the execution plan. *)
Definition provider_at (execution_plan : list LogicStream) (i : nat) : option string :=
  execution_plan !! i ≫= ep_.

(** No two streams with nodes run on the same provider. *)
Definition one_stream_per_provider (E : PlannerEnv) (built : BuildState) : Prop :=
  ∀ i j, i ≠ j → busy (stream_nodes_ E) i → busy (stream_nodes_ E) j →
    stream_ep built i ≠ stream_ep built j.

(** * The dependents of a node *)

(** The nodes that a search from [node_index] can meet. *)
Definition search_space (graph : gmap NodeIndex (gset NodeIndex)) (node_index : NodeIndex)
    : gset NodeIndex :=
  {[node_index]} ∪ graph_nodes_of graph.

(** What a call of [dfs] that starts with the set [before] and ends with
    the set [after] has done for node [curr]: it only adds nodes, all of
    them reached from [curr], and every node it adds has all its upstream
    nodes in the set at the end. *)
Definition searched (graph : gmap NodeIndex (gset NodeIndex)) (space : gset NodeIndex)
    (curr : NodeIndex) (before after : gset NodeIndex) : Prop :=
  before ⊆ after ∧ after ⊆ space ∧
  ∀ x, x ∈ after → x ∉ before →
    depends_on graph curr x ∧ upstream_of graph x ⊆ after.

(** * What the optimizer leaves alone *)

(** Two plans place every value in the same location and agree on the
    use counts, the buffers and the freelist. *)
Definition same_placement (st st' : PlannerState) : Prop :=
  ort_value_info_ st' = ort_value_info_ st ∧
  freelist_ st' = freelist_ st ∧
  location <$> allocation_plan st' = location <$> allocation_plan st.

(** * Where values are placed: [Initialize], [ProcessDef] and
    [ComputeValueLocation] *)

(** [OrtMemType] of the C API; [OrtMemTypeDefault] is its zero. *)
Definition OrtMemType := Z.
Definition OrtMemTypeDefault : OrtMemType := 0.

(** What [ComputeValueLocation] reads besides the members of
    [PlannerEnv]: the graph inputs together with the initializers, the
    [NodeArg] of a name ([None] is the null pointer), the registered
    execution providers, the provider id [CPU], the [Info()] of the
    allocator a provider hands out for a memory type ([None] when the
    provider has no such allocator), the memory types the kernel of a node
    declares for its inputs and outputs, and the locations of the outer
    scope. *)
Record LocationInputs := mkLocationInputs {
  GetInputsIncludingInitializers : list NodeArg;
  GetNodeArg : OrtValueName → option NodeArg;
  execution_providers_ : BuildInputs;
  CPU : string;
  GetAllocator : string → OrtMemType → option OrtMemoryInfo;
  InputMemoryType : NodeIndex → nat → OrtMemType;
  OutputMemoryType : NodeIndex → nat → OrtMemType;
  outer_scope_node_arg_to_location_map_ : gmap OrtValueName OrtMemoryInfo;
}.

(** [std::vector::resize]: new elements are value-initialized. *)
Definition resize {A} (n : nat) (fresh : A) (l : list A) : list A :=
  take n l ++ replicate (n - length l) fresh.

(** The default member initializers of [OrtValueInfo]. *)
Definition fresh_info : OrtValueInfo := mkOrtValueInfo None 0 (-1).

(** [void Initialize(size_t, size_t num_ml_values)]; [unset] is the
    entry that [AllocPlanPerValue], declared with the plan, is
    initialized to. *)
Definition PlannerImpl_Initialize (unset : AllocPlanPerValue) (num_ml_values : nat)
    (st : PlannerState) : PlannerState :=
  mkPlannerState (resize num_ml_values fresh_info (ort_value_info_ st))
                 (resize num_ml_values unset (allocation_plan st))
                 (freelist_ st).

(** [void ProcessDef(OrtValueIndex id, const NodeArg* p_def_site)] *)
Definition ProcessDef (st : PlannerState) (id : OrtValueIndex)
    (p_def_site : option NodeArg) : Result PlannerState :=
  update_info (λ _, mkOrtValueInfo p_def_site 0 id) st id.

(** [plan_.SetLocation(index, info)], the one-line setter of the plan:
    [allocation_plan[index].location = info], not bounds-checked. *)
Definition SetLocation (st : PlannerState) (ort_value_index : OrtValueIndex)
    (info : OrtMemoryInfo) : Result PlannerState :=
  entry ← unchecked (at_index (allocation_plan st) ort_value_index);
  mret (mkPlannerState (ort_value_info_ st)
          (<[Z.to_nat ort_value_index :=
               mkAllocPlan (alloc_kind entry) (reused_buffer entry) info]>
             (allocation_plan st))
          (freelist_ st)).

(** The plan together with the three local containers of
    [ComputeValueLocation]; providers are known by their type name. *)
Record LocationState := mkLocationState {
  located : PlannerState;
  set_node_arg_has_explicit_consumer : gset OrtValueIndex;
  map_implicitly_consumed_node_arg_to_ep : gmap OrtValueIndex string;
  set_implicitly_consumed_node_arg_has_heterogenous_ep_consumers : gset OrtValueIndex;
}.

Definition set_located (st : LocationState) (p : PlannerState) : LocationState :=
  mkLocationState p (set_node_arg_has_explicit_consumer st)
    (map_implicitly_consumed_node_arg_to_ep st)
    (set_implicitly_consumed_node_arg_has_heterogenous_ep_consumers st).

(** [Node::ForEachWithIndex] with the position handed to the callback. *)
Definition ForEachWithIndex_at {St} (node_args : list NodeArg)
    (func : St → NodeArg → nat → Result St) (st : St) : Result St :=
  foldR_indexed (λ st index arg, if Exists arg then func st arg index else mret st)
                0 node_args st.

(** [exec_provider->GetAllocator(0, mem_type)->Info()] *)
Definition allocator_info (L : LocationInputs) (exec_provider : string)
    (mem_type : OrtMemType) : Result OrtMemoryInfo :=
  unchecked (GetAllocator L exec_provider mem_type).

(** The lambda [process_input] of [ComputeValueLocation]. *)
Definition process_input (E : PlannerEnv) (L : LocationInputs) (node_index : NodeIndex)
    (exec_provider : string) (is_implicit_input : bool)
    (st : LocationState) (input : NodeArg) (arg_idx : nat) : Result LocationState :=
  let name := Name input in
  let is_graph_input :=
    bool_decide (name ∈ Name <$> GetInputsIncludingInitializers L) in
  let is_outer_scope_arg :=
    bool_decide (name ∈ Name <$> outer_scope_node_args_ E) in
  let is_subgraph := bool_decide (is_Some (parent_node_ E)) in
  (* If it's a graph input or outer scope node arg, set its plan. *)
  if is_graph_input || is_outer_scope_arg then
    index ← Index E name;
    if negb is_implicit_input then
      let mem_type := InputMemoryType L node_index arg_idx in
      info ← allocator_info L exec_provider mem_type;
      p ← SetLocation (located st) index info;
      mret (mkLocationState p ({[index]} ∪ set_node_arg_has_explicit_consumer st)
              (map_implicitly_consumed_node_arg_to_ep st)
              (set_implicitly_consumed_node_arg_has_heterogenous_ep_consumers st))
    else (* implicit input *)
      if is_subgraph && bool_decide (index ∉ set_node_arg_has_explicit_consumer st) then
        (* CASE 1 *)
        let iter := outer_scope_node_arg_to_location_map_ L !! name in
        _ ← (if negb is_graph_input then ORT_ENFORCE (bool_decide (is_Some iter))
             else mret tt);
        match iter with
        | Some outer_location =>
            p ← SetLocation (located st) index outer_location;
            mret (set_located st p)
        | None => mret st
        end
      else if bool_decide (index ∉ set_node_arg_has_explicit_consumer st) then
        (* CASE 2 *)
        if bool_decide
             (index ∉ set_implicitly_consumed_node_arg_has_heterogenous_ep_consumers st)
        then
          match map_implicitly_consumed_node_arg_to_ep st !! index with
          | None =>
              (* first time we are encountering this implicitly consumed input *)
              info ← allocator_info L exec_provider OrtMemTypeDefault;
              p ← SetLocation (located st) index info;
              mret (mkLocationState p (set_node_arg_has_explicit_consumer st)
                      (<[index := exec_provider]> (map_implicitly_consumed_node_arg_to_ep st))
                      (set_implicitly_consumed_node_arg_has_heterogenous_ep_consumers st))
          | Some already_seen_ep =>
              if bool_decide (already_seen_ep = exec_provider) then
                info ← allocator_info L exec_provider OrtMemTypeDefault;
                p ← SetLocation (located st) index info;
                mret (set_located st p)
              else
                (* default the location to CPU *)
                cpu_provider ← unchecked (Get_provider (execution_providers_ L) (CPU L));
                info ← allocator_info L cpu_provider OrtMemTypeDefault;
                p ← SetLocation (located st) index info;
                mret (mkLocationState p (set_node_arg_has_explicit_consumer st)
                        (map_implicitly_consumed_node_arg_to_ep st)
                        ({[index]} ∪
                         set_implicitly_consumed_node_arg_has_heterogenous_ep_consumers st))
          end
        else mret st
      else mret st
  else mret st.

(** The body of the loop over the outputs of a node. *)
Definition locate_output (E : PlannerEnv) (L : LocationInputs) (node_index : NodeIndex)
    (exec_provider : string) (st : LocationState) (i : nat) (node_output : NodeArg)
    : Result LocationState :=
  if negb (Exists node_output) then mret st
  else
    index ← Index E (Name node_output);
    p ← ProcessDef (located st) index (Some node_output);
    info ← checked (GetAllocator L exec_provider (OutputMemoryType L node_index i));
    p ← SetLocation p index info;
    mret (set_located st p).

(** The body of the loop over the nodes of one stream. *)
Definition ComputeValueLocation_node (E : PlannerEnv) (L : LocationInputs)
    (st : LocationState) (node_index : NodeIndex) : Result LocationState :=
  match GetNode (graph_viewer_ E) node_index with
  | None => Throw StatusFail
  | Some pnode =>
      kernel_create_info ← GetKernelCreateInfo (kernel_create_info_map_ E) (Node_Index pnode);
      _ ← ORT_ENFORCE (bool_decide (is_Some (kernel_def kernel_create_info)));
      match Get_provider (execution_providers_ L) (GetExecutionProviderType pnode) with
      | None => Throw StatusFail
      | Some exec_provider =>
          st ← ForEachWithIndex_at (InputDefs pnode)
                 (process_input E L (Node_Index pnode) exec_provider false) st;
          st ← ForEachWithIndex_at (ImplicitInputDefs pnode)
                 (process_input E L (Node_Index pnode) exec_provider true) st;
          foldR_indexed (locate_output E L (Node_Index pnode) exec_provider)
                        0 (OutputDefs pnode) st
      end
  end.

(** [ProcessDef(Index(name), p_def_site)] *)
Definition process_named (E : PlannerEnv) (st : PlannerState) (name : OrtValueName)
    (p_def_site : option NodeArg) : Result PlannerState :=
  index ← Index E name;
  ProcessDef st index p_def_site.

Definition ComputeValueLocation (E : PlannerEnv) (L : LocationInputs)
    (st : PlannerState) : Result PlannerState :=
  let g := graph_viewer_ E in
  st ← foldR (λ st graph_input, process_named E st (Name graph_input) (Some graph_input))
             (GetInputs g) st;
  st ← foldR (λ st node_arg, process_named E st (Name node_arg) (Some node_arg))
             (outer_scope_node_args_ E) st;
  (* All initializers should be treated as input *)
  st ← foldR (λ st initializer_name,
                process_named E st initializer_name (GetNodeArg L initializer_name))
             (GetAllInitializedTensors g) st;
  st ← foldR (λ st stream_execution_order,
                foldR (ComputeValueLocation_node E L) stream_execution_order st)
             (stream_nodes_ E) (mkLocationState st ∅ ∅ ∅);
  mret (located st).

(** The state of a planner that has just been constructed. *)
Definition new_planner : PlannerState := mkPlannerState [] [] [].

(** The values that [ComputeValueLocation] passes to [ProcessDef]. *)
Definition processed_values (E : PlannerEnv) : list OrtValueIndex :=
  omap (λ name, ort_value_name_idx_map_ E !! name)
       ((Name <$> GetInputs (graph_viewer_ E)) ++
        (Name <$> outer_scope_node_args_ E) ++
        GetAllInitializedTensors (graph_viewer_ E)) ++
  order_defs E (concat (stream_nodes_ E)).

(** Value [v] is as [ProcessDef] leaves it: it owns its buffer and has
    use count zero. *)
Definition processed_at (st : PlannerState) (v : OrtValueIndex) : Prop :=
  ∃ p_def_site, at_index (ort_value_info_ st) v = Some (mkOrtValueInfo p_def_site 0 v).

(** From [st] to [st'] the values of [S] went through [ProcessDef], the
    other values kept their information, and of the plan only locations
    changed. *)
Definition processes (S : OrtValueIndex → Prop) (st st' : PlannerState) : Prop :=
  (∀ v, S v → processed_at st' v) ∧
  (∀ v, at_index (ort_value_info_ st') v = at_index (ort_value_info_ st) v ∨
        (S v ∧ processed_at st' v)) ∧
  length (ort_value_info_ st') = length (ort_value_info_ st) ∧
  freelist_ st' = freelist_ st ∧
  (λ p, (alloc_kind p, reused_buffer p)) <$> allocation_plan st' =
  (λ p, (alloc_kind p, reused_buffer p)) <$> allocation_plan st.

(** Scenario Located: the planner of scenario S1 right after its
    construction, with one provider whose allocators are on the CPU. *)
Module Located.

Definition inputs : LocationInputs :=
  mkLocationInputs [S1.x] (λ _, None) S2.inputs "Cpu" (λ _ _, Some S1.cpu)
    (λ _ _, OrtMemTypeDefault) (λ _ _, OrtMemTypeDefault) ∅.

Definition unset : AllocPlanPerValue := mkAllocPlan kNotSet 0 (mkMemoryInfo EmptyString 0 0).

Definition initial : PlannerState := PlannerImpl_Initialize unset 4 new_planner.

Definition located : PlannerState :=
  match ComputeValueLocation S1.env inputs initial with
  | Ok st => st
  | Throw _ => initial
  end.

End Located.

(** The location planned for value [v]. *)
Definition location_of (st : PlannerState) (v : OrtValueIndex) : option OrtMemoryInfo :=
  location <$> at_index (allocation_plan st) v.

(** Node [n] of the streams reads value [v] as its explicit input number
    [k], under a name that is a graph input, an initializer or an
    outer-scope argument. *)
Definition explicit_consumer (E : PlannerEnv) (L : LocationInputs) (v : OrtValueIndex)
    (n : NodeIndex) (pnode : Node) (k : nat) : Prop :=
  n ∈ concat (stream_nodes_ E) ∧
  GetNode (graph_viewer_ E) n = Some pnode ∧
  ∃ input, InputDefs pnode !! k = Some input ∧ Exists input = true ∧
    (Name input ∈ Name <$> GetInputsIncludingInitializers L ∨
     Name input ∈ Name <$> outer_scope_node_args_ E) ∧
    ort_value_name_idx_map_ E !! Name input = Some v.

(** Where the kernel of [pnode] wants its input number [k]. *)
Definition consumer_location (L : LocationInputs) (pnode : Node) (k : nat)
    : option OrtMemoryInfo :=
  exec_provider ← Get_provider (execution_providers_ L) (GetExecutionProviderType pnode);
  GetAllocator L exec_provider (InputMemoryType L (Node_Index pnode) k).

(** Once value [v] has an explicit consumer it is placed at [place]. *)
Definition explicit_placed (v : OrtValueIndex) (place : OrtMemoryInfo)
    (st : LocationState) : Prop :=
  v ∈ set_node_arg_has_explicit_consumer st → location_of (located st) v = Some place.

(** * The optimizer ends *)

(** A failure that a check of the code raises: a failed [ORT_ENFORCE],
    an error status that is returned, or an access out of bounds. *)
Definition a_check (f : Failure) : Prop :=
  f = EnforceFailed ∨ f = StatusFail ∨ f = OutOfBounds.

(** The run returns or stops at a check: no [assert] fails and no loop
    runs on. *)
Definition stops_at_check {A} (r : Result A) : Prop :=
  ∀ f, r = Throw f → a_check f.

(** A walk over a hash set visits every element once. *)
Definition walks_once (opt : OptimizerInputs) : Prop :=
  ∀ s : gset NodeIndex,
    NoDup (iteration_order opt s) ∧ ∀ x, x ∈ iteration_order opt s ↔ x ∈ s.

(** The nodes that have [u] upstream and have not been taken off the
    queue. *)
Definition waiting_for (opt : OptimizerInputs) (graph : gmap NodeIndex (gset NodeIndex))
    (visited : gset NodeIndex) (u : NodeIndex) : list NodeIndex :=
  filter (λ d, u ∈ upstream_of graph d ∧ d ∉ visited) (iteration_order opt (dom graph)).

(** The queue of the traverse when the nodes of [visited] have been taken
    off it: the queue holds no node twice and no visited node, the
    counter of a node is the number of nodes still waiting for it, and
    nothing waits for a node that is or was on the queue. *)
Definition queue_inv (opt : OptimizerInputs) (graph : gmap NodeIndex (gset NodeIndex))
    (visited : gset NodeIndex) (que : list NodeIndex) (dependents : gmap NodeIndex Z)
    : Prop :=
  NoDup que ∧
  (∀ x, x ∈ que → (x ∉ visited) ∧ x ∈ graph_nodes_of graph) ∧
  (visited ⊆ graph_nodes_of graph) ∧
  (∀ u, default 0 (dependents !! u) =
        Z.of_nat (length (waiting_for opt graph visited u))) ∧
  (∀ u, u ∈ que ∨ u ∈ visited → waiting_for opt graph visited u = []).

(** * The plan of inputs and weights *)

(** A graph as [GeneratePlanForWeightsHelper] walks it: [ParentNode()]
    ([None] for the main graph) and [Nodes()] in the order of the walk,
    each node with the entries of its map from attribute names to
    subgraphs (none when the node contains no subgraph). *)
Inductive NestedGraph :=
| mkNestedGraph (ParentNode : option Node) (Nodes : list NestedNode)
with NestedNode :=
| mkNestedNode (nested_node : Node) (GetAttributeNameToSubgraphMap : list Subgraph)
with Subgraph :=
| mkSubgraph (attribute_name : string) (subgraph_viewer : NestedGraph).

Definition node_of (n : NestedNode) : Node :=
  match n with mkNestedNode node _ => node end.

Definition subgraphs_of (n : NestedNode) : list Subgraph :=
  match n with mkNestedNode _ subgraphs => subgraphs end.

Definition name_of (s : Subgraph) : string :=
  match s with mkSubgraph name _ => name end.

Definition graph_of (s : Subgraph) : NestedGraph :=
  match s with mkSubgraph _ graph => graph end.

(** Induction over a graph and the subgraphs of its nodes. *)
Fixpoint NestedGraph_induction (P : NestedGraph → Prop)
    (step : ∀ parent nodes,
       Forall (λ n, Forall (λ s, P (graph_of s)) (subgraphs_of n)) nodes →
       P (mkNestedGraph parent nodes))
    (graph : NestedGraph) {struct graph} : P graph :=
  match graph with
  | mkNestedGraph parent nodes =>
      step parent nodes
        ((fix over_nodes (l : list NestedNode)
            : Forall (λ n, Forall (λ s, P (graph_of s)) (subgraphs_of n)) l :=
            match l with
            | [] => @List.Forall_nil _ _
            | n :: l' =>
                @List.Forall_cons _ _ n l'
                  ((fix over_subgraphs (m : list Subgraph)
                      : Forall (λ s, P (graph_of s)) m :=
                      match m with
                      | [] => @List.Forall_nil _ _
                      | s :: m' =>
                          @List.Forall_cons _ _ s m'
                            (NestedGraph_induction P step (graph_of s))
                            (over_subgraphs m')
                      end) (subgraphs_of n))
                  (over_nodes l')
            end) nodes)
  end.

(** What planning the weights reads besides [PlannerEnv] and
    [LocationInputs]: the main graph with its subgraphs, the kernel maps
    of the subgraphs with the function that composes their keys,
    [utils::IsInputOnCpu] and the default CPU memory info of the
    providers. *)
Record WeightInputs := mkWeightInputs {
  nested_graph : NestedGraph;
  subgraphs_kernel_create_info_maps_ : gmap string (gmap NodeIndex KernelCreateInfo);
  ComposeNestedSubgraphInfoKeyHelper : string → nat → NodeIndex → string → string;
  IsInputOnCpu : Node → KernelCreateInfo → nat → bool;
  GetDefaultCpuMemoryInfo : OrtMemoryInfo;
}.

(** [OrtMemoryInfo GetLocationForNodeInput(input_index, node, kernel_create_info_map)] *)
Definition GetLocationForNodeInput (L : LocationInputs) (W : WeightInputs)
    (input_index : nat) (node : Node)
    (kernel_create_info_map : gmap NodeIndex KernelCreateInfo) : Result OrtMemoryInfo :=
  p_provider ← checked (Get_provider (execution_providers_ L)
                          (GetExecutionProviderType node));
  kernel_create_info ← GetKernelCreateInfo kernel_create_info_map (Node_Index node);
  if IsInputOnCpu W node kernel_create_info input_index then
    (* weights are not output from any node, so it's OK to put its
       location on CPU provider *)
    mret (GetDefaultCpuMemoryInfo W)
  else allocator_info L p_provider OrtMemTypeDefault.

(** The lambda [is_shadow_value_in_subgraph]. *)
Definition is_shadow_value_in_subgraph (subgraph_parent_node : Node)
    (def_name : OrtValueName) : bool :=
  negb (bool_decide (def_name ∈ Name <$> ImplicitInputDefs subgraph_parent_node)).

(** [locations[wt_index].emplace_back(location)] *)
Definition record_location (locations : list (list OrtMemoryInfo))
    (wt_index : OrtValueIndex) (location : OrtMemoryInfo)
    : Result (list (list OrtMemoryInfo)) :=
  seen ← unchecked (at_index locations wt_index);
  mret (<[Z.to_nat wt_index := seen ++ [location]]> locations).

(** The body of the loop over the inputs of a node. *)
Definition record_weight_use (E : PlannerEnv) (L : LocationInputs) (W : WeightInputs)
    (parent : option Node) (kernel_create_info_map : gmap NodeIndex KernelCreateInfo)
    (graph_depth : nat) (node : Node)
    (locations : list (list OrtMemoryInfo)) (node_input_index : nat)
    (input_node_arg : NodeArg) : Result (list (list OrtMemoryInfo)) :=
  (* Skip processing missing optional inputs *)
  if negb (Exists input_node_arg) then mret locations
  else
    let def_name := Name input_node_arg in
    (* This node input doesn't correspond to any of the weights *)
    if negb (bool_decide (def_name ∈ GetAllInitializedTensors (graph_viewer_ E)))
    then mret locations
    else
      shadow ← (if bool_decide (0 < graph_depth)%nat then
                  parent_node ← unchecked parent;
                  mret (is_shadow_value_in_subgraph parent_node def_name)
                else mret false);
      (* Skip processing shadow values in subgraphs *)
      if shadow : bool then mret locations
      else
        wt_index ← Index E def_name;
        location ← GetLocationForNodeInput L W node_input_index node kernel_create_info_map;
        record_location locations wt_index location.

(** The first loop of [GeneratePlanForWeightsHelper]: the usages in the
    current graph. *)
Definition record_level_uses (E : PlannerEnv) (L : LocationInputs) (W : WeightInputs)
    (parent : option Node) (kernel_create_info_map : gmap NodeIndex KernelCreateInfo)
    (graph_depth : nat) (nodes : list Node)
    (locations : list (list OrtMemoryInfo)) : Result (list (list OrtMemoryInfo)) :=
  foldR (λ locations node,
           foldR_indexed (record_weight_use E L W parent kernel_create_info_map
                            graph_depth node)
                         0 (InputDefs node) locations)
        nodes locations.

(** [GeneratePlanForWeightsHelper]; the recursion follows the nesting of
    the subgraphs. *)
Fixpoint GeneratePlanForWeightsHelper (E : PlannerEnv) (L : LocationInputs)
    (W : WeightInputs) (graph_viewer : NestedGraph)
    (kernel_create_info_map : gmap NodeIndex KernelCreateInfo)
    (subgraph_kernel_create_info_map_key_base : string) (graph_depth : nat)
    (locations : list (list OrtMemoryInfo)) {struct graph_viewer}
    : Result (list (list OrtMemoryInfo)) :=
  match graph_viewer with
  | mkNestedGraph parent nodes =>
      (* Iterate over nodes in current level firstly to record location
         of usages in current graph *)
      locations ← record_level_uses E L W parent kernel_create_info_map graph_depth
                    (node_of <$> nodes) locations;
      (* Iterate over nodes in current graph with subgraphs and recurse. *)
      foldR (λ locations node,
               (* A node may contain multiple subgraphs - so iterate
                  through all of them *)
               foldR (λ locations name_to_subgraph,
                        let local_subgraph_kernel_create_info_map_key :=
                          ComposeNestedSubgraphInfoKeyHelper W
                            subgraph_kernel_create_info_map_key_base graph_depth
                            (Node_Index (node_of node)) (name_of name_to_subgraph) in
                        specific_subgraph_kernel_create_info_map ←
                          checked (subgraphs_kernel_create_info_maps_ W !!
                                     local_subgraph_kernel_create_info_map_key);
                        GeneratePlanForWeightsHelper E L W (graph_of name_to_subgraph)
                          specific_subgraph_kernel_create_info_map
                          local_subgraph_kernel_create_info_map_key
                          (S graph_depth) locations)
                     (subgraphs_of node) locations)
            nodes locations
  end.

(** The last loop of [GeneratePlanForWeights]: the planned location for
    an initializer is the location of its first usage. *)
Definition plan_weight (loc : list OrtMemoryInfo) (entry : AllocPlanPerValue)
    : AllocPlanPerValue :=
  match loc with
  | [] => entry
  | first :: _ => mkAllocPlan kAllocateStatically (reused_buffer entry) first
  end.

Definition GeneratePlanForWeights (E : PlannerEnv) (L : LocationInputs)
    (W : WeightInputs) (st : PlannerState) : Result PlannerState :=
  let locations := replicate (length (allocation_plan st)) [] in
  locations ← GeneratePlanForWeightsHelper E L W (nested_graph W)
                (kernel_create_info_map_ E) EmptyString 0 locations;
  mret (mkPlannerState (ort_value_info_ st)
          (zip_with plan_weight locations (allocation_plan st))
          (freelist_ st)).

(** The lambda [setup_preexisting]. *)
Definition setup_preexisting (E : PlannerEnv) (st : PlannerState) (node_arg : NodeArg)
    : Result PlannerState :=
  input_index ← Index E (Name node_arg);
  set_alloc_kind st input_index kPreExisting.

Definition ComputePlanForInputsAndWeights (E : PlannerEnv) (L : LocationInputs)
    (W : WeightInputs) (st : PlannerState) : Result PlannerState :=
  (* inputs of the graph *)
  st ← foldR (setup_preexisting E) (GetInputs (graph_viewer_ E)) st;
  (* outer scope node args are treated the same as graph inputs *)
  st ← foldR (setup_preexisting E) (outer_scope_node_args_ E) st;
  (* set AllocationInfo for each weight *)
  GeneratePlanForWeights E L W st.

(** The lists of locations only grow at their end. *)
Definition only_appends (locations locations' : list (list OrtMemoryInfo)) : Prop :=
  length locations' = length locations ∧
  ∀ v seen, at_index locations v = Some seen →
    ∃ more, at_index locations' v = Some (seen ++ more).

(** Input [input_node_arg] of a node of the main graph is a use of the
    weight with value [v]. *)
Definition uses_weight (E : PlannerEnv) (v : OrtValueIndex) (input_node_arg : NodeArg)
    : bool :=
  Exists input_node_arg &&
  bool_decide (Name input_node_arg ∈ GetAllInitializedTensors (graph_viewer_ E)) &&
  bool_decide (ort_value_name_idx_map_ E !! Name input_node_arg = Some v).

(** The uses of weight [v] among the inputs of [node], from input number
    [k] on. *)
Fixpoint weight_uses_from (E : PlannerEnv) (v : OrtValueIndex) (node : Node) (k : nat)
    (inputs : list NodeArg) : list (Node * nat) :=
  match inputs with
  | [] => []
  | input_node_arg :: rest =>
      (if uses_weight E v input_node_arg then [(node, k)] else []) ++
      weight_uses_from E v node (S k) rest
  end.

(** The uses of weight [v] in the main graph, in the order of the walk. *)
Definition weight_uses (E : PlannerEnv) (v : OrtValueIndex) (nodes : list Node)
    : list (Node * nat) :=
  nodes ≫= λ node, weight_uses_from E v node 0 (InputDefs node).

(** The nodes of the main graph. *)
Definition main_nodes (W : WeightInputs) : list Node :=
  match nested_graph W with mkNestedGraph _ nodes => node_of <$> nodes end.

(** The locations [places] are those of the uses [uses], one by one. *)
Definition located_uses (E : PlannerEnv) (L : LocationInputs) (W : WeightInputs)
    (uses : list (Node * nat)) (places : list OrtMemoryInfo) : Prop :=
  Forall2 (λ use place,
             GetLocationForNodeInput L W use.2 use.1 (kernel_create_info_map_ E) = Ok place)
          uses places.

(** Scenario Weighted: a node [M] of the main graph multiplies the graph
    input [x] by the initializer [w] and carries a subgraph whose node
    [I] reads [w] too; [w] is an implicit input of [M].  The inputs of
    the node of the subgraph are on the CPU, those of [M] are with the
    allocator of the provider. *)
Module Weighted.

Definition x := S1.float_arg 100 "x".
Definition w := S1.float_arg 101 "w".
Definition y := S1.float_arg 102 "y".
Definition z := S1.float_arg 103 "z".

Definition node_M : Node :=
  mkNode 0 "M" "Loop" "CPUExecutionProvider" [x; w] [w] [y] [] [].
Definition node_I : Node :=
  mkNode 0 "I" "Mul" "CPUExecutionProvider" [w] [] [z] [] [].

Definition graph : GraphViewer :=
  mkGraphViewer [0%N] (list_to_map [(0%N, node_M)]) [x] [y] ["w"] 0.

Definition env : PlannerEnv :=
  mkPlannerEnv S1.context None graph []
    (list_to_map [(0%N, S1.plain_kernel)])
    (list_to_map [("x", 0); ("w", 1); ("y", 2)])
    [[0%N]] [0%N].

Definition device : OrtMemoryInfo := mkMemoryInfo "Device" 0 0.

Definition inputs : LocationInputs :=
  mkLocationInputs [x; w] (λ name, if String.eqb name "w" then Some w else None)
    S2.inputs "Cpu" (λ _ _, Some device)
    (λ _ _, OrtMemTypeDefault) (λ _ _, OrtMemTypeDefault) ∅.

Definition body : NestedGraph :=
  mkNestedGraph (Some node_M) [mkNestedNode node_I []].

Definition weights : WeightInputs :=
  mkWeightInputs (mkNestedGraph None [mkNestedNode node_M [mkSubgraph "body" body]])
    (list_to_map [("body", list_to_map [(0%N, S1.plain_kernel)])])
    (λ _ _ _ attribute_name, attribute_name)
    (λ node _ _, String.eqb (Node_Name node) "I")
    S1.cpu.

Definition initial : PlannerState := PlannerImpl_Initialize Located.unset 3 new_planner.

Definition located : PlannerState :=
  match ComputeValueLocation env inputs initial with
  | Ok st => st
  | Throw _ => initial
  end.

Definition planned : PlannerState :=
  match ComputePlanForInputsAndWeights env inputs weights located with
  | Ok st => st
  | Throw _ => initial
  end.

End Weighted.

(** The kind of a value that is there before the nodes run: an input
    that the caller owns, or a weight. *)
Definition input_kind (k : AllocKind) : Prop :=
  k = kPreExisting ∨ k = kAllocateStatically.

(** From [st] to [st'] use counts, buffers and freelist are kept, and an
    entry of the plan is kept or has got the kind of an input, its reuse
    target kept. *)
Definition kinds_set (st st' : PlannerState) : Prop :=
  ort_value_info_ st' = ort_value_info_ st ∧
  freelist_ st' = freelist_ st ∧
  ∀ v, AllocPlan st' v = AllocPlan st v ∨
       ∃ entry entry', AllocPlan st v = Ok entry ∧ AllocPlan st' v = Ok entry' ∧
                       input_kind (alloc_kind entry') ∧
                       reused_buffer entry' = reused_buffer entry.

(** Value [v] is planned with the kind of an input. *)
Definition planned_as_input (v : OrtValueIndex) (st : PlannerState) : Prop :=
  ∃ entry, AllocPlan st v = Ok entry ∧ input_kind (alloc_kind entry).

(** * [CreatePlan] *)

(** The planner after [PartitionIntoStreams] has filled [stream_nodes_]
    and [node_stream_map_]. *)
Definition with_streams (E : PlannerEnv) (stream_nodes : list (list NodeIndex))
    (node_stream_map : list N) : PlannerEnv :=
  mkPlannerEnv (context_ E) (parent_node_ E) (graph_viewer_ E) (outer_scope_node_args_ E)
    (kernel_create_info_map_ E) (ort_value_name_idx_map_ E) stream_nodes node_stream_map.

(** What [CreatePlan] is given besides the members of the planner: the
    inputs of the steps it runs, the providers and the registry of wait
    handles it hands to [BuildExecutionPlan], the partition file with its
    content, [ort_value_name_idx_map_.MaxIdx()], and the entry a new
    [AllocPlanPerValue] is initialized to. *)
Record CreatePlanInputs := mkCreatePlanInputs {
  location_inputs : LocationInputs;
  weight_inputs : WeightInputs;
  execution_providers : BuildInputs;
  optimizer_inputs : OptimizerInputs;
  parallel_context : ISequentialPlannerContext;
  partition_config_file : string;
  partition_file : option (list string);
  partition_file_writable : bool;
  MaxIdx : Z;
  unset_entry : AllocPlanPerValue;
}.

(** What [CreatePlan] leaves: the members of the planner and of the plan
    that the steps have written, and the partition file. *)
Record CreatedPlan := mkCreatedPlan {
  created_streams : list (list NodeIndex);
  created_node_stream_map : list N;
  created_values : PlannerState;
  created_execution : BuildState;
  created_release : ReleasePlan;
  created_file : option (list string);
}.

(** The loop of [CreatePlan] that builds [value_node_map_]. *)
Definition build_value_node_map (E : PlannerEnv) (built : BuildState) : Result BuildState :=
  foldR (λ st node_index,
           node ← unchecked (GetNode (graph_viewer_ E) node_index);
           foldR (λ st node_output,
                    if negb (Exists node_output) then mret st
                    else
                      output_idx_global ←
                        checked (ort_value_name_idx_map_ E !! Name node_output);
                      mret (mkBuildState (execution_plan st) (notification_owners st)
                              (num_barriers st) (downstream_map st) (dependence_graph_ st)
                              (value_to_stream_map st)
                              (<[output_idx_global := node_index]> (value_node_map_ st))))
                 (OutputDefs node) st)
        (GetNodesInTopologicalOrder (graph_viewer_ E)) built.

(** [PlannerImpl::CreatePlan].  The number of values is an [int] that is
    cast to [size_t]; a vector cannot be resized to the size a negative
    number is cast to. *)
Definition CreatePlan (E : PlannerEnv) (C : CreatePlanInputs) : Result CreatedPlan :=
  (* 1. partition graph into streams *)
  partitioned ← PartitionIntoStreams (partition_config_file C) (partition_file C)
                   (partition_file_writable C) (graph_viewer_ E) (stream_nodes_ E);
  let '(stream_nodes, node_stream_map, _, file) := partitioned in
  let E := with_streams E stream_nodes node_stream_map in
  (* 2. initialize the plan based on stream partition result *)
  let num_ml_values := MaxIdx C + 1 in
  _ ← (if bool_decide (0 ≤ num_ml_values) then mret tt else Throw OutOfBounds);
  let st := PlannerImpl_Initialize (unset_entry C) (Z.to_nat num_ml_values) new_planner in
  (* compute value location *)
  st ← ComputeValueLocation E (location_inputs C) st;
  st ← ComputePlanForInputsAndWeights E (location_inputs C) (weight_inputs C) st;
  (* build execution plan *)
  built ← BuildExecutionPlan E (execution_providers C);
  (* build value_node_map *)
  built ← build_value_node_map E built;
  (* determine sharing/reuse among ml-values *)
  st ← ComputeReusePlan E (optimizer_inputs C) (parallel_context C) built st;
  (* convert information in the freelist_ into a deallocation plan *)
  release ← GenerateDeallocationPlan E st;
  mret (mkCreatedPlan stream_nodes node_stream_map st built release file).

(** Scenario Created: [CreatePlan] on the graph of scenario S1, without a
    partition file. *)
Module Created.

Definition weights : WeightInputs :=
  mkWeightInputs
    (mkNestedGraph None
       [mkNestedNode S1.node_A []; mkNestedNode S1.node_B []; mkNestedNode S1.node_C []])
    ∅ (λ _ _ _ attribute_name, attribute_name) (λ _ _ _, false) S1.cpu.

Definition inputs : CreatePlanInputs :=
  mkCreatePlanInputs Located.inputs weights S2.inputs Race.ascending
    Race.parallel_context EmptyString None false 3 Located.unset.

End Created.

(** Node [n] of the streams defines value [v] as its existing output
    number [i]. *)
Definition definer (E : PlannerEnv) (v : OrtValueIndex) (n : NodeIndex) (pnode : Node)
    (i : nat) : Prop :=
  n ∈ concat (stream_nodes_ E) ∧
  GetNode (graph_viewer_ E) n = Some pnode ∧
  ∃ node_output, OutputDefs pnode !! i = Some node_output ∧ Exists node_output = true ∧
    ort_value_name_idx_map_ E !! Name node_output = Some v.

(** Where the kernel of [pnode] puts its output number [i]. *)
Definition output_location (L : LocationInputs) (pnode : Node) (i : nat)
    : option OrtMemoryInfo :=
  exec_provider ← Get_provider (execution_providers_ L) (GetExecutionProviderType pnode);
  GetAllocator L exec_provider (OutputMemoryType L (Node_Index pnode) i).

(** No name of value [v] is a graph input, an initializer or an
    outer-scope argument. *)
Definition made_inside (E : PlannerEnv) (L : LocationInputs) (v : OrtValueIndex) : Prop :=
  ∀ name, ort_value_name_idx_map_ E !! name = Some v →
    (name ∉ Name <$> GetInputsIncludingInitializers L) ∧
    (name ∉ Name <$> outer_scope_node_args_ E).

(** * The inputs of group query attention *)

Module group_query_attention_helper.

(** A [Tensor], as far as [CheckInputs] reads it. *)
Record Tensor := mkTensor {
  GetDims : list Z;   (* [Shape().GetDims()], a list of [int64_t] *)
}.

Inductive AttentionQkvFormat :=
| Q_K_V_BSNH
| Q_K_V_BNSH.

(** The fields of [GroupQueryAttentionParameters] that [CheckInputs]
    assigns; [scale] is a [float], carried by its bits. *)
Record GroupQueryAttentionParameters := mkGroupQueryAttentionParameters {
  batch_size : Z;
  sequence_length : Z;
  past_sequence_length : Z;
  kv_sequence_length : Z;
  present_sequence_length : Z;
  max_sequence_length : Z;
  mask_sequence_length : Z;
  hidden_size : Z;
  num_heads : Z;
  head_size : Z;
  kv_hidden_size : Z;
  kv_num_heads : Z;
  kv_share_buffer : bool;
  is_unidirectional : bool;
  has_mask : bool;
  is_prompt : bool;
  scale : Z;
  qkv_format : AttentionQkvFormat;
  past_kv_format : AttentionQkvFormat;
}.

(** The [Status] values that [CheckInputs] returns. *)
Inductive Status :=
| OK
| INVALID_ARGUMENT (message : string).

Definition is_int (z : Z) : bool := bool_decide (- 2 ^ 31 ≤ z < 2 ^ 31).

(** [static_cast<int>] of an [int64_t], also the conversion of an
    assignment to an [int]: the low 32 bits, signed. *)
Definition to_int (z : Z) : Z := (z + 2 ^ 31) `mod` 2 ^ 32 - 2 ^ 31.

(** [a / b] and [a % b] on [int]: with a zero divisor, or a quotient
    outside of [int], the division traps and the call does not return. *)
Definition int_div (a b : Z) : option Z :=
  if bool_decide (b = 0) then None
  else if is_int (a ÷ b) then Some (a ÷ b) else None.

Definition int_rem (a b : Z) : option Z :=
  if bool_decide (b = 0) then None
  else if is_int (a ÷ b) then Some (Z.rem a b) else None.

(** [a + b] on [int] as the compiled code computes it: nothing is
    checked, and a sum outside of [int] wraps around to its low 32 bits
    (the language leaves that case undefined). *)
Definition int_add (a b : Z) : Z := to_int (a + b).

(** The block of [CheckInputs] on [past_key] and [past_value]: the message
    of the status that it returns, or [past_sequence_length],
    [max_sequence_length] and [past_kv_format] after it. *)
Definition check_past (past_key past_value : option Tensor)
    (is_past_bsnh kv_share_buffer : bool) (batch_size kv_num_heads head_size : Z)
    : Result (string + Z * Z * AttentionQkvFormat) :=
  match past_key, past_value with
  | Some past_key, Some past_value =>
      let past_key_dims := GetDims past_key in
      let past_value_dims := GetDims past_value in
      if bool_decide (length past_key_dims ≠ 4%nat) then
        mret (inl ("Input 'past_key' is expected to have 4 dimensions, got "
                   +:+ to_string (Z.of_nat (length past_key_dims))))
      else if bool_decide (length past_value_dims ≠ 4%nat) then
        mret (inl ("Input 'past_value' is expected to have 4 dimensions, got "
                   +:+ to_string (Z.of_nat (length past_value_dims))))
      else
        past_key_0 ← unchecked (past_key_dims !! 0%nat);
        if bool_decide (past_key_0 ≠ batch_size) then
          mret (inl ("Input 'past_key' dimension 0 should be batch_size, got "
                     +:+ to_string past_key_0))
        else
        past_value_0 ← unchecked (past_value_dims !! 0%nat);
        if bool_decide (past_value_0 ≠ batch_size) then
          mret (inl ("Input 'past_value' dimension 0 should be batch_size, got "
                     +:+ to_string past_value_0))
        else
        lengths ←
          (if negb is_past_bsnh then
             (* BNSH *)
             past_key_2 ← unchecked (past_key_dims !! 2%nat);
             past_value_2 ← unchecked (past_value_dims !! 2%nat);
             past_key_1 ← unchecked (past_key_dims !! 1%nat);
             if bool_decide (past_key_2 ≠ past_value_2) then
               mret (inl ("BNSH Input 'past_key' and 'past_value' should have same dimension 2 (max sequence"
                          +:+ "length or past sequence length), got " +:+ to_string past_key_1))
             else if bool_decide (past_key_1 ≠ kv_num_heads) then
               mret (inl "Input 'past_key' shall have kv_num_heads")
             else
             past_value_1 ← unchecked (past_value_dims !! 1%nat);
             if bool_decide (past_value_1 ≠ kv_num_heads) then
               mret (inl "Input 'past_value' shall have kv_num_heads")
             else
               mret (inr (to_int past_key_2,
                          if kv_share_buffer then to_int past_key_2 else 0,
                          Q_K_V_BNSH))
           else
             (* BSNH *)
             past_key_1 ← unchecked (past_key_dims !! 1%nat);
             past_value_1 ← unchecked (past_value_dims !! 1%nat);
             if bool_decide (past_key_1 ≠ past_value_1) then
               mret (inl ("BNSH Input 'past_key' and 'past_value' should have same dimension 1 (max sequence"
                          +:+ "length or past sequence length), got " +:+ to_string past_key_1))
             else
             past_key_2 ← unchecked (past_key_dims !! 2%nat);
             if bool_decide (past_key_2 ≠ kv_num_heads) then
               mret (inl "Input 'past_key' shall have kv_num_heads")
             else
             past_value_2 ← unchecked (past_value_dims !! 2%nat);
             if bool_decide (past_value_2 ≠ kv_num_heads) then
               mret (inl "Input 'past_value' shall have kv_num_heads")
             else
               mret (inr (to_int past_key_1,
                          if kv_share_buffer then to_int past_key_1 else 0,
                          Q_K_V_BSNH))) : Result (string + Z * Z * AttentionQkvFormat);
        match lengths with
        | inl message => mret (inl message)
        | inr lengths =>
            past_key_3 ← unchecked (past_key_dims !! 3%nat);
            if bool_decide (past_key_3 ≠ head_size) then
              mret (inl ("Input 'past_key' dimension 3 should be same as head_size, got "
                         +:+ to_string past_key_3))
            else
            past_value_3 ← unchecked (past_value_dims !! 3%nat);
            if bool_decide (past_value_3 ≠ head_size) then
              mret (inl ("Input 'past_value' dimension 3 should be same as head_size, got "
                         +:+ to_string past_value_3))
            else mret (inr lengths)
        end
  | None, None =>
      if kv_share_buffer then
        mret (inl "Input 'past_key' and 'past_value' shall be present when kv_share_buffer is on.")
      else mret (inr (0, 0, Q_K_V_BSNH))
  | _, _ =>
      mret (inl "Input 'past_key' and 'past_value' shall be both present or both absent.")
  end.

(** The block of [CheckInputs] on [attention_mask]: the message of the
    status that it returns, or [mask_sequence_length], [has_mask] and
    [is_prompt] after it. *)
Definition check_mask (attention_mask : option Tensor) (batch_size kv_sequence_length : Z)
    : Result (string + Z * bool * bool) :=
  match attention_mask with
  | Some attention_mask =>
      let attention_mask_shape := GetDims attention_mask in
      mask_0 ← unchecked (attention_mask_shape !! 0%nat);
      if bool_decide (mask_0 ≠ batch_size) then
        mret (inl "attention_mask dim 0 must be batch_size.")
      else
        mask_1 ← unchecked (attention_mask_shape !! 1%nat);
        mret (inr (to_int mask_1, true, bool_decide (mask_1 = kv_sequence_length)))
  | None => mret (inr (0, false, false))
  end.

(** [CheckInputs]: the status, and what [parameters] points to after the
    call.  A null pointer is [None]; the call does not return when it
    reads through a null [query], [key] or [value], reads a dimension
    that a shape does not have, or divides as [int_div] and [int_rem]
    refuse to. *)
Definition CheckInputs (query key value past_key past_value : option Tensor)
    (parameters : option GroupQueryAttentionParameters)
    (num_heads kv_num_heads : Z) (attention_mask : option Tensor)
    (is_past_bsnh kv_share_buffer : bool) (scale : Z)
    : Result (Status * option GroupQueryAttentionParameters) :=
  let invalid message := mret (INVALID_ARGUMENT message, parameters) in
  let qkv_format := Q_K_V_BSNH in
  query ← unchecked query;
  key ← unchecked key;
  let query_dims := GetDims query in
  let key_dims := GetDims key in
  if bool_decide (length query_dims ≠ 3%nat) then
    invalid ("Input 'query' is expected to have 3 dimensions, got "
             +:+ to_string (Z.of_nat (length query_dims)))
  else
  query_0 ← unchecked (query_dims !! 0%nat);
  query_1 ← unchecked (query_dims !! 1%nat);
  query_2 ← unchecked (query_dims !! 2%nat);
  let batch_size := to_int query_0 in
  let sequence_length := to_int query_1 in
  let q_hidden_size := to_int query_2 in
  head_size ← unchecked (int_div q_hidden_size num_heads);
  key_1 ← unchecked (key_dims !! 1%nat);
  key_2 ← unchecked (key_dims !! 2%nat);
  let kv_sequence_length := to_int key_1 in
  let kv_hidden_size := to_int key_2 in
  past ← check_past past_key past_value is_past_bsnh kv_share_buffer
            batch_size kv_num_heads head_size;
  match past with
  | inl message => invalid message
  | inr (past_sequence_length, max_sequence_length, past_kv_format) =>
  if bool_decide (length key_dims ≠ 3%nat) then
    invalid ("Input 'key' is expected to have 3 dimensions, got "
             +:+ to_string (Z.of_nat (length key_dims)))
  else
  key_0 ← unchecked (key_dims !! 0%nat);
  if bool_decide (query_0 ≠ key_0) then
    invalid "Input 'query' and 'key' shall have same dim 0 (batch size)"
  else
  remainder ← unchecked (int_rem num_heads kv_num_heads);
  if bool_decide (remainder ≠ 0) then
    invalid ("num_heads must be a multiple of kv_num_heads. Got num_heads % kv_num_heads == "
             +:+ to_string remainder)
  else
  value ← unchecked value;
  let value_dims := GetDims value in
  if bool_decide (length value_dims ≠ 3%nat) then
    invalid ("Input 'value' is expected to have 3 dimensions, got "
             +:+ to_string (Z.of_nat (length value_dims)))
  else
  value_0 ← unchecked (value_dims !! 0%nat);
  if bool_decide (query_0 ≠ value_0) then
    invalid "Input 'query' and 'value' shall have same dim 0 (batch_size)"
  else
  value_1 ← unchecked (value_dims !! 1%nat);
  if bool_decide (kv_sequence_length ≠ value_1) then
    invalid "Input 'key' and 'value' shall have the same dim 1 (kv_sequence_length)"
  else
  value_2 ← unchecked (value_dims !! 2%nat);
  if bool_decide (value_2 ≠ kv_hidden_size) then
    invalid "Input 'value' is expected to have same hidden size as key."
  else
  mask ← check_mask attention_mask batch_size kv_sequence_length;
  match mask with
  | inl message => invalid message
  | inr (mask_sequence_length, has_mask, is_prompt) =>
  if kv_share_buffer && bool_decide (attention_mask = None) then
    invalid "attention_mask tensor must be present when kv-share buffer is on."
  else
  let '(present_sequence_length, max_sequence_length) :=
    if kv_share_buffer then (max_sequence_length, max_sequence_length)
    else
      let present_sequence_length := int_add past_sequence_length kv_sequence_length in
      (present_sequence_length, present_sequence_length) in
  match parameters with
  | Some _ =>
      head_size ← unchecked (int_div q_hidden_size num_heads);
      mret (OK,
            Some (mkGroupQueryAttentionParameters batch_size sequence_length
                    past_sequence_length kv_sequence_length present_sequence_length
                    max_sequence_length mask_sequence_length q_hidden_size num_heads
                    head_size kv_hidden_size kv_num_heads kv_share_buffer true
                    has_mask is_prompt scale qkv_format past_kv_format))
  | None => mret (OK, None)
  end
  end
  end.

(** The overload of [CheckInputs] that takes [max_threads_per_block]. *)
Definition CheckInputs_max_threads (query key value past_key past_value : option Tensor)
    (parameters : option GroupQueryAttentionParameters)
    (num_heads kv_num_heads : Z) (attention_mask : option Tensor)
    (is_past_bsnh kv_share_buffer : bool) (scale : Z) (max_threads_per_block : Z)
    : Result (Status * option GroupQueryAttentionParameters) :=
  if bool_decide (0 < max_threads_per_block) && bool_decide (max_threads_per_block < num_heads)
  then
    mret (INVALID_ARGUMENT ("num_heads should be no larger than "
                            +:+ to_string max_threads_per_block),
          parameters)
  else
    CheckInputs query key value past_key past_value parameters num_heads kv_num_heads
      attention_mask is_past_bsnh kv_share_buffer scale.

(** The dimensions of a tensor that is present. *)
Definition shape (t : option Tensor) : option (list Z) := GetDims <$> t.

(** The two layouts of a past tensor: (B, S, N, H) and (B, N, S, H). *)
Definition past_shape (is_past_bsnh : bool) (B N S H : Z) : list Z :=
  if is_past_bsnh then [B; S; N; H] else [B; N; S; H].

(** What the inputs of [CheckInputs] have to satisfy, with the numbers
    [B], [S], [D] of the query, [S_kv], [D_kv] of the key and the past
    length [S_past] (0 without past tensors). *)
Definition accepted (query key value past_key past_value : option Tensor)
    (num_heads kv_num_heads : Z) (attention_mask : option Tensor)
    (is_past_bsnh kv_share_buffer : bool) (B S D S_kv D_kv S_past : Z) : Prop :=
  shape query = Some [B; S; D] ∧
  shape key = Some [B; S_kv; D_kv] ∧
  shape value = Some [B; to_int S_kv; to_int D_kv] ∧
  (∃ head_size, int_div (to_int D) num_heads = Some head_size ∧
     ((past_key = None ∧ past_value = None ∧ kv_share_buffer = false ∧ S_past = 0) ∨
      (shape past_key
         = Some (past_shape is_past_bsnh (to_int B) kv_num_heads S_past head_size) ∧
       shape past_value
         = Some (past_shape is_past_bsnh (to_int B) kv_num_heads S_past head_size)))) ∧
  int_rem num_heads kv_num_heads = Some 0 ∧
  (∀ mask, attention_mask = Some mask →
     ∃ total rest, GetDims mask = to_int B :: total :: rest) ∧
  (kv_share_buffer = true → is_Some attention_mask).

(** A decoding step: two sequences, one new token each, 8 heads of size 8
    over 4 key-value heads, 16 past tokens in the layout (B, N, S, H). *)
Module Decoding.

Definition query : Tensor := mkTensor [2; 1; 64].
Definition key : Tensor := mkTensor [2; 1; 32].
Definition value : Tensor := mkTensor [2; 1; 32].
Definition past_key : Tensor := mkTensor [2; 4; 16; 8].
Definition past_value : Tensor := mkTensor [2; 4; 16; 8].
Definition attention_mask : Tensor := mkTensor [2; 17].

Definition before : GroupQueryAttentionParameters :=
  mkGroupQueryAttentionParameters 0 0 0 0 0 0 0 0 0 0 0 0 false false false false 0
    Q_K_V_BSNH Q_K_V_BSNH.

Definition after : GroupQueryAttentionParameters :=
  mkGroupQueryAttentionParameters 2 1 16 1 17 17 17 64 8 8 32 4 false true true false 0
    Q_K_V_BSNH Q_K_V_BNSH.

End Decoding.

(** A decoding step whose past length is the largest [int]. *)
Module Overflowing.

Definition past_key : Tensor := mkTensor [2; 4; 2147483647; 8].
Definition past_value : Tensor := mkTensor [2; 4; 2147483647; 8].

Definition after : GroupQueryAttentionParameters :=
  mkGroupQueryAttentionParameters 2 1 2147483647 1 (-2147483648) (-2147483648) 0 64 8 8
    32 4 false true false false 0 Q_K_V_BSNH Q_K_V_BNSH.

End Overflowing.

End group_query_attention_helper.

(** * Properties *)

Lemma bind_Ok {A B} (m : Result A) (f : A → Result B) (b : B) :
  (m ≫= f) = Ok b ↔ ∃ a, m = Ok a ∧ f a = Ok b.
Proof.
  destruct m as [a|e]; simpl; split.
  - intros H. by exists a.
  - by intros (a' & [= ->] & H).
  - intros H. discriminate H.
  - by intros (a' & [=] & _).
Qed.

Lemma bind_Throw {A B} (m : Result A) (f : A → Result B) (e : Failure) :
  (m ≫= f) = Throw e ↔ m = Throw e ∨ ∃ a, m = Ok a ∧ f a = Throw e.
Proof.
  destruct m as [a|e']; simpl; split.
  - intros H. right. by exists a.
  - intros [[=]|(a' & [= ->] & H)]. done.
  - intros [= ->]. by left.
  - intros [[= ->]|(a' & [=] & _)]. done.
Qed.

Lemma same_dimension_agree d1 d2 :
  same_dimension d1 d2 = true ↔ dims_agree d1 d2.
Proof.
  unfold same_dimension, dims_agree.
  destruct d1 as [v1|p1|], d2 as [v2|p2|]; simpl;
    try (split; [discriminate | intros [(? & ? & ?)|(? & ? & ? & ?)]; discriminate]).
  - case_bool_decide as Hv; split.
    + intros _. left. exists v1. by subst.
    + done.
    + discriminate.
    + intros [(v & [= ->] & [= ->])|(p & [=] & _)]. done.
  - rewrite andb_true_iff, bool_decide_eq_true, negb_true_iff, bool_decide_eq_false.
    split.
    + intros [-> Hne]. right. by exists p2.
    + intros [(v & [=] & _)|(p & [= ->] & [= ->] & Hne)]. done.
Qed.

Lemma SameShape_dims_agree s1 s2 :
  length s1 = length s2 →
  SameShape_dims s1 s2 = true ↔
  ∀ (i : nat) d1 d2, s1 !! i = Some d1 → s2 !! i = Some d2 → dims_agree d1 d2.
Proof.
  revert s2. induction s1 as [|d1 s1 IH]; intros [|d2 s2] Hlen; simpl in *;
    try discriminate.
  - split; [|done]. intros _ i d1 d2 H. by rewrite lookup_nil in H.
  - injection Hlen as Hlen. destruct (same_dimension d1 d2) eqn:Hd.
    + rewrite (IH s2 Hlen). apply same_dimension_agree in Hd. split.
      * intros Hrest [|i] e1 e2; simpl.
        -- by intros [= <-] [= <-].
        -- apply Hrest.
      * intros Hall i e1 e2. apply (Hall (S i)).
    + split; [discriminate|]. intros Hall.
      assert (dims_agree d1 d2) as Hag by (by apply (Hall 0%nat)).
      apply same_dimension_agree in Hag. congruence.
Qed.

Lemma SameShape_agree s1 s2 : SameShape s1 s2 = true ↔ shapes_agree s1 s2.
Proof.
  unfold SameShape, shapes_agree. case_bool_decide as Hlen; simpl.
  - rewrite SameShape_dims_agree by done.
    split; [intros H; by split | by intros [_ H]].
  - split; [discriminate|]. intros [Hl _]. congruence.
Qed.

Lemma SameSize_rule s1 a1 s2 a2 :
  SameSize s1 a1 s2 a2 = Ok true ↔ same_size_rule s1 a1 s2 a2.
Proof.
  unfold SameSize, same_size_rule, GetElementSize, ORT_ENFORCE, is_string_tensor.
  rewrite <- SameShape_agree.
  destruct (bool_decide (type_case a1 = kTensorType)); simpl;
    [|split; [discriminate | intros (_ & _ & (sz & H1 & _) & _); discriminate]].
  destruct (bool_decide (type_case a2 = kTensorType)); simpl;
    [|split; [discriminate | intros (_ & _ & (sz & _ & H2) & _); discriminate]].
  unfold mret, Result_ret.
  destruct (decide (elem_type a1 = TensorProto_DataType_STRING)) as [E1|E1];
    [rewrite (bool_decide_eq_true_2 _ E1) | rewrite (bool_decide_eq_false_2 _ E1)];
    simpl; [split; [discriminate | by intros (? & _)]|].
  destruct (decide (elem_type a2 = TensorProto_DataType_STRING)) as [E2|E2];
    [rewrite (bool_decide_eq_true_2 _ E2) | rewrite (bool_decide_eq_false_2 _ E2)];
    simpl; [split; [discriminate | by intros (_ & ? & _)]|].
  destruct (decide (elem_size a1 = elem_size a2)) as [Ez|Ez];
    [rewrite (bool_decide_eq_true_2 _ Ez) | rewrite (bool_decide_eq_false_2 _ Ez)];
    simpl.
  - split.
    + intros [= Hsh]. repeat split; try done. exists (elem_size a1). by rewrite Ez.
    + intros (_ & _ & _ & Hsh). by rewrite Hsh.
  - split; [discriminate|]. intros (_ & _ & (sz & [= H1] & [= H2]) & _). congruence.
Qed.

(** C6.  The size-equality predicate holds for two values exactly when
    neither is string-typed, their element sizes are equal and their
    shapes agree rank-wise, every dimension equal by known value or by a
    non-empty symbolic name; the member form, which looks the shapes up
    in the context, holds exactly when in addition both arguments exist
    and both shapes are known, and answers "different" as soon as one
    shape is unknown. *)
Theorem SameSize_characterisation (ctx : ISequentialPlannerContext)
    (s1 s2 : TensorShapeProto) (a1 a2 : NodeArg) :
  (SameSize s1 a1 s2 a2 = Ok true ↔ same_size_rule s1 a1 s2 a2) ∧
  (SameSizeArgs ctx a1 a2 = Ok true ↔
     Exists a1 = true ∧ Exists a2 = true ∧
     ∃ p1 p2, GetShape ctx a1 = Some p1 ∧ GetShape ctx a2 = Some p2 ∧
              same_size_rule p1 a1 p2 a2) ∧
  (GetShape ctx a1 = None ∨ GetShape ctx a2 = None →
     SameSizeArgs ctx a1 a2 = Ok false).
Proof.
  split; [apply SameSize_rule|]. split.
  - unfold SameSizeArgs.
    destruct (Exists a1), (Exists a2); simpl;
      try (split; [discriminate | intros (? & ? & _); discriminate]).
    destruct (GetShape ctx a1) as [p1|], (GetShape ctx a2) as [p2|];
      try (split; [discriminate | intros (_ & _ & ? & ? & ? & ? & _); discriminate]).
    rewrite SameSize_rule. split.
    + intros H. repeat split; try done. by exists p1, p2.
    + by intros (_ & _ & q1 & q2 & [= <-] & [= <-] & H).
  - unfold SameSizeArgs. intros [H|H]; rewrite H;
      destruct (negb (Exists a1) || negb (Exists a2)); try done.
    by destruct (GetShape ctx a1).
Qed.

(** *** What the search returns *)

Lemma at_index_Some {A} (l : list A) (n : Z) (x : A) :
  at_index l n = Some x ↔ 0 ≤ n ∧ l !! Z.to_nat n = Some x.
Proof.
  unfold at_index. case_bool_decide; split; try done.
  - by intros [_ ?].
  - intros [? _]. lia.
Qed.

Lemma at_index_lt {A} (l : list A) (n : Z) (x : A) :
  at_index l n = Some x → 0 ≤ n < Z.of_nat (length l).
Proof.
  intros [Hn Hl]%at_index_Some. apply lookup_lt_Some in Hl. lia.
Qed.

Lemma at_index_elem_of {A} (l : list A) (n : Z) (x : A) :
  at_index l n = Some x → x ∈ l.
Proof. intros [_ Hl]%at_index_Some. by eapply list_elem_of_lookup_2. Qed.

Lemma paired_input_Some input_args out entry p :
  paired_input input_args out entry = Some p ↔
  entry.2 = out ∧ at_index input_args entry.1 = Some p.
Proof.
  unfold paired_input. case_bool_decide as H2.
  - case_bool_decide as H1.
    + split; [by intros ? | by intros [_ ?]].
    + split; [done|]. intros [_ Hp]. apply at_index_lt in Hp. lia.
  - split; [done | by intros [? _]].
Qed.

Lemma Index_resolves E args p :
  names_resolve E args → p ∈ args → Exists p = true →
  ∃ idx, Index E (Name p) = Ok idx.
Proof.
  intros Hres Hin Hex. destruct (Hres p Hin Hex) as [idx Hidx].
  exists idx. unfold Index. by rewrite Hidx.
Qed.

Lemma FindReusableInput_alias_found E input_args out alias_map :
  names_resolve E input_args →
  (∃ entry p, entry ∈ alias_map ∧ entry_applies input_args out entry p) →
  ∃ entry p idx, entry ∈ alias_map ∧ entry_applies input_args out entry p ∧
    Index E (Name p) = Ok idx ∧
    FindReusableInput_alias E input_args out alias_map = Ok (Some idx).
Proof.
  intros Hres. induction alias_map as [|e rest IH]; intros (entry & p & Hin & Happ).
  - by apply elem_of_nil in Hin.
  - simpl. destruct (paired_input input_args out e) as [q|] eqn:Hq.
    + destruct (Exists q) eqn:Hex.
      * apply paired_input_Some in Hq as [Hq2 Hq1].
        destruct (Index_resolves E input_args q Hres) as [idx Hidx];
          [by eapply at_index_elem_of | done |].
        exists e, q, idx. rewrite Hidx. simpl.
        split; [by left|]. split; [by split|]. done.
      * assert (entry ≠ e) as Hne.
        { intros ->. destruct Happ as (H2 & H1 & Hex').
          assert (paired_input input_args out e = Some p) as Hp
            by (by apply paired_input_Some).
          congruence. }
        apply elem_of_cons in Hin as [->|Hin]; [done|].
        destruct IH as (e' & p' & idx & Hin' & Happ' & Hidx & Hrun); [by exists entry, p|].
        exists e', p', idx. split; [by right|done].
    + assert (entry ≠ e) as Hne.
      { intros ->. destruct Happ as (H2 & H1 & Hex').
        assert (paired_input input_args out e = Some p) as Hp
          by (by apply paired_input_Some).
        congruence. }
      apply elem_of_cons in Hin as [->|Hin]; [done|].
      destruct IH as (e' & p' & idx & Hin' & Happ' & Hidx & Hrun); [by exists entry, p|].
      exists e', p', idx. split; [by right|done].
Qed.

Lemma FindReusableInput_alias_none E input_args out alias_map :
  (¬ ∃ entry p, entry ∈ alias_map ∧ entry_applies input_args out entry p) →
  FindReusableInput_alias E input_args out alias_map = Ok None.
Proof.
  induction alias_map as [|e rest IH]; intros Hno; [done|].
  simpl. assert (FindReusableInput_alias E input_args out rest = Ok None) as Hrest.
  { apply IH. intros (entry & p & Hin & Happ). apply Hno. exists entry, p.
    split; [by right|done]. }
  destruct (paired_input input_args out e) as [q|] eqn:Hq; [|done].
  destruct (Exists q) eqn:Hex; [|done].
  exfalso. apply Hno. exists e, q. apply paired_input_Some in Hq as [? ?].
  split; [by left|done].
Qed.

Lemma FindReusableInput_inplace_Some E st input_args p_out out inplace_map r :
  FindReusableInput_inplace E st input_args p_out out inplace_map = Ok (Some r) →
  ∃ entry p original, entry ∈ inplace_map ∧ entry_applies input_args out entry p ∧
    Index E (Name p) = Ok r ∧ Buffer st r = Ok original ∧
    UseCount st original = Ok 1 ∧
    SameSizeArgs (context_ E) p p_out = Ok true.
Proof.
  induction inplace_map as [|e rest IH]; [done|]. simpl. intros Hrun.
  assert (FindReusableInput_inplace E st input_args p_out out rest = Ok (Some r) →
          ∃ entry p original, entry ∈ e :: rest ∧ entry_applies input_args out entry p ∧
            Index E (Name p) = Ok r ∧ Buffer st r = Ok original ∧
            UseCount st original = Ok 1 ∧
            SameSizeArgs (context_ E) p p_out = Ok true) as Hnext.
  { intros (e' & p' & o' & Hin & H)%IH. exists e', p', o'. split; [by right|done]. }
  destruct (paired_input input_args out e) as [q|] eqn:Hq; [|by apply Hnext].
  destruct (Exists q) eqn:Hex; [|by apply Hnext].
  apply bind_Ok in Hrun as (idx & Hidx & Hrun).
  apply bind_Ok in Hrun as (original & Hbuf & Hrun).
  apply bind_Ok in Hrun as (c & Hc & Hrun).
  case_bool_decide as H1; [|by apply Hnext]. subst c.
  apply bind_Ok in Hrun as (same & Hsame & Hrun).
  destruct same; [|by apply Hnext].
  injection Hrun as <-. apply paired_input_Some in Hq as [? ?].
  exists e, q, original. split; [by left|done].
Qed.

(** C4.  For an output [out] of a node whose kernel definition is [kd]:
    when an alias entry names an existing input, that input is returned,
    whatever the use counts and shapes are; failing that, the input the
    variadic alias offsets compute is returned in the same way when it
    exists; and when neither applies, an input is returned only for a
    may-inplace entry whose buffer root has use count exactly 1 and whose
    size equals the output's under the size-equality rule. *)
Theorem FindReusableInput_rules (E : PlannerEnv) (st : PlannerState)
    (node : Node) (out : Z) (kd : KernelDef) (p_out : NodeArg)
    (Hci : kernel_create_info_map_ E !! Node_Index node
           = Some (mkKernelCreateInfo (Some kd)))
    (Hout : at_index (OutputDefs node) out = Some p_out)
    (Hres : names_resolve E (InputDefs node)) :
  let alias_applies :=
    ∃ entry p, entry ∈ Alias kd ∧ entry_applies (InputDefs node) out entry p in
  let variadic_input p :=
    ∃ input_offset output_offset,
      VariadicAlias kd = Some (input_offset, output_offset) ∧
      at_index (InputDefs node) (out - output_offset + input_offset) = Some p ∧
      Exists p = true in
  (alias_applies →
     ∀ st', ∃ entry p idx,
       entry ∈ Alias kd ∧ entry_applies (InputDefs node) out entry p ∧
       Index E (Name p) = Ok idx ∧
       FindReusableInput E st' node out = Ok (Some idx)) ∧
  (¬ alias_applies →
     ∀ p, variadic_input p →
       ∀ st', ∃ idx, Index E (Name p) = Ok idx ∧
                     FindReusableInput E st' node out = Ok (Some idx)) ∧
  (¬ alias_applies → (¬ ∃ p, variadic_input p) →
     ∀ r, FindReusableInput E st node out = Ok (Some r) →
       ∃ entry p original,
         entry ∈ MayInplace kd ∧ entry_applies (InputDefs node) out entry p ∧
         Index E (Name p) = Ok r ∧ Buffer st r = Ok original ∧
         UseCount st original = Ok 1 ∧
         SameSizeArgs (context_ E) p p_out = Ok true).
Proof.
  intros alias_applies variadic_input.
  assert (∀ st', FindReusableInput E st' node out =
    (by_alias ← FindReusableInput_alias E (InputDefs node) out (Alias kd);
     match by_alias with
     | Some reusable_input => mret (Some reusable_input)
     | None =>
         by_variadic ← FindReusableInput_variadic E (InputDefs node) out
                         (VariadicAlias kd);
         match by_variadic with
         | Some reusable_input => mret (Some reusable_input)
         | None =>
             FindReusableInput_inplace E st' (InputDefs node) p_out out
               (MayInplace kd)
         end
     end)) as Hunfold.
  { intros st'. unfold FindReusableInput, GetKernelCreateInfo.
    by rewrite Hout, Hci. }
  split; [|split].
  - intros Happ st'.
    destruct (FindReusableInput_alias_found E _ out (Alias kd) Hres Happ)
      as (entry & p & idx & Hin & Hentry & Hidx & Hrun).
    exists entry, p, idx. rewrite Hunfold, Hrun. done.
  - intros Hno p (io & oo & Hva & Hp & Hex) st'.
    destruct (Index_resolves E _ p Hres) as [idx Hidx];
      [by eapply at_index_elem_of | done |].
    exists idx. split; [done|].
    rewrite Hunfold, (FindReusableInput_alias_none E _ out _ Hno). simpl.
    unfold FindReusableInput_variadic. rewrite Hva, Hp, Hex, Hidx. done.
  - intros Hno Hnov r. rewrite Hunfold, (FindReusableInput_alias_none E _ out _ Hno).
    simpl. unfold FindReusableInput_variadic.
    destruct (VariadicAlias kd) as [[io oo]|] eqn:Hva; simpl;
      [|apply FindReusableInput_inplace_Some].
    destruct (at_index (InputDefs node) (out - oo + io)) as [q|] eqn:Hq; simpl;
      [|apply FindReusableInput_inplace_Some].
    destruct (Exists q) eqn:Hex; simpl; [|apply FindReusableInput_inplace_Some].
    exfalso. apply Hnov. exists q, io, oo. done.
Qed.

(** ** Planner state accessors *)

Lemma checked_Ok {A} (o : option A) (a : A) : checked o = Ok a ↔ o = Some a.
Proof. destruct o; simpl; split; congruence. Qed.

Lemma unchecked_Ok {A} (o : option A) (a : A) : unchecked o = Ok a ↔ o = Some a.
Proof. destruct o; simpl; split; congruence. Qed.

Lemma at_index_insert {A} (l : list A) (n v : Z) (x y : A) :
  at_index l n = Some y →
  at_index (<[Z.to_nat n := x]> l) v =
    if decide (v = n) then Some x else at_index l v.
Proof.
  intros Hn. pose proof (at_index_lt _ _ _ Hn) as Hlt.
  unfold at_index. destruct (decide (v = n)) as [->|Hne].
  - rewrite bool_decide_eq_true_2 by lia. apply list_lookup_insert_eq. lia.
  - case_bool_decide; [|done]. apply list_lookup_insert_ne. lia.
Qed.

Lemma update_info_Ok f st n st' :
  update_info f st n = Ok st' →
  ∃ info, at_index (ort_value_info_ st) n = Some info ∧
    st' = mkPlannerState (<[Z.to_nat n := f info]> (ort_value_info_ st))
                         (allocation_plan st) (freelist_ st).
Proof.
  unfold update_info. intros (info & Hinfo%checked_Ok & [= <-])%bind_Ok. by exists info.
Qed.

Lemma update_info_lookup f st n st' v :
  update_info f st n = Ok st' →
  at_index (ort_value_info_ st') v =
    if decide (v = n) then f <$> at_index (ort_value_info_ st) n
    else at_index (ort_value_info_ st) v.
Proof.
  intros (info & Hinfo & ->)%update_info_Ok. simpl.
  rewrite (at_index_insert _ _ _ _ _ Hinfo). destruct (decide (v = n)); [|done].
  by rewrite Hinfo.
Qed.

Lemma update_info_frame f st n st' :
  update_info f st n = Ok st' →
  allocation_plan st' = allocation_plan st ∧ freelist_ st' = freelist_ st ∧
  length (ort_value_info_ st') = length (ort_value_info_ st).
Proof.
  intros (info & Hinfo & ->)%update_info_Ok. simpl. by rewrite length_insert.
Qed.

Lemma UseCount_set_UseCount st n c st' v :
  set_UseCount st n c = Ok st' →
  UseCount st' v = if decide (v = n) then Ok c else UseCount st v.
Proof.
  intros Hset. unfold UseCount. rewrite (update_info_lookup _ _ _ _ v Hset).
  destruct (decide (v = n)); [|done].
  apply update_info_Ok in Hset as (info & -> & _). done.
Qed.

Lemma Buffer_set_UseCount st n c st' v :
  set_UseCount st n c = Ok st' → Buffer st' v = Buffer st v.
Proof.
  intros Hset. unfold Buffer. rewrite (update_info_lookup _ _ _ _ v Hset).
  destruct (decide (v = n)) as [->|]; [|done].
  by destruct (at_index (ort_value_info_ st) n).
Qed.

Lemma Buffer_set_Buffer st n b st' v :
  set_Buffer st n b = Ok st' →
  Buffer st' v = if decide (v = n) then Ok b else Buffer st v.
Proof.
  intros Hset. unfold Buffer. rewrite (update_info_lookup _ _ _ _ v Hset).
  destruct (decide (v = n)); [|done].
  apply update_info_Ok in Hset as (info & -> & _). done.
Qed.

Lemma UseCount_set_Buffer st n b st' v :
  set_Buffer st n b = Ok st' → UseCount st' v = UseCount st v.
Proof.
  intros Hset. unfold UseCount. rewrite (update_info_lookup _ _ _ _ v Hset).
  destruct (decide (v = n)) as [->|]; [|done].
  by destruct (at_index (ort_value_info_ st) n).
Qed.

Lemma update_plan_Ok f st n st' :
  update_plan f st n = Ok st' →
  ∃ p, at_index (allocation_plan st) n = Some p ∧
    st' = mkPlannerState (ort_value_info_ st)
            (<[Z.to_nat n := f p]> (allocation_plan st)) (freelist_ st).
Proof.
  unfold update_plan, AllocPlan.
  intros (p & Hp%checked_Ok & [= <-])%bind_Ok. by exists p.
Qed.

Lemma AllocPlan_update_plan f st n st' :
  update_plan f st n = Ok st' →
  ∃ p, AllocPlan st n = Ok p ∧
    ∀ v, AllocPlan st' v = if decide (v = n) then Ok (f p) else AllocPlan st v.
Proof.
  intros (p & Hp & ->)%update_plan_Ok. exists p. unfold AllocPlan. simpl.
  rewrite Hp. split; [done|]. intros v.
  rewrite (at_index_insert _ _ _ _ _ Hp). by destruct (decide (v = n)).
Qed.

(** ** Use counts ([ComputeReuseCount]) *)

Lemma counts_add_refl v st : counts_add v 0 st st.
Proof. intros c Hc. by rewrite Z.add_0_r. Qed.

Lemma counts_add_trans v d1 d2 st1 st2 st3 :
  counts_add v d1 st1 st2 → counts_add v d2 st2 st3 →
  counts_add v (d1 + d2) st1 st3.
Proof.
  intros H12 H23 c Hc. rewrite Z.add_assoc. by apply H23, H12.
Qed.

Lemma foldR_counts_add {A} (v : OrtValueIndex) (w : A → Z)
    (body : PlannerState → A → Result PlannerState) (l : list A) :
  (∀ st x st', body st x = Ok st' → counts_add v (w x) st st') →
  ∀ st st', foldR body l st = Ok st' → counts_add v (sumZ w l) st st'.
Proof.
  intros Hbody. induction l as [|x l IH]; intros st st'; simpl.
  - intros [= <-]. apply counts_add_refl.
  - intros (st1 & H1 & Hrest)%bind_Ok.
    eapply counts_add_trans; [by eapply Hbody | by eapply IH].
Qed.

Lemma add_UseCount_counts st n k st' v :
  add_UseCount st n k = Ok st' →
  counts_add v (if decide (v = n) then k else 0) st st'.
Proof.
  unfold add_UseCount. intros (c0 & Hc0 & Hset)%bind_Ok c Hc.
  rewrite (UseCount_set_UseCount _ _ _ _ v Hset).
  destruct (decide (v = n)) as [->|]; [congruence|]. by rewrite Z.add_0_r.
Qed.

Lemma add_UseCount_name_counts E st name k st' v :
  add_UseCount_name E st name k = Ok st' →
  counts_add v (k * names_value E v name) st st'.
Proof.
  unfold add_UseCount_name, Index.
  intros (idx & Hidx%checked_Ok & Hadd)%bind_Ok.
  apply (add_UseCount_counts _ _ _ _ v) in Hadd.
  unfold names_value. rewrite Hidx.
  destruct (decide (v = idx)) as [->|Hne].
  - rewrite bool_decide_eq_true_2 by done. by rewrite Z.mul_1_r.
  - rewrite bool_decide_eq_false_2 by congruence. by rewrite Z.mul_0_r.
Qed.

Lemma sumZ_scale {A} (k : Z) (w : A → Z) (l : list A) :
  sumZ (λ a, k * w a) l = k * sumZ w l.
Proof. induction l as [|x l IH]; simpl; [lia|]. rewrite IH. lia. Qed.

Lemma sumZ_ext {A} (w1 w2 : A → Z) (l : list A) :
  (∀ a, w1 a = w2 a) → sumZ w1 l = sumZ w2 l.
Proof. intros H. induction l as [|x l IH]; simpl; [done|]. by rewrite H, IH. Qed.

Lemma ForEachWithIndex_counts E (args : list NodeArg) st st' v :
  ForEachWithIndex args (λ st (input : NodeArg), add_UseCount_name E st (Name input) 1)
    st = Ok st' →
  counts_add v (occurrences E v args) st st'.
Proof.
  unfold ForEachWithIndex, occurrences. apply foldR_counts_add.
  intros s a s'. destruct (Exists a).
  - intros H%(add_UseCount_name_counts _ _ _ _ _ v). by rewrite Z.mul_1_l in H.
  - intros [= <-]. apply counts_add_refl.
Qed.

Lemma ComputeReuseCount_node_counts E st node_index st' v :
  ComputeReuseCount_node E st node_index = Ok st' →
  counts_add v (node_use_count E v node_index) st st'.
Proof.
  unfold ComputeReuseCount_node, node_use_count.
  destruct (GetNode (graph_viewer_ E) node_index) as [pnode|]; [|done].
  intros (st1 & H1 & Hrun)%bind_Ok. apply bind_Ok in Hrun as (st2 & H2 & Hrun).
  apply bind_Ok in Hrun as (ext & Hext & Hrun). rewrite Hext.
  apply (ForEachWithIndex_counts _ _ _ _ v) in H1, H2.
  eapply counts_add_trans; [by eapply counts_add_trans|].
  set (k := if ext then 2 else 1).
  replace (match ext with true => 2 | false => 1 end) with k by done.
  unfold occurrences. rewrite <- sumZ_scale.
  revert Hrun. apply foldR_counts_add. intros s a s'. destruct (Exists a); simpl.
  - intros (idx & Hidx & Hadd)%bind_Ok.
    apply (add_UseCount_name_counts E s (Name a) k s' v).
    unfold add_UseCount_name. by rewrite Hidx.
  - intros [= <-]. rewrite Z.mul_0_r. apply counts_add_refl.
Qed.

Lemma ComputeReuseCount_counts_add (E : PlannerEnv) (st st' : PlannerState)
    (v : OrtValueIndex) :
  ComputeReuseCount E st = Ok st' → counts_add v (static_use_count E v) st st'.
Proof.
  unfold ComputeReuseCount, static_use_count. intros Hrun.
  change (counts_add v
    (sumZ (λ a, names_value E v (Name a)) (GetInputs (graph_viewer_ E)) +
     sumZ (λ a, names_value E v (Name a)) (outer_scope_node_args_ E) +
     sumZ (names_value E v) (GetAllInitializedTensors (graph_viewer_ E)) +
     sumZ (sumZ (node_use_count E v)) (stream_nodes_ E) +
     sumZ (λ a, names_value E v (Name a)) (GetOutputs (graph_viewer_ E))) st st').
  apply bind_Ok in Hrun as (st1 & H1 & Hrun).
  apply bind_Ok in Hrun as (st2 & H2 & Hrun).
  apply bind_Ok in Hrun as (st3 & H3 & Hrun).
  apply bind_Ok in Hrun as (st4 & H4 & H5).
  assert (∀ (l : list NodeArg) s s',
    foldR (λ st a, add_UseCount_name E st (Name a) 1) l s = Ok s' →
    counts_add v (sumZ (λ a, names_value E v (Name a)) l) s s') as Hargs.
  { intros l. apply foldR_counts_add. intros s a s' H.
    apply (add_UseCount_name_counts _ _ _ _ _ v) in H. by rewrite Z.mul_1_l in H. }
  assert (counts_add v (sumZ (names_value E v)
            (GetAllInitializedTensors (graph_viewer_ E))) st2 st3) as C3.
  { revert H3. apply foldR_counts_add. intros s a s' H.
    apply (add_UseCount_name_counts _ _ _ _ _ v) in H. by rewrite Z.mul_1_l in H. }
  assert (counts_add v (sumZ (sumZ (node_use_count E v)) (stream_nodes_ E)) st3 st4)
    as C4.
  { revert H4. apply foldR_counts_add. intros s order s'.
    apply foldR_counts_add. intros ? ? ?. apply ComputeReuseCount_node_counts. }
  apply Hargs in H1, H2, H5.
  repeat (eapply counts_add_trans; [|eassumption]). done.
Qed.

(** C7.  After [ComputeReuseCount] the use count of every value has grown
    by one for each occurrence as an explicit or implicit input of a node
    of a stream, by one for each time it is listed as graph input, as
    outer-scope argument, as initializer and as graph output, and for each
    occurrence as an existing node output by one, or by two when the
    producing kernel declares external outputs. *)
Theorem ComputeReuseCount_counts (E : PlannerEnv) (st st' : PlannerState)
    (v : OrtValueIndex) (c : Z) :
  ComputeReuseCount E st = Ok st' →
  UseCount st v = Ok c →
  UseCount st' v = Ok (c + static_use_count E v).
Proof. intros Hrun. by apply ComputeReuseCount_counts_add. Qed.

(** ** The freelist search ([FindReusableTensor]) *)

Lemma FindReusableTensor_scan_spec E st output_arg shape loc passed rest r :
  FindReusableTensor_scan E st output_arg shape loc passed rest = Ok r →
  match r with
  | Some (v, fl') =>
      ∃ skipped it rest',
        rest = skipped ++ it :: rest' ∧ v = ml_value it ∧
        fl' = (passed ++ skipped) ++ rest' ∧
        freed_matches E st output_arg shape loc it ∧
        Forall (λ e, ¬ freed_matches E st output_arg shape loc e) skipped
  | None => Forall (λ e, ¬ freed_matches E st output_arg shape loc e) rest
  end.
Proof.
  revert passed. induction rest as [|it rest IH]; intros passed; simpl.
  - intros [= <-]. constructor.
  - intros Hrun.
    assert (¬ freed_matches E st output_arg shape loc it →
            FindReusableTensor_scan E st output_arg shape loc (passed ++ [it]) rest = Ok r →
            match r with
            | Some (v, fl') =>
                ∃ skipped it0 rest',
                  it :: rest = skipped ++ it0 :: rest' ∧ v = ml_value it0 ∧
                  fl' = (passed ++ skipped) ++ rest' ∧
                  freed_matches E st output_arg shape loc it0 ∧
                  Forall (λ e, ¬ freed_matches E st output_arg shape loc e) skipped
            | None => Forall (λ e, ¬ freed_matches E st output_arg shape loc e) (it :: rest)
            end) as Hnext.
    { intros Hno Hrest. apply IH in Hrest. destruct r as [[v fl']|].
      - destruct Hrest as (skipped & it0 & rest' & -> & -> & -> & Hm & Hsk).
        exists (it :: skipped), it0, rest'. split; [done|]. split; [done|].
        split; [by rewrite <- !(assoc_L (++))|]. split; [done|]. by constructor.
      - by constructor. }
    apply bind_Ok in Hrun as (info & Hinfo%checked_Ok & Hrun).
    destruct (p_def_site info) as [p|] eqn:Hdef; cycle 1.
    { apply Hnext; [|done]. intros (i' & p' & ? & ? & ? & Hi' & Hp' & _). congruence. }
    destruct (IsOptionalType p) eqn:Hopt.
    { apply Hnext; [|done]. intros (i' & p' & ? & ? & ? & Hi' & Hp' & Ho' & _). congruence. }
    apply bind_Ok in Hrun as (idx & Hidx & Hrun).
    apply bind_Ok in Hrun as (available & Hav & Hrun).
    case_bool_decide as Hloc; simpl in Hrun; cycle 1.
    { apply Hnext; [|done].
      intros (i' & p' & idx' & av' & ? & Hi' & Hp' & Ho' & Hidx' & Hav' & Hloc' & _).
      congruence. }
    destruct (GetShape (context_ E) p) as [shape_a|] eqn:Hshape; cycle 1.
    { apply Hnext; [|done].
      intros (i' & p' & idx' & av' & ? & Hi' & Hp' & Ho' & Hidx' & Hav' & Hloc' & Hs' & _).
      congruence. }
    apply bind_Ok in Hrun as (same & Hsame & Hrun). destruct same; cycle 1.
    { apply Hnext; [|done].
      intros (i' & p' & idx' & av' & s' & Hi' & Hp' & Ho' & Hidx' & Hav' & Hloc' & Hs' & Hss).
      congruence. }
    injection Hrun as <-. exists [], it, rest. split; [done|]. split; [done|].
    split; [by rewrite app_nil_r|]. split; [|constructor].
    by exists info, p, idx, available, shape_a.
Qed.

Lemma FindReusableTensor_spec E st output_arg found st' :
  FindReusableTensor E st output_arg = Ok (found, st') →
  match found with
  | Some reused =>
      freelist_searched E output_arg ∧
      ∃ freelist', first_freed_match E st output_arg reused freelist' ∧
                   st' = with_freelist st freelist'
  | None =>
      st' = st ∧ (¬ freelist_searched E output_arg ∨ no_freed_match E st output_arg)
  end.
Proof.
  unfold FindReusableTensor, freelist_searched.
  destruct (GetEnableMemoryReuse (context_ E)); simpl; cycle 1.
  { intros [= <- <-]. split; [done|]. left. by intros [? _]. }
  destruct (GetShape (context_ E) output_arg) as [shape|] eqn:Hshape; cycle 1.
  { intros [= <- <-]. split; [done|]. left. by intros [_ (? & ? & _)]. }
  case_bool_decide as Hrank.
  { intros [= <- <-]. split; [done|]. left. intros [_ (s & [= <-] & Hne)].
    by destruct shape. }
  intros (idx & Hidx & Hrun)%bind_Ok.
  apply bind_Ok in Hrun as (required & Hreq & Hrun).
  apply bind_Ok in Hrun as (r & Hscan & Hrun).
  apply FindReusableTensor_scan_spec in Hscan.
  destruct r as [[v fl']|]; injection Hrun as <- <-.
  - destruct Hscan as (skipped & it & rest' & Hfl & -> & -> & Hm & Hsk).
    split. { split; [done|]. exists shape. split; [done|]. by intros ->. }
    exists (skipped ++ rest'). split; [|done].
    by exists idx, required, shape, skipped, it, rest'.
  - split; [done|]. right. by exists idx, required, shape.
Qed.

(** ** One output of the single-stream planner *)

Lemma plan_output_decides E pnode ext st i node_output st' :
  Exists node_output = true →
  plan_output E pnode ext st i node_output = Ok st' →
  ∃ current d,
    Index E (Name node_output) = Ok current ∧
    rule_applies E pnode ext st i node_output d ∧
    decision_effect E pnode st current d st'.
Proof.
  intros Hex. unfold plan_output. rewrite Hex. simpl.
  intros (current & Hcur & Hrun)%bind_Ok.
  apply bind_Ok in Hrun as (p0 & Hp0 & Hrun). exists current.
  destruct ext.
  { apply bind_Ok in Hrun as ([] & _ & Hrun). by exists External. }
  destruct (is_graph_output (graph_viewer_ E) node_output) eqn:Hgo.
  { by exists GraphOutput. }
  apply bind_Ok in Hrun as (by_input & Hin & Hrun).
  destruct by_input as [reused|].
  { exists (ReuseInput reused). split; [done|]. split; [|done]. simpl.
    destruct (IsParallelExecutionEnabled (context_ E)); [done|]. done. }
  assert (no_input_reused E st pnode i) as Hnoin.
  { unfold no_input_reused.
    destruct (IsParallelExecutionEnabled (context_ E)); [by left|by right]. }
  destruct (IsNonTensor node_output) eqn:Hnt.
  { by exists NonTensor. }
  apply bind_Ok in Hrun as ([found st1] & Hfl & Hrun).
  destruct (IsParallelExecutionEnabled (context_ E)) eqn:Hpar; simpl in Hfl.
  { injection Hfl as <- <-. exists Fresh. split; [done|]. split; [|done].
    simpl. rewrite Hpar. repeat split; try done. by left. }
  apply FindReusableTensor_spec in Hfl. destruct found as [reused|].
  - destruct Hfl as (Hsearched & fl' & Hfirst & ->).
    apply bind_Ok in Hrun as (st2 & Hreuse & Hrun).
    apply bind_Ok in Hrun as (original & _ & Hrun).
    apply bind_Ok in Hrun as (? & _ & [= <-]).
    exists (ReuseFreed reused fl'). split; [done|]. split; [|done].
    simpl. by rewrite Hpar.
  - destruct Hfl as (-> & Hno). exists Fresh. split; [done|]. split; [|done].
    simpl. rewrite Hpar. repeat split; try done. by right.
Qed.

Lemma Reuse_Ok st reused current kind st' :
  Reuse st reused current kind = Ok st' →
  reused ≠ current ∧
  ∃ original c_for c_orig p,
    Buffer st reused = Ok original ∧ UseCount st current = Ok c_for ∧
    UseCount st original = Ok c_orig ∧ AllocPlan st current = Ok p ∧
    (∀ v, Buffer st' v = if decide (v = current) then Ok original else Buffer st v) ∧
    (∀ v, UseCount st' v =
          if decide (v = original) then Ok (c_orig + c_for) else UseCount st v) ∧
    (∀ v, AllocPlan st' v =
          if decide (v = current) then Ok (mkAllocPlan kind original (location p))
          else AllocPlan st v) ∧
    freelist_ st' = freelist_ st.
Proof.
  unfold Reuse, ORT_ENFORCE. case_bool_decide as Hne; [done|]. simpl.
  intros (original & Horig & Hrun)%bind_Ok. split; [done|].
  apply bind_Ok in Hrun as (st1 & H1 & Hrun).
  apply bind_Ok in Hrun as (c_for & Hfor & Hrun).
  apply bind_Ok in Hrun as (c_orig & Horigc & Hrun).
  apply bind_Ok in Hrun as (st2 & H2 & Hrun).
  rewrite (UseCount_set_Buffer _ _ _ _ _ H1) in Hfor.
  rewrite (UseCount_set_Buffer _ _ _ _ _ H1) in Horigc.
  apply AllocPlan_update_plan in Hrun as Hplan. destruct Hplan as (p & Hp & Hplan).
  apply update_plan_Ok in Hrun as (p' & _ & ->).
  pose proof (update_info_frame _ _ _ _ H1) as (Hpl1 & Hfl1 & _).
  pose proof (update_info_frame _ _ _ _ H2) as (Hpl2 & Hfl2 & _).
  exists original, c_for, c_orig, p. split; [done|]. split; [done|]. split; [done|].
  split. { revert Hp. unfold AllocPlan. by rewrite Hpl2, Hpl1. }
  split. { intros v. change (Buffer st2 v = if decide (v = current) then Ok original else Buffer st v).
           rewrite (Buffer_set_UseCount _ _ _ _ v H2). apply (Buffer_set_Buffer _ _ _ _ v H1). }
  split. { intros v. change (UseCount st2 v = if decide (v = original) then Ok (c_orig + c_for) else UseCount st v).
           rewrite (UseCount_set_UseCount _ _ _ _ v H2).
           destruct (decide (v = original)); [done|]. apply (UseCount_set_Buffer _ _ _ _ v H1). }
  split. { intros v. rewrite Hplan. destruct (decide (v = current)); [done|].
           unfold AllocPlan. by rewrite Hpl2, Hpl1. }
  simpl. by rewrite Hfl2, Hfl1.
Qed.

Lemma set_alloc_kind_Ok st n k st' :
  set_alloc_kind st n k = Ok st' →
  ∃ p, AllocPlan st n = Ok p ∧
    (∀ v, AllocPlan st' v =
          if decide (v = n) then Ok (mkAllocPlan k (reused_buffer p) (location p))
          else AllocPlan st v) ∧
    ort_value_info_ st' = ort_value_info_ st ∧ freelist_ st' = freelist_ st.
Proof.
  intros Hrun. apply AllocPlan_update_plan in Hrun as Hplan.
  destruct Hplan as (p & Hp & Hplan). exists p. split; [done|]. split; [done|].
  by apply update_plan_Ok in Hrun as (p' & _ & ->).
Qed.

Lemma plan_graph_output_kind E pnode st current st' :
  plan_graph_output E pnode st current = Ok st' →
  ∃ plan', AllocPlan st' current = Ok plan' ∧
    (alloc_kind plan' = kAllocateOutput ∨
     alloc_kind plan' = kShare ∧ is_loop_identity E pnode = true).
Proof.
  unfold plan_graph_output. intros (st1 & H1 & Hrun)%bind_Ok.
  apply set_alloc_kind_Ok in H1 as (p & Hp & Hplan1 & _).
  assert (∃ plan', AllocPlan st1 current = Ok plan' ∧ alloc_kind plan' = kAllocateOutput)
    as Hout.
  { eexists. rewrite Hplan1. rewrite decide_True by done. done. }
  destruct (is_loop_identity E pnode) eqn:Hloop; cycle 1.
  { injection Hrun as <-. destruct Hout as (plan' & ? & ?). exists plan'. auto. }
  apply bind_Ok in Hrun as (input & _ & Hrun).
  apply bind_Ok in Hrun as (first_input & _ & Hrun).
  destruct (same_ptr input first_input).
  { injection Hrun as <-. destruct Hout as (plan' & ? & ?). exists plan'. auto. }
  apply bind_Ok in Hrun as (input_index & _ & Hrun).
  apply bind_Ok in Hrun as (alloc_plan & _ & Hrun).
  case_bool_decide; cycle 1.
  { injection Hrun as <-. destruct Hout as (plan' & ? & ?). exists plan'. auto. }
  apply Reuse_Ok in Hrun as (_ & original & ? & ? & p1 & _ & _ & _ & _ & _ & _ & Hplan & _).
  eexists. rewrite Hplan, decide_True by done. split; [done|]. right. done.
Qed.

(** The kind that the first matching rule gives to one existing output. *)
Lemma plan_output_first_rule (E : PlannerEnv) (pnode : Node) (ext : bool)
    (st st' : PlannerState) (i : nat) (node_output : NodeArg) :
  Exists node_output = true →
  plan_output E pnode ext st i node_output = Ok st' →
  ∃ current d plan',
    Index E (Name node_output) = Ok current ∧
    rule_applies E pnode ext st i node_output d ∧
    AllocPlan st' current = Ok plan' ∧
    match d with
    | External => alloc_kind plan' = kAllocatedExternally
    | GraphOutput =>
        alloc_kind plan' = kAllocateOutput ∨
        alloc_kind plan' = kShare ∧ is_loop_identity E pnode = true
    | ReuseInput reused | ReuseFreed reused _ =>
        alloc_kind plan' = kReuse ∧ Buffer st reused = Ok (reused_buffer plan')
    | NonTensor | Fresh => alloc_kind plan' = kAllocate
    end.
Proof.
  intros Hex Hrun.
  destruct (plan_output_decides _ _ _ _ _ _ _ Hex Hrun) as (current & d & Hcur & Hrule & Heff).
  exists current, d. destruct d as [| |reused| |reused fl'|]; simpl in Heff.
  - apply set_alloc_kind_Ok in Heff as (p & Hp & Hplan & _).
    eexists. split; [done|]. split; [done|]. rewrite Hplan, decide_True by done. done.
  - apply plan_graph_output_kind in Heff as (plan' & Hplan & Hkind). by exists plan'.
  - apply Reuse_Ok in Heff as (_ & original & ? & ? & p & Hbuf & _ & _ & _ & _ & _ & Hplan & _).
    eexists. split; [done|]. split; [done|]. rewrite Hplan, decide_True by done. done.
  - apply set_alloc_kind_Ok in Heff as (p & Hp & Hplan & _).
    eexists. split; [done|]. split; [done|]. rewrite Hplan, decide_True by done. done.
  - apply Reuse_Ok in Heff as (_ & original & ? & ? & p & Hbuf & _ & _ & _ & _ & _ & Hplan & _).
    eexists. split; [done|]. split; [done|]. rewrite Hplan, decide_True by done. done.
  - apply set_alloc_kind_Ok in Heff as (p & Hp & Hplan & _).
    eexists. split; [done|]. split; [done|]. rewrite Hplan, decide_True by done. done.
Qed.

(** A loop that returns has run its body on every element, after the
    elements before it and before the elements behind it. *)
Lemma foldR_indexed_at {A St} (body : St → nat → A → Result St) (l : list A) :
  ∀ i k x st st',
    foldR_indexed body i l st = Ok st' → l !! k = Some x →
    ∃ before after,
      foldR_indexed body i (take k l) st = Ok before ∧
      body before (i + k)%nat x = Ok after ∧
      foldR_indexed body (S (i + k)) (drop (S k) l) after = Ok st'.
Proof.
  induction l as [|y l IH]; intros i k x st st' Hrun Hk; [done|].
  simpl in Hrun. apply bind_Ok in Hrun as (st1 & Hbody & Hrun).
  destruct k as [|k]; simpl in Hk.
  - injection Hk as ->. exists st, st1. rewrite Nat.add_0_r. simpl. by rewrite drop_0.
  - destruct (IH (S i) k x st1 st' Hrun Hk) as (before & after & Hbefore & Hhere & Hafter).
    exists before, after. simpl. rewrite Hbody. simpl.
    replace (i + S k)%nat with (S i + k)%nat by lia. done.
Qed.




Lemma SameSize_characterisation_witness :
  SameSizeArgs (mkContext (λ _, None) false true) S1.a S1.b = Ok false.
Proof.
  apply (proj2 (proj2 (SameSize_characterisation
                         (mkContext (λ _, None) false true) [] [] S1.a S1.b))).
  left. reflexivity.
Defined.

Lemma FindReusableInput_rules_witness :
  ∃ entry p original,
    entry ∈ [(0, 0)] ∧ entry_applies [S1.a] 0 entry p ∧
    Index S1.env (Name p) = Ok 1 ∧ Buffer S1.before_B 1 = Ok original ∧
    UseCount S1.before_B original = Ok 1 ∧
    SameSizeArgs S1.context p S1.b = Ok true.
Proof.
  refine (proj2 (proj2 (FindReusableInput_rules S1.env S1.before_B S1.node_B 0
            (mkKernelDef [] None [(0, 0)] false) S1.b _ _ _)) _ _ 1 _).
  - vm_compute. reflexivity.
  - vm_compute. reflexivity.
  - intros p Hp _. apply list_elem_of_singleton in Hp as ->. exists 1.
    vm_compute. reflexivity.
  - intros (entry & p & Hin & _). by apply elem_of_nil in Hin.
  - intros (p & io & oo & Hva & _). discriminate Hva.
  - vm_compute. reflexivity.
Defined.

Lemma ComputeReuseCount_counts_witness :
  UseCount S1.counted 1 = Ok (0 + static_use_count S1.env 1).
Proof.
  apply (ComputeReuseCount_counts S1.env S1.init S1.counted 1 0);
    vm_compute; reflexivity.
Defined.

(** ** Failed assertions

    [DecrementUseCount] holds the only [assert] of the planner; every
    other failure is a failed [ORT_ENFORCE] or an access out of range. *)

Lemma no_assert_Ok {A} (a : A) : no_assert (Ok a).
Proof. by intros [=]. Qed.

Lemma no_assert_bind {A B} (m : Result A) (f : A → Result B) :
  no_assert m → (∀ a, m = Ok a → no_assert (f a)) → no_assert (m ≫= f).
Proof.
  destruct m as [a|e]; simpl.
  - intros _ H. apply H. reflexivity.
  - intros H _ [= ->]. by apply H.
Qed.

Lemma no_assert_checked {A} (o : option A) : no_assert (checked o).
Proof. by destruct o; intros [=]. Qed.

Lemma no_assert_unchecked {A} (o : option A) : no_assert (unchecked o).
Proof. by destruct o; intros [=]. Qed.

Lemma no_assert_ENFORCE b : no_assert (ORT_ENFORCE b).
Proof. by destruct b; intros [=]. Qed.

Create HintDb no_assert.
#[local] Hint Resolve no_assert_checked no_assert_unchecked no_assert_ENFORCE : no_assert.

Ltac no_assert_step :=
  match goal with
  | |- no_assert _ => solve [auto with no_assert]
  | |- no_assert (Ok _) => exact (no_assert_Ok _)
  | |- no_assert (mret _) => exact (no_assert_Ok _)
  | |- no_assert (Throw _) => by intros [=]
  | |- no_assert (_ ≫= _) => apply no_assert_bind; [|intros ? _]
  | |- no_assert (if ?b then _ else _) => destruct b
  | |- no_assert (match ?x with _ => _ end) => destruct x
  end.

Ltac no_assert_auto := repeat no_assert_step.

Lemma no_assert_Index E name : no_assert (Index E name).
Proof. unfold Index. no_assert_auto. Qed.

Lemma no_assert_UseCount st n : no_assert (UseCount st n).
Proof. unfold UseCount. no_assert_auto. Qed.

Lemma no_assert_Buffer st n : no_assert (Buffer st n).
Proof. unfold Buffer. no_assert_auto. Qed.

Lemma no_assert_AllocPlan st n : no_assert (AllocPlan st n).
Proof. unfold AllocPlan. no_assert_auto. Qed.

#[local] Hint Resolve no_assert_Index no_assert_UseCount no_assert_Buffer
  no_assert_AllocPlan : no_assert.

Lemma no_assert_update_info f st n : no_assert (update_info f st n).
Proof. unfold update_info. no_assert_auto. Qed.

Lemma no_assert_update_plan f st n : no_assert (update_plan f st n).
Proof. unfold update_plan. no_assert_auto. Qed.

#[local] Hint Resolve no_assert_update_info no_assert_update_plan : no_assert.

Lemma no_assert_set_alloc_kind st n k : no_assert (set_alloc_kind st n k).
Proof. unfold set_alloc_kind. no_assert_auto. Qed.

Lemma no_assert_Reuse st reused reused_for kind :
  no_assert (Reuse st reused reused_for kind).
Proof. unfold Reuse, set_Buffer, set_UseCount. no_assert_auto. Qed.

Lemma no_assert_HasExternalOutputs E node : no_assert (HasExternalOutputs E node).
Proof. unfold HasExternalOutputs, GetKernelCreateInfo. no_assert_auto. Qed.

Lemma no_assert_SameSize s1 a1 s2 a2 : no_assert (SameSize s1 a1 s2 a2).
Proof. unfold SameSize, GetElementSize. no_assert_auto. Qed.

#[local] Hint Resolve no_assert_set_alloc_kind no_assert_Reuse
  no_assert_HasExternalOutputs no_assert_SameSize : no_assert.

Lemma no_assert_SameSizeArgs ctx a1 a2 : no_assert (SameSizeArgs ctx a1 a2).
Proof. unfold SameSizeArgs. no_assert_auto. Qed.

#[local] Hint Resolve no_assert_SameSizeArgs : no_assert.

Lemma no_assert_FindReusableInput E st node out :
  no_assert (FindReusableInput E st node out).
Proof.
  assert (∀ args m, no_assert (FindReusableInput_alias E args out m)) as Halias.
  { intros args m. induction m as [|e m IH]; simpl; no_assert_auto. }
  assert (∀ args o, no_assert (FindReusableInput_variadic E args out o)) as Hvar.
  { intros args o. unfold FindReusableInput_variadic. no_assert_auto. }
  assert (∀ args p m, no_assert (FindReusableInput_inplace E st args p out m)) as Hin.
  { intros args p m. induction m as [|e m IH]; simpl; no_assert_auto. }
  unfold FindReusableInput, GetKernelCreateInfo. no_assert_auto.
Qed.

Lemma no_assert_FindReusableTensor E st output_arg :
  no_assert (FindReusableTensor E st output_arg).
Proof.
  assert (∀ shape loc passed rest,
    no_assert (FindReusableTensor_scan E st output_arg shape loc passed rest)) as Hscan.
  { intros shape loc passed rest. revert passed.
    induction rest as [|it rest IH]; intros passed; simpl; no_assert_auto. }
  unfold FindReusableTensor. no_assert_auto.
Qed.

#[local] Hint Resolve no_assert_FindReusableInput no_assert_FindReusableTensor
  : no_assert.

Lemma no_assert_plan_output E pnode ext st i node_output :
  no_assert (plan_output E pnode ext st i node_output).
Proof. unfold plan_output, plan_graph_output. no_assert_auto. Qed.

(** ** Use counts cover the pending uses *)

Lemma sumZ_app {A} (w : A → Z) (l1 l2 : list A) :
  sumZ w (l1 ++ l2) = sumZ w l1 + sumZ w l2.
Proof. induction l1 as [|x l1 IH]; simpl; [done|]. rewrite IH. lia. Qed.

Lemma sumZ_nonneg {A} (w : A → Z) (l : list A) :
  (∀ a, 0 ≤ w a) → 0 ≤ sumZ w l.
Proof.
  intros Hw. induction l as [|x l IH]; simpl; [done|]. specialize (Hw x). lia.
Qed.

Lemma sumZ_le {A} (w1 w2 : A → Z) (l : list A) :
  (∀ a, w1 a ≤ w2 a) → sumZ w1 l ≤ sumZ w2 l.
Proof.
  intros Hw. induction l as [|x l IH]; simpl; [done|]. specialize (Hw x). lia.
Qed.

Lemma pending_on_nonneg st events t : 0 ≤ pending_on st events t.
Proof. apply sumZ_nonneg. intros e. by case_bool_decide. Qed.

Lemma pending_on_cons st e events t :
  pending_on st (e :: events) t =
  (if bool_decide (Buffer st e = Ok t) then 1 else 0) + pending_on st events t.
Proof. done. Qed.

Lemma pending_on_app st ev1 ev2 t :
  pending_on st (ev1 ++ ev2) t = pending_on st ev1 t + pending_on st ev2 t.
Proof. apply sumZ_app. Qed.

Lemma pending_on_ext st st' events t :
  (∀ v, Buffer st' v = Buffer st v) →
  pending_on st' events t = pending_on st events t.
Proof. intros Hb. apply sumZ_ext. intros e. by rewrite Hb. Qed.

Lemma counts_cover_tail st ev1 ev2 :
  counts_cover st (ev1 ++ ev2) → counts_cover st ev2.
Proof.
  intros Hc t c Ht. specialize (Hc t c Ht). rewrite pending_on_app in Hc.
  pose proof (pending_on_nonneg st ev1 t). lia.
Qed.

Lemma counts_cover_ext st st' events :
  (∀ v, Buffer st' v = Buffer st v) → (∀ v, UseCount st' v = UseCount st v) →
  counts_cover st events → counts_cover st' events.
Proof.
  intros Hb Hu Hc t c Ht. rewrite (pending_on_ext _ _ _ _ Hb). apply Hc.
  by rewrite <- Hu.
Qed.

Lemma keeps_bind {A B} (m : Result A) (f : A → Result B) (P : A → Prop)
    (Q : B → Prop) :
  keeps m P → (∀ a, m = Ok a → P a → keeps (f a) Q) → keeps (m ≫= f) Q.
Proof. destruct m as [a|e]; simpl; [|done]. intros HP Hf. by apply Hf. Qed.

Lemma keeps_self {A} (m : Result A) : no_assert m → keeps m (λ _, True).
Proof. destruct m as [a|e]; simpl; [done|]. intros H ->. by apply H. Qed.

Lemma keeps_mono {A} (m : Result A) (P Q : A → Prop) :
  keeps m P → (∀ a, m = Ok a → P a → Q a) → keeps m Q.
Proof. destruct m as [a|e]; simpl; [|done]. intros HP Hf. by apply Hf. Qed.

Lemma keeps_no_assert {A} (m : Result A) (P : A → Prop) : keeps m P → no_assert m.
Proof. destruct m as [a|e]; simpl; intros H; intros [=]. by subst. Qed.

Lemma keeps_Ok {A} (m : Result A) (P : A → Prop) a : keeps m P → m = Ok a → P a.
Proof. by intros H ->. Qed.

(** What one release does to the state. *)
Lemma release_use_Ok st original pc st' :
  release_use st original pc = Ok st' →
  ∃ c, UseCount st original = Ok c ∧ 0 ≤ c - 1 ∧
    (∀ v, UseCount st' v = if decide (v = original) then Ok (c - 1) else UseCount st v) ∧
    (∀ v, Buffer st' v = Buffer st v) ∧
    allocation_plan st' = allocation_plan st ∧
    (c - 1 ≠ 0 ∧ freelist_ st' = freelist_ st ∨
     c - 1 = 0 ∧ freelist_ st' = mkFreeBufferInfo original pc :: freelist_ st).
Proof.
  unfold release_use, DecrementUseCount.
  intros ([use_count st1] & Hdec & Hrun)%bind_Ok.
  apply bind_Ok in Hdec as (c & Hc & Hdec).
  apply bind_Ok in Hdec as (st1' & Hset & Hdec).
  destruct (decide (0 ≤ c - 1)) as [Hnn|Hnn];
    [rewrite bool_decide_eq_true_2 in Hdec by done
    |rewrite bool_decide_eq_false_2 in Hdec by done; done].
  injection Hdec as <- <-.
  exists c. split; [done|]. split; [done|].
  pose proof (update_info_frame _ _ _ _ Hset) as (Hpl & Hfl & _).
  assert (∀ v, UseCount st1' v = if decide (v = original) then Ok (c - 1) else UseCount st v)
    as Hu by (intros v; apply (UseCount_set_UseCount _ _ _ _ v Hset)).
  assert (∀ v, Buffer st1' v = Buffer st v) as Hb
    by (intros v; apply (Buffer_set_UseCount _ _ _ _ v Hset)).
  case_bool_decide as Hz.
  - apply bind_Ok in Hrun as (p & _ & [= <-]). repeat split; try done.
    right. simpl. split; [lia|]. by rewrite Hfl.
  - injection Hrun as <-. repeat split; try done. left. split; [lia|done].
Qed.

(** One release: the buffer [original] of the head event loses one use,
    and its count stays non-negative. *)
Lemma release_use_keeps st e events original pc :
  counts_cover st (e :: events) → Buffer st e = Ok original →
  keeps (release_use st original pc)
        (λ st', counts_cover st' events ∧ ∀ v, Buffer st' v = Buffer st v).
Proof.
  intros Hcover Hbuf.
  destruct (release_use st original pc) as [st'|f] eqn:Hrun; simpl.
  - apply release_use_Ok in Hrun as (c & Hc & Hnn & Hu & Hb & _). split; [|done].
    intros t c' Ht. rewrite (pending_on_ext _ _ _ _ Hb). rewrite Hu in Ht.
    pose proof (Hcover t) as Hle. rewrite pending_on_cons in Hle.
    destruct (decide (t = original)) as [->|Hne].
    + injection Ht as <-. specialize (Hle c Hc).
      rewrite bool_decide_eq_true_2 in Hle by done. lia.
    + specialize (Hle c' Ht). case_bool_decide; lia.
  - intros ->. revert Hrun. unfold release_use, DecrementUseCount.
    destruct (UseCount st original) as [c|f] eqn:Hc; simpl;
      [|pose proof (no_assert_UseCount st original) as Hna; rewrite Hc in Hna; congruence].
    destruct (set_UseCount st original (c - 1)) as [st1|f] eqn:Hset; simpl;
      [|pose proof (no_assert_update_info
          (λ i, mkOrtValueInfo (p_def_site i) (c - 1) (reused_buffer_index i)) st original)
          as Hna; unfold set_UseCount in Hset; rewrite Hset in Hna; congruence].
    pose proof (Hcover original c Hc) as Hle. rewrite pending_on_cons in Hle.
    rewrite bool_decide_eq_true_2 in Hle by done.
    pose proof (pending_on_nonneg st events original) as Hnn.
    rewrite bool_decide_eq_true_2 by lia. simpl.
    case_bool_decide; [|done].
    destruct (AllocPlan st1 original) as [p|f] eqn:Hp; simpl; [done|].
    pose proof (no_assert_AllocPlan st1 original) as Hna. rewrite Hp in Hna. congruence.
Qed.

Lemma arg_value_Index E a idx :
  Exists a = true → (Index E (Name a) = Ok idx ↔ arg_value E a = Some idx).
Proof.
  intros Hex. unfold arg_value, Index. rewrite Hex. apply checked_Ok.
Qed.

Lemma arg_value_Exists E a idx : arg_value E a = Some idx → Exists a = true.
Proof. unfold arg_value. by destruct (Exists a). Qed.

Lemma free_arg_keeps E pc st a events (skip_removed : bool) :
  counts_cover st (option_list (arg_value E a) ++ events) →
  keeps (if Exists a then
           sym ← Index E (Name a);
           original ← Buffer st sym;
           if skip_removed && bool_decide (original = -1) then mret st
           else release_use st original pc
         else mret st)
        (λ st', counts_cover st' events ∧ ∀ v, Buffer st' v = Buffer st v).
Proof.
  intros Hcover. destruct (Exists a) eqn:Hex; simpl.
  - destruct (Index E (Name a)) as [sym|f] eqn:Hsym; simpl;
      [|pose proof (no_assert_Index E (Name a)) as Hna; rewrite Hsym in Hna; congruence].
    apply arg_value_Index in Hsym; [|done]. rewrite Hsym in Hcover. simpl in Hcover.
    destruct (Buffer st sym) as [original|f] eqn:Hbuf; simpl;
      [|pose proof (no_assert_Buffer st sym) as Hna; rewrite Hbuf in Hna; congruence].
    destruct (skip_removed && bool_decide (original = -1)); simpl.
    + split; [|done]. by apply (counts_cover_tail st [sym]).
    + by eapply release_use_keeps.
  - split; [|done]. unfold arg_value in Hcover. by rewrite Hex in Hcover.
Qed.

Lemma free_input_keeps E pc st a events :
  counts_cover st (option_list (arg_value E a) ++ events) →
  keeps (free_input E pc st a)
        (λ st', counts_cover st' events ∧ ∀ v, Buffer st' v = Buffer st v).
Proof.
  intros Hcover. pose proof (free_arg_keeps E pc st a events true Hcover) as H.
  unfold free_input. destruct (Exists a); [|done].
  destruct (Index E (Name a)) as [sym|]; [|done]. simpl in *.
  destruct (Buffer st sym) as [original|]; [|done]. simpl in *.
  by destruct (bool_decide (original = -1)).
Qed.

Lemma free_output_keeps E pc st a events :
  counts_cover st (option_list (arg_value E a) ++ events) →
  keeps (free_output E pc st a)
        (λ st', counts_cover st' events ∧ ∀ v, Buffer st' v = Buffer st v).
Proof. intros Hcover. apply (free_arg_keeps E pc st a events false Hcover). Qed.

Lemma omap_cons_option_list {A B} (f : A → option B) (a : A) (l : list A) :
  omap f (a :: l) = option_list (f a) ++ omap f l.
Proof. simpl. by destruct (f a). Qed.

Lemma foldR_free_keeps E (body : PlannerState → NodeArg → Result PlannerState)
    (args : list NodeArg) st events :
  (∀ st a events,
     counts_cover st (option_list (arg_value E a) ++ events) →
     keeps (body st a)
           (λ st', counts_cover st' events ∧ ∀ v, Buffer st' v = Buffer st v)) →
  counts_cover st (omap (arg_value E) args ++ events) →
  keeps (foldR body args st)
        (λ st', counts_cover st' events ∧ ∀ v, Buffer st' v = Buffer st v).
Proof.
  intros Hbody. revert st. induction args as [|a args IH]; intros st Hcover.
  - done.
  - rewrite omap_cons_option_list, <- (assoc_L (++)) in Hcover.
    simpl. eapply keeps_bind; [by apply Hbody|]. simpl.
    intros st1 _ [Hc1 Hb1]. eapply keeps_mono; [by apply IH|]. simpl.
    intros st2 _ [Hc2 Hb2]. split; [done|]. intros v. by rewrite Hb2.
Qed.

Lemma Buffer_of_infos st st' v :
  ort_value_info_ st' = ort_value_info_ st → Buffer st' v = Buffer st v.
Proof. unfold Buffer. by intros ->. Qed.

Lemma UseCount_of_infos st st' v :
  ort_value_info_ st' = ort_value_info_ st → UseCount st' v = UseCount st v.
Proof. unfold UseCount. by intros ->. Qed.

Lemma UseCount_Buffer_range st v c :
  UseCount st v = Ok c → ∃ b, Buffer st v = Ok b.
Proof.
  unfold UseCount, Buffer. destruct (at_index (ort_value_info_ st) v); [|done].
  intros _. by eexists.
Qed.

Lemma Buffer_UseCount_range st v b :
  Buffer st v = Ok b → ∃ c, UseCount st v = Ok c.
Proof.
  unfold UseCount, Buffer. destruct (at_index (ort_value_info_ st) v); [|done].
  intros _. by eexists.
Qed.

Lemma Buffer_nonneg st v b : Buffer st v = Ok b → 0 ≤ v.
Proof.
  unfold Buffer. destruct (at_index (ort_value_info_ st) v) eqn:H; [|done].
  intros _. by apply at_index_Some in H as [? _].
Qed.

(** The number of events that name value [t]. *)
Lemma pending_after_reuse st st' events current original t :
  (∀ v, Buffer st' v = if decide (v = current) then Ok original else Buffer st v) →
  Buffer st current = Ok current →
  pending_on st' events t =
    pending_on st events t
    + (if decide (t = original) then sumZ (λ e, if bool_decide (e = current) then 1 else 0) events else 0)
    - (if decide (t = current) then sumZ (λ e, if bool_decide (e = current) then 1 else 0) events else 0).
Proof.
  intros Hb Hself. induction events as [|e events IH].
  - simpl. by repeat case_decide.
  - rewrite !pending_on_cons, IH. simpl. rewrite Hb.
    destruct (decide (e = current)) as [->|Hne].
    + rewrite Hself, (bool_decide_eq_true_2 (current = current)) by done.
      repeat case_decide; repeat case_bool_decide; simplify_eq;
        first [lia | congruence].
    + rewrite (bool_decide_eq_false_2 (e = current)) by done.
      repeat case_decide; lia.
Qed.

Lemma named_le_pending st events current :
  Buffer st current = Ok current →
  sumZ (λ e, if bool_decide (e = current) then 1 else 0) events
  ≤ pending_on st events current.
Proof.
  intros Hself. apply sumZ_le. intros e. case_bool_decide as He; [|by case_bool_decide].
  subst e. by rewrite bool_decide_eq_true_2.
Qed.

Lemma Reuse_counts_cover st reused current kind st' events :
  counts_cover st events →
  (∀ b, Buffer st current = Ok b → b = current) →
  Reuse st reused current kind = Ok st' →
  counts_cover st' events.
Proof.
  intros Hcover Hown Hrun.
  apply Reuse_Ok in Hrun
    as (_ & original & c_for & c_orig & p & Hbuf & Hfor & Horig & _ & Hb & Hu & _).
  assert (Buffer st current = Ok current) as Hself.
  { destruct (UseCount_Buffer_range _ _ _ Hfor) as [b Hbc]. by rewrite (Hown b Hbc) in Hbc. }
  set (n := sumZ (λ e, if bool_decide (e = current) then 1 else 0) events).
  assert (0 ≤ n) as Hn by (apply sumZ_nonneg; intros e; by case_bool_decide).
  pose proof (named_le_pending st events current Hself) as Hnle. fold n in Hnle.
  pose proof (Hcover current c_for Hfor) as Hcur.
  pose proof (Hcover original c_orig Horig) as Horigle.
  intros t c Ht. rewrite (pending_after_reuse st st' events current original t Hb Hself).
  fold n. rewrite Hu in Ht.
  destruct (decide (t = original)) as [->|Ho].
  - injection Ht as <-. destruct (decide (original = current)) as [->|Hc]; [|lia].
    assert (c_orig = c_for) by congruence. lia.
  - specialize (Hcover t c Ht). destruct (decide (t = current)); lia.
Qed.

(** Planning one output either leaves the value information alone or
    reuses a buffer for the output's value. *)
Lemma plan_output_infos E pnode ext st i node_output st' current :
  Exists node_output = true → Index E (Name node_output) = Ok current →
  plan_output E pnode ext st i node_output = Ok st' →
  ort_value_info_ st' = ort_value_info_ st ∨
  ∃ st0 reused kind,
    ort_value_info_ st0 = ort_value_info_ st ∧
    Reuse st0 reused current kind = Ok st'.
Proof.
  intros Hex Hcur Hrun.
  destruct (plan_output_decides _ _ _ _ _ _ _ Hex Hrun) as (cur' & d & Hcur' & _ & Heff).
  assert (cur' = current) as -> by congruence.
  destruct d as [| |reused| |reused fl'|]; simpl in Heff.
  - left. by apply set_alloc_kind_Ok in Heff as (_ & _ & _ & ? & _).
  - unfold plan_graph_output in Heff. apply bind_Ok in Heff as (st1 & H1 & Heff).
    apply set_alloc_kind_Ok in H1 as (_ & _ & _ & Hi1 & _).
    destruct (is_loop_identity E pnode); [|left; by injection Heff as <-].
    apply bind_Ok in Heff as (input & _ & Heff).
    apply bind_Ok in Heff as (first_input & _ & Heff).
    destruct (same_ptr input first_input); [left; by injection Heff as <-|].
    apply bind_Ok in Heff as (input_index & _ & Heff).
    apply bind_Ok in Heff as (alloc_plan & _ & Heff).
    case_bool_decide; [|left; by injection Heff as <-].
    right. by exists st1, input_index, kShare.
  - right. by exists st, reused, kReuse.
  - left. by apply set_alloc_kind_Ok in Heff as (_ & _ & _ & ? & _).
  - right. by exists (with_freelist st fl'), reused, kReuse.
  - left. by apply set_alloc_kind_Ok in Heff as (_ & _ & _ & ? & _).
Qed.

Lemma plan_output_keeps E pnode ext st i node_output events :
  counts_cover st events →
  (∀ cur b, arg_value E node_output = Some cur → Buffer st cur = Ok b → b = cur) →
  keeps (plan_output E pnode ext st i node_output)
        (λ st', counts_cover st' events ∧
                ∀ v, arg_value E node_output ≠ Some v → Buffer st' v = Buffer st v).
Proof.
  intros Hcover Hown.
  destruct (plan_output E pnode ext st i node_output) as [st'|f] eqn:Hrun; simpl;
    [|pose proof (no_assert_plan_output E pnode ext st i node_output) as Hna;
      rewrite Hrun in Hna; congruence].
  destruct (Exists node_output) eqn:Hex; cycle 1.
  { unfold plan_output in Hrun. rewrite Hex in Hrun. by injection Hrun as <-. }
  assert (∃ current, Index E (Name node_output) = Ok current) as [current Hcur].
  { unfold plan_output in Hrun. rewrite Hex in Hrun. simpl in Hrun.
    apply bind_Ok in Hrun as (current & ? & _). by exists current. }
  pose proof (proj1 (arg_value_Index E node_output current Hex) Hcur) as Hval.
  destruct (plan_output_infos _ _ _ _ _ _ _ _ Hex Hcur Hrun)
    as [Hinfo|(st0 & reused & kind & Hinfo & Hreuse)].
  - split; [|intros v _; by apply Buffer_of_infos].
    apply (counts_cover_ext st); [|  |done]; intros v;
      [by apply Buffer_of_infos | by apply UseCount_of_infos].
  - assert (counts_cover st0 events) as Hcover0.
    { apply (counts_cover_ext st); [|  |done]; intros v;
        [by apply Buffer_of_infos | by apply UseCount_of_infos]. }
    split.
    + eapply Reuse_counts_cover; [done| |done]. intros b Hb.
      rewrite (Buffer_of_infos st st0 _ Hinfo) in Hb. by eapply Hown.
    + intros v Hv.
      apply Reuse_Ok in Hreuse as (_ & ? & ? & ? & ? & _ & _ & _ & _ & Hb & _).
      rewrite Hb, decide_False by congruence. by apply Buffer_of_infos.
Qed.

Lemma self_owned_ext st st' defs :
  (∀ v, v ∈ defs → Buffer st' v = Buffer st v) →
  self_owned st defs → self_owned st' defs.
Proof. intros Hb Hown v b Hv Hbuf. apply (Hown v b Hv). by rewrite <- Hb. Qed.

Lemma self_owned_tail st defs1 defs2 :
  self_owned st (defs1 ++ defs2) → self_owned st defs2.
Proof. intros Hown v b Hv. apply Hown. apply elem_of_app. by right. Qed.

Lemma outputs_loop_keeps E pnode ext outs :
  ∀ i st events later,
    counts_cover st events →
    self_owned st (omap (arg_value E) outs ++ later) →
    NoDup (omap (arg_value E) outs ++ later) →
    keeps (foldR_indexed (plan_output E pnode ext) i outs st)
          (λ st', counts_cover st' events ∧ self_owned st' later).
Proof.
  induction outs as [|out outs IH]; intros i st events later Hcover Hown Hnd.
  - done.
  - rewrite omap_cons_option_list, <- (assoc_L (++)) in Hown, Hnd. simpl.
    eapply keeps_bind.
    { apply plan_output_keeps; [done|]. intros cur b Hval Hb. apply (Hown cur b); [|done].
      rewrite Hval. by left. }
    simpl. intros st1 _ [Hc1 Hb1]. apply IH; [done| |].
    + intros v b Hv Hbuf. destruct (decide (arg_value E out = Some v)) as [Hval|Hval].
      * rewrite Hval in Hnd. simpl in Hnd. apply NoDup_cons in Hnd as [Hnin _]. done.
      * rewrite (Hb1 v Hval) in Hbuf. apply (Hown v b); [|done].
        apply elem_of_app. by right.
    + by apply NoDup_app in Hnd as (_ & _ & ?).
Qed.

Lemma plan_node_keeps E st pc n events later :
  counts_cover st (of_node E (node_uses E) n ++ events) →
  self_owned st (of_node E (node_defs E) n ++ later) →
  NoDup (of_node E (node_defs E) n ++ later) →
  keeps (plan_node E st pc n) (λ st', counts_cover st' events ∧ self_owned st' later).
Proof.
  unfold plan_node, of_node.
  destruct (GetNode (graph_viewer_ E) n) as [pnode|]; [|done]. simpl.
  intros Hcover Hown Hnd. unfold node_uses in Hcover. unfold node_defs in Hown, Hnd.
  eapply keeps_bind; [apply keeps_self, no_assert_HasExternalOutputs|].
  simpl. intros ext _ _.
  eapply keeps_bind; [by apply outputs_loop_keeps|]. simpl.
  intros st1 _ [Hc1 Ho1]. rewrite <- !(assoc_L (++)) in Hc1.
  eapply keeps_bind;
    [exact (foldR_free_keeps E _ _ _ _ (free_input_keeps E pc) Hc1)|].
  simpl. intros st2 _ [Hc2 Hb2].
  eapply keeps_bind;
    [exact (foldR_free_keeps E _ _ _ _ (free_input_keeps E pc) Hc2)|].
  simpl. intros st3 _ [Hc3 Hb3].
  eapply keeps_mono;
    [exact (foldR_free_keeps E _ _ _ _ (free_output_keeps E pc) Hc3)|].
  simpl. intros st4 _ [Hc4 Hb4]. split; [done|].
  apply (self_owned_ext st1); [|done]. intros v _. by rewrite Hb4, Hb3, Hb2.
Qed.

Lemma plan_order_keeps E order :
  ∀ pc st pins,
    counts_cover st (order_uses E order ++ pins) →
    self_owned st (order_defs E order) →
    NoDup (order_defs E order) →
    keeps (foldR_indexed (plan_node E) pc order st) (λ st', counts_cover st' pins).
Proof.
  induction order as [|n order IH]; intros pc st pins Hcover Hown Hnd.
  - done.
  - unfold order_uses, order_defs in *. rewrite bind_cons in Hcover, Hown, Hnd.
    rewrite <- (assoc_L (++)) in Hcover. simpl.
    eapply keeps_bind; [by apply plan_node_keeps|]. simpl.
    intros st1 _ [Hc1 Ho1]. apply IH; [done|done|].
    by apply NoDup_app in Hnd as (_ & _ & ?).
Qed.

(** ** The use counts computed beforehand cover all uses *)

Lemma foldR_preserves {A S} (R : S → S → Prop) (body : S → A → Result S)
    (l : list A) :
  (∀ s, R s s) → (∀ s1 s2 s3, R s1 s2 → R s2 s3 → R s1 s3) →
  (∀ s x s', body s x = Ok s' → R s s') →
  ∀ s s', foldR body l s = Ok s' → R s s'.
Proof.
  intros Hrefl Htrans Hbody. induction l as [|x l IH]; intros s s'; simpl.
  - intros [= <-]. apply Hrefl.
  - intros (s1 & H1 & Hrest)%bind_Ok. eapply Htrans; [by eapply Hbody|by apply IH].
Qed.

Lemma add_UseCount_same_buffers st n k st' :
  add_UseCount st n k = Ok st' → same_buffers st st'.
Proof.
  unfold add_UseCount. intros (c & _ & Hset)%bind_Ok v.
  apply (Buffer_set_UseCount _ _ _ _ v Hset).
Qed.

Lemma add_UseCount_name_same_buffers E st name k st' :
  add_UseCount_name E st name k = Ok st' → same_buffers st st'.
Proof.
  unfold add_UseCount_name. intros (idx & _ & Hadd)%bind_Ok.
  by eapply add_UseCount_same_buffers.
Qed.

Lemma foldR_same_buffers {A} (body : PlannerState → A → Result PlannerState)
    (l : list A) :
  (∀ s x s', body s x = Ok s' → same_buffers s s') →
  ∀ s s', foldR body l s = Ok s' → same_buffers s s'.
Proof.
  apply foldR_preserves.
  - by intros s v.
  - intros s1 s2 s3 H12 H23 v. by rewrite H23.
Qed.

Lemma ComputeReuseCount_same_buffers E st st' :
  ComputeReuseCount E st = Ok st' → same_buffers st st'.
Proof.
  assert (∀ (l : list NodeArg) s s',
    foldR (λ st a, add_UseCount_name E st (Name a) 1) l s = Ok s' →
    same_buffers s s') as Hargs.
  { intros l. apply foldR_same_buffers. intros s a s'.
    apply add_UseCount_name_same_buffers. }
  assert (∀ (l : list NodeArg) s s',
    ForEachWithIndex l (λ st (a : NodeArg), add_UseCount_name E st (Name a) 1) s = Ok s' →
    same_buffers s s') as Heach.
  { intros l. apply foldR_same_buffers. intros s a s'. destruct (Exists a).
    - apply add_UseCount_name_same_buffers.
    - by intros [= <-] v. }
  unfold ComputeReuseCount. intros (st1 & H1 & Hrun)%bind_Ok.
  apply bind_Ok in Hrun as (st2 & H2 & Hrun).
  apply bind_Ok in Hrun as (st3 & H3 & Hrun).
  apply bind_Ok in Hrun as (st4 & H4 & H5).
  apply Hargs in H1, H2, H5.
  assert (same_buffers st2 st3) as H3'.
  { revert H3. apply foldR_same_buffers. intros s a s'.
    apply add_UseCount_name_same_buffers. }
  assert (same_buffers st3 st4) as H4'.
  { revert H4. apply foldR_same_buffers. intros s order s'.
    apply foldR_same_buffers. intros s0 n s0'. unfold ComputeReuseCount_node.
    destruct (GetNode (graph_viewer_ E) n) as [pnode|]; [|done].
    intros (s1 & Hi1 & Hr)%bind_Ok. apply bind_Ok in Hr as (s2 & Hi2 & Hr).
    apply bind_Ok in Hr as (ext & _ & Hr). apply Heach in Hi1, Hi2.
    assert (same_buffers s2 s0') as Hi3.
    { revert Hr. apply foldR_same_buffers. intros t a t'. destruct (Exists a); simpl.
      - intros (idx & _ & Hadd)%bind_Ok. by eapply add_UseCount_same_buffers.
      - by intros [= <-] v. }
    intros v. by rewrite Hi3, Hi2, Hi1. }
  intros v. by rewrite H5, H4', H3', H2, H1.
Qed.

Lemma occurrences_named E t args :
  occurrences E t args = named_in t (omap (arg_value E) args).
Proof.
  unfold occurrences, named_in. induction args as [|a args IH]; [done|].
  rewrite omap_cons_option_list, sumZ_app. simpl. rewrite IH. f_equal.
  unfold arg_value, names_value. destruct (Exists a); [|done].
  destruct (ort_value_name_idx_map_ E !! Name a) as [idx|]; simpl; [|done].
  destruct (decide (idx = t)) as [->|Hne].
  - by rewrite !bool_decide_eq_true_2.
  - rewrite !bool_decide_eq_false_2 by congruence. done.
Qed.

Lemma occurrences_nonneg E t args : 0 ≤ occurrences E t args.
Proof.
  apply sumZ_nonneg. intros a. destruct (Exists a); [|done].
  unfold names_value. by case_bool_decide.
Qed.

Lemma node_use_count_named E t n :
  named_in t (of_node E (node_uses E) n) ≤ node_use_count E t n.
Proof.
  unfold node_use_count, of_node.
  destruct (GetNode (graph_viewer_ E) n) as [pnode|]; [|done].
  unfold node_uses. rewrite !occurrences_named. unfold named_in. rewrite !sumZ_app.
  fold (named_in t (omap (arg_value E) (InputDefs pnode))).
  fold (named_in t (omap (arg_value E) (ImplicitInputDefs pnode))).
  fold (named_in t (omap (arg_value E) (OutputDefs pnode))).
  rewrite <- !occurrences_named.
  pose proof (occurrences_nonneg E t (OutputDefs pnode)).
  destruct (HasExternalOutputs E pnode) as [[]|]; lia.
Qed.

Lemma sumZ_bind {A B} (w : B → Z) (f : A → list B) (l : list A) :
  sumZ w (l ≫= f) = sumZ (λ a, sumZ w (f a)) l.
Proof.
  induction l as [|x l IH]; [done|]. rewrite bind_cons, sumZ_app. simpl. by rewrite IH.
Qed.

Lemma sumZ_Permutation {A} (w : A → Z) (l1 l2 : list A) :
  l1 ≡ₚ l2 → sumZ w l1 = sumZ w l2.
Proof. induction 1; simpl; lia. Qed.

Lemma sumZ_concat {A} (w : A → Z) (ls : list (list A)) :
  sumZ (sumZ w) ls = sumZ w (concat ls).
Proof.
  induction ls as [|l ls IH]; [done|]. simpl. rewrite sumZ_app. by rewrite IH.
Qed.

Lemma names_value_nonneg E t name : 0 ≤ names_value E t name.
Proof. unfold names_value. by case_bool_decide. Qed.

Lemma static_use_count_named E t :
  concat (stream_nodes_ E) ≡ₚ GetNodesInTopologicalOrder (graph_viewer_ E) →
  named_in t (order_uses E (GetNodesInTopologicalOrder (graph_viewer_ E)))
  ≤ static_use_count E t.
Proof.
  intros Hperm. unfold static_use_count, order_uses, named_in.
  rewrite sumZ_bind, sumZ_concat, (sumZ_Permutation _ _ _ Hperm).
  pose proof (sumZ_nonneg (λ a, names_value E t (Name a)) (GetInputs (graph_viewer_ E))
                (λ a, names_value_nonneg E t (Name a))).
  pose proof (sumZ_nonneg (λ a, names_value E t (Name a)) (outer_scope_node_args_ E)
                (λ a, names_value_nonneg E t (Name a))).
  pose proof (sumZ_nonneg (λ a, names_value E t (Name a)) (GetOutputs (graph_viewer_ E))
                (λ a, names_value_nonneg E t (Name a))).
  pose proof (sumZ_nonneg (names_value E t) (GetAllInitializedTensors (graph_viewer_ E))
                (names_value_nonneg E t)).
  pose proof (sumZ_le (λ n, named_in t (of_node E (node_uses E) n)) (node_use_count E t)
                (GetNodesInTopologicalOrder (graph_viewer_ E))
                (node_use_count_named E t)) as Hle.
  unfold named_in in Hle. lia.
Qed.

Lemma pending_on_named st events t :
  (∀ v b, Buffer st v = Ok b → b = v ∨ b = -1) → 0 ≤ t →
  pending_on st events t ≤ named_in t events.
Proof.
  intros Hfresh Ht. apply sumZ_le. intros e.
  case_bool_decide as Hb; [|by case_bool_decide].
  destruct (Hfresh e t Hb) as [->| ->]; [|lia]. by rewrite bool_decide_eq_true_2.
Qed.

Lemma ComputeReuseCount_covers E st st0 :
  defs_processed E st →
  concat (stream_nodes_ E) ≡ₚ GetNodesInTopologicalOrder (graph_viewer_ E) →
  ComputeReuseCount E st = Ok st0 →
  counts_cover st0 (order_uses E (GetNodesInTopologicalOrder (graph_viewer_ E))) ∧
  self_owned st0 (order_defs E (GetNodesInTopologicalOrder (graph_viewer_ E))).
Proof.
  intros (Hnn & Hfresh & Hown) Hperm Hrun.
  pose proof (ComputeReuseCount_same_buffers _ _ _ Hrun) as Hb. split.
  - intros t c Ht. destruct (UseCount_Buffer_range _ _ _ Ht) as [b Hbt].
    pose proof (Buffer_nonneg _ _ _ Hbt) as Hge. rewrite Hb in Hbt.
    destruct (Buffer_UseCount_range _ _ _ Hbt) as [c0 Hc0].
    pose proof (ComputeReuseCount_counts_add E st st0 t Hrun c0 Hc0) as Hc.
    assert (c = c0 + static_use_count E t) as -> by congruence.
    rewrite (pending_on_ext st st0) by done.
    pose proof (pending_on_named st
      (order_uses E (GetNodesInTopologicalOrder (graph_viewer_ E))) t Hfresh Hge).
    pose proof (static_use_count_named E t Hperm). specialize (Hnn t c0 Hc0). lia.
  - by apply (self_owned_ext st).
Qed.

(** C10.  Let reuse planning start from the state that
    [ComputeValueLocation] leaves, let every value be the output of at most
    one node of the topological order, and let the streams hold exactly
    the nodes of that order.  Then, with the use counts computed by
    [ComputeReuseCount], the walk of the single-stream planner never fails
    the assertion of [DecrementUseCount]: no use count is decremented
    below zero. *)
Theorem use_counts_never_negative (E : PlannerEnv) (st st0 : PlannerState) :
  defs_processed E st →
  NoDup (order_defs E (GetNodesInTopologicalOrder (graph_viewer_ E))) →
  concat (stream_nodes_ E) ≡ₚ GetNodesInTopologicalOrder (graph_viewer_ E) →
  ComputeReuseCount E st = Ok st0 →
  ComputeSingleStreamReusePlan E st0 ≠ Throw AssertFailed.
Proof.
  intros Hinit Hnd Hperm Hrun.
  destruct (ComputeReuseCount_covers E st st0 Hinit Hperm Hrun) as [Hcover Hown].
  apply (keeps_no_assert _ (λ st', counts_cover st' [])).
  apply plan_order_keeps; [by rewrite app_nil_r|done|done].
Qed.

Lemma use_counts_never_negative_witness :
  ComputeSingleStreamReusePlan S1.env S1.counted ≠ Throw AssertFailed.
Proof.
  assert (∀ v b, Buffer S1.init v = Ok b → b = v) as Hself.
  { intros v b H. unfold Buffer, at_index in H. case_bool_decide as Hv; [|done].
    remember (Z.to_nat v) as n eqn:Hn.
    destruct n as [|[|[|[|n]]]]; simpl in H; try done; injection H as <-; lia. }
  apply (use_counts_never_negative S1.env S1.init S1.counted).
  - split; [|split].
    + intros v c H. unfold UseCount, at_index in H. case_bool_decide as Hv; [|done].
      destruct (Z.to_nat v) as [|[|[|[|n]]]]; simpl in H; try done;
        injection H as <-; lia.
    + intros v b H. left. by apply Hself.
    + intros v b _. apply Hself.
  - apply (bool_decide_unpack _). vm_compute. exact I.
  - vm_compute. reflexivity.
  - vm_compute. reflexivity.
Defined.

(** ** The deallocation plan *)

Lemma occ_nil {A} `{EqDecision A} (x : A) : occ x [] = 0%nat.
Proof. done. Qed.

Lemma occ_cons {A} `{EqDecision A} (x y : A) (l : list A) :
  occ x (y :: l) = ((if decide (y = x) then 1 else 0) + occ x l)%nat.
Proof. unfold occ. rewrite filter_cons. by destruct (decide (y = x)). Qed.

Lemma occ_app {A} `{EqDecision A} (x : A) (l1 l2 : list A) :
  occ x (l1 ++ l2) = (occ x l1 + occ x l2)%nat.
Proof. unfold occ. by rewrite filter_app, length_app. Qed.

Lemma occ_zero {A} `{EqDecision A} (x : A) (l : list A) :
  x ∉ l → occ x l = 0%nat.
Proof.
  induction l as [|y l IH]; [done|]. intros Hnin. rewrite occ_cons.
  rewrite not_elem_of_cons in Hnin. destruct Hnin as [Hne Hnin].
  rewrite decide_False by done. by rewrite IH.
Qed.

Lemma occ_le_length {A} `{EqDecision A} (x : A) (l : list A) :
  (occ x l ≤ length l)%nat.
Proof. unfold occ. apply length_filter. Qed.

Lemma concat_insert_occ {A} `{EqDecision A} (ls : list (list A)) (n : nat)
    (l : list A) (x k : A) :
  ls !! n = Some l →
  occ k (concat (<[n := l ++ [x]]> ls)) =
  (occ k (concat ls) + if decide (x = k) then 1 else 0)%nat.
Proof.
  revert n. induction ls as [|l0 ls IH]; intros [|n] Hn; try done; simpl in *.
  - injection Hn as ->. rewrite !occ_app, occ_cons, occ_nil. lia.
  - rewrite !occ_app, (IH n Hn). lia.
Qed.

Lemma concat_insert_elem {A} (ls : list (list A)) (n : nat) (l : list A) (x y : A) :
  ls !! n = Some l →
  y ∈ concat (<[n := l ++ [x]]> ls) → y = x ∨ y ∈ concat ls.
Proof.
  revert n. induction ls as [|l0 ls IH]; intros [|n] Hn; try done; simpl in *.
  - injection Hn as ->. rewrite !elem_of_app, list_elem_of_singleton. tauto.
  - rewrite !elem_of_app. intros [?|Hy]; [tauto|]. destruct (IH n Hn Hy); tauto.
Qed.

Lemma process_consumer_effect k plan n plan' :
  process_consumer k plan n = Ok plan' → attach_effect k [n] plan plan'.
Proof.
  unfold process_consumer.
  intros (action & Hact%unchecked_Ok & Hrun)%bind_Ok.
  apply bind_Ok in Hrun as (l & Hl%unchecked_Ok & [= <-]).
  pose proof (lookup_lt_Some _ _ _ Hact) as Hk.
  pose proof (lookup_lt_Some _ _ _ Hl) as Hn.
  unfold attach_effect, attached, scheduled_decrements. simpl.
  split; [done|]. split; [by rewrite length_insert|]. split; [|split; [|split]].
  - intros k'. destruct (decide (k' = k)) as [->|Hne].
    + rewrite list_lookup_insert_eq, Hact by done. simpl. do 2 f_equal. lia.
    + by rewrite list_lookup_insert_ne.
  - intros k' n'. destruct (decide (N.to_nat n' = N.to_nat n)) as [Heq|Hne].
    + assert (n' = n) as -> by lia.
      rewrite list_lookup_insert_eq, Hl by done. simpl.
      rewrite occ_app, !occ_cons, !occ_nil. rewrite (decide_True (P := n = n)) by done.
      destruct (decide (k = k')), (decide (k' = k)); try congruence; lia.
    + rewrite list_lookup_insert_ne by done. rewrite occ_cons, occ_nil.
      rewrite (decide_False (P := n = n')) by (intros ->; done).
      destruct (decide (k' = k)); lia.
  - intros k'. rewrite (concat_insert_occ _ _ _ _ _ Hl).
    destruct (decide (k = k')), (decide (k' = k)); try congruence; simpl; lia.
  - intros x. apply concat_insert_elem. done.
Qed.

Lemma attach_effect_nil k plan :
  (k < length (release_actions plan))%nat → attach_effect k [] plan plan.
Proof.
  intros Hk. split; [done|]. split; [done|]. split; [|split; [|split]].
  - intros k'. destruct (decide (k' = k)) as [->|]; [|done].
    destruct (release_actions plan !! k) as [[v r]|]; [|done]. simpl.
    by rewrite Nat.add_0_r.
  - intros k' n. rewrite occ_nil. destruct (decide (k' = k)); lia.
  - intros k'. simpl. destruct (decide (k' = k)); lia.
  - intros x. by right.
Qed.

Lemma attach_effect_app k cs1 cs2 plan1 plan2 plan3 :
  attach_effect k cs1 plan1 plan2 → attach_effect k cs2 plan2 plan3 →
  attach_effect k (cs1 ++ cs2) plan1 plan3.
Proof.
  intros (Hk1 & Hl1 & Ha1 & Hat1 & Hs1 & He1) (Hk2 & Hl2 & Ha2 & Hat2 & Hs2 & He2).
  split; [done|]. split; [congruence|]. split; [|split; [|split]].
  - intros k'. rewrite Ha2. destruct (decide (k' = k)) as [->|].
    + rewrite Ha1, decide_True by done.
      destruct (release_actions plan1 !! k) as [[v r]|]; [|done]. simpl.
      rewrite length_app. do 2 f_equal. lia.
    + rewrite Ha1. by rewrite decide_False.
  - intros k' n. rewrite Hat2, Hat1, occ_app. destruct (decide (k' = k)); lia.
  - intros k'. rewrite Hs2, Hs1, length_app. destruct (decide (k' = k)); lia.
  - intros x Hx. destruct (He2 x Hx) as [?|Hx2]; [by left|]. by apply He1.
Qed.

Lemma foldR_process_consumer_effect k cs :
  ∀ plan plan',
    (k < length (release_actions plan))%nat →
    foldR (process_consumer k) cs plan = Ok plan' → attach_effect k cs plan plan'.
Proof.
  induction cs as [|n cs IH]; intros plan plan' Hk; simpl.
  - intros [= <-]. by apply attach_effect_nil.
  - intros (plan1 & H1 & Hrest)%bind_Ok. apply process_consumer_effect in H1.
    apply (attach_effect_app k [n] cs plan plan1 plan'); [done|].
    apply IH; [|done]. destruct H1 as (_ & _ & Ha & _).
    specialize (Ha k). rewrite decide_True in Ha by done.
    apply lookup_lt_is_Some. rewrite Ha.
    apply lookup_lt_is_Some in Hk as [a ->]. by eexists.
Qed.

Lemma is_all_consumer_same_stream_spec E stream_idx others b :
  is_all_consumer_same_stream E stream_idx others = Ok b →
  (b = true ↔ ∀ n, n ∈ others → node_stream_map_ E !! N.to_nat n = Some stream_idx).
Proof.
  revert b. induction others as [|n others IH]; intros b; simpl.
  - intros [= <-]. split; [|done]. intros _ n Hn. by apply elem_of_nil in Hn.
  - intros (s & Hs%unchecked_Ok & Hrun)%bind_Ok.
    case_bool_decide as Heq; simpl in Hrun.
    + subst s. apply IH in Hrun. rewrite Hrun. split.
      * intros Hall n' [->|Hn']%elem_of_cons; [done|by apply Hall].
      * intros Hall n' Hn'. apply Hall. by right.
    + injection Hrun as <-. split; [done|]. intros Hall.
      specialize (Hall n (list_elem_of_here _ _)). congruence.
Qed.

Lemma elem_of_concat {A} (x : A) (ls : list (list A)) :
  x ∈ concat ls ↔ ∃ l, x ∈ l ∧ l ∈ ls.
Proof.
  induction ls as [|l0 ls IH]; simpl.
  - split; [by intros ?%elem_of_nil|]. by intros (l & _ & ?%elem_of_nil).
  - rewrite elem_of_app, IH. split.
    + intros [?|(l & ? & ?)]; [exists l0|exists l]; split; try done; [by left|by right].
    + intros (l & Hx & [->|Hl]%elem_of_cons); [by left|]. right. by exists l.
Qed.

Lemma release_value_inv E vc processed plan i plan' :
  release_inv E vc processed plan →
  release_value E vc plan i = Ok plan' →
  release_inv E vc (processed ++ [i]) plan'.
Proof.
  intros (I1 & I2 & I4 & I5). unfold release_value.
  destruct (vc !! i) as [[|first others]|] eqn:Hi;
    try (intros [= <-]; split; [|done]; rewrite filter_app, filter_cons, Hi; simpl;
         by rewrite filter_nil, app_nil_r).
  set (plan0 := mkReleasePlan (release_actions plan ++ [mkReleaseAction i 0])
                              (node_release_list plan)).
  set (k0 := length (release_actions plan)).
  replace (length (release_actions plan0) - 1)%nat with k0
    by (unfold plan0, k0; simpl; rewrite length_app; simpl; lia).
  intros (s & Hs%unchecked_Ok & Hrun)%bind_Ok.
  apply bind_Ok in Hrun as (same & Hsame & Hrun).
  apply is_all_consumer_same_stream_spec in Hsame.
  assert (k0 < length (release_actions plan0))%nat as Hk0
    by (unfold plan0, k0; simpl; rewrite length_app; simpl; lia).
  assert (on_one_stream E (first :: others) ↔ same = true) as Hone.
  { rewrite Hsame. unfold on_one_stream. simpl. split.
    - intros H n Hn. rewrite (H first n); [done|done|by right].
    - intros H f n [= <-] [->|Hn]%elem_of_cons; [done|]. rewrite Hs. by apply H. }
  assert (∃ cs', attach_effect k0 cs' plan0 plan' ∧
                 cs' = if same then [first] else first :: others) as (cs' & Heff & Hcs').
  { destruct same.
    - exists [first]. split; [|done]. by apply process_consumer_effect.
    - exists (first :: others). split; [|done]. by apply foldR_process_consumer_effect. }
  clear Hrun. destruct Heff as (_ & Hlen & Ha & Hat & Hsch & Hel).
  assert (∀ n, attached plan0 k0 n = 0%nat) as Hfresh.
  { intros n. unfold attached, plan0. simpl. apply occ_zero. intros Hin.
    destruct (node_release_list plan !! N.to_nat n) as [l|] eqn:Hl; simpl in Hin;
      [|by apply elem_of_nil in Hin].
    assert (k0 ∈ concat (node_release_list plan)) as Hc.
    { apply elem_of_concat. exists l. split; [done|]. by eapply list_elem_of_lookup_2. }
    apply I2 in Hc. unfold k0 in Hc. lia. }
  assert (scheduled_decrements plan0 k0 = 0%nat) as Hfresh'.
  { unfold scheduled_decrements, plan0. simpl. apply occ_zero. intros Hc.
    apply I2 in Hc. unfold k0 in Hc. lia. }
  assert (length (release_actions plan') = S k0) as Hlen'.
  { rewrite Hlen. unfold plan0, k0. simpl. rewrite length_app. simpl. lia. }
  assert (∀ k action, k ≠ k0 → release_actions plan' !! k = Some action →
                      release_actions plan !! k = Some action) as Hold.
  { intros k action Hne Hk. pose proof (lookup_lt_Some _ _ _ Hk) as Hlt.
    rewrite Ha, decide_False in Hk by done. unfold plan0 in Hk. simpl in Hk.
    rewrite lookup_app_l in Hk; [done|]. fold k0. lia. }
  assert (release_actions plan' !! k0 =
          Some (mkReleaseAction i (length cs'))) as Hnew.
  { rewrite Ha, decide_True by done. unfold plan0. simpl.
    rewrite lookup_app_r by (unfold k0; lia). unfold k0. by rewrite Nat.sub_diag. }
  split; [|split; [|split]].
  - rewrite filter_app, filter_cons, Hi. simpl. rewrite filter_nil, <- I1. apply list_eq. intros k. rewrite list_lookup_fmap.
    destruct (decide (k = k0)) as [->|Hne].
    + rewrite Hnew. simpl. rewrite lookup_app_r by (rewrite length_map; fold k0; lia).
      rewrite length_map. fold k0. by rewrite Nat.sub_diag.
    + rewrite Ha, decide_False by done. unfold plan0. simpl.
      destruct (decide (k < k0)%nat) as [Hlt|Hge].
      * rewrite lookup_app_l by (fold k0; lia).
        rewrite lookup_app_l by (rewrite length_map; fold k0; lia).
        by rewrite list_lookup_fmap.
      * rewrite !lookup_ge_None_2; try done.
        -- rewrite length_app, length_map. simpl. fold k0. lia.
        -- rewrite length_app. simpl. fold k0. lia.
  - intros x Hx. rewrite Hlen'. destruct (Hel x Hx) as [->|Hx0]; [lia|].
    apply I2 in Hx0. fold k0 in Hx0. lia.
  - intros k action cs Hk Hcs. destruct (decide (k = k0)) as [->|Hne].
    + rewrite Hnew in Hk. injection Hk as <-. simpl in Hcs.
      rewrite Hi in Hcs. injection Hcs as <-. simpl. split.
      * intros Hsm%Hone. subst same cs'. split; [done|]. intros n.
        rewrite Hat, Hfresh, decide_True by done. rewrite occ_cons, occ_nil. simpl.
        destruct (decide (first = n)) as [->|Hn].
        -- by rewrite bool_decide_eq_true_2.
        -- rewrite bool_decide_eq_false_2 by congruence. done.
      * intros Hns. assert (same = false) as ->.
        { destruct same; [|done]. exfalso. by apply Hns, Hone. }
        subst cs'. split; [done|]. intros n.
        by rewrite Hat, Hfresh, decide_True by done.
    + pose proof (Hold k action Hne Hk) as Hk'.
      destruct (I4 k action cs Hk' Hcs) as [Hs1 Hs2].
      assert (∀ n, attached plan' k n = attached plan k n) as Hsame_att.
      { intros n. rewrite Hat, decide_False by done. unfold attached, plan0. simpl. lia. }
      split.
      * intros Hc. destruct (Hs1 Hc) as [? Hatt]. split; [done|]. intros n.
        by rewrite Hsame_att.
      * intros Hc. destruct (Hs2 Hc) as [? Hatt]. split; [done|]. intros n.
        by rewrite Hsame_att.
  - intros k action Hk. rewrite Hsch. destruct (decide (k = k0)) as [->|Hne].
    + rewrite Hnew in Hk. injection Hk as <-. simpl. by rewrite Hfresh'.
    + rewrite <- (I5 k action (Hold k action Hne Hk)).
      unfold scheduled_decrements, plan0. simpl. lia.
Qed.

Lemma build_release_actions_inv E vc plan :
  build_release_actions E vc = Ok plan →
  release_inv E vc (seq 0 (length vc)) plan.
Proof.
  unfold build_release_actions. intros Hrun.
  assert (∀ l processed p, release_inv E vc processed p →
    foldR (release_value E vc) l p = Ok plan → release_inv E vc (processed ++ l) plan)
    as Hgen.
  { induction l as [|i l IH]; intros processed p Hinv; simpl.
    - intros [= <-]. by rewrite app_nil_r.
    - intros (p1 & H1 & Hrest)%bind_Ok.
      replace (processed ++ i :: l) with ((processed ++ [i]) ++ l)
        by (by rewrite <- (assoc_L (++))).
      apply (IH _ p1); [|done]. by eapply release_value_inv. }
  refine (Hgen _ [] _ _ Hrun).
  split; [done|]. split; [|split]; try done.
  intros x Hx. simpl in Hx.
  apply elem_of_concat in Hx as (l & Hx & Hl).
  apply elem_of_replicate in Hl as [-> _]. by apply elem_of_nil in Hx.
Qed.

Lemma appends_foldR {A} (f : A → nat → list NodeIndex) body :
  appends f body →
  appends (λ (l : list A) i, l ≫= (λ x, f x i)) (λ vc l, foldR body l vc).
Proof.
  intros Hbody vc l. revert vc. induction l as [|x l IH]; intros vc vc'; simpl.
  - intros [= <-]. split; [done|]. intros i.
    destruct (vc !! i); simpl; [|done]. by rewrite app_nil_r.
  - intros (vc1 & H1 & Hrest)%bind_Ok. apply Hbody in H1 as [Hlen1 H1].
    apply IH in Hrest as [Hlen2 H2]. split; [congruence|]. intros i.
    rewrite H2, H1. destruct (vc !! i); simpl; [|done].
    by rewrite (assoc_L (++)).
Qed.

Lemma appends_ext {A} (f g : A → nat → list NodeIndex) body :
  (∀ x i, f x i = g x i) → appends f body → appends g body.
Proof.
  intros Hfg Hf vc x vc' Hrun. destruct (Hf vc x vc' Hrun) as [Hlen H].
  split; [done|]. intros i. by rewrite H, Hfg.
Qed.

Lemma record_consumer_appends E st node_index :
  appends (λ input i,
             if bool_decide (consumed_root E st input = Some (Z.of_nat i))
             then [node_index] else [])
          (λ vc input, if Exists input then record_consumer E st node_index vc input
                       else mret vc).
Proof.
  intros vc input vc'.
  assert (∀ i, vc !! i = (λ l, l ++ []) <$> vc !! i) as Hid.
  { intros i. destruct (vc !! i); simpl; [|done]. by rewrite app_nil_r. }
  unfold consumed_root, arg_value. destruct (Exists input) eqn:Hex; simpl; cycle 1.
  { intros [= <-]. split; [done|]. intros i. apply Hid. }
  unfold record_consumer. rewrite Hex.
  destruct (ort_value_name_idx_map_ E !! Name input) as [value_idx|]; simpl; [|done].
  unfold Buffer.
  destruct (at_index (ort_value_info_ st) value_idx) as [info|]; simpl; [|done].
  case_bool_decide as Hminus; simpl.
  { intros [= <-]. split; [done|]. intros i. rewrite Hminus. simpl. apply Hid. }
  destruct (at_index (allocation_plan st) (reused_buffer_index info)) as [plan|] eqn:Hplan;
    simpl; [|done].
  case_bool_decide as Hkind; simpl; cycle 1.
  { intros [= <-]. split; [done|]. intros i. apply Hid. }
  destruct (at_index vc (reused_buffer_index info)) as [consumers|] eqn:Hcons;
    simpl; [|done].
  intros [= <-]. split; [by rewrite length_insert|]. intros i.
  apply at_index_Some in Hcons as [Hnn Hcons].
  pose proof (lookup_lt_Some _ _ _ Hcons) as Hlt.
  destruct (decide (i = Z.to_nat (reused_buffer_index info))) as [->|Hne].
  - rewrite list_lookup_insert_eq, Hcons by done. simpl.
    rewrite bool_decide_eq_true_2; [done|]. f_equal. lia.
  - rewrite list_lookup_insert_ne by done.
    rewrite bool_decide_eq_false_2; [apply Hid|]. intros [= Heq]. lia.
Qed.

Lemma record_node_consumers_appends E st :
  appends (λ node_index i,
             of_node E (λ node, InputDefs node ++ ImplicitInputDefs node) node_index
             ≫= (λ input, if bool_decide (consumed_root E st input = Some (Z.of_nat i))
                          then [node_index] else []))
          (record_node_consumers E st).
Proof.
  intros vc node_index vc'. unfold record_node_consumers, of_node.
  destruct (GetNode (graph_viewer_ E) node_index) as [node|]; simpl; [|done].
  intros (vc1 & H1 & H2)%bind_Ok.
  pose proof (appends_foldR _ _ (record_consumer_appends E st node_index)) as Happ.
  apply Happ in H1 as [Hlen1 H1]. apply Happ in H2 as [Hlen2 H2].
  split; [congruence|]. intros i. rewrite H2, H1.
  destruct (vc !! i); simpl; [|done]. by rewrite bind_app, (assoc_L (++)).
Qed.

Lemma collect_consumers_spec E st vc :
  collect_consumers E st = Ok vc →
  length vc = length (allocation_plan st) ∧
  ∀ i, (i < length vc)%nat → vc !! i = Some (consumers_of E st i).
Proof.
  unfold collect_consumers. intros Hrun.
  pose proof (appends_foldR _ _
    (appends_ext _ (λ stream i, rev stream ≫= _) _ (λ _ _, eq_refl)
       (λ vc stream, appends_foldR _ _ (record_node_consumers_appends E st) vc
                       (rev stream)))) as Happ.
  apply Happ in Hrun as [Hlen H]. rewrite length_replicate in Hlen.
  split; [done|]. intros i Hi. rewrite H, lookup_replicate_2 by lia. done.
Qed.

Lemma filter_ext_elem {A} (P Q : A → Prop) `{∀ x, Decision (P x)}
    `{∀ x, Decision (Q x)} (l : list A) :
  (∀ x, x ∈ l → P x ↔ Q x) → filter P l = filter Q l.
Proof.
  induction l as [|x l IH]; intros Hext; [done|]. rewrite !filter_cons.
  rewrite IH by (intros y Hy; apply Hext; by right).
  pose proof (Hext x (list_elem_of_here _ _)) as Hx.
  destruct (decide (P x)), (decide (Q x)); tauto.
Qed.

(** C8.  The deallocation planner creates exactly one release action for
    every root buffer whose list of recorded consumers is not empty, and
    none for the others.  When all the consumers are on one stream the
    action is attached once, to the consumer recorded first in the reverse
    walk, and its reference count is 1; otherwise it is attached to every
    recorded consumer and its reference count is their number.  In both
    cases the attachments over all nodes number exactly the reference
    count. *)
Theorem release_plan_sound (E : PlannerEnv) (st : PlannerState) (plan : ReleasePlan) :
  GenerateDeallocationPlan E st = Ok plan →
  map value_index (release_actions plan) =
    filter (λ i, consumers_of E st i ≠ []) (seq 0 (length (allocation_plan st))) ∧
  ∀ k action,
    release_actions plan !! k = Some action →
    let cs := consumers_of E st (value_index action) in
    (on_one_stream E cs →
       ref_count action = 1%nat ∧
       ∀ n, attached plan k n = if bool_decide (head cs = Some n) then 1%nat else 0%nat) ∧
    (¬ on_one_stream E cs →
       ref_count action = length cs ∧ ∀ n, attached plan k n = occ n cs) ∧
    scheduled_decrements plan k = ref_count action.
Proof.
  unfold GenerateDeallocationPlan. intros (vc & Hvc & Hbuild)%bind_Ok.
  apply collect_consumers_spec in Hvc as [Hlen Hvc].
  apply build_release_actions_inv in Hbuild as (I1 & _ & I4 & I5).
  rewrite Hlen in I1.
  assert (map value_index (release_actions plan) =
          filter (λ i, consumers_of E st i ≠ []) (seq 0 (length (allocation_plan st))))
    as Hactions.
  { rewrite I1. apply filter_ext_elem. intros i Hi. apply elem_of_seq in Hi.
    rewrite Hvc by lia. done. }
  split; [done|]. intros k action Hk.
  set (cs := consumers_of E st (value_index action)).
  assert (vc !! value_index action = Some cs) as Hcs.
  { apply Hvc. rewrite Hlen.
    assert (value_index action ∈ map value_index (release_actions plan)) as Hin.
    { apply list_elem_of_fmap. exists action. split; [done|].
      by eapply list_elem_of_lookup_2. }
    rewrite Hactions in Hin. apply list_elem_of_filter in Hin as [_ Hin].
    apply elem_of_seq in Hin. lia. }
  destruct (I4 k action cs Hk Hcs) as [H1 H2]. split; [done|]. split; [done|].
  by apply I5.
Qed.

Lemma release_plan_sound_witness :
  map value_index (release_actions S1.released) =
    filter (λ i, consumers_of S1.env S1.planned i ≠ [])
           (seq 0 (length (allocation_plan S1.planned))) ∧
  ∀ k action,
    release_actions S1.released !! k = Some action →
    let cs := consumers_of S1.env S1.planned (value_index action) in
    (on_one_stream S1.env cs →
       ref_count action = 1%nat ∧
       ∀ n, attached S1.released k n =
            if bool_decide (head cs = Some n) then 1%nat else 0%nat) ∧
    (¬ on_one_stream S1.env cs →
       ref_count action = length cs ∧ ∀ n, attached S1.released k n = occ n cs) ∧
    scheduled_decrements S1.released k = ref_count action.
Proof.
  apply (release_plan_sound S1.env S1.planned S1.released). vm_compute. reflexivity.
Defined.

(** ** Malformed partition configurations *)

Lemma EXIT_ON_ERR_fails p err : IsOK (status_ (EXIT_ON_ERR p err)) = false.
Proof. done. Qed.

Lemma enforce_status_fails cfg file is_open :
  cfg ≠ EmptyString →
  (∀ lines, file = Some lines → head lines = Some "DummyPartition") →
  IsOK (status_ (Initialize cfg file)) = false →
  PartitionIntoStreams_partitioner cfg file is_open = Throw EnforceFailed.
Proof.
  intros Hcfg Hhead Hfail. unfold PartitionIntoStreams_partitioner, CreateNodePartitioner.
  rewrite bool_decide_eq_false_2 by done. simpl.
  destruct file as [lines|].
  - rewrite (Hhead lines eq_refl). simpl. by rewrite Hfail.
  - exfalso. unfold Initialize in Hfail. by rewrite bool_decide_eq_false_2 in Hfail.
Qed.

(** A first line that is not the name of the partitioner makes planning
    fail. *)
Lemma wrong_header_fails cfg lines is_open :
  cfg ≠ EmptyString → head lines ≠ Some "DummyPartition" →
  PartitionIntoStreams_partitioner cfg (Some lines) is_open = Throw EnforceFailed.
Proof.
  intros Hcfg Hhead. unfold PartitionIntoStreams_partitioner, CreateNodePartitioner.
  rewrite bool_decide_eq_false_2 by done. simpl.
  destruct lines as [|line rest]; simpl.
  - done.
  - rewrite bool_decide_eq_false_2; [done|]. intros ->. by apply Hhead.
Qed.

(** A number of execution providers that is not positive makes planning
    fail. *)
Lemma nonpositive_provider_count_fails cfg second count rest is_open :
  cfg ≠ EmptyString →
  Split second ":"%char = ["ExecutionProviders"; count] → atoi count ≤ 0 →
  PartitionIntoStreams_partitioner cfg (Some ("DummyPartition" :: second :: rest)) is_open
  = Throw EnforceFailed.
Proof.
  intros Hcfg Hsplit Hcount. apply enforce_status_fails; [done| |].
  - by intros lines [= <-].
  - unfold Initialize. rewrite bool_decide_eq_false_2 by done.
    rewrite (bool_decide_eq_true_2 ("DummyPartition" = DummyPartitioner_name)) by done.
    simpl. rewrite Hsplit. simpl. by rewrite bool_decide_eq_true_2.
Qed.

Lemma Initialize_names_mismatch p names :
  Z.of_nat (length (node_names_by_stream_ p) + length names)
    ≠ num_streams_ p `mod` 2 ^ 64 →
  IsOK (status_ (Initialize_names p names)) = false.
Proof.
  revert p. induction names as [|line names IH]; intros p Hne; simpl.
  - rewrite Nat.add_0_r in Hne. by rewrite bool_decide_eq_false_2.
  - case_bool_decide; [done|]. apply IH. simpl. rewrite length_app. simpl.
    by replace (length (node_names_by_stream_ p) + 1 + length names)%nat
      with (length (node_names_by_stream_ p) + S (length names))%nat by lia.
Qed.

(** The sum of the stream counts of the provider lines. *)
Lemma Initialize_providers_mismatch providers :
  ∀ p names,
    Forall (λ line, ∃ name count, Split line ":"%char = [name; count]) providers →
    Z.of_nat (length (node_names_by_stream_ p) + length names)
      ≠ (num_streams_ p
         + sumZ (λ line, atoi (default EmptyString (Split line ":"%char !! 1%nat)))
                providers) `mod` 2 ^ 64 →
    IsOK (status_ (Initialize_providers p (length providers) (providers ++ names)))
    = false.
Proof.
  induction providers as [|line providers IH]; intros p names Hsplit Hne; simpl.
  - apply Initialize_names_mismatch. simpl in Hne. by rewrite Z.add_0_r in Hne.
  - apply Forall_cons in Hsplit as [(name & count & Hline) Hsplit].
    rewrite Hline. apply IH; [done|]. simpl. simpl in Hne. rewrite Hline in Hne.
    simpl in Hne. by rewrite <- Z.add_assoc.
Qed.

(** A number of node-name lines that differs from the sum of the stream
    counts makes planning fail. *)
Lemma line_total_mismatch_fails cfg second count providers names is_open :
  cfg ≠ EmptyString →
  Split second ":"%char = ["ExecutionProviders"; count] →
  atoi count = Z.of_nat (length providers) → providers ≠ [] →
  Forall (λ line, ∃ name count, Split line ":"%char = [name; count]) providers →
  Z.of_nat (length names)
    ≠ sumZ (λ line, atoi (default EmptyString (Split line ":"%char !! 1%nat)))
           providers `mod` 2 ^ 64 →
  PartitionIntoStreams_partitioner cfg
    (Some ("DummyPartition" :: second :: providers ++ names)) is_open
  = Throw EnforceFailed.
Proof.
  intros Hcfg Hsplit Hcount Hsome Hprov Hne. apply enforce_status_fails; [done| |].
  - by intros lines [= <-].
  - unfold Initialize. rewrite bool_decide_eq_false_2 by done.
    rewrite (bool_decide_eq_true_2 ("DummyPartition" = DummyPartitioner_name)) by done.
    simpl. rewrite Hsplit. simpl. rewrite Hcount.
    rewrite bool_decide_eq_false_2 by (destruct providers; simpl in *; [done|lia]).
    rewrite Nat2Z.id. by apply Initialize_providers_mismatch.
Qed.

(** C9 (evidence).  A configuration in which a provider is given [-1]
    streams has a stream count that is not positive, and yet planning
    goes on: the partitioner is created with status OK, because the
    stream counts are summed without being checked and the sum happens to
    equal the number of node-name lines. *)
Theorem negative_stream_count_accepted :
  has_nonpositive_stream_count 2 negative_stream_count_config ∧
  ∃ p, PartitionIntoStreams_partitioner "partition.cfg"
         (Some negative_stream_count_config) true = Ok p ∧
       status_ p = StatusOK ∧
       node_names_by_stream_ p = [["node_a"; "node_b"]].
Proof.
  split.
  - exists "CpuExecutionProvider:-1", "CpuExecutionProvider", "-1".
    split; [|split]; [|vm_compute; reflexivity|vm_compute; discriminate].
    unfold provider_lines, negative_stream_count_config. simpl. by left.
  - eexists. split; [vm_compute; reflexivity|]. split; reflexivity.
Qed.

(** ** The execution plan synchronises every cross-stream edge *)

Lemma push_step_Ok i step st st' :
  push_step i step st = Ok st' →
  steps_of st' i = steps_of st i ++ [step] ∧
  (∀ k, k ≠ i → steps_of st' k = steps_of st k) ∧
  (∀ k, stream_ep st' k = stream_ep st k) ∧
  notification_owners st' = notification_owners st ∧
  downstream_map st' = downstream_map st ∧
  num_barriers st' = num_barriers st.
Proof.
  unfold push_step. intros (stream & Hs%unchecked_Ok & [= <-])%bind_Ok.
  pose proof (lookup_lt_Some _ _ _ Hs) as Hlt.
  unfold steps_of, stream_ep. simpl. split_and!; try done.
  - by rewrite list_lookup_insert_eq, Hs.
  - intros k Hk. by rewrite list_lookup_insert_ne.
  - intros k. destruct (decide (k = i)) as [->|Hk].
    + by rewrite list_lookup_insert_eq, Hs.
    + by rewrite list_lookup_insert_ne.
Qed.

Lemma extends_refl st : extends st st.
Proof. by split_and!. Qed.

Lemma extends_trans st1 st2 st3 : extends st1 st2 → extends st2 st3 → extends st1 st3.
Proof.
  intros (Ho1 & He1 & Hs1 & Hd1) (Ho2 & He2 & Hs2 & Hd2). split_and!.
  - by rewrite Ho2.
  - intros i. by rewrite He2.
  - intros i. by trans (steps_of st2 i).
  - intros n. by trans (downstream_of st2 n).
Qed.

Lemma push_step_extends i step st st' : push_step i step st = Ok st' → extends st st'.
Proof.
  intros (Hi & Hk & He & Ho & Hd & _)%push_step_Ok. split_and!; try done.
  - intros k. destruct (decide (k = i)) as [->|Hne].
    + rewrite Hi. by apply prefix_app_r.
    + by rewrite Hk.
  - intros n. unfold downstream_of. by rewrite Hd.
Qed.

Lemma add_dependence_extends d u st : extends st (add_dependence d u st).
Proof. by split_and!. Qed.

Lemma add_dependences_extends (f : BuildState → NodeIndex → BuildState) l :
  (∀ st it, extends st (f st it)) → ∀ st, extends st (foldl f st l).
Proof.
  intros Hf. induction l as [|x l IH]; intros st; simpl.
  - apply extends_refl.
  - eapply extends_trans; [apply Hf|apply IH].
Qed.

Lemma register_barrier_extends i n offset st :
  extends st (register_barrier i n offset st).
Proof.
  split_and!; try done. intros k. unfold downstream_of. simpl.
  destruct (decide (k = n)) as [->|Hne].
  - rewrite lookup_insert_eq. simpl. by apply prefix_app_r.
  - by rewrite lookup_insert_ne.
Qed.

Lemma prefix_elem_of {A} (l1 l2 : list A) x : l1 `prefix_of` l2 → x ∈ l1 → x ∈ l2.
Proof. intros [k ->] ?. apply elem_of_app. by left. Qed.

Lemma synchronised_extends B m st st' i ep p l l' :
  extends st st' → (l ≤ l')%nat →
  synchronised B m st i ep p l → synchronised B m st' i ep p l'.
Proof.
  intros (Ho & He & Hs & Hd) Hle (n & b & id & owner & owner_ep & Hn & Hb & Hbar & Hdown & Hown & Hep & Hwait).
  exists n, b, id, owner, owner_ep. split_and!; try done.
  - lia.
  - by eapply prefix_lookup_Some.
  - eapply prefix_elem_of; [apply Hd|done].
  - by rewrite Ho.
  - by rewrite He.
  - destruct (GetWaitHandle B owner_ep ep); [|done].
    destruct Hwait as [? ?]. split; [lia|by eapply prefix_lookup_Some].
Qed.

Lemma launched_extends m st st' i c l :
  extends st st' → launched m st i c l → launched m st' i c l.
Proof.
  intros (_ & _ & Hs & _) [Hl Hn]. split; [by eapply prefix_lookup_Some|].
  destruct (m !! c); [|done].
  destruct Hn; split; by eapply prefix_lookup_Some.
Qed.

Lemma node_emitted_extends E B m st st' i stream c :
  extends st st' → node_emitted E B m st i stream c → node_emitted E B m st' i stream c.
Proof.
  intros Hext (node & l & Hnode & Hl & Hsync). exists node, l. split_and!; [done|..].
  - by eapply launched_extends.
  - intros p Hp Hout. eapply synchronised_extends; [done|reflexivity|by apply Hsync].
Qed.

Lemma emit_wait_Ok E B m i stream node st it st' :
  emit_wait E B m i stream node st it = Ok st' →
  extends st st' ∧
  (it ∉ stream →
   synchronised B m st' i (GetExecutionProviderType node) it (length (steps_of st' i))).
Proof.
  unfold emit_wait, in_stream. destruct (decide (it ∈ stream)) as [Hin|Hout].
  { rewrite bool_decide_eq_true_2 by done. simpl. intros [= <-].
    split; [apply extends_refl|done]. }
  rewrite bool_decide_eq_false_2 by done. simpl.
  intros (n & Hn%checked_Ok & (current & Hcur%unchecked_Ok & Hrest)%bind_Ok)%bind_Ok.
  apply bind_Ok in Hrest as (st2 & Hpush & Hrest).
  apply bind_Ok in Hrest as (owner & Hown%unchecked_Ok & Hrest).
  apply bind_Ok in Hrest as (owner_stream & Hos%unchecked_Ok & Hrest).
  apply bind_Ok in Hrest as (owner_ep & Hoep%unchecked_Ok & Hrest).
  set (b := length (steps_ current)) in *.
  set (st1 := register_barrier i n b st) in *.
  pose proof (register_barrier_extends i n b st) as Hext1. fold st1 in Hext1.
  pose proof (push_step_extends _ _ _ _ Hpush) as Hext2.
  pose proof (push_step_Ok _ _ _ _ Hpush) as (Hsteps2 & _ & _ & _ & Hdown2 & _).
  assert (steps_of st1 i = steps_ current) as Hsteps1.
  { unfold steps_of, st1. simpl. by rewrite Hcur. }
  rewrite Hsteps1 in Hsteps2.
  assert (steps_of st2 i !! b = Some (BarrierStep (num_barriers st))) as Hbar.
  { rewrite Hsteps2. by apply list_lookup_middle. }
  assert ((i, Z.of_nat b) ∈ downstream_of st2 n) as Hlisted.
  { unfold downstream_of. rewrite Hdown2. unfold st1. simpl.
    rewrite lookup_insert_eq. simpl. apply elem_of_app. right.
    by apply list_elem_of_singleton. }
  assert (stream_ep st2 owner = Some owner_ep) as Hep.
  { unfold stream_ep. by rewrite Hos. }
  destruct (GetWaitHandle B owner_ep (GetExecutionProviderType node))
    as [wait_handle|] eqn:Hhandle.
  - pose proof (push_step_extends _ _ _ _ Hrest) as Hext3.
    pose proof (push_step_Ok _ _ _ _ Hrest) as (Hsteps3 & _ & He3 & Ho3 & Hdown3 & _).
    split; [by repeat (eapply extends_trans; [eassumption|])|].
    intros _. exists n, b, (num_barriers st), owner, owner_ep.
    rewrite Hsteps3, Hsteps2, Hhandle, !length_app. simpl. split_and!; try done.
    + lia.
    + rewrite <- Hsteps2. apply lookup_app_l_Some. done.
    + unfold downstream_of. by rewrite Hdown3.
    + by rewrite Ho3.
    + by rewrite He3.
    + lia.
    + rewrite <- Hsteps2. apply list_lookup_middle. rewrite Hsteps2, length_app. simpl. lia.
  - injection Hrest as <-.
    split; [by eapply extends_trans|].
    intros _. exists n, b, (num_barriers st), owner, owner_ep.
    rewrite Hhandle, Hsteps2, length_app. simpl. split_and!; try done.
    + lia.
    + by rewrite <- Hsteps2.
Qed.

Lemma emit_waits_Ok E B m i stream node l st st' :
  foldR (emit_wait E B m i stream node) l st = Ok st' →
  extends st st' ∧
  ∀ it, it ∈ l → it ∉ stream →
    synchronised B m st' i (GetExecutionProviderType node) it (length (steps_of st' i)).
Proof.
  revert st. induction l as [|x l IH]; intros st; simpl.
  - intros [= <-]. split; [apply extends_refl|]. by intros it ?%elem_of_nil.
  - intros (st1 & [Hext1 Hx]%emit_wait_Ok & [Hext2 Hl]%IH)%bind_Ok.
    split; [by eapply extends_trans|].
    intros it [->|Hin]%elem_of_cons Hout; [|by apply Hl].
    eapply synchronised_extends; [done| |by apply Hx].
    destruct Hext2 as (_ & _ & Hs & _). by apply prefix_length.
Qed.

Lemma emit_node_Ok E B m i stream st j c st' :
  emit_node E B m i stream st j c = Ok st' →
  extends st st' ∧ node_emitted E B m st' i stream c.
Proof.
  unfold emit_node.
  intros (st0 & H0 & (node & Hnode%unchecked_Ok & Hrest)%bind_Ok)%bind_Ok.
  apply bind_Ok in Hrest as (st1 & [Hext1 Hsync]%emit_waits_Ok & Hrest).
  apply bind_Ok in Hrest as (st2 & Hlaunch & Hrest).
  assert (extends st st0) as Hext0.
  { case_bool_decide.
    - apply bind_Ok in H0 as (previous & _ & [= <-]). apply add_dependence_extends.
    - injection H0 as <-. apply extends_refl. }
  set (st1' := foldl (λ st it, add_dependence it c st) st1 (OutputNodes node)) in *.
  assert (extends st1 st1') as Hext1'.
  { apply add_dependences_extends. intros. apply add_dependence_extends. }
  assert (steps_of st1' i = steps_of st1 i) as Hsame.
  { unfold st1'. generalize (OutputNodes node) st1. clear.
    intros l. induction l as [|x l IH]; intros st; simpl; [done|]. by rewrite IH. }
  pose proof (push_step_extends _ _ _ _ Hlaunch) as Hext2.
  pose proof (push_step_Ok _ _ _ _ Hlaunch) as (Hsteps2 & _).
  rewrite Hsame in Hsteps2.
  set (l := length (steps_of st1 i)) in *.
  assert (extends st st2) as Hext.
  { eapply extends_trans; [exact Hext0|]. eapply extends_trans; [exact Hext1|].
    by eapply extends_trans. }
  assert (steps_of st2 i !! l = Some (LaunchKernelStep c)) as Hl.
  { rewrite Hsteps2. by apply list_lookup_middle. }
  assert (∀ st3, extends st2 st3 →
            ∀ p, p ∈ InputNodes node → p ∉ stream →
              synchronised B m st3 i (GetExecutionProviderType node) p l) as Hsync3.
  { intros st3 Hext3 p Hp Hout.
    eapply synchronised_extends; [|reflexivity|by apply Hsync].
    eapply extends_trans; [exact Hext1'|]. by eapply extends_trans. }
  destruct (m !! c) as [n|] eqn:Hn.
  - apply bind_Ok in Hrest as (st3 & Hact & Htrig).
    pose proof (push_step_extends _ _ _ _ Hact) as Hext3.
    pose proof (push_step_extends _ _ _ _ Htrig) as Hext4.
    pose proof (push_step_Ok _ _ _ _ Hact) as (Hsteps3 & _).
    pose proof (push_step_Ok _ _ _ _ Htrig) as (Hsteps4 & _).
    assert (extends st2 st') as Hext24 by by eapply extends_trans.
    split; [by eapply extends_trans|].
    exists node, l. split_and!; [done| |by apply Hsync3].
    split; [by eapply prefix_lookup_Some, Hext24|]. rewrite Hn.
    rewrite Hsteps4, Hsteps3, Hsteps2, <- !app_assoc. simpl. split.
    + rewrite lookup_app_r by (unfold l; lia).
      by replace (S l - length (steps_of st1 i))%nat with 1%nat by (unfold l; lia).
    + rewrite lookup_app_r by (unfold l; lia).
      by replace (S (S l) - length (steps_of st1 i))%nat with 2%nat by (unfold l; lia).
  - injection Hrest as <-. split; [done|].
    exists node, l. split_and!; [done| |by apply Hsync3, extends_refl].
    split; [done|]. by rewrite Hn.
Qed.

Lemma emit_stream_Ok E B m i stream l j st st' :
  foldR_indexed (emit_node E B m i stream) j l st = Ok st' →
  extends st st' ∧ ∀ c, c ∈ l → node_emitted E B m st' i stream c.
Proof.
  revert j st. induction l as [|x l IH]; intros j st; simpl.
  - intros [= <-]. split; [apply extends_refl|]. by intros c ?%elem_of_nil.
  - intros (st1 & [Hext1 Hx]%emit_node_Ok & [Hext2 Hl]%IH)%bind_Ok.
    split; [by eapply extends_trans|].
    intros c [->|Hin]%elem_of_cons; [|by apply Hl].
    by eapply node_emitted_extends.
Qed.

Lemma emit_streams_Ok E B m streams k st st' :
  foldR_indexed
    (λ st i stream, foldR_indexed (emit_node E B m i stream) 0 stream st)
    k streams st = Ok st' →
  extends st st' ∧
  ∀ i stream c, streams !! i = Some stream → c ∈ stream →
    node_emitted E B m st' (k + i) stream c.
Proof.
  revert k st. induction streams as [|s streams IH]; intros k st; simpl.
  - intros [= <-]. split; [apply extends_refl|]. by intros i stream c ?.
  - intros (st1 & [Hext1 Hs]%emit_stream_Ok & [Hext2 Hrest]%IH)%bind_Ok.
    split; [by eapply extends_trans|].
    intros [|i] stream c Hlook Hc; simpl in Hlook.
    + injection Hlook as <-. rewrite Nat.add_0_r.
      eapply node_emitted_extends; [done|by apply Hs].
    + replace (k + S i)%nat with (S k + i)%nat by lia. by eapply Hrest.
Qed.

Lemma record_value_node_extends E node_index st node_output st' :
  record_value_node E node_index st node_output = Ok st' → extends st st'.
Proof.
  unfold record_value_node. destruct (Exists node_output); simpl.
  - intros (idx & _ & (s & _ & [= <-])%bind_Ok)%bind_Ok. by split_and!.
  - intros [= <-]. apply extends_refl.
Qed.

Lemma foldR_extends {A} (body : BuildState → A → Result BuildState) (l : list A) :
  (∀ s x s', body s x = Ok s' → extends s s') →
  ∀ s s', foldR body l s = Ok s' → extends s s'.
Proof.
  intros Hbody. apply foldR_preserves; [apply extends_refl|apply extends_trans|done].
Qed.

Lemma assign_notification_inv E k stream acc node_index acc' :
  stream_nodes_ E !! k = Some stream → node_index ∈ stream →
  assign_notification E stream acc node_index = Ok acc' →
  notifications_inv E acc → notifications_inv E acc'.
Proof.
  intros Hk Hin. unfold assign_notification.
  intros (node & _ & Hrest)%bind_Ok Hinv.
  destruct (existsb _ _); injection Hrest as <-; [|done].
  intros p n. simpl. destruct (decide (p = node_index)) as [->|Hne].
  - rewrite lookup_insert_eq. intros [= <-]. split_and!; [lia|by eauto|].
    intros q. destruct (decide (q = node_index)) as [->|Hq]; [done|].
    rewrite lookup_insert_ne by done. intros (Hlt & _)%Hinv. lia.
  - rewrite lookup_insert_ne by done. intros Hp.
    destruct (Hinv _ _ Hp) as (Hlt & Hstream & Hinj). split_and!; [lia|done|].
    intros q. destruct (decide (q = node_index)) as [->|Hq].
    + rewrite lookup_insert_eq. intros [= <-]. lia.
    + rewrite lookup_insert_ne by done. apply Hinj.
Qed.

Lemma assign_notifications_inv E acc :
  assign_notifications E = Ok acc → notifications_inv E acc.
Proof.
  unfold assign_notifications.
  assert (∀ streams k acc0 acc,
            (∀ i stream, streams !! i = Some stream →
                         stream_nodes_ E !! (k + i)%nat = Some stream) →
            foldR (λ acc stream, foldR (assign_notification E stream) stream acc)
                  streams acc0 = Ok acc →
            notifications_inv E acc0 → notifications_inv E acc) as Hgen.
  { induction streams as [|s streams IH]; intros k acc0 acc1 Hsub; simpl.
    - by intros [= <-].
    - intros (acc2 & Hs & Hrest)%bind_Ok Hinv.
      apply (IH (S k) acc2 acc1).
      + intros i stream Hi. replace (S k + i)%nat with (k + S i)%nat by lia.
        by apply Hsub.
      + done.
      + assert (stream_nodes_ E !! k = Some s) as Hk.
        { specialize (Hsub 0%nat s eq_refl). by rewrite Nat.add_0_r in Hsub. }
        assert (∀ l acc0 acc, (∀ x, x ∈ l → x ∈ s) →
                  foldR (assign_notification E s) l acc0 = Ok acc →
                  notifications_inv E acc0 → notifications_inv E acc) as Hnodes.
        { clear -Hk. induction l as [|x l IHl]; intros acc0 acc Hl; simpl.
          - by intros [= <-].
          - intros (acc2 & Hx & Hrest)%bind_Ok Hinv.
            apply (IHl acc2 acc); [|done|].
            + intros y Hy. apply Hl. by right.
            + eapply assign_notification_inv; [exact Hk| |exact Hx|done].
              apply Hl. by left. }
        by apply (Hnodes s acc0 acc2). }
  intros Hrun. apply (Hgen (stream_nodes_ E) 0%nat (∅, 0%nat) acc); [done|done|].
  intros p n. simpl. by rewrite lookup_empty.
Qed.

Lemma set_notification_owners_Ok E (m : gmap NodeIndex nat) order owners0 owners :
  (∀ p q n, m !! p = Some n → m !! q = Some n → q = p) →
  foldR (set_notification_owner E m) order owners0 = Ok owners →
  ∀ p n, m !! p = Some n →
    (p ∈ order →
     ∃ s, node_stream_map_ E !! N.to_nat p = Some s ∧ owners !! n = Some (N.to_nat s)) ∧
    (p ∉ order → owners !! n = owners0 !! n).
Proof.
  intros Hinj. revert owners0. induction order as [|x order IH]; intros owners0; simpl.
  - intros [= <-] p n Hp. split; [by intros ?%elem_of_nil|done].
  - intros (owners1 & Hx & Hrest)%bind_Ok p n Hp.
    destruct (IH _ Hrest p n Hp) as [Hin Hout].
    destruct (decide (p ∈ order)) as [Hp_in|Hp_out]; [split; [by auto|]|].
    { intros Hnot. contradict Hnot. by right. }
    unfold set_notification_owner in Hx.
    destruct (decide (p = x)) as [->|Hne].
    + split; [|intros Hnot; contradict Hnot; by left].
      intros _. rewrite Hp in Hx.
      apply bind_Ok in Hx as (s & Hs%unchecked_Ok & Hx).
      apply bind_Ok in Hx as (old & Hold%unchecked_Ok & [= <-]).
      exists s. split; [done|]. rewrite (Hout Hp_out).
      apply list_lookup_insert_eq. by eapply lookup_lt_Some.
    + split; [intros [->|?]%elem_of_cons; done|].
      intros _. rewrite (Hout Hp_out).
      destruct (m !! x) as [n'|] eqn:Hx_n; [|by injection Hx as <-].
      apply bind_Ok in Hx as (s & _ & Hx).
      apply bind_Ok in Hx as (old & _ & [= <-]).
      apply list_lookup_insert_ne. intros ->. apply Hne. by eapply Hinj.
Qed.

(** [PartitionIntoStreams] maps every node to its stream when no node is
    on two streams. *)
Lemma assign_stream_Ok i stream :
  ∀ m m', foldR (assign_node_stream i) stream m = Ok m' →
    (∀ n, n ∈ stream → m' !! N.to_nat n = Some (N.of_nat i)) ∧
    (∀ n, n ∉ stream → m' !! N.to_nat n = m !! N.to_nat n).
Proof.
  induction stream as [|x stream IH]; intros m m'; simpl.
  - intros [= <-]. split; [by intros n ?%elem_of_nil|done].
  - intros (m1 & Hx & [Hin Hout]%IH)%bind_Ok.
    unfold assign_node_stream in Hx.
    apply bind_Ok in Hx as (old & Hold%unchecked_Ok & [= <-]).
    split.
    + intros n Hn. destruct (decide (n ∈ stream)) as [?|Hnot]; [by apply Hin|].
      apply elem_of_cons in Hn as [->|?]; [|done].
      rewrite (Hout x Hnot). apply list_lookup_insert_eq. by eapply lookup_lt_Some.
    + intros n Hn. apply not_elem_of_cons in Hn as [Hne Hn].
      rewrite (Hout n Hn). apply list_lookup_insert_ne. lia.
Qed.

Lemma assign_node_streams_Ok stream_nodes max_node_index node_stream_map :
  NoDup (concat stream_nodes) →
  assign_node_streams stream_nodes max_node_index = Ok node_stream_map →
  ∀ i stream n, stream_nodes !! i = Some stream → n ∈ stream →
    node_stream_map !! N.to_nat n = Some (N.of_nat i).
Proof.
  unfold assign_node_streams. generalize (replicate (N.to_nat max_node_index + 1) 0%N).
  assert (∀ streams k m m',
            NoDup (concat streams) →
            foldR_indexed (λ m i stream, foldR (assign_node_stream i) stream m)
                          k streams m = Ok m' →
            (∀ i stream n, streams !! i = Some stream → n ∈ stream →
                           m' !! N.to_nat n = Some (N.of_nat (k + i))) ∧
            (∀ n, n ∉ concat streams → m' !! N.to_nat n = m !! N.to_nat n)) as Hgen.
  { induction streams as [|s streams IH]; intros k m m'; simpl.
    - intros _ [= <-]. split; [by intros ? ? ? ?|done].
    - intros (Hnd_s & Hdisj & Hnd)%NoDup_app (m1 & [Hin Hout]%assign_stream_Ok & Hrest)%bind_Ok.
      destruct (IH (S k) m1 m' Hnd Hrest) as [Hin' Hout']. split.
      + intros [|i] stream n Hi Hn; simpl in Hi.
        * injection Hi as <-. rewrite Nat.add_0_r.
          rewrite Hout' by by apply Hdisj. by apply Hin.
        * replace (k + S i)%nat with (S k + i)%nat by lia. by eapply Hin'.
      + intros n Hn. apply not_elem_of_app in Hn as [Hs Hn].
        rewrite (Hout' n Hn). by apply Hout. }
  intros m Hnd Hrun i stream n Hi Hn.
  by destruct (Hgen stream_nodes 0%nat m node_stream_map Hnd Hrun) as [Hin _];
    apply (Hin i stream n).
Qed.

Lemma set_stream_provider_agree E B plan x plan' processed :
  set_stream_provider E B plan x = Ok plan' →
  providers_agree E B plan processed →
  providers_agree E B plan' (x :: processed).
Proof.
  unfold set_stream_provider.
  intros (node & Hnode%unchecked_Ok & (s & Hs%unchecked_Ok & Hrun)%bind_Ok)%bind_Ok Hagree.
  apply bind_Ok in Hrun as (stream & Hstream%unchecked_Ok & Hrun).
  destruct (ep_ stream) as [current|] eqn:Hep.
  - apply bind_Ok in Hrun as ([] & Henf & [= <-]).
    unfold ORT_ENFORCE in Henf. case_bool_decide as Hsame; [|done].
    intros q node_q s' ls t [->|Hq]%elem_of_cons Hq_node Hq_s Hls Hget;
      [|by eapply Hagree].
    simpl in Hq_node. rewrite Hnode in Hq_node. injection Hq_node as <-.
    rewrite Hs in Hq_s. injection Hq_s as <-.
    rewrite Hstream in Hls. injection Hls as <-. congruence.
  - injection Hrun as <-.
    intros q node_q s' ls t Hq Hq_node Hq_s Hls Hget.
    destruct (decide (N.to_nat s' = N.to_nat s)) as [Heq|Hne].
    + rewrite Heq, list_lookup_insert_eq in Hls by by eapply lookup_lt_Some.
      injection Hls as <-. simpl.
      apply elem_of_cons in Hq as [->|Hq].
      * simpl in Hq_node. rewrite Hnode in Hq_node. by injection Hq_node as <-.
      * rewrite <- Heq in Hstream.
        pose proof (Hagree q node_q s' stream t Hq Hq_node Hq_s Hstream Hget). congruence.
    + rewrite list_lookup_insert_ne in Hls by done.
      apply elem_of_cons in Hq as [->|Hq]; [|by eapply Hagree].
      rewrite Hs in Hq_s. by injection Hq_s as <-.
Qed.

Lemma providers_agree_mono E B plan processed processed' :
  (∀ q, q ∈ processed' → q ∈ processed) →
  providers_agree E B plan processed → providers_agree E B plan processed'.
Proof. intros Hsub Hagree q node_q s ls t Hq. apply Hagree. by apply Hsub. Qed.

Lemma set_stream_providers_agree E B streams :
  ∀ plan plan' processed,
    foldR (λ plan stream, foldR (set_stream_provider E B) stream plan) streams plan
      = Ok plan' →
    providers_agree E B plan processed →
    providers_agree E B plan' (concat streams ++ processed).
Proof.
  assert (∀ stream plan plan' processed,
            foldR (set_stream_provider E B) stream plan = Ok plan' →
            providers_agree E B plan processed →
            providers_agree E B plan' (stream ++ processed)) as Hstream.
  { induction stream as [|x stream IH]; intros plan plan' processed; simpl.
    - by intros [= <-].
    - intros (plan1 & Hx & Hrest)%bind_Ok Hagree.
      eapply providers_agree_mono; [|eapply IH; [done|by eapply set_stream_provider_agree]].
      intros q. rewrite !elem_of_cons, !elem_of_app, elem_of_cons. tauto. }
  induction streams as [|stream streams IH]; intros plan plan' processed; simpl.
  - by intros [= <-].
  - intros (plan1 & Hs & Hrest)%bind_Ok Hagree.
    eapply providers_agree_mono; [|eapply IH; [done|by eapply Hstream]].
    intros q. rewrite !elem_of_app. tauto.
Qed.

(** C2.  For every edge of the model graph from a producer [p] to a
    consumer [c] on another stream, the execution plan has, in the stream
    of [c], a barrier before the launch of [c] that the downstream map
    lists under a notification [n]; when the registry has a wait handle
    for the provider of the owning stream and the provider of [c], the
    wait on [n] follows the barrier, still before the launch.  The
    notification [n] is owned by the stream of [p], where the launch of
    [p] is followed by the activation of [n] and the trigger of its
    downstream; and the provider of that stream is the provider of [p]
    when that one is registered. *)
Theorem cross_stream_edges_synchronised E B st i stream c node p :
  valid_partition E →
  BuildExecutionPlan E B = Ok st →
  stream_nodes_ E !! i = Some stream → c ∈ stream →
  GetNode (graph_viewer_ E) c = Some node →
  p ∈ InputNodes node → p ∉ stream →
  ∃ n k stream_p owner_ep b barrier_id lc lp,
    stream_nodes_ E !! k = Some stream_p ∧ p ∈ stream_p ∧
    notification_owners st !! n = Some k ∧ stream_ep st k = Some owner_ep ∧
    steps_of st i !! b = Some (BarrierStep barrier_id) ∧
    (i, Z.of_nat b) ∈ downstream_of st n ∧
    steps_of st i !! lc = Some (LaunchKernelStep c) ∧ (b < lc)%nat ∧
    (∀ wait_handle,
       GetWaitHandle B owner_ep (GetExecutionProviderType node) = Some wait_handle →
       steps_of st i !! S b = Some (WaitOnEPStep wait_handle n) ∧ (S b < lc)%nat) ∧
    steps_of st k !! lp = Some (LaunchKernelStep p) ∧
    steps_of st k !! S lp = Some (ActivateNotificationStep n) ∧
    steps_of st k !! S (S lp) = Some (TriggerDownstreamStep n) ∧
    (∀ node_p, GetNode (graph_viewer_ E) p = Some node_p →
               GetExecutionProviderType node_p ∈ registered_providers B →
               owner_ep = GetExecutionProviderType node_p).
Proof.
  intros Hvalid Hrun Hi Hc Hnode Hp Hout. unfold BuildExecutionPlan in Hrun.
  apply bind_Ok in Hrun as (acc & Hinv%assign_notifications_inv & Hrun).
  apply bind_Ok in Hrun as (plan3 & Hproviders & Hrun).
  apply (set_stream_providers_agree E B _ _ _ []) in Hproviders; cycle 1.
  { intros q node_q s ls t Hq. by apply elem_of_nil in Hq. }
  apply bind_Ok in Hrun as (owners & Howners & Hrun).
  apply bind_Ok in Hrun as (st5 & [Hext5 Hemitted]%emit_streams_Ok & Hrun).
  assert (extends st5 st) as Hext6.
  { revert Hrun. apply foldR_extends. intros s x s' (nd & _ & Hvals)%bind_Ok.
    revert Hvals. apply foldR_extends. intros ? ? ?. apply record_value_node_extends. }
  assert (notification_owners st = owners) as Hown_st.
  { destruct Hext6 as (-> & _). by destruct Hext5 as (-> & _). }
  destruct (node_emitted_extends _ _ _ _ _ _ _ _ Hext6 (Hemitted i stream c Hi Hc))
    as (node' & lc & Hnode' & [Hlc _] & Hsync).
  simpl in Hnode'. rewrite Hnode in Hnode'. injection Hnode' as <-.
  destruct (Hsync p Hp Hout)
    as (n & b & id & owner & owner_ep & Hn & Hb & Hbar & Hdown & Hown & Hep & Hwait).
  destruct (Hinv p n Hn) as (_ & (k & stream_p & Hk & Hpk) & Hinj).
  destruct (Hvalid k stream_p p Hk Hpk) as [Hmap Horder].
  assert (∀ p q n, acc.1 !! p = Some n → acc.1 !! q = Some n → q = p) as Hinj_all.
  { intros p' q n' Hp' Hq. by apply (Hinv p' n' Hp'). }
  destruct (set_notification_owners_Ok _ _ _ _ _ Hinj_all Howners p n Hn) as [Hin _].
  destruct (Hin Horder) as (s & Hs & Hos). rewrite Hmap in Hs. injection Hs as <-.
  rewrite Nat2N.id in Hos. rewrite Hown_st, Hos in Hown. injection Hown as <-.
  destruct (node_emitted_extends _ _ _ _ _ _ _ _ Hext6 (Hemitted k stream_p p Hk Hpk))
    as (node_p & lp & _ & [Hlp Hnotify] & _).
  simpl in Hnotify. rewrite Hn in Hnotify. destruct Hnotify as [Hact Htrig].
  exists n, k, stream_p, owner_ep, b, id, lc, lp.
  split_and!; try done.
  - by rewrite Hown_st.
  - intros wait_handle Hhandle. rewrite Hhandle in Hwait. by destruct Hwait.
  - intros producer Hproducer Hregistered.
    assert (stream_ep st k = plan3 !! k ≫= ep_) as Hep_k.
    { destruct Hext6 as (_ & -> & _). by destruct Hext5 as (_ & -> & _). }
    rewrite Hep_k in Hep. destruct (plan3 !! k) as [ls|] eqn:Hls; [|done].
    simpl in Hep.
    assert (ep_ ls = Some (GetExecutionProviderType producer)) as Hagreed.
    { apply (Hproviders p producer (N.of_nat k) ls); try done.
      - rewrite app_nil_r. apply elem_of_concat. exists stream_p. split; [done|].
        by eapply list_elem_of_lookup_2.
      - by rewrite Nat2N.id.
      - unfold Get_provider. by rewrite bool_decide_eq_true_2. }
    congruence.
Qed.

Lemma cross_stream_edges_synchronised_witness :
  ∃ n k stream_p owner_ep b barrier_id lc lp,
    stream_nodes_ S2.env !! k = Some stream_p ∧ 1%N ∈ stream_p ∧
    notification_owners S2.built !! n = Some k ∧
    stream_ep S2.built k = Some owner_ep ∧
    steps_of S2.built 0 !! b = Some (BarrierStep barrier_id) ∧
    (0%nat, Z.of_nat b) ∈ downstream_of S2.built n ∧
    steps_of S2.built 0 !! lc = Some (LaunchKernelStep 2) ∧ (b < lc)%nat ∧
    (∀ wait_handle,
       GetWaitHandle S2.inputs owner_ep (GetExecutionProviderType S1.node_C)
         = Some wait_handle →
       steps_of S2.built 0 !! S b = Some (WaitOnEPStep wait_handle n) ∧ (S b < lc)%nat) ∧
    steps_of S2.built k !! lp = Some (LaunchKernelStep 1) ∧
    steps_of S2.built k !! S lp = Some (ActivateNotificationStep n) ∧
    steps_of S2.built k !! S (S lp) = Some (TriggerDownstreamStep n) ∧
    (∀ node_p, GetNode (graph_viewer_ S2.env) 1%N = Some node_p →
               GetExecutionProviderType node_p ∈ registered_providers S2.inputs →
               owner_ep = GetExecutionProviderType node_p).
Proof.
  apply (cross_stream_edges_synchronised S2.env S2.inputs S2.built 0
           [0%N; 2%N] 2%N S1.node_C 1%N).
  - intros i stream node_index Hi Hin.
    destruct i as [|[|i]]; simpl in Hi; [| |done]; injection Hi as <-.
    + apply elem_of_cons in Hin as [->|Hin]; [by vm_compute; split; [|left]|].
      apply list_elem_of_singleton in Hin as ->.
      split; [done|]. right. right. left.
    + apply list_elem_of_singleton in Hin as ->.
      split; [done|]. right. left.
  - by vm_compute.
  - done.
  - right. left.
  - done.
  - left.
  - intros Hin. apply elem_of_cons in Hin as [[=]|Hin].
    by apply list_elem_of_singleton in Hin.
Defined.

(** The plan of scenario S2, step by step. *)
Example S2_execution_plan :
  steps_of S2.built 0 =
    [LaunchKernelStep 0; ActivateNotificationStep 0; TriggerDownstreamStep 0;
     BarrierStep 0; WaitOnEPStep 7 1; LaunchKernelStep 2] ∧
  steps_of S2.built 1 =
    [BarrierStep 1; WaitOnEPStep 7 0; LaunchKernelStep 1;
     ActivateNotificationStep 1; TriggerDownstreamStep 1] ∧
  notification_owners S2.built = [0; 1]%nat ∧
  downstream_of S2.built 0 = [(1%nat, 0)] ∧
  downstream_of S2.built 1 = [(0%nat, 3)].
Proof. by vm_compute. Qed.

(** ** The waiting list and the readers of a buffer *)

Lemma Race_upstream n m :
  m ∈ upstream_of (dependence_graph_ Race.built) n →
  n ∈ [0%N; 2%N] → m ∈ [0%N; 2%N].
Proof.
  intros Hm Hn. apply elem_of_elements in Hm.
  apply elem_of_cons in Hn as [->|Hn].
  - vm_compute in Hm. by apply elem_of_nil in Hm.
  - apply list_elem_of_singleton in Hn as ->. vm_compute in Hm.
    apply list_elem_of_singleton in Hm as ->. left.
Qed.

Lemma Race_D_independent_of_C : ¬ depends_on (dependence_graph_ Race.built) 2%N 1%N.
Proof.
  assert (∀ n m, depends_on (dependence_graph_ Race.built) n m →
                 n ∈ [0%N; 2%N] → m ∈ [0%N; 2%N]) as Hclosed.
  { intros n m Hdep. induction Hdep as [|n k m Hstep _ IH]; [done|].
    intros Hn. apply IH. by eapply Race_upstream. }
  intros Hdep. specialize (Hclosed _ _ Hdep).
  assert (1%N ∈ [0%N; 2%N]) as Hin by (apply Hclosed; right; left).
  apply elem_of_cons in Hin as [[=]|Hin]. by apply list_elem_of_singleton in Hin.
Qed.

(** In scenario S5 the output of [D] takes the buffer of the output of
    [A], whose readers [B] and [C] both come before [D]; the outputs of
    [B] and [C] get buffers of their own. *)
Example S5_plan :
  ComputeReusePlan S5.env Race.ascending Race.parallel_context S5.built S5.init
    = Ok S5.planned ∧
  map (λ entry, (alloc_kind entry, reused_buffer entry)) (allocation_plan S5.planned) =
    [(kPreExisting, 0); (kAllocate, 0); (kAllocate, 0); (kAllocate, 0);
     (kReuse, 1); (kAllocateOutput, 0)] ∧
  depends_on (dependence_graph_ S5.built) 3%N 1%N ∧
  depends_on (dependence_graph_ S5.built) 3%N 2%N.
Proof.
  split_and!; [by vm_compute|by vm_compute| |];
    apply rtc_once; apply elem_of_elements; vm_compute;
    apply list_elem_of_In; simpl; tauto.
Qed.

(** C1 (evidence).  In scenario Race the single-stream pass under the
    parallel context leaves [a] and [d] with kind [kAllocate]; the
    optimizer then rewrites [d] to reuse the buffer of [a] through the
    waiting list, in either order of walking the hash sets.  Node [C]
    reads [a], and the node [D] that writes [d] does not depend on [C] in
    the combined dependency graph: the set [value_consumer_map_] that the
    optimizer checks against the dependents of [D] is empty, since nothing
    fills it with the readers of a value. *)
Theorem waiting_list_reuse_ignores_readers :
  (∃ baseline,
     (ComputeReuseCount (with_context Race.env Race.parallel_context) Race.init
        ≫= ComputeSingleStreamReusePlan (with_context Race.env Race.parallel_context))
       = Ok baseline ∧
     AllocPlan baseline 1 = Ok (mkAllocPlan kAllocate 0 S1.cpu) ∧
     AllocPlan baseline 3 = Ok (mkAllocPlan kAllocate 0 S1.cpu)) ∧
  (∀ opt, opt = Race.ascending ∨ opt = Race.descending →
     ∃ st, ComputeReusePlan Race.env opt Race.parallel_context Race.built Race.init
             = Ok st ∧
           AllocPlan st 3 = Ok (mkAllocPlan kReuse 1 S1.cpu)) ∧
  Race.a ∈ InputDefs Race.node_C ∧
  value_node_map_ Race.built !! 3 = Some 2%N ∧
  ¬ depends_on (dependence_graph_ Race.built) 2%N 1%N.
Proof.
  split_and!.
  - eexists. split_and!; [by vm_compute|done|done].
  - intros opt [-> | ->]; eexists; (split; [by vm_compute|done]).
  - left.
  - by vm_compute.
  - apply Race_D_independent_of_C.
Qed.

(** ** Graph outputs are not taken for reuse *)

Lemma pending_on_elem st events t e :
  e ∈ events → Buffer st e = Ok t → 1 ≤ pending_on st events t.
Proof.
  intros Hin Hbuf. induction Hin as [e events|e e' events _ IH];
    rewrite pending_on_cons.
  - rewrite bool_decide_eq_true_2 by done.
    pose proof (pending_on_nonneg st events t). lia.
  - specialize (IH Hbuf). case_bool_decide; lia.
Qed.

Lemma UseCount_nonneg_index st v c : UseCount st v = Ok c → 0 ≤ v.
Proof. intros [b Hb]%UseCount_Buffer_range. by eapply Buffer_nonneg. Qed.

Lemma root_of_counted st v b c :
  buffers_are_roots st → Buffer st v = Ok b → UseCount st b = Ok c →
  Buffer st b = Ok b.
Proof.
  intros Hroots Hb Hc. destruct (Hroots v b Hb) as [->|]; [|done].
  apply UseCount_nonneg_index in Hc. lia.
Qed.

Lemma planner_inv_later st events later later' pins :
  (∀ v, v ∈ later' → v ∈ later) →
  planner_inv st events later pins → planner_inv st events later' pins.
Proof.
  intros Hsub (Hcover & Hown & Hunref & Hroots & Hnd & Hfree).
  unfold planner_inv, freelist_dead. split_and!; try done.
  - intros v b Hv. apply Hown. by apply Hsub.
  - intros v d Hd. apply Hunref. by apply Hsub.
  - intros it Hit. destruct (Hfree it Hit) as (Hnot & ? & ?). split_and!; try done.
    intros Hin. apply Hnot. by apply Hsub.
Qed.

Lemma planner_inv_events st e events later pins :
  planner_inv st (e :: events) later pins → planner_inv st events later pins.
Proof.
  intros (Hcover & Hrest). split; [|done].
  by apply (counts_cover_tail st [e]).
Qed.

Lemma planner_inv_ext st st' events later pins :
  ort_value_info_ st' = ort_value_info_ st → freelist_ st' = freelist_ st →
  planner_inv st events later pins → planner_inv st' events later pins.
Proof.
  intros Hinfo Hfl.
  assert (∀ v, Buffer st' v = Buffer st v) as Hb
    by (intros v; unfold Buffer; by rewrite Hinfo).
  assert (∀ v, UseCount st' v = UseCount st v) as Hu
    by (intros v; unfold UseCount; by rewrite Hinfo).
  intros (Hcover & Hown & Hunref & Hroots & Hnd & Hfree).
  unfold planner_inv, freelist_dead. split_and!.
  - by eapply counts_cover_ext.
  - intros v b Hv. rewrite Hb. by apply Hown.
  - intros v d Hd Hge. rewrite Hb. by apply Hunref.
  - intros v b. rewrite !Hb. apply Hroots.
  - by rewrite Hfl.
  - intros it. rewrite Hfl, Hb, Hu. apply Hfree.
Qed.

Lemma planner_inv_drop_freed st skipped it rest events later pins :
  freelist_ st = skipped ++ it :: rest →
  planner_inv st events later pins →
  planner_inv (with_freelist st (skipped ++ rest)) events later pins ∧
  ∀ e, e ∈ skipped ++ rest → ml_value e ≠ ml_value it.
Proof.
  intros Hfl (Hcover & Hown & Hunref & Hroots & Hnd & Hfree).
  rewrite Hfl, fmap_app, fmap_cons in Hnd.
  apply NoDup_app in Hnd as (Hnd1 & Hdisj & Hnd2).
  apply NoDup_cons in Hnd2 as [Hit Hnd2].
  split.
  - unfold planner_inv, freelist_dead. split_and!; try done.
    + simpl. rewrite fmap_app. apply NoDup_app. split_and!; [done| |done].
      intros x Hx Hx'. apply (Hdisj x Hx). by right.
    + intros e He. simpl in He. apply (Hfree e). rewrite Hfl.
      apply elem_of_app in He as [?|?]; apply elem_of_app; [by left|right; by right].
  - intros e [He|He]%elem_of_app Heq.
    + apply (Hdisj (ml_value e)); [by apply list_elem_of_fmap_2|]. rewrite Heq. by left.
    + apply Hit. rewrite <- Heq. by apply list_elem_of_fmap_2.
Qed.

Lemma Reuse_inv st reused current kind st' events later pins :
  Reuse st reused current kind = Ok st' →
  planner_inv st events (current :: later) pins →
  current ∉ later → reused ∉ later →
  (∀ original it, Buffer st reused = Ok original → it ∈ freelist_ st →
                  ml_value it ≠ original) →
  planner_inv st' events later pins.
Proof.
  intros Hrun Hinv Hcur Hreused Hlive.
  pose proof Hinv as (Hcover & Hown & Hunref & Hroots & Hnd & Hfree).
  pose proof (Reuse_Ok _ _ _ _ _ Hrun)
    as (Hne & original & c_for & c_orig & p & Hbuf & Hcf & Hco & Hp & Hb & Hu & _ & Hfl).
  assert (0 ≤ original) as Hge by by eapply UseCount_nonneg_index.
  assert (original ≠ current) as Hoc.
  { intros ->. apply Hne. apply (Hunref reused current); [by left|done|done]. }
  assert (original ∉ later) as Hol.
  { intros Hin. apply Hreused.
    assert (reused = original) as -> by (apply (Hunref reused original); [by right|done|done]).
    done. }
  unfold planner_inv, freelist_dead. split_and!.
  - eapply Reuse_counts_cover; [done| |done].
    intros b Hbc. apply (Hown current b); [by left|done].
  - intros v b Hv. rewrite Hb. case_decide as Hvc; [by subst|].
    apply Hown. by right.
  - intros v d Hd Hd0. rewrite Hb. case_decide as Hvc.
    + intros [= ->]. done.
    + apply Hunref; [by right|done].
  - intros v b. rewrite Hb. case_decide as Hvc.
    + intros [= <-]. right. rewrite Hb. rewrite decide_False by done.
      by eapply root_of_counted.
    + intros Hvb. destruct (Hroots v b Hvb) as [?|Hbb]; [by left|right].
      rewrite Hb. case_decide as Hbc; [|done]. subst b.
      exfalso. apply Hvc. apply (Hunref v current); [by left| |done].
      by eapply Buffer_nonneg.
  - by rewrite Hfl.
  - intros it. rewrite Hfl. intros Hit.
    destruct (Hfree it Hit) as (Hnot & Hbit & Huit).
    assert (ml_value it ≠ current) as Hic by (intros Heq; apply Hnot; rewrite Heq; by left).
    split_and!.
    + intros Hin. apply Hnot. by right.
    + rewrite Hb. by rewrite decide_False.
    + rewrite Hu. rewrite decide_False; [done|]. by eapply Hlive.
Qed.

Lemma release_use_inv st e original pc st' events later pins :
  release_use st original pc = Ok st' →
  planner_inv st (e :: events) later pins →
  Buffer st e = Ok original → e ∉ later →
  planner_inv st' events later pins.
Proof.
  intros Hrun Hinv Hbuf He.
  pose proof Hinv as (Hcover & Hown & Hunref & Hroots & Hnd & Hfree).
  pose proof (keeps_Ok _ _ _ (release_use_keeps st e (events ++ pins) original pc
                                Hcover Hbuf) Hrun) as [Hcover' _].
  apply release_use_Ok in Hrun as (c & Hc & Hnn & Hu & Hb & _ & Hfl).
  assert (Buffer st original = Ok original) as Hroot by by eapply root_of_counted.
  assert (original ∉ later) as Hol.
  { intros Hin. apply He.
    assert (e = original) as -> by (apply (Hunref e original); [done| |done];
      by eapply UseCount_nonneg_index).
    done. }
  assert (∀ it, it ∈ freelist_ st → ml_value it ≠ original) as Hother.
  { intros it Hit Heq. destruct (Hfree it Hit) as (_ & _ & Hzero).
    rewrite Heq, Hc in Hzero. injection Hzero as ->. lia. }
  unfold planner_inv, freelist_dead. split_and!; try done.
  - intros v b Hv. rewrite Hb. by apply Hown.
  - intros v d Hd Hge. rewrite Hb. by apply Hunref.
  - intros v b. rewrite !Hb. apply Hroots.
  - destruct Hfl as [[_ ->]|[_ ->]]; [done|]. rewrite fmap_cons. simpl.
    apply NoDup_cons. split; [|done].
    intros (it & Heq & Hit)%list_elem_of_fmap. by apply (Hother it).
  - intros it Hit. rewrite Hb, Hu.
    destruct Hfl as [[_ Hfl]|[Hzero Hfl]]; rewrite Hfl in Hit.
    + destruct (Hfree it Hit) as (? & ? & ?). split_and!; try done.
      rewrite decide_False; [done|]. by apply Hother.
    + apply elem_of_cons in Hit as [->|Hit]; simpl.
      * split_and!; [done|done|]. rewrite decide_True by done. by rewrite Hzero.
      * destruct (Hfree it Hit) as (? & ? & ?). split_and!; try done.
        rewrite decide_False; [done|]. by apply Hother.
Qed.

Lemma FindReusableInput_alias_Some E input_args out alias_map r :
  FindReusableInput_alias E input_args out alias_map = Ok (Some r) →
  ∃ entry p, entry ∈ alias_map ∧ entry_applies input_args out entry p ∧
             Index E (Name p) = Ok r.
Proof.
  induction alias_map as [|e rest IH]; [done|]. simpl. intros Hrun.
  assert (FindReusableInput_alias E input_args out rest = Ok (Some r) →
          ∃ entry p, entry ∈ e :: rest ∧ entry_applies input_args out entry p ∧
                     Index E (Name p) = Ok r) as Hnext.
  { intros (e' & p' & Hin & H)%IH. exists e', p'. split; [by right|done]. }
  destruct (paired_input input_args out e) as [q|] eqn:Hq; [|by apply Hnext].
  destruct (Exists q) eqn:Hex; [|by apply Hnext].
  apply bind_Ok in Hrun as (idx & Hidx & [= <-]).
  apply paired_input_Some in Hq as [? ?].
  exists e, q. split; [by left|done].
Qed.

Lemma FindReusableInput_variadic_Some E input_args out offsets r :
  FindReusableInput_variadic E input_args out offsets = Ok (Some r) →
  ∃ input_offset output_offset p,
    offsets = Some (input_offset, output_offset) ∧
    at_index input_args (out - output_offset + input_offset) = Some p ∧
    Exists p = true ∧ Index E (Name p) = Ok r.
Proof.
  unfold FindReusableInput_variadic. destruct offsets as [[input_offset output_offset]|];
    [|done].
  destruct (at_index input_args _) as [p|] eqn:Hp; [|done].
  destruct (Exists p) eqn:Hex; [|done].
  intros (idx & Hidx & [= <-])%bind_Ok. by exists input_offset, output_offset, p.
Qed.

(** An input found for reuse is an existing explicit input; it is found
    by a required alias, or in place at the last use of its buffer. *)
Lemma FindReusableInput_cases E st node j r :
  FindReusableInput E st node (Z.of_nat j) = Ok (Some r) →
  (∃ p, p ∈ InputDefs node ∧ arg_value E p = Some r) ∧
  (alias_required E node j ∨
   ∃ original, Buffer st r = Ok original ∧ UseCount st original = Ok 1).
Proof.
  unfold FindReusableInput. intros (p_out & _ & Hrun)%bind_Ok.
  apply bind_Ok in Hrun as (ci & Hci%checked_Ok & Hrun).
  destruct (kernel_def ci) as [kd|] eqn:Hkd; [|done].
  apply bind_Ok in Hrun as (by_alias & Halias & Hrun).
  destruct by_alias as [r'|].
  { injection Hrun as ->.
    apply FindReusableInput_alias_Some in Halias as (entry & p & Hin & Happ & Hidx).
    pose proof Happ as (_ & Hat & Hex). split.
    - exists p. split; [by eapply at_index_elem_of|by apply arg_value_Index].
    - left. exists ci, kd. split_and!; [done|done|]. left. by exists entry, p. }
  apply bind_Ok in Hrun as (by_variadic & Hvar & Hrun).
  destruct by_variadic as [r'|].
  { injection Hrun as ->.
    apply FindReusableInput_variadic_Some in Hvar
      as (input_offset & output_offset & p & Hoff & Hat & Hex & Hidx). split.
    - exists p. split; [by eapply at_index_elem_of|by apply arg_value_Index].
    - left. exists ci, kd. split_and!; [done|done|]. right.
      by exists input_offset, output_offset, p. }
  apply FindReusableInput_inplace_Some in Hrun
    as (entry & p & original & Hin & (_ & Hat & Hex) & Hidx & Hbuf & Hcount & _).
  split.
  - exists p. split; [by eapply at_index_elem_of|by apply arg_value_Index].
  - right. by exists original.
Qed.

Lemma plan_graph_output_Ok E pnode st current st' :
  plan_graph_output E pnode st current = Ok st' →
  ∃ st1, set_alloc_kind st current kAllocateOutput = Ok st1 ∧
    (st' = st1 ∨
     ∃ input input_index,
       input ∈ InputDefs pnode ∧ Index E (Name input) = Ok input_index ∧
       Reuse st1 input_index current kShare = Ok st').
Proof.
  unfold plan_graph_output. intros (st1 & H1 & Hrun)%bind_Ok. exists st1.
  split; [done|].
  destruct (is_loop_identity E pnode); [|left; by injection Hrun].
  apply bind_Ok in Hrun as (input & Hinput%unchecked_Ok & Hrun).
  apply bind_Ok in Hrun as (first_input & _ & Hrun).
  destruct (same_ptr input first_input); [left; by injection Hrun|].
  apply bind_Ok in Hrun as (input_index & Hidx & Hrun).
  apply bind_Ok in Hrun as (alloc_plan & _ & Hrun).
  case_bool_decide; [|left; by injection Hrun].
  right. exists input, input_index. split_and!; [|done|done].
  by eapply list_elem_of_lookup_2.
Qed.

Lemma plan_facts_step E st st' current defined :
  plan_facts E st defined →
  (∀ v, v ≠ current → AllocPlan st' v = AllocPlan st v) →
  (∀ entry, AllocPlan st' current = Ok entry →
     (alloc_kind entry = kReuse → reused_buffer entry ∈ graph_output_values E →
      aliased E current) ∧
     (current ∈ graph_output_values E → output_kind (alloc_kind entry))) →
  plan_facts E st' (current :: defined).
Proof.
  intros (Honly & Hkinds & Hplanned) Hframe Hnew. split_and!.
  - intros v entry Hv. destruct (decide (v = current)) as [->|Hne].
    + by apply Hnew.
    + rewrite Hframe in Hv by done. by apply Honly.
  - intros g entry Hg Hentry. destruct (decide (g = current)) as [->|Hne].
    + destruct (Hnew entry Hentry) as [_ Hkind].
      destruct (Hkind Hg) as [->|[->| ->]]; done.
    + rewrite Hframe in Hentry by done. by eapply Hkinds.
  - intros g entry Hg Hdef Hentry. destruct (decide (g = current)) as [->|Hne].
    + by apply Hnew.
    + rewrite Hframe in Hentry by done. apply elem_of_cons in Hdef as [?|Hdef]; [done|].
      by eapply Hplanned.
Qed.

Lemma plan_facts_defined E st defined defined' :
  (∀ v, v ∈ defined' → v ∈ defined) →
  plan_facts E st defined → plan_facts E st defined'.
Proof.
  intros Hsub (Honly & Hkinds & Hplanned). split_and!; [done|done|].
  intros g entry Hg Hdef. apply Hplanned; [done|]. by apply Hsub.
Qed.

Lemma plan_facts_ext E st st' defined :
  allocation_plan st' = allocation_plan st →
  plan_facts E st defined → plan_facts E st' defined.
Proof.
  intros Hplan. assert (∀ v, AllocPlan st' v = AllocPlan st v) as Heq
    by (intros v; unfold AllocPlan; by rewrite Hplan).
  intros (Honly & Hkinds & Hplanned). split_and!.
  - intros v entry. rewrite Heq. apply Honly.
  - intros g entry Hg. rewrite Heq. by apply Hkinds.
  - intros g entry Hg Hdef. rewrite Heq. by apply Hplanned.
Qed.

Lemma pending_use_counted st events pins e t c :
  counts_cover st (events ++ pins) → e ∈ events → Buffer st e = Ok t →
  UseCount st t = Ok c → 1 ≤ c.
Proof.
  intros Hcover He Hb Hc. specialize (Hcover t c Hc). rewrite pending_on_app in Hcover.
  pose proof (pending_on_elem st events t e He Hb).
  pose proof (pending_on_nonneg st pins t). lia.
Qed.

Lemma pin_counted st events pins g t c :
  counts_cover st (events ++ pins) → g ∈ pins → Buffer st g = Ok t →
  UseCount st t = Ok c → 1 ≤ c.
Proof.
  intros Hcover Hg Hb Hc. specialize (Hcover t c Hc). rewrite pending_on_app in Hcover.
  pose proof (pending_on_elem st pins t g Hg Hb).
  pose proof (pending_on_nonneg st events t). lia.
Qed.

Lemma pinned_use_counted st events pins e g t c :
  counts_cover st (events ++ pins) → e ∈ events → Buffer st e = Ok t →
  g ∈ pins → Buffer st g = Ok t → UseCount st t = Ok c → 2 ≤ c.
Proof.
  intros Hcover He Hbe Hg Hbg Hc. specialize (Hcover t c Hc).
  rewrite pending_on_app in Hcover.
  pose proof (pending_on_elem st events t e He Hbe).
  pose proof (pending_on_elem st pins t g Hg Hbg). lia.
Qed.

Lemma set_alloc_kind_inv E st current k st' events later defined :
  set_alloc_kind st current k = Ok st' → k ≠ kReuse →
  (current ∈ graph_output_values E → output_kind k) →
  planner_inv st events (current :: later) (graph_output_values E) →
  plan_facts E st defined →
  planner_inv st' events (current :: later) (graph_output_values E) ∧
  plan_facts E st' (current :: defined).
Proof.
  intros (p & Hp & Hplan & Hinfo & Hfl)%set_alloc_kind_Ok Hk Hout Hinv Hfacts. split.
  - by eapply planner_inv_ext.
  - eapply plan_facts_step; [done| |].
    + intros v Hv. rewrite Hplan. by rewrite decide_False.
    + intros entry. rewrite Hplan, decide_True by done. intros [= <-]. simpl.
      split; [done|done].
Qed.

Lemma Reuse_facts E st reused current kind st' defined :
  Reuse st reused current kind = Ok st' →
  plan_facts E st defined →
  (kind = kReuse → ∀ original, Buffer st reused = Ok original →
                   original ∈ graph_output_values E → aliased E current) →
  (current ∈ graph_output_values E → output_kind kind) →
  plan_facts E st' (current :: defined).
Proof.
  intros Hrun Hfacts Hreuse Hout.
  apply Reuse_Ok in Hrun
    as (_ & original & c_for & c_orig & p & Hbuf & _ & _ & _ & _ & _ & Hplan & _).
  eapply plan_facts_step; [done| |].
  - intros v Hv. rewrite Hplan. by rewrite decide_False.
  - intros entry. rewrite Hplan, decide_True by done. intros [= <-]. simpl.
    split; [|done]. intros Hk Hin. by eapply Hreuse.
Qed.

(** A live buffer is not on the freelist. *)
Lemma live_not_freed st events later pins e original :
  planner_inv st events later pins → e ∈ events → Buffer st e = Ok original →
  ∀ it, it ∈ freelist_ st → ml_value it ≠ original.
Proof.
  intros (Hcover & _ & _ & _ & _ & Hfree) He Hbuf it Hit Heq.
  destruct (Hfree it Hit) as (_ & _ & Hzero). rewrite Heq in Hzero.
  pose proof (pending_use_counted _ _ _ _ _ _ Hcover He Hbuf Hzero). lia.
Qed.

Lemma plan_output_inv E pnode node_index ext st j o st' events later defined :
  ort_value_name_idx_map_ E !! EmptyString = None →
  outputs_by_name E →
  node_index ∈ GetNodesInTopologicalOrder (graph_viewer_ E) →
  GetNode (graph_viewer_ E) node_index = Some pnode →
  OutputDefs pnode !! j = Some o →
  (∀ u, u ∈ omap (arg_value E) (InputDefs pnode) →
        u ∈ events ∧ u ∉ option_list (arg_value E o) ++ later) →
  NoDup (option_list (arg_value E o) ++ later) →
  planner_inv st events (option_list (arg_value E o) ++ later) (graph_output_values E) →
  plan_facts E st defined →
  plan_output E pnode ext st j o = Ok st' →
  planner_inv st' events later (graph_output_values E) ∧
  plan_facts E st' (option_list (arg_value E o) ++ defined).
Proof.
  intros Hempty Hby Hn Hnode Hj Hins Hnd Hinv Hfacts Hrun.
  destruct (Exists o) eqn:Hex; cycle 1.
  { unfold plan_output in Hrun. rewrite Hex in Hrun. injection Hrun as <-.
    unfold arg_value in *. rewrite Hex in *. done. }
  destruct (plan_output_decides _ _ _ _ _ _ _ Hex Hrun) as (current & d & Hcur & Hrule & Heff).
  pose proof (proj1 (arg_value_Index E o current Hex) Hcur) as Hval.
  rewrite Hval in *. simpl in Hnd, Hinv, Hins |- *.
  apply NoDup_cons in Hnd as [Hcur_later Hnd].
  assert (∀ v, v ∈ later → v ∈ current :: later) as Hsub by (intros; by right).
  assert (current ∈ graph_output_values E →
          is_graph_output (graph_viewer_ E) o = true) as Hgo.
  { intros Hg. eapply Hby; [done| |done|done]. by eapply list_elem_of_lookup_2. }
  assert (∀ input input_index,
            input ∈ InputDefs pnode → Index E (Name input) = Ok input_index →
            input_index ∈ events ∧ input_index ∉ current :: later) as Hinput.
  { intros input input_index Hin Hidx. apply Hins. apply list_elem_of_omap.
    exists input. split; [done|]. apply arg_value_Index; [|done].
    unfold Exists. apply negb_true_iff, bool_decide_eq_false. intros Hname.
    unfold Index in Hidx. by rewrite Hname, Hempty in Hidx. }
  pose proof Hinv as (Hcover & Hown & Hunref & Hroots & Hfnd & Hfree).
  destruct d as [| |reused| |reused freelist'|]; simpl in Hrule, Heff.
  - (* external outputs *)
    destruct (set_alloc_kind_inv E _ _ _ _ events later defined Heff) as [Hinv' Hfacts'];
      [done|by intros; right; right|done|done|].
    split; [by eapply planner_inv_later|done].
  - (* graph output *)
    destruct Hrule as [_ Hgraph].
    apply plan_graph_output_Ok in Heff as (st1 & Hset & Hshare).
    destruct (set_alloc_kind_inv E _ _ _ _ events later defined Hset) as [Hinv1 Hfacts1];
      [done|by intros; left|done|done|].
    destruct Hshare as [->|(input & input_index & Hin & Hidx & Hreuse)].
    { split; [by eapply planner_inv_later|done]. }
    destruct (Hinput input input_index Hin Hidx) as [Hev Hnot].
    split.
    + eapply Reuse_inv; [done|done|done| |].
      * intros Hl. apply Hnot. by right.
      * intros original it Hbuf. by eapply live_not_freed.
    + eapply plan_facts_defined; [|eapply Reuse_facts; [done|done|done|]].
      * intros v [->|Hv]%elem_of_cons; [by left|by right; right].
      * intros _. right. by left.
  - (* an input is reused *)
    destruct Hrule as (_ & Hgraph & _ & Hfound).
    destruct (FindReusableInput_cases _ _ _ _ _ Hfound) as [(p & Hp & Hpval) Hcase].
    destruct (Hins reused) as [Hev Hnot].
    { apply list_elem_of_omap. by exists p. }
    split.
    + eapply Reuse_inv; [done|done|done| |].
      * intros Hl. apply Hnot. by right.
      * intros original it Hbuf. by eapply live_not_freed.
    + eapply Reuse_facts; [done|done| |].
      * intros _ original Hbuf Hpinned.
        destruct Hcase as [Halias|(original' & Hbuf' & Hone)].
        { exists node_index, pnode, j, o. by split_and!. }
        rewrite Hbuf in Hbuf'. injection Hbuf' as <-.
        pose proof (root_of_counted _ _ _ _ Hroots Hbuf Hone) as Hroot.
        pose proof (pinned_use_counted _ _ _ _ _ _ _ Hcover Hev Hbuf Hpinned Hroot Hone).
        lia.
      * intros Hg. rewrite (Hgo Hg) in Hgraph. done.
  - (* a non-tensor value *)
    destruct Hrule as (_ & Hgraph & _).
    destruct (set_alloc_kind_inv E _ _ _ _ events later defined Heff) as [Hinv' Hfacts'];
      [done| |done|done|].
    { intros Hg. rewrite (Hgo Hg) in Hgraph. done. }
    split; [by eapply planner_inv_later|done].
  - (* a freed buffer is reused *)
    destruct Hrule as (_ & Hgraph & _ & _ & _ & _ & Hfirst).
    destruct Hfirst as (cur' & required & shape & skipped & it & rest & _ & _ & _
                        & Hfl & -> & -> & _ & _).
    destruct (planner_inv_drop_freed _ _ _ _ _ _ _ Hfl Hinv) as [Hinv0 Hdistinct].
    destruct (Hfree it) as (Hit_later & Hit_root & Hit_zero).
    { rewrite Hfl. apply elem_of_app. right. by left. }
    split.
    + eapply Reuse_inv; [done|done|done| |].
      * intros Hl. apply Hit_later. by right.
      * intros original e Hbuf He. simpl in He.
        change (Buffer st (ml_value it) = Ok original) in Hbuf.
        rewrite Hit_root in Hbuf. injection Hbuf as <-. by apply Hdistinct.
    + eapply Reuse_facts; [done| | |].
      * by eapply plan_facts_ext.
      * intros _ original Hbuf Hpinned.
        change (Buffer st (ml_value it) = Ok original) in Hbuf.
        rewrite Hit_root in Hbuf. injection Hbuf as <-.
        pose proof (pin_counted _ _ _ _ _ _ Hcover Hpinned Hit_root Hit_zero). lia.
      * intros Hg. rewrite (Hgo Hg) in Hgraph. done.
  - (* a new buffer *)
    destruct Hrule as (_ & Hgraph & _).
    destruct (set_alloc_kind_inv E _ _ _ _ events later defined Heff) as [Hinv' Hfacts'];
      [done| |done|done|].
    { intros Hg. rewrite (Hgo Hg) in Hgraph. done. }
    split; [by eapply planner_inv_later|done].
Qed.

Lemma outputs_loop_inv E pnode node_index ext outs :
  ort_value_name_idx_map_ E !! EmptyString = None →
  outputs_by_name E →
  node_index ∈ GetNodesInTopologicalOrder (graph_viewer_ E) →
  GetNode (graph_viewer_ E) node_index = Some pnode →
  ∀ i st st' events later defined,
    (∀ k o, outs !! k = Some o → OutputDefs pnode !! (i + k)%nat = Some o) →
    (∀ u, u ∈ omap (arg_value E) (InputDefs pnode) →
          u ∈ events ∧ u ∉ omap (arg_value E) outs ++ later) →
    NoDup (omap (arg_value E) outs ++ later) →
    planner_inv st events (omap (arg_value E) outs ++ later) (graph_output_values E) →
    plan_facts E st defined →
    foldR_indexed (plan_output E pnode ext) i outs st = Ok st' →
    planner_inv st' events later (graph_output_values E) ∧
    plan_facts E st' (omap (arg_value E) outs ++ defined).
Proof.
  intros Hempty Hby Hn Hnode.
  induction outs as [|o outs IH]; intros i st st' events later defined Hpos Hins Hnd Hinv Hfacts.
  - by intros [= <-].
  - simpl foldR_indexed. intros (st1 & Hout & Hrest)%bind_Ok.
    rewrite omap_cons_option_list, <- (assoc_L (++)) in Hins, Hnd, Hinv.
    destruct (plan_output_inv E pnode node_index ext st i o st1 events
                (omap (arg_value E) outs ++ later) defined) as [Hinv1 Hfacts1]; try done.
    { specialize (Hpos 0%nat o eq_refl). by rewrite Nat.add_0_r in Hpos. }
    destruct (IH (S i) st1 st' events later (option_list (arg_value E o) ++ defined))
      as [Hinv' Hfacts']; try done.
    + intros k o' Hk. replace (S i + k)%nat with (i + S k)%nat by lia. by apply Hpos.
    + intros u Hu. destruct (Hins u Hu) as [? Hnot]. split; [done|].
      intros Hin. apply Hnot. apply elem_of_app. by right.
    + by apply NoDup_app in Hnd as (_ & _ & ?).
    + split; [done|]. eapply plan_facts_defined; [|done].
      rewrite omap_cons_option_list. intros v. rewrite !elem_of_app. tauto.
Qed.

Lemma free_arg_inv E pc st a st' events later pins (skip_removed : bool) :
  (if Exists a then
     sym ← Index E (Name a);
     original ← Buffer st sym;
     if skip_removed && bool_decide (original = -1) then mret st
     else release_use st original pc
   else mret st) = Ok st' →
  planner_inv st (option_list (arg_value E a) ++ events) later pins →
  (∀ u, arg_value E a = Some u → u ∉ later) →
  planner_inv st' events later pins ∧ allocation_plan st' = allocation_plan st.
Proof.
  intros Hrun Hinv Hnot. destruct (Exists a) eqn:Hex; cycle 1.
  { injection Hrun as <-. unfold arg_value in Hinv. by rewrite Hex in Hinv. }
  apply bind_Ok in Hrun as (sym & Hsym & Hrun).
  apply arg_value_Index in Hsym; [|done]. rewrite Hsym in Hinv. simpl in Hinv.
  apply bind_Ok in Hrun as (original & Hbuf & Hrun).
  destruct (skip_removed && bool_decide (original = -1)).
  - injection Hrun as <-. split; [by eapply planner_inv_events|done].
  - split.
    + eapply release_use_inv; [done|done|done|]. by apply Hnot.
    + by apply release_use_Ok in Hrun as (c & _ & _ & _ & _ & ? & _).
Qed.

Lemma free_input_inv E pc st a st' events later pins :
  free_input E pc st a = Ok st' →
  planner_inv st (option_list (arg_value E a) ++ events) later pins →
  (∀ u, arg_value E a = Some u → u ∉ later) →
  planner_inv st' events later pins ∧ allocation_plan st' = allocation_plan st.
Proof.
  intros Hrun. apply (free_arg_inv E pc st a st' events later pins true).
  unfold free_input in Hrun. destruct (Exists a); [|done].
  destruct (Index E (Name a)) as [sym|]; [|done]. simpl in *.
  destruct (Buffer st sym) as [original|]; [|done]. simpl in *.
  by destruct (bool_decide (original = -1)).
Qed.

Lemma free_output_inv E pc st a st' events later pins :
  free_output E pc st a = Ok st' →
  planner_inv st (option_list (arg_value E a) ++ events) later pins →
  (∀ u, arg_value E a = Some u → u ∉ later) →
  planner_inv st' events later pins ∧ allocation_plan st' = allocation_plan st.
Proof. apply (free_arg_inv E pc st a st' events later pins false). Qed.

Lemma free_loop_inv E (body : PlannerState → NodeArg → Result PlannerState)
    (args : list NodeArg) later pins :
  (∀ st a st' events,
     body st a = Ok st' →
     planner_inv st (option_list (arg_value E a) ++ events) later pins →
     (∀ u, arg_value E a = Some u → u ∉ later) →
     planner_inv st' events later pins ∧ allocation_plan st' = allocation_plan st) →
  (∀ u, u ∈ omap (arg_value E) args → u ∉ later) →
  ∀ st st' events,
    foldR body args st = Ok st' →
    planner_inv st (omap (arg_value E) args ++ events) later pins →
    planner_inv st' events later pins ∧ allocation_plan st' = allocation_plan st.
Proof.
  intros Hbody. induction args as [|a args IH]; intros Hnot st st' events.
  - by intros [= <-].
  - simpl foldR. intros (st1 & Ha & Hrest)%bind_Ok.
    rewrite omap_cons_option_list, <- (assoc_L (++)). intros Hinv.
    destruct (Hbody _ _ _ _ Ha Hinv) as [Hinv1 Hplan1].
    { intros u Hu. apply Hnot. rewrite omap_cons_option_list, Hu. by left. }
    destruct (IH (λ u Hu, Hnot u ltac:(rewrite omap_cons_option_list; apply elem_of_app;
                                       by right)) _ _ _ Hrest Hinv1) as [Hinv' Hplan'].
    split; [done|]. by rewrite Hplan'.
Qed.

Lemma plan_node_inv E st pc n st' events later defined :
  ort_value_name_idx_map_ E !! EmptyString = None →
  outputs_by_name E →
  n ∈ GetNodesInTopologicalOrder (graph_viewer_ E) →
  (∀ u, u ∈ of_node E (node_inputs E) n → u ∉ of_node E (node_defs E) n ++ later) →
  NoDup (of_node E (node_defs E) n ++ later) →
  planner_inv st (of_node E (node_uses E) n ++ events)
              (of_node E (node_defs E) n ++ later) (graph_output_values E) →
  plan_facts E st defined →
  plan_node E st pc n = Ok st' →
  planner_inv st' events later (graph_output_values E) ∧
  plan_facts E st' (of_node E (node_defs E) n ++ defined).
Proof.
  intros Hempty Hby Hn. unfold plan_node, of_node.
  destruct (GetNode (graph_viewer_ E) n) as [pnode|] eqn:Hnode; [|done]. simpl.
  unfold node_inputs, node_uses, node_defs.
  intros Hins Hnd Hinv Hfacts (ext & _ & Hrun)%bind_Ok.
  apply bind_Ok in Hrun as (st1 & Houts & Hrun).
  apply bind_Ok in Hrun as (st2 & Hfree1 & Hrun).
  apply bind_Ok in Hrun as (st3 & Hfree2 & Hfree3).
  destruct (outputs_loop_inv E pnode n ext (OutputDefs pnode) Hempty Hby Hn Hnode
              0%nat st st1
              ((omap (arg_value E) (InputDefs pnode) ++
                omap (arg_value E) (ImplicitInputDefs pnode) ++
                omap (arg_value E) (OutputDefs pnode)) ++ events)
              later defined) as [Hinv1 Hfacts1]; try done.
  { intros u Hu. split.
    - apply elem_of_app. left. apply elem_of_app. by left.
    - apply Hins. apply elem_of_app. by left. }
  rewrite <- !(assoc_L (++)) in Hinv1.
  assert (∀ u, u ∈ omap (arg_value E) (InputDefs pnode) → u ∉ later) as Hin1.
  { intros u Hu Hl. apply (Hins u); apply elem_of_app; [by left|by right]. }
  assert (∀ u, u ∈ omap (arg_value E) (ImplicitInputDefs pnode) → u ∉ later) as Hin2.
  { intros u Hu Hl. apply (Hins u); apply elem_of_app; by right. }
  assert (∀ u, u ∈ omap (arg_value E) (OutputDefs pnode) → u ∉ later) as Hin3.
  { intros u Hu Hl. apply NoDup_app in Hnd as (_ & Hdisj & _). by apply (Hdisj u). }
  destruct (free_loop_inv E _ _ later _
              (λ s a s' ev, free_input_inv E pc s a s' ev later (graph_output_values E))
              Hin1 _ _ _ Hfree1 Hinv1) as [Hinv2 Hplan2].
  destruct (free_loop_inv E _ _ later _
              (λ s a s' ev, free_input_inv E pc s a s' ev later (graph_output_values E))
              Hin2 _ _ _ Hfree2 Hinv2) as [Hinv3 Hplan3].
  destruct (free_loop_inv E _ _ later _
              (λ s a s' ev, free_output_inv E pc s a s' ev later (graph_output_values E))
              Hin3 _ _ _ Hfree3 Hinv3) as [Hinv4 Hplan4].
  split; [done|]. eapply plan_facts_ext; [|done]. by rewrite Hplan4, Hplan3, Hplan2.
Qed.

Lemma plan_order_inv E order :
  ort_value_name_idx_map_ E !! EmptyString = None →
  outputs_by_name E →
  ∀ before pc st st' defined,
    GetNodesInTopologicalOrder (graph_viewer_ E) = before ++ order →
    inputs_defined_before E (GetNodesInTopologicalOrder (graph_viewer_ E)) →
    NoDup (order_defs E order) →
    planner_inv st (order_uses E order) (order_defs E order) (graph_output_values E) →
    plan_facts E st defined →
    foldR_indexed (plan_node E) pc order st = Ok st' →
    planner_inv st' [] [] (graph_output_values E) ∧
    plan_facts E st' (order_defs E order ++ defined).
Proof.
  intros Hempty Hby.
  induction order as [|n order IH]; intros before pc st st' defined Hsplit Htopo Hnd Hinv Hfacts.
  - by intros [= <-].
  - simpl foldR_indexed. intros (st1 & Hnode & Hrest)%bind_Ok.
    unfold order_uses, order_defs in *. rewrite bind_cons in Hnd, Hinv |- *.
    destruct (plan_node_inv E st pc n st1 (order ≫= of_node E (node_uses E))
                (order ≫= of_node E (node_defs E)) defined) as [Hinv1 Hfacts1]; try done.
    { rewrite Hsplit. apply elem_of_app. right. by left. }
    { intros u Hu. pose proof (Htopo before n order Hsplit u Hu) as Hnot.
      unfold order_defs in Hnot. by rewrite bind_cons in Hnot. }
    destruct (IH (before ++ [n]) (S pc) st1 st'
                 (of_node E (node_defs E) n ++ defined)) as [Hinv' Hfacts']; try done.
    + by rewrite <- (assoc_L (++)).
    + by apply NoDup_app in Hnd as (_ & _ & ?).
    + split; [done|]. eapply plan_facts_defined; [|done].
      intros v. rewrite !elem_of_app. tauto.
Qed.

Lemma named_in_graph_outputs E t :
  named_in t (graph_output_values E) =
  sumZ (λ a, names_value E t (Name a)) (GetOutputs (graph_viewer_ E)).
Proof.
  unfold graph_output_values, named_in.
  induction (GetOutputs (graph_viewer_ E)) as [|a l IH]; [done|].
  rewrite omap_cons_option_list, sumZ_app, IH. simpl. f_equal. unfold names_value.
  destruct (ort_value_name_idx_map_ E !! Name a) as [idx|]; simpl; [|done].
  destruct (decide (idx = t)) as [->|Hne].
  - by rewrite !bool_decide_eq_true_2.
  - rewrite !bool_decide_eq_false_2 by congruence. done.
Qed.

Lemma static_use_count_pinned E t :
  concat (stream_nodes_ E) ≡ₚ GetNodesInTopologicalOrder (graph_viewer_ E) →
  named_in t (order_uses E (GetNodesInTopologicalOrder (graph_viewer_ E))
              ++ graph_output_values E)
  ≤ static_use_count E t.
Proof.
  intros Hperm. unfold named_in at 1. rewrite sumZ_app.
  fold (named_in t (order_uses E (GetNodesInTopologicalOrder (graph_viewer_ E)))).
  fold (named_in t (graph_output_values E)). rewrite named_in_graph_outputs.
  unfold static_use_count, order_uses, named_in.
  rewrite sumZ_bind, sumZ_concat, (sumZ_Permutation _ _ _ Hperm).
  pose proof (sumZ_nonneg (λ a, names_value E t (Name a)) (GetInputs (graph_viewer_ E))
                (λ a, names_value_nonneg E t (Name a))).
  pose proof (sumZ_nonneg (λ a, names_value E t (Name a)) (outer_scope_node_args_ E)
                (λ a, names_value_nonneg E t (Name a))).
  pose proof (sumZ_nonneg (names_value E t) (GetAllInitializedTensors (graph_viewer_ E))
                (names_value_nonneg E t)).
  pose proof (sumZ_le (λ n, named_in t (of_node E (node_uses E) n)) (node_use_count E t)
                (GetNodesInTopologicalOrder (graph_viewer_ E))
                (node_use_count_named E t)) as Hle.
  unfold named_in in Hle. lia.
Qed.

Lemma add_UseCount_name_frame E st name k st' :
  add_UseCount_name E st name k = Ok st' →
  allocation_plan st' = allocation_plan st ∧ freelist_ st' = freelist_ st.
Proof.
  unfold add_UseCount_name, add_UseCount.
  intros (idx & _ & (c & _ & Hset)%bind_Ok)%bind_Ok.
  by apply update_info_frame in Hset as (? & ? & _).
Qed.

Lemma ComputeReuseCount_frame E st st' :
  ComputeReuseCount E st = Ok st' →
  allocation_plan st' = allocation_plan st ∧ freelist_ st' = freelist_ st.
Proof.
  set (R := λ s s' : PlannerState,
         allocation_plan s' = allocation_plan s ∧ freelist_ s' = freelist_ s).
  assert (∀ s, R s s) as Hrefl by done.
  assert (∀ s1 s2 s3, R s1 s2 → R s2 s3 → R s1 s3) as Htrans.
  { intros s1 s2 s3 [? ?] [? ?]. split; congruence. }
  assert (∀ s name k s', add_UseCount_name E s name k = Ok s' → R s s') as Hadd.
  { intros s name k s'. apply add_UseCount_name_frame. }
  assert (∀ (l : list NodeArg) s s',
    ForEachWithIndex l (λ st (a : NodeArg), add_UseCount_name E st (Name a) 1) s = Ok s' →
    R s s') as Heach.
  { intros l. apply foldR_preserves; [done|done|]. intros s a s'. destruct (Exists a).
    - apply Hadd.
    - by intros [= <-]. }
  unfold ComputeReuseCount. intros (st1 & H1 & Hrun)%bind_Ok.
  apply bind_Ok in Hrun as (st2 & H2 & Hrun).
  apply bind_Ok in Hrun as (st3 & H3 & Hrun).
  apply bind_Ok in Hrun as (st4 & H4 & H5).
  apply (Htrans st st1); [revert H1; apply foldR_preserves; [done|done|]; intros ? ? ?; apply Hadd|].
  apply (Htrans st1 st2); [revert H2; apply foldR_preserves; [done|done|]; intros ? ? ?; apply Hadd|].
  apply (Htrans st2 st3); [revert H3; apply foldR_preserves; [done|done|]; intros ? ? ?; apply Hadd|].
  apply (Htrans st3 st4); [|revert H5; apply foldR_preserves; [done|done|]; intros ? ? ?; apply Hadd].
  revert H4. apply foldR_preserves; [done|done|]. intros s order s'.
  apply foldR_preserves; [done|done|]. intros s0 n s0'. unfold ComputeReuseCount_node.
  destruct (GetNode (graph_viewer_ E) n) as [pnode|]; [|done].
  intros (s1 & Hi1 & Hr)%bind_Ok. apply bind_Ok in Hr as (s2 & Hi2 & Hr).
  apply bind_Ok in Hr as (ext & _ & Hr). apply Heach in Hi1, Hi2.
  apply (Htrans s0 s1); [done|]. apply (Htrans s1 s2); [done|].
  revert Hr. apply foldR_preserves; [done|done|]. intros t a t'.
  destruct (Exists a); simpl.
  - unfold add_UseCount. intros (idx & _ & (c & _ & Hset)%bind_Ok)%bind_Ok.
    by apply update_info_frame in Hset as (? & ? & _).
  - by intros [= <-].
Qed.

(** The state after [ComputeReuseCount] satisfies the invariant of the
    walk, with the graph outputs as pins. *)
Lemma ComputeReuseCount_inv E st st0 :
  defs_processed E st → freelist_ st = [] →
  concat (stream_nodes_ E) ≡ₚ GetNodesInTopologicalOrder (graph_viewer_ E) →
  ComputeReuseCount E st = Ok st0 →
  planner_inv st0 (order_uses E (GetNodesInTopologicalOrder (graph_viewer_ E)))
              (order_defs E (GetNodesInTopologicalOrder (graph_viewer_ E)))
              (graph_output_values E).
Proof.
  intros (Hnn & Hfresh & Hown) Hfl Hperm Hrun.
  pose proof (ComputeReuseCount_same_buffers _ _ _ Hrun) as Hb.
  pose proof (ComputeReuseCount_frame _ _ _ Hrun) as [_ Hfl0].
  unfold planner_inv, freelist_dead. split_and!.
  - intros t c Ht. destruct (UseCount_Buffer_range _ _ _ Ht) as [b Hbt].
    pose proof (Buffer_nonneg _ _ _ Hbt) as Hge. rewrite Hb in Hbt.
    destruct (Buffer_UseCount_range _ _ _ Hbt) as [c0 Hc0].
    pose proof (ComputeReuseCount_counts_add E st st0 t Hrun c0 Hc0) as Hc.
    assert (c = c0 + static_use_count E t) as -> by congruence.
    rewrite (pending_on_ext st st0) by done.
    pose proof (pending_on_named st
      (order_uses E (GetNodesInTopologicalOrder (graph_viewer_ E))
       ++ graph_output_values E) t Hfresh Hge).
    pose proof (static_use_count_pinned E t Hperm). specialize (Hnn t c0 Hc0). lia.
  - by apply (self_owned_ext st).
  - intros v d _ Hd. rewrite Hb. intros Hvd.
    destruct (Hfresh v d Hvd) as [->| ->]; [done|lia].
  - intros v b. rewrite !Hb. intros Hvb.
    destruct (Hfresh v b Hvb) as [->| ->]; [by right|by left].
  - rewrite Hfl0, Hfl. constructor.
  - intros it. rewrite Hfl0, Hfl. by intros ?%elem_of_nil.
Qed.

Lemma plan_initial_facts E st st0 :
  plan_initial E st → allocation_plan st0 = allocation_plan st → plan_facts E st0 [].
Proof.
  intros (Hkinds & _ & _) Hplan.
  assert (∀ v, AllocPlan st0 v = AllocPlan st v) as Heq
    by (intros v; unfold AllocPlan; by rewrite Hplan).
  split_and!.
  - intros v entry. rewrite Heq. intros Hv Hk. by destruct (Hkinds v entry Hv).
  - intros g entry _. rewrite Heq. intros Hg. destruct (Hkinds g entry Hg). done.
  - intros g entry _ Hdef. by apply elem_of_nil in Hdef.
Qed.

(** The single-stream walk: only aliased values end up reusing the
    buffer of a graph output, and the graph outputs that nodes define are
    planned as outputs. *)
Lemma single_stream_plan_facts E st st0 st1 :
  defs_processed E st → plan_initial E st →
  NoDup (order_defs E (GetNodesInTopologicalOrder (graph_viewer_ E))) →
  concat (stream_nodes_ E) ≡ₚ GetNodesInTopologicalOrder (graph_viewer_ E) →
  inputs_defined_before E (GetNodesInTopologicalOrder (graph_viewer_ E)) →
  outputs_by_name E →
  ComputeReuseCount E st = Ok st0 →
  ComputeSingleStreamReusePlan E st0 = Ok st1 →
  plan_facts E st1 (order_defs E (GetNodesInTopologicalOrder (graph_viewer_ E))).
Proof.
  intros Hdefs Hinit Hnd Hperm Htopo Hby Hcount Hplan.
  pose proof Hinit as (_ & Hfl & Hempty).
  pose proof (ComputeReuseCount_inv E st st0 Hdefs Hfl Hperm Hcount) as Hinv.
  pose proof (ComputeReuseCount_frame _ _ _ Hcount) as [Hplan0 _].
  pose proof (plan_initial_facts E st st0 Hinit Hplan0) as Hfacts.
  destruct (plan_order_inv E (GetNodesInTopologicalOrder (graph_viewer_ E)) Hempty Hby
              [] 0%nat st0 st1 [] eq_refl Htopo Hnd Hinv Hfacts Hplan) as [_ Hfacts1].
  by rewrite app_nil_r in Hfacts1.
Qed.

(** ** The optimizer rewrites only [kAllocate] entries *)

Lemma plan_at_AllocPlan st v entry :
  plan_at st v = Ok entry ↔ AllocPlan (planner st) v = Ok entry.
Proof. unfold plan_at, AllocPlan. by rewrite unchecked_Ok, checked_Ok. Qed.

Lemma allocated_now E baseline st v entry :
  optimizer_inv E baseline st → plan_at st v = Ok entry →
  alloc_kind entry = kAllocate → allocate_in baseline v.
Proof.
  intros [Hplan _] Hv%plan_at_AllocPlan Hk.
  destruct (Hplan v) as [Heq|(_ & e & He & Hre & _)].
  - exists entry. by rewrite <- Heq.
  - congruence.
Qed.

Lemma set_reuse_Ok st value target st' :
  set_reuse st value target = Ok st' →
  (∃ entry, AllocPlan (planner st) value = Ok entry ∧
     ∀ v, AllocPlan (planner st') v =
          if decide (v = value) then Ok (mkAllocPlan kReuse target (location entry))
          else AllocPlan (planner st) v) ∧
  waiting_list st' = waiting_list st ∧
  value_consumer_map_ st' = value_consumer_map_ st ∧
  input_output_map st' = input_output_map st ∧
  dependents_map st' = dependents_map st ∧ reused st' = reused st.
Proof.
  unfold set_reuse. intros (entry & Hentry & [= <-])%bind_Ok. simpl.
  split; [|done]. exists entry. split; [by apply plan_at_AllocPlan|].
  apply unchecked_Ok in Hentry. intros v. unfold AllocPlan. simpl.
  rewrite (at_index_insert _ _ _ _ _ Hentry). by case_decide.
Qed.

Lemma foldR_inv {A St} (P : St → Prop) (body : St → A → Result St) (l : list A) :
  (∀ s x s', P s → body s x = Ok s' → P s') →
  ∀ s s', P s → foldR body l s = Ok s' → P s'.
Proof.
  intros Hbody. induction l as [|x l IH]; intros s s' Hs; simpl.
  - by intros [= <-].
  - intros (s1 & H1 & Hrest)%bind_Ok. eapply IH; [|done]. by eapply Hbody.
Qed.

Lemma foldR_indexed_inv {A St} (P : St → Prop) (body : St → nat → A → Result St)
    (l : list A) :
  (∀ s i x s', P s → body s i x = Ok s' → P s') →
  ∀ i s s', P s → foldR_indexed body i l s = Ok s' → P s'.
Proof.
  intros Hbody. induction l as [|x l IH]; intros i s s' Hs; simpl.
  - by intros [= <-].
  - intros (s1 & H1 & Hrest)%bind_Ok. eapply IH; [|done]. by eapply Hbody.
Qed.

Lemma optimizer_inv_same E baseline st st' :
  planner st' = planner st → waiting_list st' = waiting_list st →
  optimizer_inv E baseline st → optimizer_inv E baseline st'.
Proof.
  intros Hp Hw [Hplan Hwait]. split.
  - intros v. rewrite Hp. apply Hplan.
  - intros location size_in_bytes entries arg owner idx. unfold waiting_at. rewrite Hw.
    apply Hwait.
Qed.

Lemma set_reuse_inv E baseline st value target st' :
  set_reuse st value target = Ok st' → optimizer_inv E baseline st →
  allocate_in baseline value → allocate_in baseline target →
  optimizer_inv E baseline st'.
Proof.
  intros ((entry & Hentry & Hplan') & Hw & _)%set_reuse_Ok [Hplan Hwait] Hvalue Htarget.
  split.
  - intros v. rewrite Hplan'. case_decide as Hv; [|apply Hplan].
    subst v. right. split; [done|]. by eexists.
  - intros location size_in_bytes entries arg owner idx. unfold waiting_at. rewrite Hw.
    apply Hwait.
Qed.

Lemma reuse_input_inv E baseline st reusable_input output_idx_global st' :
  reuse_input st reusable_input output_idx_global = Ok st' →
  optimizer_inv E baseline st →
  allocate_in baseline output_idx_global → allocate_in baseline reusable_input →
  optimizer_inv E baseline st'.
Proof.
  unfold reuse_input. intros (st1 & Hset & [= <-])%bind_Ok Hinv Hout Hin.
  eapply optimizer_inv_same; [| |by eapply set_reuse_inv]; done.
Qed.

Lemma allocated_input_Some E baseline st p r :
  allocated_input E st p = Ok (Some r) → optimizer_inv E baseline st →
  allocate_in baseline r.
Proof.
  unfold allocated_input. destruct (Exists p); [|done].
  destruct (ort_value_name_idx_map_ E !! Name p) as [idx|]; [|done].
  intros (entry & Hentry & Hrun)%bind_Ok Hinv.
  case_bool_decide as Hk; [|done]. injection Hrun as <-. by eapply allocated_now.
Qed.

Lemma TryReuseInput_alias_inv E baseline input_args j out alias_map st found st' :
  TryReuseInput_alias E input_args j out alias_map st = Ok (found, st') →
  optimizer_inv E baseline st → allocate_in baseline out →
  optimizer_inv E baseline st'.
Proof.
  intros Hrun Hinv Hout. induction alias_map as [|e rest IH]; simpl in Hrun.
  - by injection Hrun as _ <-.
  - destruct (paired_input input_args (Z.of_nat j) e) as [p|]; [|by apply IH].
    apply bind_Ok in Hrun as (candidate & Hcand & Hrun).
    destruct candidate as [r|]; [|by apply IH].
    apply bind_Ok in Hrun as (st1 & Hreuse & [= _ <-]).
    eapply reuse_input_inv; [done|done|done|]. by eapply allocated_input_Some.
Qed.

Lemma TryReuseInput_variadic_inv E baseline input_args j out offsets st found st' :
  TryReuseInput_variadic E input_args j out offsets st = Ok (found, st') →
  optimizer_inv E baseline st → allocate_in baseline out →
  optimizer_inv E baseline st'.
Proof.
  unfold TryReuseInput_variadic. intros Hrun Hinv Hout.
  destruct offsets as [[input_offset output_offset]|]; [|by injection Hrun as _ <-].
  destruct (at_index input_args _) as [p|]; [|by injection Hrun as _ <-].
  apply bind_Ok in Hrun as (candidate & Hcand & Hrun).
  destruct candidate as [r|]; [|by injection Hrun as _ <-].
  apply bind_Ok in Hrun as (st1 & Hreuse & [= _ <-]).
  eapply reuse_input_inv; [done|done|done|]. by eapply allocated_input_Some.
Qed.

Lemma TryReuseInput_inplace_inv E baseline input_args p_out j out st entry st' :
  TryReuseInput_inplace E input_args p_out j out st entry = Ok st' →
  optimizer_inv E baseline st → allocate_in baseline out →
  optimizer_inv E baseline st'.
Proof.
  unfold TryReuseInput_inplace. intros Hrun Hinv Hout.
  destruct (paired_input input_args (Z.of_nat j) entry) as [p|]; [|by injection Hrun as <-].
  apply bind_Ok in Hrun as (candidate & Hcand & Hrun).
  destruct candidate as [r|]; [|by injection Hrun as <-].
  case_bool_decide; [|by injection Hrun as <-].
  apply bind_Ok in Hrun as (same & _ & Hrun).
  destruct same; [|by injection Hrun as <-].
  eapply reuse_input_inv; [done|done|done|]. by eapply allocated_input_Some.
Qed.

Lemma record_inputs_same E out input_args st :
  planner (foldl (record_input_output E out) st input_args) = planner st ∧
  waiting_list (foldl (record_input_output E out) st input_args) = waiting_list st.
Proof.
  revert st. induction input_args as [|a l IH]; intros st; [done|]. simpl.
  destruct (IH (record_input_output E out st a)) as [-> ->].
  unfold record_input_output. by destruct (ort_value_name_idx_map_ E !! Name a).
Qed.

Lemma TryReuseInput_inv E baseline node_index st st' :
  TryReuseInput E node_index st = Ok st' →
  optimizer_inv E baseline st → optimizer_inv E baseline st'.
Proof.
  unfold TryReuseInput. intros (node & _ & Hrun)%bind_Ok Hinv.
  revert Hinv Hrun. apply foldR_indexed_inv. clear st st'.
  intros st j p_out st' Hinv. unfold TryReuseInput_output.
  destruct (ort_value_name_idx_map_ E !! Name p_out) as [out|]; [|by intros [= <-]].
  intros (entry & Hentry & Hrun)%bind_Ok.
  case_bool_decide as Hk; simpl in Hrun; [|by injection Hrun as <-].
  pose proof (allocated_now _ _ _ _ _ Hinv Hentry Hk) as Hout.
  destruct (kernel_create_info_map_ E !! node_index) as [ci|]; [|by injection Hrun as <-].
  destruct (kernel_def ci) as [kd|]; [|by injection Hrun as <-].
  destruct (record_inputs_same E out (InputDefs node) st) as [Hp Hw].
  pose proof (optimizer_inv_same _ _ _ _ Hp Hw Hinv) as Hinv0.
  apply bind_Ok in Hrun as ([found st1] & Halias & Hrun).
  pose proof (TryReuseInput_alias_inv _ _ _ _ _ _ _ _ _ Halias Hinv0 Hout) as Hinv1.
  destruct found; [by injection Hrun as <-|].
  apply bind_Ok in Hrun as ([found st2] & Hvar & Hrun).
  pose proof (TryReuseInput_variadic_inv _ _ _ _ _ _ _ _ _ Hvar Hinv1 Hout) as Hinv2.
  destruct found; [by injection Hrun as <-|].
  revert Hinv2 Hrun. apply foldR_inv. intros s e s' Hs Hbody.
  by eapply TryReuseInput_inplace_inv.
Qed.

Lemma waiting_at_set_waiting st location size_in_bytes l location' size' :
  waiting_at (set_waiting st location size_in_bytes l) location' size' =
  if decide (location' = location ∧ size' = size_in_bytes) then l
  else waiting_at st location' size'.
Proof.
  unfold waiting_at, set_waiting. simpl.
  destruct (decide (location' = location)) as [->|Hloc].
  - rewrite lookup_insert_eq. simpl.
    destruct (decide (size' = size_in_bytes)) as [->|Hsize].
    + rewrite decide_True by done. destruct l; [by rewrite lookup_insert_eq|].
      by rewrite lookup_delete_eq.
    + rewrite decide_False by tauto.
      destruct l; [rewrite lookup_insert_ne by done|rewrite lookup_delete_ne by done];
        by destruct (waiting_list st !! location).
  - rewrite decide_False by tauto. by rewrite lookup_insert_ne.
Qed.

Lemma elem_of_insert_by_address x arg owner l :
  x ∈ insert_by_address arg owner l → x = (arg, owner) ∨ x ∈ l.
Proof.
  induction l as [|e l IH]; simpl.
  - intros ->%list_elem_of_singleton. by left.
  - destruct (arg_addr arg <? arg_addr e.1)%N.
    { intros [->|?]%elem_of_cons; [by left|by right]. }
    destruct (arg_addr arg =? arg_addr e.1)%N.
    { intros [->|?]%elem_of_cons; [by left|right; by right]. }
    intros [->|Hx]%elem_of_cons; [right; by left|].
    destruct (IH Hx) as [?|?]; [by left|right; by right].
Qed.

Lemma set_waiting_inv E baseline st location size_in_bytes l :
  optimizer_inv E baseline st →
  (∀ entries arg owner idx,
     l = Some entries → (arg, owner) ∈ entries →
     ort_value_name_idx_map_ E !! Name arg = Some idx → allocate_in baseline idx) →
  optimizer_inv E baseline (set_waiting st location size_in_bytes l).
Proof.
  intros [Hplan Hwait] Hl. split; [done|].
  intros location' size' entries arg owner idx. rewrite waiting_at_set_waiting.
  case_decide.
  - intros ->. by apply Hl.
  - apply Hwait.
Qed.

Lemma wait_for_reuse_inv E baseline st location size_in_bytes node_output node_index :
  optimizer_inv E baseline st →
  (∀ idx, ort_value_name_idx_map_ E !! Name node_output = Some idx →
          allocate_in baseline idx) →
  optimizer_inv E baseline
    (wait_for_reuse st location size_in_bytes node_output node_index).
Proof.
  intros Hinv Hnew. apply set_waiting_inv; [done|].
  intros entries arg owner idx [= <-] [[= -> ->]|Hin]%elem_of_insert_by_address Hidx.
  - by apply Hnew.
  - destruct Hinv as [_ Hwait].
    destruct (waiting_at st location size_in_bytes) as [old|] eqn:Hold; simpl in Hin.
    + by eapply Hwait.
    + by apply elem_of_nil in Hin.
Qed.

Lemma offer_to_waiting_inv E baseline value_node_map node_index node_output shape out
    entries st taken st' :
  offer_to_waiting E value_node_map node_index node_output shape out entries st
    = Ok (taken, st') →
  optimizer_inv E baseline st →
  (∀ arg owner idx, (arg, owner) ∈ entries →
     ort_value_name_idx_map_ E !! Name arg = Some idx → allocate_in baseline idx) →
  allocate_in baseline out →
  optimizer_inv E baseline st'.
Proof.
  intros Hrun Hinv Hentries Hout.
  induction entries as [|[downstream_arg owner] rest IH]; simpl in Hrun.
  - by injection Hrun as _ <-.
  - assert (offer_to_waiting E value_node_map node_index node_output shape out rest st
              = Ok (taken, st') → optimizer_inv E baseline st') as Hnext.
    { intros Hrest. apply IH; [done|]. intros arg o idx Hin. apply (Hentries arg o).
      by right. }
    destruct (ort_value_name_idx_map_ E !! Name downstream_arg)
      as [downstream_value|] eqn:Hvalue; [|by apply Hnext].
    case_bool_decide; [by apply Hnext|].
    apply bind_Ok in Hrun as (downstream_shape & _ & Hrun).
    apply bind_Ok in Hrun as (same & _ & Hrun).
    destruct same; simpl in Hrun; [|by apply Hnext].
    case_bool_decide; simpl in Hrun; [|by apply Hnext].
    case_bool_decide; [|by apply Hnext].
    apply bind_Ok in Hrun as (st1 & Hset & [= _ <-]).
    apply (optimizer_inv_same E baseline st1); [done|done|].
    eapply set_reuse_inv; [exact Hset|done| |done].
    apply (Hentries downstream_arg owner); [by left|done].
Qed.

Lemma TryReuseOutput_inv E opt baseline graph value_node_map node_index st st' :
  TryReuseOutput E opt graph value_node_map node_index st = Ok st' →
  optimizer_inv E baseline st → optimizer_inv E baseline st'.
Proof.
  unfold TryReuseOutput. intros (deps & _ & Hrun)%bind_Ok Hinv.
  apply bind_Ok in Hrun as (node & _ & Hrun).
  apply (optimizer_inv_same E baseline st
           (mkOptimizerState (planner st) (value_consumer_map_ st) (waiting_list st)
              (<[node_index := deps]> (dependents_map st)) (input_output_map st)
              (reused st)) eq_refl eq_refl) in Hinv.
  revert Hinv Hrun. apply foldR_inv.
  clear. intros st node_output st' Hinv. unfold TryReuseOutput_output.
  destruct (Exists node_output); simpl; [|by intros [= <-]].
  destruct (ort_value_name_idx_map_ E !! Name node_output) as [out|] eqn:Hout;
    [|by intros [= <-]].
  intros (skip & Hskip & Hrun)%bind_Ok. destruct skip; [by injection Hrun as <-|].
  assert (allocate_in baseline out) as Hallocated.
  { case_bool_decide; [done|]. apply bind_Ok in Hskip as (entry & Hentry & [= Hk]).
    apply negb_false_iff, bool_decide_eq_true in Hk. by eapply allocated_now. }
  destruct (GetShape (context_ E) node_output) as [shape|]; [|by injection Hrun as <-].
  apply bind_Ok in Hrun as (entry & Hentry & Hrun).
  assert (∀ idx, ort_value_name_idx_map_ E !! Name node_output = Some idx →
                 allocate_in baseline idx) as Hnew.
  { intros idx Hidx. rewrite Hout in Hidx. by injection Hidx as <-. }
  destruct (waiting_at st (location entry) (ByteSizeLong opt shape)) as [entries|] eqn:Hw.
  - apply bind_Ok in Hrun as ([get_reused st1] & Hoffer & Hrun).
    assert (optimizer_inv E baseline st1) as Hinv1.
    { eapply offer_to_waiting_inv; [done|done| |done].
      intros arg owner idx. destruct Hinv as [_ Hwait]. by eapply Hwait. }
    destruct get_reused as [taken|]; injection Hrun as <-.
    + eapply optimizer_inv_same; [| |apply set_waiting_inv; [exact Hinv1|]]; try done.
      intros remaining arg owner idx Hrem Hin. destruct Hinv as [_ Hwait].
      apply (Hwait _ _ _ _ owner _ Hw). case_bool_decide; [done|].
      injection Hrem as <-. by apply list_elem_of_filter in Hin as [_ ?].
    + by apply wait_for_reuse_inv.
  - injection Hrun as <-. by apply wait_for_reuse_inv.
Qed.

Lemma traverse_inv E opt baseline graph value_node_map fuel :
  ∀ que dependents st st',
    traverse fuel E opt graph value_node_map que dependents st = Ok st' →
    optimizer_inv E baseline st → optimizer_inv E baseline st'.
Proof.
  induction fuel as [|fuel IH]; intros [|node_index que] dependents st st'; simpl;
    try by intros [= <-].
  intros (st1 & Hin & (st2 & Hout & Hrest)%bind_Ok)%bind_Ok Hinv.
  eapply IH; [done|]. eapply TryReuseOutput_inv; [done|].
  by eapply TryReuseInput_inv.
Qed.

(** After the optimizer an entry is the entry of the baseline plan, or
    one that was [kAllocate] there and now reuses a value that was
    [kAllocate] there. *)
Lemma OptimizeReusePlanForMultiStream_entries E opt graph value_node_map st st' :
  OptimizeReusePlanForMultiStream E opt graph value_node_map st = Ok st' →
  ∀ v, AllocPlan st' v = AllocPlan st v ∨
       (allocate_in st v ∧
        ∃ entry, AllocPlan st' v = Ok entry ∧ alloc_kind entry = kReuse ∧
                 allocate_in st (reused_buffer entry)).
Proof.
  unfold OptimizeReusePlanForMultiStream. intros (st1 & Hrun & [= <-])%bind_Ok.
  eapply (traverse_inv E opt st) in Hrun as [Hplan _]; [done|].
  split; [by left|]. intros location size_in_bytes entries arg owner idx Hw.
  unfold waiting_at in Hw. simpl in Hw. by rewrite lookup_empty in Hw.
Qed.

(** C5 (as stated).  In scenario Shared the value [r] is not a graph
    output and is planned to reuse the buffer of the graph output [g];
    and the graph output [x], which no node defines, keeps the kind
    [kPreExisting] of a graph input.  Both halves of the claim fail. *)
Lemma graph_outputs_immortal_fails :
  ¬ graph_outputs_immortal Shared.env Shared.planned ∧
  ¬ no_reuse_of_outputs Shared.env Shared.planned ∧
  ¬ outputs_have_output_kind Shared.env Shared.planned.
Proof.
  assert (¬ no_reuse_of_outputs Shared.env Shared.planned) as Hreuse.
  { intros Hreuse.
    apply (Hreuse 2 (mkAllocPlan kReuse 1 S1.cpu)); [by vm_compute|done| |].
    - intros Hin. apply list_elem_of_In in Hin. vm_compute in Hin. intuition congruence.
    - apply list_elem_of_In. vm_compute. tauto. }
  assert (¬ outputs_have_output_kind Shared.env Shared.planned) as Hkind.
  { intros Hkind.
    destruct (Hkind 0 (mkAllocPlan kPreExisting 0 S1.cpu)) as [?|[?|?]]; try done.
    apply list_elem_of_In. vm_compute. tauto. }
  split_and!; [|done|done]. by intros [? _].
Qed.

(** C5 (amended).  Let planning start from the state that
    [ComputeValueLocation] and [ComputePlanForInputsAndWeights] leave,
    on a topological order in which every value is the output of at most
    one node and a node output that has the value of a graph output is
    that graph output.  After the single-stream planner, an entry reuses
    the buffer of a graph output only for an output that its kernel
    aliases to an input (alias map or variadic alias), and every graph
    output that a node defines is planned as [kAllocateOutput], [kShare]
    or [kAllocatedExternally].  The multi-stream optimizer adds no entry
    that reuses a graph output and leaves the entries of the graph
    outputs as they are. *)
Theorem graph_outputs_not_reused (E : PlannerEnv) (opt : OptimizerInputs)
    (graph : gmap NodeIndex (gset NodeIndex))
    (value_node_map : gmap OrtValueIndex NodeIndex) (st st0 st1 : PlannerState) :
  defs_processed E st → plan_initial E st →
  NoDup (order_defs E (GetNodesInTopologicalOrder (graph_viewer_ E))) →
  concat (stream_nodes_ E) ≡ₚ GetNodesInTopologicalOrder (graph_viewer_ E) →
  inputs_defined_before E (GetNodesInTopologicalOrder (graph_viewer_ E)) →
  outputs_by_name E →
  ComputeReuseCount E st = Ok st0 →
  ComputeSingleStreamReusePlan E st0 = Ok st1 →
  only_aliases_reuse_outputs E st1 ∧
  outputs_planned E st1 (order_defs E (GetNodesInTopologicalOrder (graph_viewer_ E))) ∧
  ∀ st2, OptimizeReusePlanForMultiStream E opt graph value_node_map st1 = Ok st2 →
    (∀ v entry, AllocPlan st2 v = Ok entry → alloc_kind entry = kReuse →
                reused_buffer entry ∈ graph_output_values E →
                AllocPlan st1 v = Ok entry) ∧
    (∀ g, g ∈ graph_output_values E → AllocPlan st2 g = AllocPlan st1 g).
Proof.
  intros Hdefs Hinit Hnd Hperm Htopo Hby Hcount Hplan.
  destruct (single_stream_plan_facts E st st0 st1 Hdefs Hinit Hnd Hperm Htopo Hby
              Hcount Hplan) as (Honly & Hkinds & Hplanned).
  split_and!; [done|done|].
  intros st2 Hopt.
  pose proof (OptimizeReusePlanForMultiStream_entries _ _ _ _ _ _ Hopt) as Hentries.
  assert (∀ g, g ∈ graph_output_values E → ¬ allocate_in st1 g) as Hpinned.
  { intros g Hg (entry & Hentry & Hk). by destruct (Hkinds g entry Hg Hentry). }
  split.
  - intros v entry Hv Hk Htarget.
    destruct (Hentries v) as [Heq|(_ & entry' & Hv' & _ & Halloc)]; [by rewrite <- Heq|].
    rewrite Hv in Hv'. injection Hv' as <-. by destruct (Hpinned _ Htarget).
  - intros g Hg. destruct (Hentries g) as [Heq|(Halloc & _)]; [done|].
    by destruct (Hpinned g Hg).
Qed.

(** A state whose values all own their buffers, with use count zero, is
    one that [ComputeValueLocation] may leave. *)
Lemma defs_processed_fresh E st :
  (∀ i info, ort_value_info_ st !! i = Some info →
             usecount info = 0 ∧ reused_buffer_index info = Z.of_nat i) →
  defs_processed E st.
Proof.
  intros Hfresh.
  assert (∀ v b, Buffer st v = Ok b → b = v) as Hself.
  { intros v b. unfold Buffer, at_index. case_bool_decide as Hv; [|done].
    destruct (ort_value_info_ st !! Z.to_nat v) as [info|] eqn:Hinfo; [|done].
    intros [= <-]. destruct (Hfresh _ _ Hinfo) as [_ ->]. lia. }
  split_and!.
  - intros v c. unfold UseCount, at_index. case_bool_decide as Hv; [|done].
    destruct (ort_value_info_ st !! Z.to_nat v) as [info|] eqn:Hinfo; [|done].
    intros [= <-]. destruct (Hfresh _ _ Hinfo) as [-> _]. done.
  - intros v b Hb. left. by apply Hself.
  - intros v b _. apply Hself.
Qed.

Lemma plan_initial_entries E st :
  Forall (λ entry, alloc_kind entry ≠ kReuse ∧ alloc_kind entry ≠ kAllocate)
         (allocation_plan st) →
  freelist_ st = [] → ort_value_name_idx_map_ E !! EmptyString = None →
  plan_initial E st.
Proof.
  intros Hall Hfl Hempty. split_and!; [|done|done].
  intros v entry. unfold AllocPlan. intros Hv%checked_Ok.
  apply at_index_elem_of in Hv. by apply (proj1 (Forall_forall _ _) Hall).
Qed.

Ltac solve_topological :=
  let before := fresh "before" in
  let Hsplit := fresh "Hsplit" in
  let Hu := fresh "Hu" in
  let Hd := fresh "Hd" in
  intros before ? ? Hsplit ? Hu Hd; simpl in Hsplit;
  repeat (destruct before as [|? before]; simpl in Hsplit;
          [injection Hsplit as <- <-; apply list_elem_of_In in Hu, Hd;
           vm_compute in Hu, Hd; intuition congruence
          |injection Hsplit as <- Hsplit]);
  by destruct before.

Ltac solve_outputs_by_name nodes :=
  let Hnode := fresh "Hnode" in
  let Hin := fresh "Hin" in
  let Hval := fresh "Hval" in
  let Hg := fresh "Hg" in
  intros ? ? ? ? Hnode Hin Hval Hg;
  apply (elem_of_list_to_map_2 (M := gmap NodeIndex) nodes), list_elem_of_In in Hnode;
  simpl in Hnode;
  repeat (destruct Hnode as [Hnode|Hnode]); try done; injection Hnode as <- <-;
  apply list_elem_of_In in Hin; simpl in Hin;
  repeat (destruct Hin as [Hin|Hin]); try done; subst;
  vm_compute in Hval; injection Hval as <-;
  first [by vm_compute
        |apply list_elem_of_In in Hg; vm_compute in Hg; intuition congruence].

Lemma graph_outputs_not_reused_witness :
  (only_aliases_reuse_outputs Shared.env Shared.planned ∧
   outputs_planned Shared.env Shared.planned
     (order_defs Shared.env (GetNodesInTopologicalOrder Shared.graph))) ∧
  (∀ v entry, AllocPlan RacePlan.optimized v = Ok entry → alloc_kind entry = kReuse →
              reused_buffer entry ∈ graph_output_values RacePlan.env →
              AllocPlan RacePlan.baseline v = Ok entry) ∧
  (∀ g, g ∈ graph_output_values RacePlan.env →
        AllocPlan RacePlan.optimized g = AllocPlan RacePlan.baseline g).
Proof.
  split.
  - destruct (graph_outputs_not_reused Shared.env Race.ascending ∅ ∅
                Shared.init Shared.counted Shared.planned) as (Honly & Hplanned & _);
      [| | | | | | |  |by split].
    + apply defs_processed_fresh. intros i info Hi.
      destruct i as [|[|[|[|i]]]]; simpl in Hi; try done; by injection Hi as <-.
    + apply plan_initial_entries; [|done|done]. by repeat constructor.
    + apply (bool_decide_unpack _). vm_compute. exact I.
    + vm_compute. reflexivity.
    + solve_topological.
    + solve_outputs_by_name
        [(0%N, Shared.node_A); (1%N, Shared.node_R); (2%N, Shared.node_C)].
    + vm_compute. reflexivity.
    + vm_compute. reflexivity.
  - destruct (graph_outputs_not_reused RacePlan.env Race.ascending
                (dependence_graph_ Race.built) (value_node_map_ Race.built)
                Race.init RacePlan.counted RacePlan.baseline) as (_ & _ & Hopt);
      [| | | | | | |  |apply (Hopt RacePlan.optimized); vm_compute; reflexivity].
    + apply defs_processed_fresh. intros i info Hi.
      destruct i as [|[|[|[|[|i]]]]]; simpl in Hi; try done; by injection Hi as <-.
    + apply plan_initial_entries; [|done|done]. by repeat constructor.
    + apply (bool_decide_unpack _). vm_compute. exact I.
    + apply (bool_decide_unpack _). vm_compute. exact I.
    + solve_topological.
    + solve_outputs_by_name
        [(0%N, Race.node_A); (1%N, Race.node_C); (2%N, Race.node_D); (3%N, Race.node_F)].
    + vm_compute. reflexivity.
    + vm_compute. reflexivity.
Defined.

(** ** The configuration file of the partitioner *)

Lemma append_cons (x : ascii) (a b : string) :
  String x a +:+ b = String x (a +:+ b).
Proof. reflexivity. Qed.

Lemma append_nil_l (a : string) : EmptyString +:+ a = a.
Proof. reflexivity. Qed.

Lemma append_assoc (a b c : string) : (a +:+ b) +:+ c = a +:+ (b +:+ c).
Proof.
  induction a as [|x a IH]; [done|].
  by rewrite !append_cons, IH.
Qed.

Lemma append_nil_r (a : string) : a +:+ EmptyString = a.
Proof.
  induction a as [|x a IH]; [done|].
  by rewrite append_cons, IH.
Qed.

Lemma occurs_in_app c a b :
  occurs_in c (a +:+ b) = occurs_in c a || occurs_in c b.
Proof.
  induction a as [|x a IH]; [done|].
  rewrite append_cons. simpl. by rewrite IH, orb_assoc.
Qed.

Lemma occurs_in_cons c x s :
  occurs_in c (String x s) = bool_decide (x = c) || occurs_in c s.
Proof. reflexivity. Qed.

Lemma Split_columns_sep sep s col ext rest :
  occurs_in sep s = false →
  Split_columns sep col ext (s +:+ String sep rest)
  = (col +:+ s) :: Split_columns sep EmptyString false rest.
Proof.
  revert col ext. induction s as [|c s IH]; intros col ext Hs.
  - rewrite append_nil_l, append_nil_r. simpl.
    by rewrite bool_decide_true.
  - simpl in Hs. apply orb_false_iff in Hs as [Hc Hs].
    rewrite append_cons. simpl. rewrite Hc, IH by done.
    by rewrite append_assoc.
Qed.

Lemma Split_columns_last sep s col ext :
  occurs_in sep s = false →
  Split_columns sep col ext s
  = if ext || negb (bool_decide (s = EmptyString)) then [col +:+ s] else [].
Proof.
  revert col ext. induction s as [|c s IH]; intros col ext Hs.
  - rewrite append_nil_r. simpl. by destruct ext.
  - simpl in Hs. apply orb_false_iff in Hs as [Hc Hs].
    simpl. rewrite Hc, IH by done. simpl.
    by rewrite append_assoc, orb_true_r.
Qed.

Lemma Split_unlines lines :
  Forall (λ line, occurs_in newline line = false) lines →
  lines_of (unlines lines) = lines.
Proof.
  unfold lines_of, Split.
  induction 1 as [|line lines Hline _ IH]; simpl; [done|].
  by rewrite Split_columns_sep, append_nil_l, IH.
Qed.

Lemma digit_cases (d : Z) :
  0 ≤ d ≤ 9 →
  d = 0 ∨ d = 1 ∨ d = 2 ∨ d = 3 ∨ d = 4 ∨ d = 5 ∨ d = 6 ∨ d = 7 ∨ d = 8 ∨ d = 9.
Proof. lia. Qed.

Ltac each_digit H :=
  apply digit_cases in H;
  repeat (destruct H as [->|H]); [..|subst].

Lemma mod10_digit (n : Z) : 0 ≤ n `mod` 10 ≤ 9.
Proof. pose proof (Z.mod_pos_bound n 10). lia. Qed.

Lemma digit_of_digit_char (d : Z) : 0 ≤ d ≤ 9 → digit_of (digit_char d) = Some d.
Proof. intros H. each_digit H; reflexivity. Qed.

Lemma digit_char_plain (d : Z) (c : ascii) :
  0 ≤ d ≤ 9 → digit_of c = None → digit_char d ≠ c.
Proof. intros H Hc Heq. by rewrite <- Heq, digit_of_digit_char in Hc. Qed.

(** The digits are read back: [atoi_digits] continues behind them with
    the number they stand for. *)
Lemma atoi_digits_decimal fuel : ∀ n rest,
  0 ≤ n < 10 ^ Z.of_nat fuel →
  ∃ k, ∀ acc,
    atoi_digits acc (decimal_digits fuel n rest) = atoi_digits (acc * 10 ^ k + n) rest ∧ 0 ≤ k.
Proof.
  induction fuel as [|fuel IH]; intros n rest Hn.
  - exists 0. intros acc. simpl in *. split; [|done]. f_equal. lia.
  - simpl. case_bool_decide as Hdiv.
    + exists 1. intros acc. simpl.
      rewrite digit_of_digit_char by apply mod10_digit.
      split; [|done]. f_equal.
      pose proof (Z.div_mod n 10). lia.
    + destruct (IH (n `div` 10) (String (digit_char (n `mod` 10)) rest)) as [k Hk].
      { split; [apply Z.div_pos; lia|].
        apply Z.div_lt_upper_bound; [lia|].
        rewrite Nat2Z.inj_succ, Z.pow_succ_r in Hn by lia. lia. }
      exists (k + 1). intros acc. destruct (Hk acc) as [-> Hk0].
      simpl. rewrite digit_of_digit_char by apply mod10_digit.
      split; [|lia]. f_equal.
      rewrite Z.pow_add_r by lia.
      pose proof (Z.div_mod n 10). lia.
Qed.

Lemma decimal_fuel (n : Z) : 0 ≤ n → n < 10 ^ Z.of_nat (S (Z.to_nat (Z.log2 n))).
Proof.
  intros Hn.
  rewrite Nat2Z.inj_succ, Z2Nat.id by apply Z.log2_nonneg.
  destruct (decide (n = 0)) as [->|Hpos]; [done|].
  pose proof (Z.log2_spec n) as Hspec.
  pose proof (Z.log2_nonneg n).
  assert (2 ^ Z.succ (Z.log2 n) ≤ 10 ^ Z.succ (Z.log2 n))
    by (apply Z.pow_le_mono_l; lia).
  lia.
Qed.

(** The printed digits start with a digit. *)
Lemma decimal_digits_head fuel : ∀ n d rest,
  0 ≤ d ≤ 9 →
  ∃ d' rest', 0 ≤ d' ≤ 9 ∧
    decimal_digits fuel n (String (digit_char d) rest) = String (digit_char d') rest'.
Proof.
  induction fuel as [|fuel IH]; intros n d rest Hd; simpl.
  - by exists d, rest.
  - case_bool_decide.
    + eexists _, _. split; [|done]. apply mod10_digit.
    + apply IH, mod10_digit.
Qed.

Lemma decimal_digits_S_head fuel n :
  ∃ d rest, 0 ≤ d ≤ 9 ∧
    decimal_digits (S fuel) n EmptyString = String (digit_char d) rest.
Proof.
  simpl. case_bool_decide.
  - eexists _, _. split; [|done]. apply mod10_digit.
  - apply decimal_digits_head, mod10_digit.
Qed.

(** The printed digits hold no character that is not a digit. *)
Lemma decimal_digits_plain c fuel : ∀ n acc,
  digit_of c = None → occurs_in c acc = false →
  occurs_in c (decimal_digits fuel n acc) = false.
Proof.
  induction fuel as [|fuel IH]; intros n acc Hc Hacc; simpl; [done|].
  assert (occurs_in c (String (digit_char (n `mod` 10)) acc) = false) as Hstep.
  { simpl. rewrite Hacc, orb_false_r. apply bool_decide_eq_false.
    apply digit_char_plain; [apply mod10_digit|done]. }
  case_bool_decide; [done|]. by apply IH.
Qed.

Lemma to_string_plain c n :
  digit_of c = None → c ≠ "-"%char → occurs_in c (to_string n) = false.
Proof.
  intros Hc Hminus. unfold to_string. case_bool_decide.
  - rewrite occurs_in_cons, bool_decide_false, orb_false_l by done.
    by apply decimal_digits_plain.
  - by apply decimal_digits_plain.
Qed.

(** [atoi] reads what [to_string] prints. *)
Lemma atoi_to_string (n : Z) : atoi (to_string n) = n.
Proof.
  unfold to_string. case_bool_decide as Hneg.
  - change (- atoi_digits 0 (decimal_digits (S (Z.to_nat (Z.log2 (- n)))) (- n) EmptyString) = n).
    destruct (atoi_digits_decimal _ (- n) EmptyString
                (conj (ltac:(lia) : 0 ≤ - n) (decimal_fuel (- n) ltac:(lia)))) as [k Hk].
    destruct (Hk 0) as [-> _]. simpl. lia.
  - destruct (decimal_digits_S_head (Z.to_nat (Z.log2 n)) n) as (d & rest & Hd & Heq).
    assert (atoi (String (digit_char d) rest) = atoi_digits 0 (String (digit_char d) rest))
      as Hatoi by (each_digit Hd; reflexivity).
    rewrite Heq, Hatoi, <- Heq.
    destruct (atoi_digits_decimal _ n EmptyString
                (conj (ltac:(lia) : 0 ≤ n) (decimal_fuel n ltac:(lia)))) as [k Hk].
    destruct (Hk 0) as [-> _]. simpl. lia.
Qed.

Lemma to_string_nonempty (n : Z) : to_string n ≠ EmptyString.
Proof.
  unfold to_string. case_bool_decide; [done|].
  by destruct (decimal_digits_S_head (Z.to_nat (Z.log2 n)) n) as (d & rest & _ & ->).
Qed.

Lemma Split_provider_line name count :
  occurs_in ":"%char name = false →
  Split (provider_line (name, count)) ":"%char = [name; to_string count].
Proof.
  intros Hname. unfold Split, provider_line. simpl fst; simpl snd.
  change (":" +:+ to_string count) with (String ":"%char (to_string count)).
  rewrite Split_columns_sep, Split_columns_last, append_nil_l by
    (done || by apply to_string_plain).
  rewrite bool_decide_false by apply to_string_nonempty. done.
Qed.

Lemma Split_joined sep init back :
  Forall (λ name, occurs_in sep name = false) init →
  occurs_in sep back = false → back ≠ EmptyString →
  Split (foldr (λ name out, name +:+ String sep out) EmptyString init +:+ back) sep
  = init ++ [back].
Proof.
  intros Hinit Hback Hne. unfold Split.
  induction Hinit as [|name init Hname _ IH]; simpl.
  - rewrite append_nil_l, Split_columns_last, bool_decide_false by done. done.
  - by rewrite append_assoc, append_cons, Split_columns_sep, IH.
Qed.

Lemma names_line_app init back :
  names_line (init ++ [back])
  = foldr (λ name out, name +:+ String ","%char out) EmptyString init +:+ back.
Proof.
  unfold names_line.
  rewrite last_snoc, length_app. simpl.
  replace (length init + 1 - 1)%nat with (length init) by lia.
  by rewrite take_app_length.
Qed.

Lemma writable_names_snoc nodes :
  writable_names nodes →
  ∃ init back, nodes = init ++ [back] ∧ back ≠ EmptyString ∧
    ∀ name, name ∈ nodes →
      occurs_in ","%char name = false ∧ occurs_in newline name = false.
Proof.
  intros [(back & Hlast & Hback) Hnames].
  apply last_Some in Hlast as [init ->]. by exists init, back.
Qed.

Lemma Split_names_line nodes :
  writable_names nodes → Split (names_line nodes) ","%char = nodes.
Proof.
  intros (init & back & -> & Hback & Hnames)%writable_names_snoc.
  rewrite names_line_app. apply Split_joined; [| |done].
  - apply Forall_forall. intros name Hname. apply Hnames, elem_of_app. by left.
  - apply Hnames, elem_of_app. right. by left.
Qed.

Lemma occurs_in_joined c sep init :
  c ≠ sep →
  Forall (λ name, occurs_in c name = false) init →
  occurs_in c (foldr (λ name out, name +:+ String sep out) EmptyString init) = false.
Proof.
  intros Hsep. induction 1 as [|name init Hname _ IH]; simpl; [done|].
  rewrite occurs_in_app, Hname, occurs_in_cons, IH.
  by rewrite bool_decide_false.
Qed.

Lemma names_line_one_line nodes :
  writable_names nodes → occurs_in newline (names_line nodes) = false.
Proof.
  intros (init & back & -> & Hback & Hnames)%writable_names_snoc.
  rewrite names_line_app, occurs_in_app, occurs_in_joined; [|done|].
  - apply Hnames, elem_of_app. right. by left.
  - apply Forall_forall. intros name Hname. apply Hnames, elem_of_app. by left.
Qed.

Lemma provider_line_one_line name count :
  occurs_in newline name = false →
  occurs_in newline (provider_line (name, count)) = false.
Proof.
  intros Hname. unfold provider_line. simpl fst; simpl snd.
  rewrite !occurs_in_app, Hname, to_string_plain by done. done.
Qed.

Lemma unlines_app a b : unlines (a ++ b) = unlines a +:+ unlines b.
Proof.
  induction a as [|line a IH]; simpl; [done|].
  by rewrite IH, append_assoc.
Qed.

Lemma dump_providers out l :
  foldl (λ out kv, out +:+ kv.1 +:+ ":" +:+ to_string kv.2 +:+ endl) out l
  = out +:+ unlines (provider_line <$> l).
Proof.
  revert out. induction l as [|kv l IH]; intros out; simpl.
  - by rewrite append_nil_r.
  - rewrite IH. unfold provider_line, endl.
    by rewrite !append_assoc.
Qed.

Lemma dump_names_Ok nodes :
  nodes ≠ [] → dump_names nodes = Ok (names_line nodes +:+ endl).
Proof.
  intros Hne. unfold dump_names, names_line.
  destruct (last nodes) as [back|] eqn:Hlast.
  - simpl. by rewrite append_assoc.
  - by apply last_None in Hlast.
Qed.

Lemma dump_streams out streams :
  Forall (λ nodes, nodes ≠ []) streams →
  foldR (λ out nodes, names ← dump_names nodes; mret (out +:+ names)) streams out
  = Ok (out +:+ unlines (names_line <$> streams)).
Proof.
  intros Hne. revert out.
  induction Hne as [|nodes streams Hnodes _ IH]; intros out; simpl.
  - by rewrite append_nil_r.
  - rewrite dump_names_Ok by done. simpl. rewrite IH.
    unfold endl. by rewrite !append_assoc.
Qed.

(** The file that [DumpPartition] writes, line by line. *)
Lemma DumpPartition_lines cfg p :
  cfg ≠ EmptyString →
  Forall (λ nodes, nodes ≠ []) (node_names_by_stream_ p) →
  DumpPartition cfg true p = Ok (Some (unlines (dumped_lines p))).
Proof.
  intros Hcfg Hne. unfold DumpPartition, dumped_lines.
  rewrite bool_decide_false by done.
  rewrite dump_providers, dump_streams by done. simpl.
  rewrite unlines_app. unfold endl.
  by rewrite !append_assoc.
Qed.

Lemma Initialize_names_read streams : ∀ p,
  Forall writable_names streams →
  Z.of_nat (length (node_names_by_stream_ p ++ streams)) = num_streams_ p `mod` 2 ^ 64 →
  Initialize_names p (names_line <$> streams)
  = mkDummyPartitioner (status_ p) (num_streams_ p) (max_streams_ p)
      (node_names_by_stream_ p ++ streams) (need_dump_ p).
Proof.
  induction streams as [|nodes streams IH]; intros p Hw Hcount; simpl.
  - rewrite app_nil_r in *. rewrite bool_decide_true by done. by destruct p.
  - inversion_clear Hw as [|?? Hnodes Hstreams].
    rewrite Split_names_line by done.
    rewrite bool_decide_false.
    + rewrite IH; simpl; [|done|by rewrite <- app_assoc].
      by rewrite <- app_assoc.
    + destruct Hnodes as [(back & Hlast & _) _]. by intros ->.
Qed.

Lemma Initialize_providers_read l : ∀ p rest,
  Forall (λ kv, occurs_in ":"%char kv.1 = false) l →
  Initialize_providers p (length l) ((provider_line <$> l) ++ rest)
  = Initialize_names
      (mkDummyPartitioner (status_ p) (num_streams_ p + sumZ snd l)
         (foldl (λ m kv, <[kv.1 := kv.2]> m) (max_streams_ p) l)
         (node_names_by_stream_ p) (need_dump_ p))
      rest.
Proof.
  induction l as [|[name count] l IH]; intros p rest Hl.
  - simpl. rewrite Z.add_0_r. by destruct p.
  - inversion_clear Hl as [|?? Hname Hrest]. simpl in Hname.
    cbn [length fmap list_fmap app Initialize_providers].
    rewrite Split_provider_line, atoi_to_string by done.
    rewrite IH by done. simpl. do 2 f_equal. lia.
Qed.

Lemma foldl_insert_list_to_map (l : list (string * Z)) : ∀ m : gmap string Z,
  NoDup l.*1 →
  foldl (λ m kv, <[kv.1 := kv.2]> m) m l = list_to_map l ∪ m.
Proof.
  induction l as [|[k v] l IH]; intros m Hnodup; simpl.
  - by rewrite (left_id_L ∅ (∪)).
  - apply NoDup_cons in Hnodup as [Hk Hnodup].
    rewrite IH by done.
    rewrite <- insert_union_l, <- insert_union_r; [done|].
    by apply not_elem_of_list_to_map_1.
Qed.

Lemma map_in_order_Permutation (m : gmap string Z) : map_in_order m ≡ₚ map_to_list m.
Proof. apply merge_sort_Permutation. Qed.

Lemma read_back_providers (m : gmap string Z) :
  foldl (λ m kv, <[kv.1 := kv.2]> m) ∅ (map_in_order m) = m.
Proof.
  assert (NoDup (map_in_order m).*1) as Hnodup.
  { rewrite map_in_order_Permutation. apply NoDup_fst_map_to_list. }
  rewrite foldl_insert_list_to_map, (right_id_L ∅ (∪)) by done.
  rewrite (list_to_map_proper _ (map_to_list m)) by
    (done || apply map_in_order_Permutation).
  apply list_to_map_to_list.
Qed.

Lemma header_lines cfg key count rest :
  cfg ≠ EmptyString → occurs_in ":"%char key = false →
  Initialize cfg (Some (DummyPartitioner_name :: provider_line (key, count) :: rest))
  = let p := mkDummyPartitioner StatusOK 0 ∅ [] false in
    if negb (bool_decide (key = "ExecutionProviders"))
    then EXIT_ON_ERR p "2nd line of configuration file should be of format: ExecutionProviders,<an integer>"
    else if bool_decide (count ≤ 0)
         then EXIT_ON_ERR p "2nd line, the number of ExecutionProviders must be a positive value"
         else Initialize_providers p (Z.to_nat count) rest.
Proof.
  intros Hcfg Hkey. unfold Initialize.
  rewrite bool_decide_false by done.
  rewrite (bool_decide_true (DummyPartitioner_name = DummyPartitioner_name)) by done.
  cbn [negb]. rewrite Split_provider_line, atoi_to_string by done. done.
Qed.

Lemma providers_line count :
  "ExecutionProviders:" +:+ to_string count
  = provider_line ("ExecutionProviders", count).
Proof. reflexivity. Qed.

Lemma dumped_lines_one_line p :
  (∀ name count, max_streams_ p !! name = Some count → writable_provider name) →
  Forall writable_names (node_names_by_stream_ p) →
  Forall (λ line, occurs_in newline line = false) (dumped_lines p).
Proof.
  intros Hproviders Hnames. unfold dumped_lines.
  repeat apply Forall_cons_2.
  - reflexivity.
  - by apply (provider_line_one_line "ExecutionProviders").
  - apply Forall_app. split; apply Forall_fmap, Forall_forall.
    + intros [name count] Hin. apply provider_line_one_line.
      rewrite map_in_order_Permutation in Hin.
      apply elem_of_map_to_list in Hin. by eapply Hproviders.
    + intros nodes Hin. apply names_line_one_line.
      by eapply Forall_forall in Hnames.
Qed.

(** [Initialize] on the lines that [DumpPartition] writes. *)
Lemma Initialize_dumped_lines cfg p :
  cfg ≠ EmptyString →
  max_streams_ p ≠ ∅ →
  (∀ name count, max_streams_ p !! name = Some count → writable_provider name) →
  Forall writable_names (node_names_by_stream_ p) →
  Z.of_nat (length (node_names_by_stream_ p)) = total_streams (max_streams_ p) `mod` 2 ^ 64 →
  Initialize cfg (Some (dumped_lines p))
  = mkDummyPartitioner StatusOK (total_streams (max_streams_ p)) (max_streams_ p)
      (node_names_by_stream_ p) false.
Proof.
  intros Hcfg Hproviders Hwritable Hnames Hcount.
  unfold dumped_lines.
  rewrite providers_line, header_lines by done.
  cbn [negb bool_decide decide_rel]. rewrite bool_decide_true by done. cbn [negb].
  assert (size (max_streams_ p) ≠ 0%nat) as Hsize
    by (by intros ?%map_size_empty_iff).
  rewrite bool_decide_false by lia.
  assert (length (map_in_order (max_streams_ p)) = size (max_streams_ p)) as Hlen.
  { by rewrite map_in_order_Permutation, length_map_to_list. }
  rewrite Nat2Z.id, <- Hlen.
  assert (sumZ snd (map_in_order (max_streams_ p)) = total_streams (max_streams_ p))
    as Hsum by apply sumZ_Permutation, map_in_order_Permutation.
  rewrite Initialize_providers_read.
  - cbn [status_ num_streams_ max_streams_ node_names_by_stream_ need_dump_].
    rewrite read_back_providers, Z.add_0_l, Hsum.
    by rewrite Initialize_names_read.
  - apply Forall_forall. intros [name count] Hin.
    rewrite map_in_order_Permutation in Hin.
    apply elem_of_map_to_list in Hin. by eapply Hwritable.
Qed.

Lemma writable_names_nonempty streams :
  Forall writable_names streams → Forall (λ nodes, nodes ≠ []) streams.
Proof.
  intros Hnames. eapply Forall_impl; [exact Hnames|].
  intros nodes [(back & Hlast & _) _]. by intros ->.
Qed.

(** X1. A partition that is dumped and read back is the same partition:
    when at least one provider is listed, the names can be written
    (no separator or line break inside a name, the last name of a stream
    not empty) and the stream counts add up to the number of streams,
    [DumpPartition] writes a file from which [Initialize] restores
    [max_streams_] and [node_names_by_stream_] without an error. *)
Theorem dumped_partition_reads_back cfg p :
  cfg ≠ EmptyString →
  max_streams_ p ≠ ∅ →
  (∀ name count, max_streams_ p !! name = Some count → writable_provider name) →
  Forall writable_names (node_names_by_stream_ p) →
  Z.of_nat (length (node_names_by_stream_ p)) = total_streams (max_streams_ p) `mod` 2 ^ 64 →
  ∃ content,
    DumpPartition cfg true p = Ok (Some content) ∧
    Initialize cfg (Some (lines_of content))
    = mkDummyPartitioner StatusOK (total_streams (max_streams_ p)) (max_streams_ p)
        (node_names_by_stream_ p) false.
Proof.
  intros Hcfg Hproviders Hwritable Hnames Hcount.
  exists (unlines (dumped_lines p)). split.
  - by apply DumpPartition_lines, writable_names_nonempty.
  - rewrite Split_unlines by by apply dumped_lines_one_line.
    by apply Initialize_dumped_lines.
Qed.

(** ** [PartitionNodes] *)

Lemma foldR_prefix_inv {A St} (P : St → list A → Prop) (body : St → A → Result St)
    (l : list A) :
  (∀ s before x s', P s before → body s x = Ok s' → P s' (before ++ [x])) →
  ∀ before s s', P s before → foldR body l s = Ok s' → P s' (before ++ l).
Proof.
  intros Hbody. induction l as [|x l IH]; intros before s s' Hs; simpl.
  - intros [= <-]. by rewrite app_nil_r.
  - intros (s1 & H1 & Hrest)%bind_Ok.
    rewrite cons_middle, app_assoc. eapply IH; [|done]. by eapply Hbody.
Qed.

Lemma place_node_Ok g s n s' :
  place_node g s n = Ok s' →
  ∃ node i stream,
    GetNode g n = Some node ∧
    placed s !! i = Some stream ∧
    placed s' = <[i := stream ++ [n]]> (placed s) ∧
    (if bool_decide (Node_Name node = EmptyString)
     then i = default 0%nat (node_stream_map s !! (tmp_name (placement_counter s) (OpType node)).1) ∧
          placement_counter s' = (tmp_name (placement_counter s) (OpType node)).2 ∧
          node_stream_map s' = node_stream_map s
     else i = default 0%nat (node_stream_map s !! Node_Name node) ∧
          placement_counter s' = placement_counter s ∧
          node_stream_map s' = <[Node_Name node := i]> (node_stream_map s)).
Proof.
  unfold place_node. intros (node & Hnode%unchecked_Ok & Hrun)%bind_Ok.
  exists node. case_bool_decide as Hname.
  - destruct (tmp_name _ _) as [tmp counter] eqn:Htmp.
    apply bind_Ok in Hrun as (_ & _ & (stream & Hstream%unchecked_Ok & [= <-])%bind_Ok).
    by eexists _, stream.
  - apply bind_Ok in Hrun as (stream & Hstream%unchecked_Ok & [= <-]).
    by eexists _, stream.
Qed.

Lemma concat_insert_snoc {A} (ls : list (list A)) (i : nat) (l : list A) (x : A) :
  ls !! i = Some l → concat (<[i := l ++ [x]]> ls) ≡ₚ concat ls ++ [x].
Proof.
  revert i. induction ls as [|l0 ls IH]; intros [|i] Hi; try done; simpl in *.
  - injection Hi as ->. rewrite <- !app_assoc.
    apply Permutation_app_head, Permutation_app_comm.
  - by rewrite (IH i Hi), app_assoc.
Qed.

Lemma PartitionNodes_Ok p g sn p' sn' :
  IsOK (status_ p) = true →
  PartitionNodes p g sn = Ok (p', sn') →
  ∃ s,
    foldR (place_node g) (GetNodesInTopologicalOrder g)
      (mkPlacement (replicate (length (node_names_by_stream_ p')) []) ∅
         (name_stream_map (node_names_by_stream_ p'))) = Ok s ∧
    sn' = placed s ∧
    status_ p' = status_ p.
Proof.
  intros Hok. unfold PartitionNodes. rewrite Hok. cbn [negb].
  intros (p1 & Hp1 & (s & Hs & [= <- <-])%bind_Ok)%bind_Ok.
  exists s. split_and!; [done..|].
  destruct (_ && _); [|by injection Hp1 as <-].
  by apply bind_Ok in Hp1 as (? & _ & [= <-]).
Qed.

Lemma concat_replicate_nil {A} (k : nat) : concat (replicate k (@nil A)) = [].
Proof. induction k as [|k IH]; [done|]. by simpl. Qed.

Lemma elem_of_insert_cases {A} (l : list A) (i : nat) (x y : A) :
  x ∈ <[i := y]> l → x = y ∨ x ∈ l.
Proof.
  revert i. induction l as [|z l IH]; intros [|i]; simpl; try by right.
  - rewrite !elem_of_cons. tauto.
  - rewrite !elem_of_cons. intros [?|?%IH]; tauto.
Qed.

(** The loop that fills the streams puts every node on one stream. *)
Lemma place_nodes_permutation g nodes k counter names s :
  foldR (place_node g) nodes (mkPlacement (replicate k []) counter names) = Ok s →
  length (placed s) = k ∧
  concat (placed s) ≡ₚ nodes ∧
  ∀ stream, stream ∈ placed s → stream `sublist_of` nodes.
Proof.
  intros Hrun.
  pose (P := λ (s : Placement) (before : list NodeIndex),
          length (placed s) = k ∧ concat (placed s) ≡ₚ before ∧
          ∀ stream, stream ∈ placed s → stream `sublist_of` before).
  apply (foldR_prefix_inv P _ _) with (before := []) in Hrun; [done| |].
  - unfold P. intros s1 before n s2 (Hlen & Hperm & Hsub)
      (node & i & stream & _ & Hi & Hplaced & _)%place_node_Ok.
    rewrite Hplaced. split_and!.
    + by rewrite length_insert.
    + by rewrite concat_insert_snoc, Hperm.
    + intros stream' [->|Hin]%elem_of_insert_cases.
      * apply sublist_app; [|done]. by eapply Hsub, list_elem_of_lookup_2.
      * by apply sublist_inserts_r, Hsub.
  - unfold P. simpl. split_and!.
    + apply length_replicate.
    + by rewrite concat_replicate_nil.
    + intros stream [-> _]%elem_of_replicate. done.
Qed.

(** X2. Whenever [PartitionNodes] returns on a partitioner without an
    error, every node of the topological order is on exactly one stream:
    there are as many streams as lines of names, the streams together
    are a permutation of the order, and each stream keeps the order. *)
Theorem PartitionNodes_places_every_node p g sn p' sn' :
  IsOK (status_ p) = true →
  PartitionNodes p g sn = Ok (p', sn') →
  length sn' = length (node_names_by_stream_ p') ∧
  concat sn' ≡ₚ GetNodesInTopologicalOrder g ∧
  ∀ stream, stream ∈ sn' → stream `sublist_of` GetNodesInTopologicalOrder g.
Proof.
  intros Hok (s & Hrun & -> & _)%PartitionNodes_Ok; [|done].
  by apply place_nodes_permutation in Hrun.
Qed.

Lemma unnamed_before_snoc g op_type before n :
  unnamed_before g op_type (before ++ [n])
  = (unnamed_before g op_type before + if is_unnamed g op_type n then 1 else 0)%nat.
Proof.
  unfold unnamed_before. rewrite filter_app, length_app. f_equal.
  destruct (is_unnamed g op_type n) eqn:Hn.
  - by rewrite filter_cons_True.
  - rewrite filter_cons_False; [done|]. by rewrite Hn.
Qed.

Lemma counter_counts_empty g : counter_counts g ∅ [].
Proof. intros op_type. by rewrite lookup_empty. Qed.

Lemma tmp_name_counts g counter before n node :
  counter_counts g counter before →
  GetNode g n = Some node → Node_Name node = EmptyString →
  (tmp_name counter (OpType node)).1 = partition_name g before node ∧
  counter_counts g (tmp_name counter (OpType node)).2 (before ++ [n]).
Proof.
  intros Hcounts Hnode Hname. unfold tmp_name, partition_name. simpl.
  rewrite bool_decide_true, (Hcounts (OpType node)) by done.
  split; [done|]. intros op_type.
  rewrite unnamed_before_snoc. unfold is_unnamed. rewrite Hnode, Hname.
  rewrite bool_decide_true by done. simpl.
  case_bool_decide as Hop.
  - subst. rewrite lookup_insert_eq. simpl. lia.
  - rewrite lookup_insert_ne by done. rewrite Hcounts. lia.
Qed.

Lemma named_node_counts g counter before n node :
  counter_counts g counter before →
  GetNode g n = Some node → Node_Name node ≠ EmptyString →
  counter_counts g counter (before ++ [n]).
Proof.
  intros Hcounts Hnode Hname op_type.
  rewrite unnamed_before_snoc. unfold is_unnamed. rewrite Hnode.
  rewrite bool_decide_false by done. simpl. rewrite Hcounts. lia.
Qed.

Lemma named_from_app g l1 : ∀ before l2,
  (named_from g before l1).*1 = l1 →
  named_from g before (l1 ++ l2)
  = named_from g before l1 ++ named_from g (before ++ l1) l2.
Proof.
  induction l1 as [|n l1 IH]; intros before l2 Hall; simpl in *.
  - by rewrite app_nil_r.
  - destruct (GetNode g n) as [node|]; [|done]. simpl in *.
    injection Hall as Hall. rewrite IH by done.
    by rewrite <- app_assoc.
Qed.

Lemma named_snoc g before n node :
  (named g before).*1 = before → GetNode g n = Some node →
  named g (before ++ [n]) = named g before ++ [(n, partition_name g before node)].
Proof.
  intros Hall Hnode. unfold named in *.
  rewrite named_from_app by done. simpl. by rewrite Hnode.
Qed.

Lemma foldl_insert_lookup (i : nat) (l : list string) (m : gmap string nat) name :
  foldl (λ m node_name, <[node_name := i]> m) m l !! name
  = if bool_decide (name ∈ l) then Some i else m !! name.
Proof.
  revert m. induction l as [|x l IH]; intros m; simpl; [done|].
  rewrite IH. destruct (decide (name ∈ l)) as [Hin|Hin].
  - rewrite !bool_decide_true; [done| |done]. by right.
  - rewrite (bool_decide_false (name ∈ l)) by done.
    destruct (decide (name = x)) as [->|Hne].
    + rewrite lookup_insert_eq, bool_decide_true; [done|by left].
    + rewrite lookup_insert_ne, bool_decide_false; [done| |done].
      by intros [?|?]%elem_of_cons.
Qed.

Lemma name_stream_map_snoc names l :
  name_stream_map (names ++ [l])
  = foldl (λ m node_name, <[node_name := length names]> m) (name_stream_map names) l.
Proof.
  unfold name_stream_map. rewrite imap_app, foldl_app. simpl.
  by rewrite Nat.add_0_r.
Qed.

Lemma listed_stream_snoc names l name :
  listed_stream (names ++ [l]) name
  = if bool_decide (name ∈ l) then length names else listed_stream names name.
Proof.
  unfold listed_stream. rewrite length_app. simpl.
  rewrite Nat.add_1_r, seq_S, filter_app. simpl.
  rewrite (filter_ext_elem (λ i, name ∈ default [] ((names ++ [l]) !! i))
             (λ i, name ∈ default [] (names !! i)) (seq 0 (length names))).
  2:{ intros i [_ Hi]%elem_of_seq. by rewrite lookup_app_l by lia. }
  rewrite last_app. case_bool_decide as Hin.
  - rewrite filter_cons_True; [done|].
    by rewrite list_lookup_middle.
  - rewrite filter_cons_False; [done|].
    by rewrite list_lookup_middle.
Qed.

Lemma name_stream_map_listed names name :
  default 0%nat (name_stream_map names !! name) = listed_stream names name.
Proof.
  induction names as [|l names IH] using rev_ind; [done|].
  rewrite name_stream_map_snoc, foldl_insert_lookup, listed_stream_snoc.
  by case_bool_decide.
Qed.

Lemma nodes_on_snoc names l n name j :
  nodes_on names (l ++ [(n, name)]) j
  = nodes_on names l j ++ if bool_decide (listed_stream names name = j) then [n] else [].
Proof.
  unfold nodes_on. rewrite filter_app, fmap_app. f_equal.
  case_bool_decide.
  - by rewrite filter_cons_True.
  - by rewrite filter_cons_False.
Qed.

(** The streams after the nodes of [before] have been placed. *)
Lemma place_node_listed g names s before n s' :
  let J := λ (s : Placement) (before : list NodeIndex),
    (named g before).*1 = before ∧
    counter_counts g (placement_counter s) before ∧
    (∀ x, default 0%nat (node_stream_map s !! x) = listed_stream names x) ∧
    placed s = nodes_on names (named g before) <$> seq 0 (length names) in
  J s before → place_node g s n = Ok s' → J s' (before ++ [n]).
Proof.
  intros J (Hall & Hcounts & Hmap & Hplaced)
    (node & i & stream & Hnode & Hi & Hplaced' & Hcase)%place_node_Ok.
  assert (i = listed_stream names (partition_name g before node) ∧
          counter_counts g (placement_counter s') (before ++ [n]) ∧
          ∀ x, default 0%nat (node_stream_map s' !! x) = listed_stream names x)
    as (Hstream & Hcounts' & Hmap').
  { case_bool_decide as Hname.
    - destruct Hcase as (-> & -> & ->).
      destruct (tmp_name_counts g _ before n node Hcounts Hnode Hname) as [-> Hc].
      by rewrite Hmap.
    - destruct Hcase as (Hi' & -> & ->).
      unfold partition_name. rewrite bool_decide_false by done.
      rewrite Hmap in Hi'. split_and!; [done|by eapply named_node_counts|].
      intros x. destruct (decide (x = Node_Name node)) as [->|Hne].
      + by rewrite lookup_insert_eq.
      + by rewrite lookup_insert_ne. }
  unfold J. rewrite (named_snoc g before n node) by done.
  split_and!; [|done..|].
  - by rewrite fmap_app, Hall.
  - rewrite Hplaced', Hplaced. rewrite Hplaced in Hi.
    apply list_lookup_fmap_Some in Hi as (j & Hstream' & [-> Hj]%lookup_seq).
    simpl in *. apply list_eq. intros j.
    destruct (decide (j = i)) as [->|Hne].
    + rewrite list_lookup_insert_eq by (by rewrite length_fmap, length_seq).
      rewrite list_lookup_fmap, lookup_seq_lt by done. simpl.
      rewrite nodes_on_snoc, bool_decide_true by done. by subst.
    + rewrite list_lookup_insert_ne by done.
      rewrite !list_lookup_fmap. destruct (seq 0 (length names) !! j) as [j'|] eqn:Hj';
        [|done].
      apply lookup_seq in Hj' as [-> _]. simpl.
      rewrite nodes_on_snoc, bool_decide_false, app_nil_r by congruence. done.
Qed.

Lemma PartitionNodes_listed p g sn p' sn' :
  IsOK (status_ p) = true →
  PartitionNodes p g sn = Ok (p', sn') →
  (named g (GetNodesInTopologicalOrder g)).*1 = GetNodesInTopologicalOrder g ∧
  sn' = nodes_on (node_names_by_stream_ p') (named g (GetNodesInTopologicalOrder g))
          <$> seq 0 (length (node_names_by_stream_ p')).
Proof.
  intros Hok (s & Hrun & -> & _)%PartitionNodes_Ok; [|done].
  eapply (foldR_prefix_inv _ _ _ (place_node_listed g (node_names_by_stream_ p')) [])
    in Hrun.
  - by destruct Hrun as (? & _ & _ & ?).
  - simpl. split_and!; [done|apply counter_counts_empty|apply name_stream_map_listed|].
    apply list_eq. intros j. rewrite list_lookup_fmap.
    destruct (decide (j < length (node_names_by_stream_ p'))%nat).
    + by rewrite lookup_replicate_2, lookup_seq_lt by done.
    + rewrite lookup_seq_ge by lia. simpl. apply lookup_replicate_None. lia.
Qed.

Lemma foldR_prefix_total {A St} (P : St → list A → Prop) (Q : A → Prop)
    (body : St → A → Result St) (l : list A) :
  (∀ s before x, P s before → Q x → ∃ s', body s x = Ok s' ∧ P s' (before ++ [x])) →
  Forall Q l →
  ∀ before s, P s before → ∃ s', foldR body l s = Ok s' ∧ P s' (before ++ l).
Proof.
  intros Hbody. induction 1 as [|x l Hx _ IH]; intros before s Hs; simpl.
  - exists s. by rewrite app_nil_r.
  - destruct (Hbody s before x Hs Hx) as (s1 & -> & Hs1). simpl.
    rewrite cons_middle, app_assoc. by apply IH.
Qed.

Lemma providers_in_order_snoc g before n node :
  GetNode g n = Some node →
  providers_in_order g (before ++ [n])
  = if bool_decide (GetExecutionProviderType node ∈ providers_in_order g before)
    then providers_in_order g before
    else providers_in_order g before ++ [GetExecutionProviderType node].
Proof.
  intros Hnode. unfold providers_in_order. rewrite foldl_app. simpl.
  by rewrite Hnode.
Qed.

Lemma provider_names_snoc g l n name provider :
  provider_names g (l ++ [(n, name)]) provider
  = provider_names g l provider ++ if bool_decide (on_provider g provider n) then [name] else [].
Proof.
  unfold provider_names. rewrite filter_app, fmap_app. f_equal.
  case_bool_decide.
  - by rewrite filter_cons_True.
  - by rewrite filter_cons_False.
Qed.

Lemma provider_names_none g l provider :
  (∀ n node, n ∈ l.*1 → GetNode g n = Some node →
             GetExecutionProviderType node ≠ provider) →
  provider_names g l provider = [].
Proof.
  intros Hnone. unfold provider_names.
  induction l as [|[n name] l IH]; [done|].
  rewrite filter_cons_False.
  - apply IH. intros n' node Hin. apply Hnone. by right.
  - unfold on_provider. simpl.
    destruct (GetNode g n) as [node|] eqn:Hnode; [|done]. simpl.
    intros [= Heq]. by eapply (Hnone n node); [left|..].
Qed.

Lemma scratch_push g s before node (max_streams : gmap string Z)
    (names : list (list string)) (streams : gmap string Z) i stream counter' :
  (if bool_decide (Node_Name node = EmptyString)
   then tmp_name (scratch_counter s) (OpType node)
        = (partition_name g before node, counter')
   else counter' = scratch_counter s) →
  (if bool_decide (Node_Name node = EmptyString) then
     let '(name, counter) := tmp_name (scratch_counter s) (OpType node) in
     mret (mkScratchPartition max_streams (<[i := stream ++ [name]]> names) streams counter)
   else
     mret (mkScratchPartition max_streams (<[i := stream ++ [Node_Name node]]> names)
             streams (scratch_counter s)))
  = Ok (mkScratchPartition max_streams
          (<[i := stream ++ [partition_name g before node]]> names) streams counter').
Proof.
  intros Hcounter. unfold partition_name in *.
  case_bool_decide; [by rewrite Hcounter|by subst].
Qed.

Lemma on_provider_node g provider n node :
  GetNode g n = Some node →
  on_provider g provider n ↔ GetExecutionProviderType node = provider.
Proof.
  intros Hnode. unfold on_provider. rewrite Hnode. simpl.
  split; [by intros [= ->]|by intros ->].
Qed.

Lemma bind_Ok_l {A B} (x : A) (f : A → Result B) : Ok x ≫= f = f x.
Proof. reflexivity. Qed.

Lemma bind_unchecked_Some {A B} (x : A) (f : A → Result B) :
  unchecked (Some x) ≫= f = f x.
Proof. reflexivity. Qed.

Lemma at_index_of_nat {A} (l : list A) (i : nat) : at_index l (Z.of_nat i) = l !! i.
Proof. unfold at_index. by rewrite bool_decide_true, Nat2Z.id by lia. Qed.

Lemma partition_by_provider_step g s before n :
  partitioned_by_provider g s before → is_Some (GetNode g n) →
  ∃ s', partition_by_provider g s n = Ok s' ∧
        partitioned_by_provider g s' (before ++ [n]).
Proof.
  intros (Hall & Hcounts & Hnodup & Hseen & Hstream & Hnew & Hmax & Hnames) [node Hnode].
  unfold partition_by_provider. rewrite Hnode, bind_unchecked_Some.
  set (e := GetExecutionProviderType node).
  set (providers := providers_in_order g before) in *.
  assert (∃ counter',
            (if bool_decide (Node_Name node = EmptyString)
             then tmp_name (scratch_counter s) (OpType node)
                  = (partition_name g before node, counter')
             else counter' = scratch_counter s) ∧
            counter_counts g counter' (before ++ [n])) as (counter' & Hcounter & Hcounts').
  { case_bool_decide as Hname.
    - destruct (tmp_name_counts g _ before n node Hcounts Hnode Hname) as [H1 H2].
      eexists. split; [|exact H2]. rewrite <- H1. by destruct (tmp_name _ _).
    - eexists. split; [done|]. by eapply named_node_counts. }
  assert (length (scratch_names s) = length providers) as Hlen
    by by rewrite Hnames, length_fmap.
  assert (∀ n' node', n' ∈ before ++ [n] → GetNode g n' = Some node' →
            GetExecutionProviderType node' ∈ providers ∨ GetExecutionProviderType node' = e)
    as Hseen'.
  { intros n' node' [Hin|Heq%list_elem_of_singleton]%elem_of_app Hnode'.
    - left. by eapply Hseen.
    - right. subst n'. rewrite Hnode in Hnode'. by injection Hnode' as <-. }
  unfold partitioned_by_provider.
  rewrite (providers_in_order_snoc g before n node Hnode).
  rewrite (named_snoc g before n node Hall Hnode), fmap_app, Hall.
  fold e providers.
  destruct (decide (e ∈ providers)) as [Hin|Hnotin].
  - rewrite (bool_decide_true (e ∈ providers)) by done.
    pose proof Hin as [i Hi]%list_elem_of_lookup_1.
    rewrite (Hstream e i Hi). cbv beta iota.
    rewrite (Hstream e i Hi), bind_unchecked_Some, at_index_of_nat, Nat2Z.id.
    assert (scratch_names s !! i = Some (provider_names g (named g before) e)) as Hold
      by by rewrite Hnames, list_lookup_fmap, Hi.
    rewrite Hold, bind_unchecked_Some.
    erewrite scratch_push by exact Hcounter.
    eexists. split; [done|]. simpl.
    split_and!; [done..| | | | |].
    + intros n' node' Hn' Hnode'. destruct (Hseen' n' node' Hn' Hnode') as [? | ->]; done.
    + done.
    + done.
    + intros provider.
      rewrite (Hmax e), (bool_decide_true (e ∈ providers)),
        (bool_decide_false (Some 1 = None)) by done.
      apply Hmax.
    + rewrite Hnames. apply list_eq. intros j.
      destruct (decide (j = i)) as [->|Hne].
      * rewrite list_lookup_insert_eq by (rewrite length_fmap; by eapply lookup_lt_Some).
        rewrite list_lookup_fmap, Hi. simpl.
        rewrite provider_names_snoc, bool_decide_true; [done|].
        by apply (on_provider_node g e n node).
      * rewrite list_lookup_insert_ne by done.
        rewrite !list_lookup_fmap.
        destruct (providers !! j) as [e'|] eqn:Hj; [|done]. simpl.
        rewrite provider_names_snoc, bool_decide_false, app_nil_r; [done|].
        intros He'%(on_provider_node g e' n node); [|done].
        apply Hne. rewrite <- He' in Hj. by eapply NoDup_lookup.
  - rewrite (bool_decide_false (e ∈ providers)) by done.
    rewrite (Hnew e Hnotin). cbv beta iota.
    rewrite lookup_insert_eq, bind_unchecked_Some, at_index_of_nat, Nat2Z.id.
    rewrite list_lookup_middle by done. rewrite bind_unchecked_Some.
    erewrite scratch_push by exact Hcounter.
    eexists. split; [done|]. simpl.
    split_and!; [done..| | | | | |].
    + apply NoDup_app. split_and!; [done| |apply NoDup_singleton].
      intros x Hx ->%list_elem_of_singleton. done.
    + intros n' node' Hn' Hnode'. apply elem_of_app.
      destruct (Hseen' n' node' Hn' Hnode') as [? | ->]; [by left|].
      right. by apply list_elem_of_singleton.
    + intros provider j Hj.
      apply lookup_app_Some in Hj as [Hj|[Hge Hj]].
      * rewrite lookup_insert_ne; [by apply Hstream|].
        intros <-. by apply list_elem_of_lookup_2 in Hj.
      * apply list_lookup_singleton_Some in Hj as [Hj <-].
        rewrite lookup_insert_eq. do 2 f_equal. lia.
    + intros provider [Hp He]%not_elem_of_app.
      rewrite lookup_insert_ne; [by apply Hnew|].
      intros <-. apply He. by apply list_elem_of_singleton.
    + intros provider.
      rewrite (Hmax e), (bool_decide_false (e ∈ providers)),
        (bool_decide_true (None = None)) by done.
      destruct (decide (provider = e)) as [->|Hne].
      * rewrite lookup_insert_eq, bool_decide_true; [done|].
        apply elem_of_app. right. by apply list_elem_of_singleton.
      * rewrite lookup_insert_ne, Hmax by done.
        repeat case_bool_decide; try done;
          exfalso; rewrite elem_of_app, list_elem_of_singleton in *; tauto.
    + rewrite insert_app_r_alt, Nat.sub_diag, fmap_app by done. simpl. f_equal.
      * rewrite Hnames. apply list_fmap_ext. intros j e' Hj.
        rewrite provider_names_snoc, bool_decide_false, app_nil_r; [done|].
        intros He'%(on_provider_node g e' n node); [|done].
        apply Hnotin. rewrite <- He' in Hj. by apply list_elem_of_lookup_2 in Hj.
      * rewrite provider_names_snoc, provider_names_none, bool_decide_true; [done| |].
        -- by apply (on_provider_node g e n node).
        -- rewrite Hall. intros n' node' Hn' Hnode' He'.
           apply Hnotin. rewrite <- He'. by eapply Hseen.
Qed.

Lemma partitioned_by_provider_empty g :
  partitioned_by_provider g (mkScratchPartition ∅ [] ∅ ∅) [].
Proof.
  unfold partitioned_by_provider. simpl.
  split_and!; try done.
  - apply NoDup_nil_2.
  - by intros n node ?%elem_of_nil.
Qed.

(** The loop that partitions from scratch returns, with one stream for
    every provider. *)
Lemma partition_from_scratch g :
  Forall (λ n, is_Some (GetNode g n)) (GetNodesInTopologicalOrder g) →
  ∃ s, foldR (partition_by_provider g) (GetNodesInTopologicalOrder g)
         (mkScratchPartition ∅ [] ∅ ∅) = Ok s ∧
       partitioned_by_provider g s (GetNodesInTopologicalOrder g).
Proof.
  intros Hnodes.
  apply (foldR_prefix_total (partitioned_by_provider g) _ _ _
           (partition_by_provider_step g) Hnodes []).
  apply partitioned_by_provider_empty.
Qed.


Lemma foldR_whole_total {A St} (P : St → list A → Prop) (body : St → A → Result St)
    (l : list A) :
  (∀ s before x after, l = before ++ x :: after → P s before →
     ∃ s', body s x = Ok s' ∧ P s' (before ++ [x])) →
  ∀ s, P s [] → ∃ s', foldR body l s = Ok s' ∧ P s' l.
Proof.
  intros Hbody.
  assert (∀ rest before s, l = before ++ rest → P s before →
            ∃ s', foldR body rest s = Ok s' ∧ P s' l) as Hgen.
  { induction rest as [|x rest IH]; intros before s Hl Hs; simpl.
    - exists s. rewrite app_nil_r in Hl. by subst.
    - destruct (Hbody s before x rest Hl Hs) as (s1 & -> & Hs1). simpl.
      apply (IH (before ++ [x])); [|done]. by rewrite <- app_assoc. }
  intros s Hs. by apply (Hgen l []).
Qed.

Lemma listed_in_range names name j stream :
  names !! j = Some stream → name ∈ stream →
  is_Some (name_stream_map names !! name) ∧
  (listed_stream names name < length names)%nat.
Proof.
  revert j. induction names as [|l names IH] using rev_ind; intros j Hj Hin; [done|].
  rewrite name_stream_map_snoc, foldl_insert_lookup, listed_stream_snoc, length_app.
  simpl. case_bool_decide as Hl; [split; [done|lia]|].
  apply lookup_app_Some in Hj as [Hj|[_ Hj]].
  - destruct (IH j Hj Hin). split; [done|lia].
  - apply list_lookup_singleton_Some in Hj as [_ <-]. done.
Qed.

Lemma place_node_total g names s before n node :
  let J := λ (s : Placement) (before : list NodeIndex),
    (named g before).*1 = before ∧
    counter_counts g (placement_counter s) before ∧
    (∀ x, default 0%nat (node_stream_map s !! x) = listed_stream names x) ∧
    placed s = nodes_on names (named g before) <$> seq 0 (length names) in
  J s before →
  (∀ x, is_Some (name_stream_map names !! x) → is_Some (node_stream_map s !! x)) →
  GetNode g n = Some node →
  is_Some (name_stream_map names !! partition_name g before node) →
  (listed_stream names (partition_name g before node) < length names)%nat →
  ∃ s', place_node g s n = Ok s' ∧
        ∀ x, is_Some (name_stream_map names !! x) → is_Some (node_stream_map s' !! x).
Proof.
  intros J (Hall & Hcounts & Hmap & Hplaced) Hdom Hnode Hlisted Hrange.
  unfold place_node. rewrite Hnode, bind_unchecked_Some.
  assert (∀ i, (i < length names)%nat → is_Some (placed s !! i)) as Hstreams.
  { intros i Hi. rewrite Hplaced, list_lookup_fmap, lookup_seq_lt by done. done. }
  case_bool_decide as Hname.
  - destruct (tmp_name_counts g _ before n node Hcounts Hnode Hname) as [Htmp _].
    destruct (tmp_name _ _) as [tmp counter]. simpl in Htmp. subst tmp.
    rewrite bool_decide_true by by apply Hdom. simpl.
    destruct (Hstreams (default 0%nat (node_stream_map s !!
                partition_name g before node))) as [stream ->];
      [by rewrite Hmap|].
    rewrite bind_unchecked_Some. by eexists.
  - unfold partition_name in Hrange. rewrite bool_decide_false in Hrange by done.
    destruct (Hstreams (default 0%nat (node_stream_map s !! Node_Name node)))
      as [stream ->]; [by rewrite Hmap|].
    rewrite bind_unchecked_Some. eexists. split; [done|]. simpl.
    intros x Hx. destruct (decide (x = Node_Name node)) as [->|Hne].
    + by rewrite lookup_insert_eq.
    + rewrite lookup_insert_ne by done. by apply Hdom.
Qed.

Lemma named_middle g before n after node :
  (named g (before ++ n :: after)).*1 = before ++ n :: after →
  GetNode g n = Some node →
  (named g before).*1 = before ∧
  (n, partition_name g before node) ∈ named g (before ++ n :: after).
Proof.
  intros Hall Hnode.
  assert (∀ l1 l2 pre, (named_from g pre (l1 ++ l2)).*1 = l1 ++ l2 →
            (named_from g pre l1).*1 = l1) as Hprefix.
  { induction l1 as [|x l1 IH]; intros l2 pre Hl; simpl in *; [done|].
    destruct (GetNode g x); [|done]. simpl in *.
    injection Hl as Hl. f_equal. by eapply IH. }
  pose proof (Hprefix before (n :: after) [] Hall) as Hbefore.
  split; [done|]. unfold named in *.
  rewrite named_from_app by done. simpl. rewrite Hnode.
  apply elem_of_app. right. by left.
Qed.

Lemma named_all g l :
  Forall (λ n, is_Some (GetNode g n)) l → (named g l).*1 = l.
Proof.
  unfold named. generalize (@nil NodeIndex). intros pre Hl. revert pre.
  induction Hl as [|n l [node Hnode] _ IH]; intros pre; simpl; [done|].
  rewrite Hnode. simpl. by rewrite IH.
Qed.

(** The loop that fills the streams returns when every name is listed. *)
Lemma place_nodes_total g names :
  Forall (λ n, is_Some (GetNode g n)) (GetNodesInTopologicalOrder g) →
  (∀ x, x ∈ named g (GetNodesInTopologicalOrder g) →
        ∃ j stream, names !! j = Some stream ∧ x.2 ∈ stream) →
  ∃ s, foldR (place_node g) (GetNodesInTopologicalOrder g)
         (mkPlacement (replicate (length names) []) ∅ (name_stream_map names)) = Ok s.
Proof.
  intros Hnodes Hlisted.
  pose (P := λ (s : Placement) (before : list NodeIndex),
          ((named g before).*1 = before ∧
           counter_counts g (placement_counter s) before ∧
           (∀ x, default 0%nat (node_stream_map s !! x) = listed_stream names x) ∧
           placed s = nodes_on names (named g before) <$> seq 0 (length names)) ∧
          ∀ x, is_Some (name_stream_map names !! x) → is_Some (node_stream_map s !! x)).
  destruct (foldR_whole_total P (place_node g) (GetNodesInTopologicalOrder g))
    with (s := mkPlacement (replicate (length names) []) ∅ (name_stream_map names))
    as (s & Hs & _); [| |by exists s].
  - intros s before n after Horder [HJ Hdom].
    assert (is_Some (GetNode g n)) as [node Hnode].
    { eapply Forall_forall in Hnodes; [done|]. rewrite Horder.
      apply elem_of_app. right. by left. }
    pose proof (named_all g _ Hnodes) as Hall. rewrite Horder in Hall.
    destruct (named_middle g before n after node Hall Hnode) as [_ Hin].
    rewrite <- Horder in Hin.
    destruct (Hlisted _ Hin) as (j & stream & Hj & Hstream).
    destruct (listed_in_range names _ j stream Hj Hstream) as [Hsome Hrange].
    destruct (place_node_total g names s before n node HJ Hdom Hnode Hsome Hrange)
      as (s' & Hs' & Hdom').
    exists s'. split; [done|]. split; [|done].
    by eapply (place_node_listed g names s before n s').
  - unfold P. simpl. split_and!; [done|apply counter_counts_empty|
                                   apply name_stream_map_listed| |done].
    apply list_eq. intros j. rewrite list_lookup_fmap.
    destruct (decide (j < length names)%nat).
    + by rewrite lookup_replicate_2, lookup_seq_lt by done.
    + rewrite lookup_seq_ge by lia. simpl. apply lookup_replicate_None. lia.
Qed.

Lemma elem_of_provider_names g pairs provider name :
  name ∈ provider_names g pairs provider
  ↔ ∃ n, (n, name) ∈ pairs ∧ on_provider g provider n.
Proof.
  unfold provider_names. rewrite list_elem_of_fmap. split.
  - intros ([n name'] & -> & [Hp Hin]%list_elem_of_filter). by exists n.
  - intros (n & Hin & Hp). exists (n, name). split; [done|].
    by apply list_elem_of_filter.
Qed.

Lemma filter_fst_fmap {A B} (P : A → Prop) `{∀ x, Decision (P x)} (l : list (A * B)) :
  (filter (λ x, P x.1) l).*1 = filter P l.*1.
Proof.
  induction l as [|x l IH]; [done|].
  rewrite fmap_cons, !filter_cons.
  destruct (decide (P x.1)); [rewrite fmap_cons|]; by rewrite IH.
Qed.

Lemma filter_seq_singleton (P : nat → Prop) `{∀ x, Decision (P x)} (len j : nat) :
  (j < len)%nat → (∀ i, (i < len)%nat → P i ↔ i = j) →
  filter P (seq 0 len) = [j].
Proof.
  intros Hj HP.
  replace len with (j + S (len - S j))%nat by lia.
  rewrite seq_app, filter_app. simpl.
  rewrite filter_cons_True by exact (proj2 (HP j Hj) eq_refl).
  rewrite (filter_ext_elem P (λ _, False) (seq 0 j)),
    (filter_ext_elem P (λ _, False) (seq (S j) _)).
  - assert (∀ l : list nat, filter (λ _, False) l = []) as Hnil.
    { induction l as [|x l IH]; [done|]. rewrite filter_cons_False; [done|tauto]. }
    by rewrite !Hnil.
  - intros i [? ?]%elem_of_seq. rewrite HP by lia. lia.
  - intros i [? ?]%elem_of_seq. rewrite HP by lia. lia.
Qed.

Lemma named_exists g l n name :
  (n, name) ∈ named g l → n ∈ l ∧ is_Some (GetNode g n).
Proof.
  unfold named. generalize (@nil NodeIndex). intros pre. revert pre.
  induction l as [|x l IH]; intros pre; simpl; [by intros ?%elem_of_nil|].
  destruct (GetNode g x) as [node|] eqn:Hnode; [|by intros ?%elem_of_nil].
  intros [[= -> ->]|Hin]%elem_of_cons.
  - split; [by left|by rewrite Hnode].
  - destruct (IH _ Hin). split; [by right|done].
Qed.

(** The stream of a name when no two nodes share a name: the stream of
    the provider of its node. *)
Lemma listed_stream_provider g pairs providers n name node j :
  NoDup pairs.*2 → NoDup providers →
  (n, name) ∈ pairs → GetNode g n = Some node →
  providers !! j = Some (GetExecutionProviderType node) →
  listed_stream (provider_names g pairs <$> providers) name = j.
Proof.
  intros Hnames Hproviders Hin Hnode Hj. unfold listed_stream.
  rewrite length_fmap.
  rewrite (filter_seq_singleton _ _ j); [done|by eapply lookup_lt_Some|].
  intros i Hi. rewrite list_lookup_fmap.
  destruct (providers !! i) as [e|] eqn:He; [|by apply lookup_ge_None in He; lia].
  simpl. rewrite elem_of_provider_names. split.
  - intros (n' & Hin' & Hon).
    assert (n' = n) as ->.
    { pose proof (NoDup_fmap_2_strong snd pairs) as _.
      apply list_elem_of_lookup_1 in Hin as [a Ha].
      apply list_elem_of_lookup_1 in Hin' as [b Hb].
      assert (a = b) as ->.
      { eapply NoDup_lookup; [exact Hnames|..].
        - by rewrite list_lookup_fmap, Ha.
        - by rewrite list_lookup_fmap, Hb. }
      rewrite Ha in Hb. by injection Hb. }
    apply (on_provider_node g e n node Hnode) in Hon. subst e.
    by eapply NoDup_lookup.
  - intros ->. exists n. split; [done|].
    apply (on_provider_node g e n node Hnode). congruence.
Qed.

Lemma PartitionNodes_scratch p g sn :
  IsOK (status_ p) = true →
  max_streams_ p = ∅ → node_names_by_stream_ p = [] →
  PartitionNodes p g sn
  = (s ← foldR (partition_by_provider g) (GetNodesInTopologicalOrder g)
           (mkScratchPartition ∅ [] ∅ ∅);
     let p := mkDummyPartitioner (status_ p) (num_streams_ p) (scratch_max_streams s)
                (scratch_names s) (need_dump_ p) in
     s ← foldR (place_node g) (GetNodesInTopologicalOrder g)
           (mkPlacement (replicate (length (node_names_by_stream_ p)) []) ∅
              (name_stream_map (node_names_by_stream_ p)));
     mret (p, placed s)).
Proof.
  intros Hok Hmax Hnames. unfold PartitionNodes.
  rewrite Hok, Hmax, Hnames. cbn [negb].
  rewrite !bool_decide_true by done. cbn [andb].
  by destruct (foldR (partition_by_provider g) _ _).
Qed.

Lemma scratch_names_listed g s x :
  partitioned_by_provider g s (GetNodesInTopologicalOrder g) →
  x ∈ named g (GetNodesInTopologicalOrder g) →
  ∃ j stream, scratch_names s !! j = Some stream ∧ x.2 ∈ stream.
Proof.
  intros (Hall & _ & _ & Hseen & _ & _ & _ & Hnames) Hin. destruct x as [n name].
  destruct (named_exists g _ n name Hin) as [Hn [node Hnode]].
  destruct (list_elem_of_lookup_1 _ _ (Hseen n node Hn Hnode)) as [j Hj].
  exists j, (provider_names g (named g (GetNodesInTopologicalOrder g))
               (GetExecutionProviderType node)).
  split; [by rewrite Hnames, list_lookup_fmap, Hj|].
  apply elem_of_provider_names. exists n. split; [done|].
  by apply (on_provider_node g _ n node).
Qed.

(** X3. Without a configuration, [PartitionNodes] gives every execution
    provider one stream: when all nodes of the order exist and no two of
    them have the same name (generated names included), it returns, the
    streams follow the order in which the nodes first name the
    providers, stream [i] holds exactly the nodes of provider [i] in
    topological order, the partitioner lists their names, and every
    provider gets the stream count 1. *)
Theorem default_partition_by_provider p g sn :
  IsOK (status_ p) = true →
  max_streams_ p = ∅ → node_names_by_stream_ p = [] →
  Forall (λ n, is_Some (GetNode g n)) (GetNodesInTopologicalOrder g) →
  NoDup (named g (GetNodesInTopologicalOrder g)).*2 →
  let providers := providers_in_order g (GetNodesInTopologicalOrder g) in
  ∃ p',
    PartitionNodes p g sn
    = Ok (p', (λ provider, filter (on_provider g provider) (GetNodesInTopologicalOrder g))
              <$> providers) ∧
    node_names_by_stream_ p'
    = provider_names g (named g (GetNodesInTopologicalOrder g)) <$> providers ∧
    ∀ provider, max_streams_ p' !! provider
                = if bool_decide (provider ∈ providers) then Some 1 else None.
Proof.
  intros Hok Hmax Hnames Hnodes Hnodup providers. subst providers.
  set (providers := providers_in_order g (GetNodesInTopologicalOrder g)).
  destruct (partition_from_scratch g Hnodes) as (s & Hs & Hinv).
  destruct (place_nodes_total g (scratch_names s) Hnodes) as [s2 Hs2].
  { intros x Hx. by eapply scratch_names_listed. }
  assert (PartitionNodes p g sn
          = Ok (mkDummyPartitioner (status_ p) (num_streams_ p) (scratch_max_streams s)
                  (scratch_names s) (need_dump_ p), placed s2)) as Hrun.
  { rewrite PartitionNodes_scratch, Hs by done. simpl. by rewrite Hs2. }
  destruct (PartitionNodes_listed _ _ _ _ _ Hok Hrun) as [Hall Hplaced].
  destruct Hinv as (_ & _ & Hnd & Hseen & _ & _ & Hmax' & Hnames').
  simpl in Hplaced.
  exists (mkDummyPartitioner (status_ p) (num_streams_ p) (scratch_max_streams s)
            (scratch_names s) (need_dump_ p)).
  split_and!; [|exact Hnames'|exact Hmax'].
  rewrite Hrun, Hplaced. do 2 f_equal.
  rewrite Hnames', length_fmap. fold providers in Hseen, Hnd |- *.
  apply list_eq. intros j. rewrite !list_lookup_fmap.
  destruct (providers !! j) as [e|] eqn:Hj.
  - rewrite lookup_seq_lt by by eapply lookup_lt_Some. simpl. f_equal.
    unfold nodes_on. rewrite <- Hall at 2. rewrite <- filter_fst_fmap. f_equal.
    apply filter_ext_elem. intros [n name] Hin. simpl.
    destruct (named_exists g _ n name Hin) as [Hn [node Hnode]].
    destruct (list_elem_of_lookup_1 _ _ (Hseen n node Hn Hnode)) as [j' Hj'].
    rewrite (listed_stream_provider g _ providers n name node j') by done.
    rewrite (on_provider_node g e n node Hnode). split.
    + intros ->. rewrite Hj in Hj'. by injection Hj'.
    + intros <-. by eapply NoDup_lookup.
  - rewrite lookup_seq_ge; [done|]. by apply lookup_ge_None.
Qed.

(** ** The partition of one run is the configuration of the next *)

Lemma providers_in_order_elem g l provider :
  provider ∈ providers_in_order g l →
  ∃ n node, n ∈ l ∧ GetNode g n = Some node ∧ GetExecutionProviderType node = provider.
Proof.
  induction l as [|x l IH] using rev_ind; [by intros ?%elem_of_nil|].
  unfold providers_in_order in *. rewrite foldl_app. simpl.
  assert (provider ∈ foldl
            (λ seen node_index,
               match GetNode g node_index with
               | Some node =>
                   if bool_decide (GetExecutionProviderType node ∈ seen) then seen
                   else seen ++ [GetExecutionProviderType node]
               | None => seen
               end) [] l →
          ∃ n node, n ∈ l ++ [x] ∧ GetNode g n = Some node ∧
                    GetExecutionProviderType node = provider) as Hold.
  { intros (n & node & Hn & Hrest)%IH. exists n, node. split; [|done].
    apply elem_of_app. by left. }
  destruct (GetNode g x) as [node|] eqn:Hnode; [|done].
  case_bool_decide; [done|].
  intros [?|Heq%list_elem_of_singleton]%elem_of_app; [by apply Hold|].
  subst provider. exists x, node. split_and!; [|done..]. apply elem_of_app. right. by left.
Qed.

Lemma providers_in_order_length g l :
  (length (providers_in_order g l) ≤ length l)%nat.
Proof.
  induction l as [|x l IH] using rev_ind; [done|].
  unfold providers_in_order in *. rewrite foldl_app, length_app. simpl.
  destruct (GetNode g x) as [node|]; [|lia].
  case_bool_decide; [lia|]. rewrite length_app. simpl. lia.
Qed.

Lemma named_partition_name g l n name :
  (n, name) ∈ named g l →
  ∃ before node, GetNode g n = Some node ∧ name = partition_name g before node.
Proof.
  unfold named. generalize (@nil NodeIndex). intros pre. revert pre.
  induction l as [|x l IH]; intros pre; simpl; [by intros ?%elem_of_nil|].
  destruct (GetNode g x) as [node|] eqn:Hnode; [|by intros ?%elem_of_nil].
  intros [[= -> ->]|Hin]%elem_of_cons; [by exists pre, node|].
  by eapply IH.
Qed.

Lemma append_nonempty a b : b ≠ EmptyString → a +:+ b ≠ EmptyString.
Proof. intros Hb. by destruct a, b. Qed.

Lemma partition_name_writable g before n node :
  writable_graph g → GetNode g n = Some node →
  writable_name (partition_name g before node) ∧
  partition_name g before node ≠ EmptyString.
Proof.
  intros Hg Hnode. destruct (Hg n node Hnode) as ([Hn1 Hn2] & [Ho1 Ho2] & _).
  unfold partition_name, writable_name. case_bool_decide as Hname; [|done].
  rewrite !occurs_in_app, Ho1, Ho2, !to_string_plain by done.
  split; [done|]. apply append_nonempty, to_string_nonempty.
Qed.

Lemma total_streams_ones (m : gmap string Z) (providers : list string) :
  NoDup providers →
  (∀ provider, m !! provider = if bool_decide (provider ∈ providers) then Some 1 else None) →
  total_streams m = Z.of_nat (length providers).
Proof.
  intros Hnodup Hm.
  assert (m = gset_to_gmap 1 (list_to_set providers)) as ->.
  { apply map_eq. intros provider. rewrite Hm, lookup_gset_to_gmap.
    case_bool_decide as Hin.
    - by rewrite option_guard_True by by apply elem_of_list_to_set.
    - rewrite option_guard_False; [done|]. by rewrite elem_of_list_to_set. }
  unfold total_streams.
  assert (∀ l : list (string * Z), Forall (λ kv, kv.2 = 1) l →
            sumZ snd l = Z.of_nat (length l)) as Hones.
  { induction 1 as [|kv l Hkv _ IH]; [done|].
    unfold sumZ in *. simpl. rewrite IH, Hkv. lia. }
  rewrite Hones.
  - rewrite length_map_to_list, <- size_dom, dom_gset_to_gmap.
    by rewrite size_list_to_set.
  - apply Forall_forall. intros [k v] [_ ?]%elem_of_map_to_list%lookup_gset_to_gmap_Some.
    by subst.
Qed.

(** What the partition from scratch leaves can be written and read. *)
Lemma scratch_partition_writable g s :
  writable_graph g →
  GetNodesInTopologicalOrder g ≠ [] →
  Z.of_nat (length (GetNodesInTopologicalOrder g)) < 2 ^ 64 →
  partitioned_by_provider g s (GetNodesInTopologicalOrder g) →
  scratch_max_streams s ≠ ∅ ∧
  (∀ name count, scratch_max_streams s !! name = Some count → writable_provider name) ∧
  Forall writable_names (scratch_names s) ∧
  Z.of_nat (length (scratch_names s)) = total_streams (scratch_max_streams s) `mod` 2 ^ 64.
Proof.
  intros Hg Hne Hsize (Hall & _ & Hnodup & Hseen & _ & _ & Hmax & Hnames).
  set (order := GetNodesInTopologicalOrder g) in *.
  set (providers := providers_in_order g order) in *.
  assert (∀ n, n ∈ order → ∃ node, GetNode g n = Some node) as Hnode.
  { intros n Hn. rewrite <- Hall in Hn.
    apply list_elem_of_fmap in Hn as ([n' name] & -> & Hin).
    by destruct (named_exists g _ _ _ Hin) as [_ [node ?]]; exists node. }
  split_and!.
  - destruct order as [|n order'] eqn:Horder; [done|].
    destruct (Hnode n) as [node Hn]; [by left|].
    intros Hempty. pose proof (Hmax (GetExecutionProviderType node)) as Hlookup.
    rewrite Hempty, lookup_empty, bool_decide_true in Hlookup; [done|].
    eapply Hseen; [|done]. by left.
  - intros name count Hlookup. rewrite Hmax in Hlookup.
    case_bool_decide as Hin; [|done].
    apply providers_in_order_elem in Hin as (n & node & _ & Hn & <-).
    by apply (Hg n node).
  - rewrite Hnames. apply Forall_fmap, Forall_forall. intros e He.
    assert (∀ name, name ∈ provider_names g (named g order) e →
              writable_name name ∧ name ≠ EmptyString) as Hwritable.
    { intros name (n & Hin & _)%elem_of_provider_names.
      apply named_partition_name in Hin as (before & node & Hn & ->).
      by eapply partition_name_writable. }
    split.
    + destruct (last (provider_names g (named g order) e)) as [back|] eqn:Hlast.
      * exists back. split; [done|]. apply Hwritable.
        apply last_Some in Hlast as [init ->]. apply elem_of_app. right. by left.
      * exfalso. apply last_None in Hlast.
        apply providers_in_order_elem in He as (n & node & Hn & Hnode' & <-).
        rewrite <- Hall in Hn.
        apply list_elem_of_fmap in Hn as ([n' name] & -> & Hin).
        assert (name ∈ provider_names g (named g order) (GetExecutionProviderType node))
          as Hname.
        { apply elem_of_provider_names. exists n'. split; [done|].
          by apply (on_provider_node g _ n' node). }
        rewrite Hlast in Hname. by apply elem_of_nil in Hname.
    + intros name Hname. by apply Hwritable.
  - rewrite Hnames, length_fmap.
    rewrite (total_streams_ones _ providers) by done.
    pose proof (providers_in_order_length g order). fold providers in H.
    rewrite Z.mod_small; lia.
Qed.

Lemma Ok_inj {A} (x y : A) : Ok x = Ok y → x = y.
Proof. by intros [= ->]. Qed.

Lemma PartitionNodes_configured p g sn :
  IsOK (status_ p) = true →
  max_streams_ p ≠ ∅ ∨ node_names_by_stream_ p ≠ [] →
  PartitionNodes p g sn
  = (s ← foldR (place_node g) (GetNodesInTopologicalOrder g)
           (mkPlacement (replicate (length (node_names_by_stream_ p)) []) ∅
              (name_stream_map (node_names_by_stream_ p)));
     mret (p, placed s)).
Proof.
  intros Hok Hconfigured. unfold PartitionNodes. rewrite Hok.
  destruct Hconfigured.
  - by rewrite (bool_decide_false (max_streams_ p = ∅)).
  - by rewrite (bool_decide_false (node_names_by_stream_ p = [])), andb_false_r.
Qed.

Lemma named_all_exist g l :
  (named g l).*1 = l → Forall (λ n, is_Some (GetNode g n)) l.
Proof.
  intros Hall. apply Forall_forall. intros n Hn. rewrite <- Hall in Hn.
  apply list_elem_of_fmap in Hn as ([n' name] & -> & Hin).
  by destruct (named_exists g _ _ _ Hin).
Qed.

Lemma first_run_partitioner cfg :
  cfg ≠ EmptyString →
  CreateNodePartitioner cfg None true
  = Ok (mkDummyPartitioner StatusOK 0 ∅ [] true, Some [DummyPartitioner_name]).
Proof.
  intros Hcfg. unfold CreateNodePartitioner, Initialize.
  by rewrite !bool_decide_false by done.
Qed.

(** X4. The partition of one run is the configuration of the next.  When
    the configuration file does not exist, [PartitionIntoStreams]
    partitions from scratch and leaves the partition in the file; a
    second run that reads this file returns the same [stream_nodes_],
    [node_stream_map_] and number of streams and leaves the file as it
    is.  This needs a graph with at least one node whose names can be
    written: no comma or line break in a node name or operator type, no
    colon or line break in a provider type. *)
Theorem partition_reproduced_from_dump cfg g sn sn' is_open result file :
  cfg ≠ EmptyString →
  GetNodesInTopologicalOrder g ≠ [] →
  Z.of_nat (length (GetNodesInTopologicalOrder g)) < 2 ^ 64 →
  writable_graph g →
  PartitionIntoStreams cfg None true g sn = Ok (result, file) →
  PartitionIntoStreams cfg file is_open g sn' = Ok (result, file).
Proof.
  intros Hcfg Hne Hsize Hg Hrun. unfold PartitionIntoStreams in Hrun.
  rewrite first_run_partitioner in Hrun by done. simpl in Hrun.
  apply bind_Ok in Hrun as ([p1 sn1] & Hpartition & Hrun).
  apply bind_Ok in Hrun as (nsm & Hassign & Hrun).
  pose proof Hpartition as Hlisted.
  apply PartitionNodes_listed in Hlisted as [Hall _]; [|done].
  rewrite PartitionNodes_scratch in Hpartition by done.
  destruct (partition_from_scratch g (named_all_exist g _ Hall)) as (s & Hs & Hinv).
  rewrite Hs in Hpartition. simpl in Hpartition.
  apply bind_Ok in Hpartition as (s2 & Hs2 & [= <- <-]).
  destruct (scratch_partition_writable g s Hg Hne Hsize Hinv)
    as (Hmax & Hproviders & Hnames & Hcount).
  set (p1 := mkDummyPartitioner StatusOK 0 (scratch_max_streams s) (scratch_names s) true)
    in *.
  pose proof (DumpPartition_lines cfg p1 Hcfg (writable_names_nonempty _ Hnames)) as Hdump.
  pose proof (Split_unlines _ (dumped_lines_one_line p1 Hproviders Hnames)) as Hlines.
  pose proof (Initialize_dumped_lines cfg p1 Hcfg Hmax Hproviders Hnames Hcount) as Hread.
  simpl in Hrun. rewrite Hdump, !bind_Ok_l, Hlines in Hrun.
  injection Hrun as <- <-.
  unfold PartitionIntoStreams, CreateNodePartitioner.
  rewrite bool_decide_false by done. cbn [negb].
  change (head (dumped_lines p1)) with (Some DummyPartitioner_name). simpl.
  rewrite Hread. simpl.
  rewrite PartitionNodes_configured by (done || by left). simpl.
  rewrite Hs2. simpl. rewrite Hassign. done.
Qed.

(** X5. A graph without nodes breaks the round trip.  The first run on a
    missing configuration file returns no stream and writes a file that
    lists zero providers; [Initialize] rejects this file, so the next run
    fails the [ORT_ENFORCE] on the status of the partitioner. *)
Theorem empty_partition_dump_rejected cfg g sn sn' is_open :
  cfg ≠ EmptyString →
  GetNodesInTopologicalOrder g = [] →
  let file := Some ["DummyPartition"; "ExecutionProviders:0"] in
  PartitionIntoStreams cfg None true g sn
  = Ok (([], replicate (N.to_nat (MaxNodeIndex g) + 1) 0%N, 0%nat), file) ∧
  PartitionIntoStreams cfg file is_open g sn' = Throw EnforceFailed.
Proof.
  intros Hcfg Horder file. split.
  - unfold PartitionIntoStreams.
    rewrite first_run_partitioner by done. simpl.
    rewrite PartitionNodes_scratch, Horder by done. simpl.
    unfold DumpPartition. rewrite bool_decide_false by done. reflexivity.
  - unfold PartitionIntoStreams, CreateNodePartitioner, Initialize.
    rewrite !bool_decide_false by done. reflexivity.
Qed.

(** X6. With a configuration, [PartitionNodes] leaves the partitioner as
    it is and follows the lines of names: every node of the order is put
    on the last stream whose line lists its name (for a node without a
    name, the name generated from its operator type), and on stream 0
    when no line lists it; the nodes of a stream keep the topological
    order. *)
Theorem PartitionNodes_follows_configuration p g sn p' sn' :
  IsOK (status_ p) = true →
  max_streams_ p ≠ ∅ ∨ node_names_by_stream_ p ≠ [] →
  PartitionNodes p g sn = Ok (p', sn') →
  p' = p ∧
  (named g (GetNodesInTopologicalOrder g)).*1 = GetNodesInTopologicalOrder g ∧
  sn' = nodes_on (node_names_by_stream_ p) (named g (GetNodesInTopologicalOrder g))
          <$> seq 0 (length (node_names_by_stream_ p)).
Proof.
  intros Hok Hconfigured Hrun.
  assert (p' = p) as ->.
  { rewrite PartitionNodes_configured in Hrun by done.
    by apply bind_Ok in Hrun as (s & _ & [= <- _]). }
  split; [done|]. by eapply PartitionNodes_listed.
Qed.

(** X7. What [PartitionIntoStreams] hands to the rest of the planner:
    when the topological order lists no node twice and the function
    returns, [num_logic_streams_] is the number of streams, the streams
    together are a permutation of the order, and [node_stream_map_] maps
    every node of stream [i] to [i]. *)
Theorem PartitionIntoStreams_valid E cfg file is_open sn file' :
  NoDup (GetNodesInTopologicalOrder (graph_viewer_ E)) →
  PartitionIntoStreams cfg file is_open (graph_viewer_ E) sn
  = Ok (stream_nodes_ E, node_stream_map_ E, length (stream_nodes_ E), file') →
  concat (stream_nodes_ E) ≡ₚ GetNodesInTopologicalOrder (graph_viewer_ E) ∧
  valid_partition E.
Proof.
  intros Hnodup Hrun. unfold PartitionIntoStreams in Hrun.
  apply bind_Ok in Hrun as ([p file0] & _ & Hrun).
  apply bind_Ok in Hrun as (? & Hok & Hrun).
  assert (IsOK (status_ p) = true) as Hstatus.
  { unfold ORT_ENFORCE in Hok. by destruct (IsOK (status_ p)). }
  apply bind_Ok in Hrun as ([p1 sn1] & Hpartition & Hrun).
  apply bind_Ok in Hrun as (nsm & Hassign & Hrun).
  apply bind_Ok in Hrun as (file1 & _ & [= Hsn Hnsm _ _]).
  apply PartitionNodes_Ok in Hpartition as (s & Hplace & Hplaced & _); [|done].
  apply place_nodes_permutation in Hplace as (_ & Hperm & _).
  rewrite <- Hplaced, Hsn in Hperm. rewrite Hsn, Hnsm in Hassign.
  split; [done|].
  intros i stream n Hi Hn. split.
  - apply (assign_node_streams_Ok (stream_nodes_ E) (MaxNodeIndex (graph_viewer_ E))
             (node_stream_map_ E)) with (stream := stream); try done.
    by rewrite Hperm.
  - rewrite <- Hperm. apply elem_of_concat. exists stream.
    split; [done|]. by eapply list_elem_of_lookup_2.
Qed.

(** ** Witnesses on the scenario [Partitioned] *)

Example Partitioned_first_run :
  PartitionIntoStreams Partitioned.config_file None true Partitioned.graph []
  = Ok (Partitioned.stream_nodes, [0%N; 1%N; 0%N], 2%nat, Some Partitioned.written).
Proof. vm_compute. reflexivity. Qed.

Example Partitioned_configured :
  PartitionNodes Partitioned.configured Partitioned.graph []
  = Ok (Partitioned.configured, [[0%N]; [1%N; 2%N]]).
Proof. vm_compute. reflexivity. Qed.

Lemma Partitioned_nodes n node :
  GetNode Partitioned.graph n = Some node →
  node = Partitioned.node_conv ∨ node = Partitioned.node_relu ∨
  node = Partitioned.node_gemm.
Proof.
  intros Hnode.
  apply (elem_of_list_to_map_2 (M := gmap NodeIndex) Partitioned.nodes) in Hnode.
  unfold Partitioned.nodes in Hnode.
  rewrite !elem_of_cons in Hnode.
  destruct Hnode as [[= _ ->]|[[= _ ->]|[[= _ ->]|Hnil]]]; [tauto..|].
  by apply elem_of_nil in Hnil.
Qed.

Lemma Partitioned_writable : writable_graph Partitioned.graph.
Proof.
  intros n node Hnode.
  destruct (Partitioned_nodes n node Hnode) as [Heq|[Heq|Heq]]; subst node;
    vm_compute; tauto.
Qed.

Lemma Partitioned_providers name count :
  max_streams_ Partitioned.partitioner !! name = Some count → writable_provider name.
Proof.
  unfold Partitioned.partitioner. simpl.
  rewrite !lookup_insert_Some, lookup_empty.
  intros [[<- _]|[_ [[<- _]|[_ ?]]]]; [by vm_compute..|done].
Qed.

Lemma dumped_partition_reads_back_witness :
  ∃ content,
    DumpPartition Partitioned.config_file true Partitioned.partitioner = Ok (Some content) ∧
    Initialize Partitioned.config_file (Some (lines_of content))
    = mkDummyPartitioner StatusOK (total_streams (max_streams_ Partitioned.partitioner))
        (max_streams_ Partitioned.partitioner)
        (node_names_by_stream_ Partitioned.partitioner) false.
Proof.
  apply (dumped_partition_reads_back Partitioned.config_file Partitioned.partitioner).
  - done.
  - apply insert_non_empty.
  - apply Partitioned_providers.
  - repeat apply Forall_cons_2; [..|apply Forall_nil_2].
    + split; [by exists "gemm"|].
      intros name Hname. rewrite !elem_of_cons in Hname.
      destruct Hname as [Heq|[Heq|Hnil]];
        [subst name; by vm_compute..|by apply elem_of_nil in Hnil].
    + split; [by exists "Relu0"|].
      intros name Hname. rewrite !elem_of_cons in Hname.
      destruct Hname as [Heq|Hnil];
        [subst name; by vm_compute|by apply elem_of_nil in Hnil].
  - vm_compute. reflexivity.
Defined.

Lemma PartitionNodes_places_every_node_witness :
  length Partitioned.stream_nodes
  = length (node_names_by_stream_ Partitioned.partitioner) ∧
  concat Partitioned.stream_nodes ≡ₚ GetNodesInTopologicalOrder Partitioned.graph ∧
  ∀ stream, stream ∈ Partitioned.stream_nodes →
            stream `sublist_of` GetNodesInTopologicalOrder Partitioned.graph.
Proof.
  apply (PartitionNodes_places_every_node Partitioned.fresh Partitioned.graph []
           Partitioned.partitioner Partitioned.stream_nodes).
  - reflexivity.
  - vm_compute. reflexivity.
Defined.

Lemma default_partition_by_provider_witness :
  let providers :=
    providers_in_order Partitioned.graph (GetNodesInTopologicalOrder Partitioned.graph) in
  ∃ p',
    PartitionNodes Partitioned.fresh Partitioned.graph []
    = Ok (p', (λ provider, filter (on_provider Partitioned.graph provider)
                             (GetNodesInTopologicalOrder Partitioned.graph))
              <$> providers) ∧
    node_names_by_stream_ p'
    = provider_names Partitioned.graph
        (named Partitioned.graph (GetNodesInTopologicalOrder Partitioned.graph))
      <$> providers ∧
    ∀ provider, max_streams_ p' !! provider
                = if bool_decide (provider ∈ providers) then Some 1 else None.
Proof.
  apply (default_partition_by_provider Partitioned.fresh Partitioned.graph []).
  - reflexivity.
  - reflexivity.
  - reflexivity.
  - apply Forall_forall. intros n Hn. simpl in Hn. rewrite !elem_of_cons in Hn.
    destruct Hn as [Heq|[Heq|[Heq|Hnil]]];
      [subst n; eexists; vm_compute; reflexivity..|by apply elem_of_nil in Hnil].
  - apply (bool_decide_unpack _). vm_compute. exact I.
Defined.

Lemma partition_reproduced_from_dump_witness :
  PartitionIntoStreams Partitioned.config_file (Some Partitioned.written) false
    Partitioned.graph [[7%N]]
  = Ok (Partitioned.stream_nodes, [0%N; 1%N; 0%N], 2%nat, Some Partitioned.written).
Proof.
  apply (partition_reproduced_from_dump Partitioned.config_file Partitioned.graph []).
  - done.
  - done.
  - vm_compute. reflexivity.
  - apply Partitioned_writable.
  - vm_compute. reflexivity.
Defined.

Lemma empty_partition_dump_rejected_witness :
  let g := mkGraphViewer [] ∅ [] [] [] 0 in
  let file := Some ["DummyPartition"; "ExecutionProviders:0"] in
  PartitionIntoStreams Partitioned.config_file None true g []
  = Ok (([], replicate (N.to_nat (MaxNodeIndex g) + 1) 0%N, 0%nat), file) ∧
  PartitionIntoStreams Partitioned.config_file file true g [] = Throw EnforceFailed.
Proof.
  apply (empty_partition_dump_rejected Partitioned.config_file
           (mkGraphViewer [] ∅ [] [] [] 0) [] [] true).
  - done.
  - reflexivity.
Defined.

Lemma PartitionNodes_follows_configuration_witness :
  Partitioned.configured = Partitioned.configured ∧
  (named Partitioned.graph (GetNodesInTopologicalOrder Partitioned.graph)).*1
  = GetNodesInTopologicalOrder Partitioned.graph ∧
  [[0%N]; [1%N; 2%N]]
  = nodes_on (node_names_by_stream_ Partitioned.configured)
      (named Partitioned.graph (GetNodesInTopologicalOrder Partitioned.graph))
    <$> seq 0 (length (node_names_by_stream_ Partitioned.configured)).
Proof.
  apply (PartitionNodes_follows_configuration Partitioned.configured Partitioned.graph []).
  - reflexivity.
  - right. done.
  - vm_compute. reflexivity.
Defined.

Lemma PartitionIntoStreams_valid_witness :
  concat (stream_nodes_ Partitioned.env)
  ≡ₚ GetNodesInTopologicalOrder (graph_viewer_ Partitioned.env) ∧
  valid_partition Partitioned.env.
Proof.
  apply (PartitionIntoStreams_valid Partitioned.env Partitioned.config_file None true []
           (Some Partitioned.written)).
  - apply (bool_decide_unpack _). vm_compute. exact I.
  - vm_compute. reflexivity.
Defined.

(** ** [INodePartitioner::Split] *)

Lemma join_columns_cons sep column rest :
  rest ≠ [] →
  join_columns sep (column :: rest) = column +:+ String sep (join_columns sep rest).
Proof. by destruct rest. Qed.

Lemma Split_columns_spec sep line : ∀ column extracted,
  occurs_in sep column = false →
  let columns := Split_columns sep column extracted line in
  Forall (λ c, occurs_in sep c = false) columns ∧
  ((columns = [] ∧ line = EmptyString ∧ extracted = false) ∨
   (columns ≠ [] ∧
    (column +:+ line = join_columns sep columns ∨
     column +:+ line = join_columns sep columns +:+ String sep EmptyString))).
Proof.
  induction line as [|c line IH]; intros column extracted Hcolumn; simpl.
  - destruct extracted; simpl.
    + split; [by apply Forall_singleton|]. right. split; [done|]. left.
      by rewrite append_nil_r.
    + split; [done|]. by left.
  - case_bool_decide as Hc.
    + subst c. destruct (IH EmptyString false eq_refl) as [Hall Hcases].
      split; [by apply Forall_cons_2|]. right. split; [done|].
      destruct Hcases as [(Hnil & -> & _)|(Hne & Hjoin)].
      * rewrite Hnil. by right.
      * rewrite join_columns_cons by done. rewrite !append_nil_l in Hjoin.
        destruct Hjoin as [<-|Hjoin]; [by left|]. right.
        rewrite append_assoc, append_cons. by rewrite <- Hjoin.
    + destruct (IH (column +:+ String c EmptyString) true) as [Hall Hcases].
      { rewrite occurs_in_app, Hcolumn. simpl. by rewrite bool_decide_false. }
      split; [done|]. right.
      destruct Hcases as [(_ & _ & [=])|(Hne & Hjoin)].
      split; [done|]. by rewrite append_assoc in Hjoin.
Qed.

(** X8. [Split] loses nothing but one separator at the end of the line:
    no column holds the separator, and the columns joined by the separator
    are the line, or the line without its last character when that is a
    separator.  The empty line has no column. *)
Theorem Split_keeps_the_line line sep :
  Forall (λ c, occurs_in sep c = false) (Split line sep) ∧
  (line = join_columns sep (Split line sep) ∨
   line = join_columns sep (Split line sep) +:+ String sep EmptyString) ∧
  (Split line sep = [] ↔ line = EmptyString).
Proof.
  destruct (Split_columns_spec sep line EmptyString false eq_refl) as [Hall Hcases].
  fold (Split line sep) in Hall, Hcases. rewrite !append_nil_l in Hcases.
  split; [done|].
  destruct Hcases as [(Hnil & -> & _)|(Hne & Hjoin)].
  - rewrite Hnil. split; [by left|done].
  - split; [done|]. split; [done|]. intros ->. by destruct Hjoin.
Qed.

(** X9. [Split] undoes joining: names that do not hold the separator, the
    last of them not empty, are the columns of the line in which the
    separator follows every name but the last. *)
Theorem Split_of_joined sep init back :
  Forall (λ name, occurs_in sep name = false) init →
  occurs_in sep back = false → back ≠ EmptyString →
  Split (join_columns sep (init ++ [back])) sep = init ++ [back].
Proof.
  intros Hinit Hback Hne.
  rewrite <- (Split_joined sep init back Hinit Hback Hne) at 2. f_equal.
  clear. induction init as [|name init IH]; [done|].
  rewrite <- app_comm_cons, join_columns_cons by by destruct init.
  simpl. by rewrite IH, append_assoc.
Qed.

Lemma Split_of_joined_witness :
  Split (join_columns ","%char (["conv"; "gemm"] ++ ["relu"])) ","%char
  = ["conv"; "gemm"] ++ ["relu"].
Proof.
  apply (Split_of_joined ","%char ["conv"; "gemm"] "relu").
  - repeat apply Forall_cons_2; [..|apply Forall_nil_2]; reflexivity.
  - reflexivity.
  - done.
Defined.

(** ** The steps of the execution plan *)

Lemma push_step_all_steps i step st st' :
  push_step i step st = Ok st' → all_steps st' ≡ₚ all_steps st ++ [step].
Proof.
  unfold push_step. intros (stream & Hs%unchecked_Ok & [= <-])%bind_Ok.
  unfold all_steps. simpl. rewrite list_fmap_insert. simpl.
  apply concat_insert_snoc. by rewrite list_lookup_fmap, Hs.
Qed.

Lemma push_step_frame i step st st' :
  push_step i step st = Ok st' →
  dependence_graph_ st' = dependence_graph_ st ∧
  value_to_stream_map st' = value_to_stream_map st ∧
  value_node_map_ st' = value_node_map_ st.
Proof.
  unfold push_step. by intros (stream & _ & [= <-])%bind_Ok.
Qed.

Lemma barriers_inv_push i step st st' :
  barrier_of step = None →
  push_step i step st = Ok st' → barriers_inv st → barriers_inv st'.
Proof.
  intros Hstep Hpush (Hids & Hdown & Hbarrier).
  pose proof (push_step_all_steps _ _ _ _ Hpush) as Hall.
  pose proof (push_step_Ok _ _ _ _ Hpush) as (Hi & Hk & _ & _ & Hmap & Hnum).
  split_and!.
  - rewrite Hall, omap_app, Hnum. simpl. rewrite Hstep. simpl.
    by rewrite app_nil_r.
  - intros n k b Hin. unfold downstream_of in *. rewrite Hmap in Hin.
    destruct (Hdown n k b Hin) as [Hb [id Hid]]. split; [done|]. exists id.
    destruct (decide (k = i)) as [->|Hne].
    + rewrite Hi. by apply lookup_app_l_Some.
    + by rewrite Hk.
  - intros k b id Hid. unfold downstream_of in *. rewrite Hmap.
    destruct (decide (k = i)) as [->|Hne].
    + rewrite Hi in Hid. apply lookup_app_Some in Hid as [Hid|[_ Hid]].
      * by eapply Hbarrier.
      * apply list_lookup_singleton_Some in Hid as [_ Heq]. by subst step.
    + rewrite Hk in Hid by done. by eapply Hbarrier.
Qed.

Lemma barriers_inv_emit_wait E B m i stream node st it st' :
  emit_wait E B m i stream node st it = Ok st' → barriers_inv st → barriers_inv st'.
Proof.
  unfold emit_wait. destruct (in_stream stream it); simpl; [by intros [= <-]|].
  intros (n & Hn%checked_Ok & (current & Hcur%unchecked_Ok & Hrest)%bind_Ok)%bind_Ok.
  apply bind_Ok in Hrest as (st2 & Hpush & Hrest).
  intros (Hids & Hdown & Hbarrier).
  assert (barriers_inv st2) as Hinv2.
  { pose proof (push_step_all_steps _ _ _ _ Hpush) as Hall.
    pose proof (push_step_Ok _ _ _ _ Hpush) as (Hi & Hk & _ & _ & Hmap & Hnum).
    assert (steps_of st i = steps_ current) as Hsteps
      by (unfold steps_of; by rewrite Hcur).
    assert (∀ n' k b, (k, b) ∈ downstream_of st2 n' →
              (k, b) ∈ downstream_of st n' ∨
              (n' = n ∧ k = i ∧ b = Z.of_nat (length (steps_ current)))) as Hentries.
    { intros n' k b. unfold downstream_of. rewrite Hmap. simpl.
      destruct (decide (n' = n)) as [->|Hne].
      - rewrite lookup_insert_eq. simpl.
        intros [?|[= -> ->]%list_elem_of_singleton]%elem_of_app; [by left|by right].
      - rewrite lookup_insert_ne by done. by left. }
    change (all_steps (register_barrier i n (length (steps_ current)) st))
      with (all_steps st) in Hall.
    change (num_barriers (register_barrier i n (length (steps_ current)) st))
      with (S (num_barriers st)) in Hnum.
    split_and!.
    - by rewrite Hall, omap_app, Hnum, Hids, seq_S.
    - intros n' k b [Hin|(-> & -> & ->)]%Hentries.
      + destruct (Hdown n' k b Hin) as [Hb [id Hid]]. split; [done|]. exists id.
        destruct (decide (k = i)) as [->|Hne].
        * rewrite Hi. by apply lookup_app_l_Some.
        * by rewrite Hk.
      + split; [lia|]. exists (num_barriers st).
        rewrite Hi, Nat2Z.id. simpl. unfold steps_of at 1. simpl. rewrite Hcur. simpl.
        by rewrite list_lookup_middle.
    - intros k b id Hid.
      assert (∀ n', (k, Z.of_nat b) ∈ downstream_of st n' →
                (k, Z.of_nat b) ∈ downstream_of st2 n') as Hgrow.
      { intros n'. unfold downstream_of. rewrite Hmap. simpl.
        destruct (decide (n' = n)) as [->|Hne].
        - rewrite lookup_insert_eq. simpl. intros ?. apply elem_of_app. by left.
        - by rewrite lookup_insert_ne. }
      destruct (decide (k = i)) as [->|Hne].
      + rewrite Hi in Hid. apply lookup_app_Some in Hid as [Hid|[Hge Hid]].
        * destruct (Hbarrier i b id Hid) as [n' Hn']. exists n'. by apply Hgrow.
        * apply list_lookup_singleton_Some in Hid as [Hb _].
          exists n. unfold downstream_of. rewrite Hmap. simpl.
          rewrite lookup_insert_eq. simpl. apply elem_of_app. right.
          apply list_elem_of_singleton. f_equal.
          unfold steps_of in Hge, Hb. simpl in Hge, Hb. rewrite Hcur in Hge, Hb.
          simpl in *. f_equal. lia.
      + rewrite Hk in Hid by done.
        destruct (Hbarrier k b id Hid) as [n' Hn']. exists n'. by apply Hgrow. }
  apply bind_Ok in Hrest as (owner & _ & Hrest).
  apply bind_Ok in Hrest as (owner_stream & _ & Hrest).
  apply bind_Ok in Hrest as (owner_ep & _ & Hrest).
  destruct (GetWaitHandle B owner_ep (GetExecutionProviderType node)) as [handle|].
  - by apply (barriers_inv_push i (WaitOnEPStep handle n) st2 st').
  - by injection Hrest as <-.
Qed.

Lemma barriers_inv_same st st' :
  execution_plan st' = execution_plan st → num_barriers st' = num_barriers st →
  downstream_map st' = downstream_map st →
  barriers_inv st → barriers_inv st'.
Proof.
  intros Hplan Hnum Hmap. unfold barriers_inv, all_steps, steps_of, downstream_of.
  by rewrite Hplan, Hnum, Hmap.
Qed.

Lemma barriers_inv_add_dependences st node_index l :
  barriers_inv st →
  barriers_inv (foldl (λ st it, add_dependence it node_index st) st l).
Proof.
  revert st. induction l as [|x l IH]; intros st Hinv; simpl; [done|].
  apply IH. by apply (barriers_inv_same st).
Qed.

Lemma barriers_inv_emit_node E B m i stream st j c st' :
  emit_node E B m i stream st j c = Ok st' → barriers_inv st → barriers_inv st'.
Proof.
  unfold emit_node.
  intros (st0 & H0 & (node & _ & Hrest)%bind_Ok)%bind_Ok Hinv.
  apply bind_Ok in Hrest as (st1 & Hwaits & Hrest).
  apply bind_Ok in Hrest as (st2 & Hlaunch & Hrest).
  assert (barriers_inv st0) as Hinv0.
  { case_bool_decide.
    - apply bind_Ok in H0 as (previous & _ & [= <-]). by apply (barriers_inv_same st).
    - by injection H0 as <-. }
  assert (barriers_inv st1) as Hinv1.
  { revert Hinv0 Hwaits. apply foldR_inv. intros s x s' Hs Hx.
    by eapply barriers_inv_emit_wait. }
  assert (barriers_inv st2) as Hinv2.
  { eapply (barriers_inv_push i (LaunchKernelStep c)); [done..|].
    by apply barriers_inv_add_dependences. }
  destruct (m !! c) as [n|].
  - apply bind_Ok in Hrest as (st3 & Hactivate & Htrigger).
    eapply (barriers_inv_push i (TriggerDownstreamStep n)); [done..|].
    by eapply (barriers_inv_push i (ActivateNotificationStep n)).
  - by injection Hrest as <-.
Qed.

Lemma BuildExecutionPlan_Ok E B st :
  BuildExecutionPlan E B = Ok st →
  ∃ notifications plan owners st1,
    assign_notifications E = Ok notifications ∧
    foldR (λ plan stream, foldR (set_stream_provider E B) stream plan)
      (stream_nodes_ E) (replicate (length (stream_nodes_ E)) (mkLogicStream [] None))
    = Ok plan ∧
    foldR (set_notification_owner E notifications.1)
      (GetNodesInTopologicalOrder (graph_viewer_ E)) (replicate notifications.2 0%nat)
    = Ok owners ∧
    foldR_indexed
      (λ st i stream,
         foldR_indexed (emit_node E B notifications.1 i stream) 0 stream st)
      0 (stream_nodes_ E) (mkBuildState plan owners 0 ∅ ∅ ∅ ∅) = Ok st1 ∧
    foldR (λ st node_index,
             node ← unchecked (GetNode (graph_viewer_ E) node_index);
             foldR (record_value_node E node_index) (OutputDefs node) st)
      (GetNodesInTopologicalOrder (graph_viewer_ E)) st1 = Ok st.
Proof.
  unfold BuildExecutionPlan.
  intros (notifications & Hn & (plan & Hplan & Hrest)%bind_Ok)%bind_Ok.
  apply bind_Ok in Hrest as (owners & Howners & (st1 & Hst1 & Hst)%bind_Ok).
  by exists notifications, plan, owners, st1.
Qed.

Lemma set_stream_provider_steps E B plan x plan' :
  set_stream_provider E B plan x = Ok plan' →
  steps_ <$> plan' = steps_ <$> plan.
Proof.
  unfold set_stream_provider.
  intros (node & _ & (s & _ & (stream & Hs%unchecked_Ok & Hrest)%bind_Ok)%bind_Ok)%bind_Ok.
  destruct (ep_ stream).
  - by apply bind_Ok in Hrest as (? & _ & [= <-]).
  - injection Hrest as <-. rewrite list_fmap_insert. simpl.
    apply list_insert_id. by rewrite list_lookup_fmap, Hs.
Qed.

Lemma set_stream_providers_steps E B streams plan plan' :
  foldR (λ plan stream, foldR (set_stream_provider E B) stream plan) streams plan
  = Ok plan' →
  steps_ <$> plan' = steps_ <$> plan.
Proof.
  apply (foldR_preserves (λ p p', steps_ <$> p' = steps_ <$> p)); [done|congruence|].
  intros p stream p'.
  apply (foldR_preserves (λ p p', steps_ <$> p' = steps_ <$> p)); [done|congruence|].
  intros ???. apply set_stream_provider_steps.
Qed.

Lemma record_value_node_frame E node_index st node_output st' :
  record_value_node E node_index st node_output = Ok st' →
  execution_plan st' = execution_plan st ∧ num_barriers st' = num_barriers st ∧
  downstream_map st' = downstream_map st ∧
  dependence_graph_ st' = dependence_graph_ st ∧
  notification_owners st' = notification_owners st.
Proof.
  unfold record_value_node. destruct (Exists node_output); simpl.
  - by intros (idx & _ & (s & _ & [= <-])%bind_Ok)%bind_Ok.
  - by intros [= <-].
Qed.

Lemma record_value_nodes_frame E nodes st st' :
  foldR (λ st node_index,
           node ← unchecked (GetNode (graph_viewer_ E) node_index);
           foldR (record_value_node E node_index) (OutputDefs node) st)
        nodes st = Ok st' →
  execution_plan st' = execution_plan st ∧ num_barriers st' = num_barriers st ∧
  downstream_map st' = downstream_map st ∧
  dependence_graph_ st' = dependence_graph_ st ∧
  notification_owners st' = notification_owners st.
Proof.
  apply (foldR_preserves
           (λ s s', execution_plan s' = execution_plan s ∧
                    num_barriers s' = num_barriers s ∧
                    downstream_map s' = downstream_map s ∧
                    dependence_graph_ s' = dependence_graph_ s ∧
                    notification_owners s' = notification_owners s)).
  - done.
  - intros s1 s2 s3 (-> & -> & -> & -> & ->) (-> & -> & -> & -> & ->). done.
  - intros s x s' (node & _ & Hrun)%bind_Ok. revert Hrun.
    apply (foldR_preserves
           (λ s s', execution_plan s' = execution_plan s ∧
                    num_barriers s' = num_barriers s ∧
                    downstream_map s' = downstream_map s ∧
                    dependence_graph_ s' = dependence_graph_ s ∧
                    notification_owners s' = notification_owners s)).
    + done.
    + intros s1 s2 s3 (-> & -> & -> & -> & ->) (-> & -> & -> & -> & ->). done.
    + intros ???. apply record_value_node_frame.
Qed.

(** X10. The barriers of the execution plan.  When [BuildExecutionPlan]
    returns, the barrier steps of all streams carry exactly the numbers
    [0 .. num_barriers - 1], each once; every entry [(stream, step)] of
    the downstream map is the position of a barrier step, and every
    barrier step is listed in the downstream map under some
    notification. *)
Theorem barriers_numbered_and_listed E B st :
  BuildExecutionPlan E B = Ok st →
  omap barrier_of (all_steps st) ≡ₚ seq 0 (num_barriers st) ∧
  (∀ n i b, (i, b) ∈ downstream_of st n →
     0 ≤ b ∧ ∃ barrier_id, steps_of st i !! Z.to_nat b = Some (BarrierStep barrier_id)) ∧
  (∀ i b barrier_id, steps_of st i !! b = Some (BarrierStep barrier_id) →
     ∃ n, (i, Z.of_nat b) ∈ downstream_of st n).
Proof.
  intros (notifications & plan & owners & st1 & _ & Hplan & _ & Hemit & Hvalues)
    %BuildExecutionPlan_Ok.
  apply record_value_nodes_frame in Hvalues as (Hp & Hn & Hd & _).
  apply (barriers_inv_same st1); [done..|].
  revert Hemit. apply foldR_indexed_inv.
  - intros s i stream s' Hs. apply foldR_indexed_inv; [|done].
    intros s1 j c s2 Hs1 Hc. by eapply barriers_inv_emit_node.
  - apply set_stream_providers_steps in Hplan.
    assert (steps_ <$> plan = replicate (length (stream_nodes_ E)) []) as Hempty.
    { rewrite Hplan. by rewrite fmap_replicate. }
    split_and!.
    + unfold all_steps. simpl. by rewrite Hempty, concat_replicate_nil.
    + by intros n i b ?%elem_of_nil.
    + intros i b id. unfold steps_of. simpl. rewrite <- list_lookup_fmap, Hempty.
      intros Hlook. destruct (replicate _ _ !! i) as [l|] eqn:Hl; [|done].
      apply lookup_replicate in Hl as [-> _]. done.
Qed.

Lemma launches_push i step st st' :
  push_step i step st = Ok st' →
  launches st' i = launches st i ++ omap launch_of [step] ∧
  ∀ k, k ≠ i → launches st' k = launches st k.
Proof.
  intros (Hi & Hk & _)%push_step_Ok. unfold launches. split.
  - by rewrite Hi, omap_app.
  - intros k Hne. by rewrite Hk.
Qed.

Lemma launches_emit_wait E B m i stream node st it st' :
  emit_wait E B m i stream node st it = Ok st' →
  ∀ k, launches st' k = launches st k.
Proof.
  unfold emit_wait. destruct (in_stream stream it); simpl; [by intros [= <-]|].
  intros (n & _ & (current & _ & Hrest)%bind_Ok)%bind_Ok.
  apply bind_Ok in Hrest as (st2 & [Hi2 Hk2]%launches_push & Hrest).
  apply bind_Ok in Hrest as (owner & _ & Hrest).
  apply bind_Ok in Hrest as (owner_stream & _ & Hrest).
  apply bind_Ok in Hrest as (owner_ep & _ & Hrest).
  assert (∀ k, launches st2 k = launches st k) as H2.
  { intros k. destruct (decide (k = i)) as [->|Hne].
    - rewrite Hi2. simpl. by rewrite app_nil_r.
    - by rewrite Hk2. }
  destruct (GetWaitHandle B owner_ep (GetExecutionProviderType node)) as [handle|].
  - apply launches_push in Hrest as [Hi Hk]. intros k. rewrite <- H2.
    destruct (decide (k = i)) as [->|Hne].
    + rewrite Hi. simpl. by rewrite app_nil_r.
    + by rewrite Hk.
  - by injection Hrest as <-.
Qed.

Lemma launches_add_dependences st node_index l k :
  launches (foldl (λ st it, add_dependence it node_index st) st l) k = launches st k.
Proof.
  revert st. induction l as [|x l IH]; intros st; simpl; [done|]. by rewrite IH.
Qed.

Lemma launches_emit_node E B m i stream st j c st' :
  emit_node E B m i stream st j c = Ok st' →
  launches st' i = launches st i ++ [c] ∧
  ∀ k, k ≠ i → launches st' k = launches st k.
Proof.
  unfold emit_node.
  intros (st0 & H0 & (node & _ & Hrest)%bind_Ok)%bind_Ok.
  apply bind_Ok in Hrest as (st1 & Hwaits & Hrest).
  apply bind_Ok in Hrest as (st2 & [Hi2 Hk2]%launches_push & Hrest).
  assert (∀ k, launches st0 k = launches st k) as H0'.
  { case_bool_decide.
    - by apply bind_Ok in H0 as (previous & _ & [= <-]).
    - by injection H0 as <-. }
  assert (∀ k, launches st1 k = launches st k) as H1.
  { intros k. rewrite <- H0'. revert Hwaits.
    apply (foldR_preserves (λ s s', launches s' k = launches s k)); [done|congruence|].
    intros s x s' Hx. by eapply launches_emit_wait. }
  rewrite launches_add_dependences in Hi2.
  assert (launches st2 i = launches st i ++ [c] ∧
          ∀ k, k ≠ i → launches st2 k = launches st k) as [Hi Hk].
  { split; [by rewrite Hi2, H1|].
    intros k Hne. by rewrite Hk2, launches_add_dependences, H1. }
  destruct (m !! c) as [n|].
  - apply bind_Ok in Hrest as (st3 & [Hi3 Hk3]%launches_push & [Hi4 Hk4]%launches_push).
    split.
    + rewrite Hi4, Hi3, Hi. simpl. by rewrite !app_nil_r.
    + intros k Hne. by rewrite Hk4, Hk3, Hk.
  - by injection Hrest as <-.
Qed.

Lemma launches_emit_stream E B m i stream l : ∀ j st st',
  foldR_indexed (emit_node E B m i stream) j l st = Ok st' →
  launches st' i = launches st i ++ l ∧
  ∀ k, k ≠ i → launches st' k = launches st k.
Proof.
  induction l as [|c l IH]; intros j st st'; simpl.
  - intros [= <-]. by rewrite app_nil_r.
  - intros (st1 & [Hi1 Hk1]%launches_emit_node & [Hi Hk]%IH)%bind_Ok. split.
    + by rewrite Hi, Hi1, <- app_assoc.
    + intros k Hne. by rewrite Hk, Hk1.
Qed.

Lemma launches_emit_streams E B m streams : ∀ k st st',
  foldR_indexed
    (λ st i stream, foldR_indexed (emit_node E B m i stream) 0 stream st)
    k streams st = Ok st' →
  ∀ i, launches st' i
       = launches st i ++ if bool_decide (k ≤ i)%nat
                          then default [] (streams !! (i - k)%nat) else [].
Proof.
  induction streams as [|stream streams IH]; intros k st st'; simpl.
  - intros [= <-] i. by destruct (bool_decide _); rewrite app_nil_r.
  - intros (st1 & [Hi1 Hk1]%launches_emit_stream & Hrest)%bind_Ok i.
    rewrite (IH _ _ _ Hrest i). destruct (decide (i = k)) as [->|Hne].
    + rewrite Hi1, bool_decide_false, bool_decide_true, Nat.sub_diag by lia.
      simpl. by rewrite app_nil_r.
    + rewrite Hk1 by done. f_equal.
      destruct (decide (S k ≤ i)%nat) as [Hle|Hgt].
      * rewrite !bool_decide_true by lia.
        replace (i - k)%nat with (S (i - S k)) by lia. done.
      * by rewrite !bool_decide_false by lia.
Qed.

Lemma initial_plan_steps E B plan i :
  foldR (λ plan stream, foldR (set_stream_provider E B) stream plan)
    (stream_nodes_ E) (replicate (length (stream_nodes_ E)) (mkLogicStream [] None))
  = Ok plan →
  default [] (steps_ <$> plan !! i) = [].
Proof.
  intros Hplan%set_stream_providers_steps.
  rewrite fmap_replicate in Hplan. simpl in Hplan.
  rewrite <- list_lookup_fmap, Hplan.
  destruct (replicate _ _ !! i) as [l|] eqn:Hl; [|done].
  by apply lookup_replicate in Hl as [-> _].
Qed.

(** X11. Every stream launches exactly its nodes, in their order: when
    [BuildExecutionPlan] returns, the launch steps of stream [i] are the
    nodes of [stream_nodes_[i]], each once and in the same order, and a
    stream outside the partition launches nothing. *)
Theorem streams_launch_their_nodes E B st i :
  BuildExecutionPlan E B = Ok st →
  launches st i = default [] (stream_nodes_ E !! i).
Proof.
  intros (notifications & plan & owners & st1 & _ & Hplan & _ & Hemit & Hvalues)
    %BuildExecutionPlan_Ok.
  apply record_value_nodes_frame in Hvalues as (Hp & _).
  unfold launches, steps_of. rewrite Hp.
  pose proof (launches_emit_streams _ _ _ _ _ _ _ Hemit i) as Hi.
  unfold launches, steps_of in Hi. rewrite Hi. simpl.
  rewrite (initial_plan_steps E B plan i Hplan). simpl.
  by rewrite Nat.sub_0_r.
Qed.

Lemma streams_launch_their_nodes_witness :
  launches S2.built 0 = default [] (stream_nodes_ S2.env !! 0%nat).
Proof.
  apply (streams_launch_their_nodes S2.env S2.inputs S2.built 0).
  vm_compute. reflexivity.
Defined.

Lemma barriers_numbered_and_listed_witness :
  omap barrier_of (all_steps S2.built) ≡ₚ seq 0 (num_barriers S2.built) ∧
  (∀ n i b, (i, b) ∈ downstream_of S2.built n →
     0 ≤ b ∧ ∃ barrier_id,
       steps_of S2.built i !! Z.to_nat b = Some (BarrierStep barrier_id)) ∧
  (∀ i b barrier_id, steps_of S2.built i !! b = Some (BarrierStep barrier_id) →
     ∃ n, (i, Z.of_nat b) ∈ downstream_of S2.built n).
Proof.
  apply (barriers_numbered_and_listed S2.env S2.inputs S2.built).
  vm_compute. reflexivity.
Defined.

Lemma foldR_inv_elem {A St} (P : St → Prop) (body : St → A → Result St) (l : list A) :
  (∀ s x s', x ∈ l → P s → body s x = Ok s' → P s') →
  ∀ s s', P s → foldR body l s = Ok s' → P s'.
Proof.
  induction l as [|x l IH]; intros Hbody s s' Hs; simpl.
  - by intros [= <-].
  - intros (s1 & H1 & Hrest)%bind_Ok. eapply IH; [|by eapply Hbody; [left|..]|done].
    intros s2 y s3 Hy. apply Hbody. by right.
Qed.

Lemma foldR_indexed_inv_elem {A St} (P : St → Prop) (body : St → nat → A → Result St)
    (l : list A) :
  (∀ s i x s', x ∈ l → P s → body s i x = Ok s' → P s') →
  ∀ i s s', P s → foldR_indexed body i l s = Ok s' → P s'.
Proof.
  induction l as [|x l IH]; intros Hbody i s s' Hs; simpl.
  - by intros [= <-].
  - intros (s1 & H1 & Hrest)%bind_Ok. eapply IH; [|by eapply Hbody; [left|..]|done].
    intros s2 j y s3 Hy. apply Hbody. by right.
Qed.

Lemma existsb_none {A} (f : A → bool) (l : list A) :
  (∀ x, x ∈ l → f x = false) → existsb f l = false.
Proof.
  induction l as [|x l IH]; intros Hf; simpl; [done|].
  rewrite Hf by by left. apply IH. intros y Hy. apply Hf. by right.
Qed.

Lemma no_notification E :
  no_cross_stream_edge E → ∀ acc, assign_notifications E = Ok acc → acc = (∅, 0%nat).
Proof.
  intros Hedges acc. unfold assign_notifications.
  apply (foldR_inv_elem (λ acc, acc = (∅, 0%nat))); [|done].
  intros acc1 stream acc2 Hstream Hacc1.
  apply (foldR_inv_elem (λ acc, acc = (∅, 0%nat))); [|done].
  intros acc3 c acc4 Hc Hacc3. unfold assign_notification.
  intros (node & Hnode%unchecked_Ok & Hrun)%bind_Ok.
  destruct (Hedges stream c node Hstream Hc Hnode) as [_ Hout].
  rewrite existsb_none in Hrun; [by injection Hrun as <-|].
  intros it Hit. unfold in_stream.
  rewrite bool_decide_true by by apply Hout. done.
Qed.

Lemma launch_steps_only (steps : list ExecutionStep) :
  Forall (λ step, is_Some (launch_of step)) steps →
  steps = LaunchKernelStep <$> omap launch_of steps.
Proof.
  induction 1 as [|step steps [n Hstep] _ IH]; [done|].
  destruct step; try done. simpl. by f_equal.
Qed.

Lemma add_dependences_frame st c l :
  let st' := foldl (λ st it, add_dependence it c st) st l in
  execution_plan st' = execution_plan st ∧ num_barriers st' = num_barriers st ∧
  downstream_map st' = downstream_map st ∧
  notification_owners st' = notification_owners st.
Proof.
  revert st. induction l as [|x l IH]; intros st; simpl; [done|].
  destruct (IH (add_dependence x c st)) as (-> & -> & -> & ->). done.
Qed.

Lemma plain_emit_node E B i stream st j c st' :
  no_cross_stream_edge E → stream ∈ stream_nodes_ E → c ∈ stream →
  plain_plan st → emit_node E B ∅ i stream st j c = Ok st' → plain_plan st'.
Proof.
  intros Hedges Hstream Hc (Hsteps & Hnum & Hmap & Howners). unfold emit_node.
  intros (st0 & H0 & (node & Hnode%unchecked_Ok & Hrest)%bind_Ok)%bind_Ok.
  apply bind_Ok in Hrest as (st1 & Hwaits & Hrest).
  rewrite lookup_empty in Hrest.
  apply bind_Ok in Hrest as (st2 & Hpush & [= <-]).
  destruct (Hedges stream c node Hstream Hc Hnode) as [Hin _].
  assert (plain_plan st0) as Hplain0.
  { case_bool_decide.
    - by apply bind_Ok in H0 as (previous & _ & [= <-]).
    - by injection H0 as <-. }
  assert (st1 = st0) as ->.
  { revert Hwaits. apply (foldR_inv_elem (λ s, s = st0)); [|done].
    intros s it s' Hit ->. unfold emit_wait, in_stream.
    rewrite bool_decide_true by by apply Hin. by intros [= <-]. }
  assert (plain_plan (foldl (λ st it, add_dependence it c st) st0 (OutputNodes node)))
    as (Hsteps' & Hnum' & Hmap' & Howners').
  { destruct (add_dependences_frame st0 c (OutputNodes node)) as (Hp & Hn & Hd & Ho).
    destruct Hplain0 as (H1 & H2 & H3 & H4). unfold plain_plan, steps_of.
    rewrite Hp, Hn, Hd, Ho. done. }
  pose proof (push_step_Ok _ _ _ _ Hpush) as (Hi & Hk & _ & Ho & Hd & Hn).
  split_and!; [|congruence..].
  intros k. destruct (decide (k = i)) as [->|Hne].
  - rewrite Hi. apply Forall_app. split; [done|]. by apply Forall_singleton.
  - by rewrite Hk.
Qed.

(** X12. Without an edge between two streams there is no synchronisation:
    when the producers and consumers of every node are on the node's own
    stream (as with a single stream) and [BuildExecutionPlan] returns,
    every stream consists of the launches of its nodes in order and
    nothing else, there is no barrier, no notification, and the
    downstream map is empty. *)
Theorem no_cross_stream_edge_no_synchronisation E B st :
  no_cross_stream_edge E →
  BuildExecutionPlan E B = Ok st →
  (∀ i, steps_of st i = LaunchKernelStep <$> default [] (stream_nodes_ E !! i)) ∧
  num_barriers st = 0%nat ∧ notification_owners st = [] ∧ downstream_map st = ∅.
Proof.
  intros Hedges Hrun.
  assert (∀ i, launches st i = default [] (stream_nodes_ E !! i)) as Hlaunches.
  { intros i.
    destruct (BuildExecutionPlan_Ok _ _ _ Hrun)
      as (notifications & plan & owners & st1 & _ & Hplan & _ & Hemit & Hvalues).
    apply record_value_nodes_frame in Hvalues as (Hp & _).
    unfold launches, steps_of. rewrite Hp.
    pose proof (launches_emit_streams _ _ _ _ _ _ _ Hemit i) as Hi.
    unfold launches, steps_of in Hi. rewrite Hi. simpl.
    rewrite (initial_plan_steps E B plan i Hplan). simpl.
    by rewrite Nat.sub_0_r. }
  destruct (BuildExecutionPlan_Ok _ _ _ Hrun)
    as (notifications & plan & owners & st1 & Hn & Hplan & Howners & Hemit & Hvalues).
  apply (no_notification E Hedges) in Hn. subst notifications. simpl in *.
  assert (owners = []) as ->.
  { revert Howners. apply (foldR_inv (λ o, o = [])); [|done].
    intros o x o' ->. unfold set_notification_owner. rewrite lookup_empty.
    by intros [= <-]. }
  apply record_value_nodes_frame in Hvalues as (Hp & Hnum & Hd & _ & Ho).
  assert (plain_plan st1) as (Hsteps & Hnum1 & Hd1 & Ho1).
  { revert Hemit. apply (foldR_indexed_inv_elem plain_plan).
    - intros s i stream s' Hstream Hs.
      apply (foldR_indexed_inv_elem plain_plan); [|done].
      intros s1 j c s2 Hc Hs1 Hrun1.
      by eapply (plain_emit_node E B i stream s1 j c s2).
    - split_and!; try done. intros k. unfold steps_of. simpl.
      by rewrite (initial_plan_steps E B plan k Hplan). }
  split_and!; [|congruence..].
  intros i. rewrite <- Hlaunches. unfold launches.
  apply launch_steps_only. unfold steps_of. rewrite Hp. apply Hsteps.
Qed.

Lemma S1_no_cross_stream_edge : no_cross_stream_edge S1.env.
Proof.
  intros stream c node Hstream Hc Hnode.
  apply list_elem_of_singleton in Hstream. subst stream.
  rewrite !elem_of_cons in Hc.
  destruct Hc as [Hc|[Hc|[Hc|Hc]]]; [subst c..|by apply elem_of_nil in Hc];
    vm_compute in Hnode; injection Hnode as <-; simpl;
    split; intros it; rewrite !elem_of_cons, !elem_of_nil; intuition (subst; auto).
Qed.

Lemma no_cross_stream_edge_no_synchronisation_witness :
  (∀ i, steps_of Sequential.built i
        = LaunchKernelStep <$> default [] (stream_nodes_ S1.env !! i)) ∧
  num_barriers Sequential.built = 0%nat ∧ notification_owners Sequential.built = [] ∧
  downstream_map Sequential.built = ∅.
Proof.
  apply (no_cross_stream_edge_no_synchronisation S1.env S2.inputs Sequential.built).
  - apply S1_no_cross_stream_edge.
  - vm_compute. reflexivity.
Defined.

(** ** The dependence graph *)

Lemma adds_dependences_same R st st' :
  dependence_graph_ st' = dependence_graph_ st → (∀ u d, ¬ R u d) →
  adds_dependences R st st'.
Proof.
  intros Hsame HR d u. unfold dependence_of. rewrite Hsame. split; [by left|].
  intros [?|?%HR]; done.
Qed.

Lemma adds_dependences_trans R1 R2 st1 st2 st3 :
  adds_dependences R1 st1 st2 → adds_dependences R2 st2 st3 →
  adds_dependences (λ u d, R1 u d ∨ R2 u d) st1 st3.
Proof. intros H1 H2 d u. rewrite (H2 d u), (H1 d u). tauto. Qed.

Lemma adds_dependences_iff R R' st st' :
  (∀ u d, R u d ↔ R' u d) → adds_dependences R st st' → adds_dependences R' st st'.
Proof. intros HR H d u. rewrite (H d u), (HR u d). done. Qed.

Lemma add_dependence_adds downstream upstream st :
  adds_dependences (λ u d, u = upstream ∧ d = downstream) st
    (add_dependence downstream upstream st).
Proof.
  intros d u. unfold dependence_of, add_dependence. simpl.
  destruct (decide (d = downstream)) as [->|Hne].
  - rewrite lookup_insert_eq. simpl. rewrite elem_of_union, elem_of_singleton. tauto.
  - rewrite lookup_insert_ne by done. split; [by left|]. by intros [?|[_ ?]].
Qed.

Lemma add_dependences_adds c l st :
  adds_dependences (λ u d, u = c ∧ d ∈ l) st
    (foldl (λ st it, add_dependence it c st) st l).
Proof.
  revert st. induction l as [|x l IH]; intros st; simpl.
  - apply adds_dependences_same; [done|]. by intros u d [_ ?%elem_of_nil].
  - eapply adds_dependences_iff;
      [|eapply adds_dependences_trans; [apply add_dependence_adds|apply IH]].
    intros u d. simpl. rewrite elem_of_cons. intuition (subst; auto).
Qed.

Lemma emit_wait_dependences E B m i stream node st it st' :
  emit_wait E B m i stream node st it = Ok st' →
  dependence_graph_ st' = dependence_graph_ st.
Proof.
  unfold emit_wait. destruct (in_stream stream it); simpl; [by intros [= <-]|].
  intros (n & _ & (current & _ & Hrest)%bind_Ok)%bind_Ok.
  apply bind_Ok in Hrest as (st2 & [H2 _]%push_step_frame & Hrest).
  apply bind_Ok in Hrest as (owner & _ & Hrest).
  apply bind_Ok in Hrest as (owner_stream & _ & Hrest).
  apply bind_Ok in Hrest as (owner_ep & _ & Hrest).
  destruct (GetWaitHandle B owner_ep (GetExecutionProviderType node)).
  - apply push_step_frame in Hrest as [-> _]. by rewrite H2.
  - injection Hrest as <-. by rewrite H2.
Qed.

Lemma emit_node_dependences E B m i stream st j c st' :
  emit_node E B m i stream st j c = Ok st' →
  adds_dependences (node_dependences E stream j c) st st'.
Proof.
  unfold emit_node.
  intros (st0 & H0 & (node & Hnode%unchecked_Ok & Hrest)%bind_Ok)%bind_Ok.
  apply bind_Ok in Hrest as (st1 & Hwaits & Hrest).
  apply bind_Ok in Hrest as (st2 & [H2 _]%push_step_frame & Hrest).
  assert (adds_dependences
            (λ u d, (0 < j)%nat ∧ d = c ∧ stream !! (j - 1)%nat = Some u) st st0) as Hadd0.
  { case_bool_decide as Hj.
    - apply bind_Ok in H0 as (previous & Hprev%unchecked_Ok & [= <-]).
      eapply adds_dependences_iff; [|apply add_dependence_adds].
      intros u d. simpl. rewrite Hprev. split.
      + intros [-> ->]. done.
      + intros (_ & -> & [= ->]). done.
    - injection H0 as <-. apply adds_dependences_same; [done|].
      by intros u d (? & _). }
  assert (dependence_graph_ st1 = dependence_graph_ st0) as H1.
  { revert Hwaits.
    apply (foldR_preserves (λ s s', dependence_graph_ s' = dependence_graph_ s));
      [done|congruence|].
    intros s x s'. apply emit_wait_dependences. }
  assert (dependence_graph_ st' = dependence_graph_ st2) as H3.
  { destruct (m !! c) as [n|].
    - apply bind_Ok in Hrest as (st3 & [H3 _]%push_step_frame & [H4 _]%push_step_frame).
      congruence.
    - by injection Hrest as <-. }
  pose proof (add_dependences_adds c (OutputNodes node) st1) as Hadd1.
  intros d u. unfold dependence_of. rewrite H3, H2.
  fold (dependence_of (foldl (λ st it, add_dependence it c st) st1 (OutputNodes node)) d).
  rewrite (Hadd1 d u). unfold dependence_of at 1. rewrite H1.
  fold (dependence_of st0 d). rewrite (Hadd0 d u).
  unfold node_dependences. rewrite Hnode. split.
  - intros [[?|?]|[-> ?]]; [by left|by right; left|].
    right. right. split; [done|]. by exists node.
  - intros [?|[?|[-> (node' & [= <-] & ?)]]]; [by left; left|by left; right|by right].
Qed.

Lemma foldR_indexed_adds {A} (R : nat → A → NodeIndex → NodeIndex → Prop)
    (body : BuildState → nat → A → Result BuildState) (l : list A) :
  (∀ s i x s', body s i x = Ok s' → adds_dependences (R i x) s s') →
  ∀ i st st', foldR_indexed body i l st = Ok st' →
    adds_dependences (λ u d, ∃ p x, l !! p = Some x ∧ R (i + p)%nat x u d) st st'.
Proof.
  intros Hbody. induction l as [|x l IH]; intros i st st'; simpl.
  - intros [= <-]. apply adds_dependences_same; [done|]. by intros u d (p & y & ? & _).
  - intros (st1 & H1%Hbody & Hrest%IH)%bind_Ok.
    eapply adds_dependences_iff; [|by eapply adds_dependences_trans].
    intros u d. cbv beta. split.
    + intros [HR|(p & y & Hp & HR)].
      * exists 0%nat, x. by rewrite Nat.add_0_r.
      * exists (S p), y. split; [done|].
        by replace (i + S p)%nat with (S i + p)%nat by lia.
    + intros ([|p] & y & Hp & HR); simpl in Hp.
      * injection Hp as <-. left. by rewrite Nat.add_0_r in HR.
      * right. exists p, y. split; [done|].
        by replace (S i + p)%nat with (i + S p)%nat by lia.
Qed.

(** X13. The dependence graph holds the stream order and the model
    edges, and nothing else: when [BuildExecutionPlan] returns,
    [dependence_graph_[d]] contains [u] exactly when [u] is the node
    right before [d] on some stream, or [d] consumes an output of [u] and
    [u] is a node of a stream. *)
Theorem dependence_graph_edges E B st d u :
  BuildExecutionPlan E B = Ok st →
  u ∈ dependence_of st d ↔ stream_edge E u d ∨ graph_edge E u d.
Proof.
  intros (notifications & plan & owners & st1 & _ & _ & _ & Hemit & Hvalues)
    %BuildExecutionPlan_Ok.
  apply record_value_nodes_frame in Hvalues as (_ & _ & _ & Hdep & _).
  unfold dependence_of. rewrite Hdep. fold (dependence_of st1 d).
  apply (foldR_indexed_adds
           (λ i stream u d, ∃ p c, stream !! p = Some c ∧
                                    node_dependences E stream (0 + p) c u d)) in Hemit.
  2:{ intros s i stream s'. apply foldR_indexed_adds.
      intros s1 j c s2. apply emit_node_dependences. }
  rewrite (Hemit d u). unfold dependence_of at 1. simpl.
  rewrite lookup_empty. simpl. rewrite elem_of_empty.
  unfold stream_edge, graph_edge, node_dependences. split.
  - intros [[]|(i & stream & Hstream%list_elem_of_lookup_2 & p & c & Hc & Hcase)].
    simpl in Hcase. destruct Hcase as [(Hp & -> & Hu)|(-> & node & Hnode & Hd)].
    + left. exists stream, (p - 1)%nat. split_and!; [done..|].
      by replace (S (p - 1)) with p by lia.
    + right. exists stream, node. split_and!; [done| |done..].
      by eapply list_elem_of_lookup_2.
  - intros [(stream & j & [i Hi]%list_elem_of_lookup_1 & Hu & Hd)
           |(stream & node & [i Hi]%list_elem_of_lookup_1 & [p Hp]%list_elem_of_lookup_1
             & Hnode & Hd)]; right; exists i, stream; (split; [done|]).
    + exists (S j), d. split; [done|]. left. simpl. rewrite Nat.sub_0_r.
      split_and!; [lia|done..].
    + exists p, u. split; [done|]. right. split; [done|]. by exists node.
Qed.

Lemma dependence_graph_edges_witness :
  1%N ∈ dependence_of S2.built 2 ↔ stream_edge S2.env 1 2 ∨ graph_edge S2.env 1 2.
Proof.
  apply (dependence_graph_edges S2.env S2.inputs S2.built 2%N 1%N).
  vm_compute. reflexivity.
Defined.

(** ** The producer and the stream of a value *)

Lemma record_value_node_maps E n st a st' v :
  record_value_node E n st a = Ok st' →
  value_node_map_ st' !! v
  = (if bool_decide (arg_value E a = Some v) then Some n else value_node_map_ st !! v) ∧
  value_to_stream_map st' !! v
  = (if bool_decide (arg_value E a = Some v) then node_stream_map_ E !! N.to_nat n
     else value_to_stream_map st !! v).
Proof.
  unfold record_value_node, arg_value. destruct (Exists a); simpl.
  - intros (idx & Hidx%checked_Ok & (s & Hs%unchecked_Ok & [= <-])%bind_Ok)%bind_Ok.
    simpl. rewrite Hidx. case_bool_decide as Hv.
    + injection Hv as ->. by rewrite !lookup_insert_eq.
    + rewrite !lookup_insert_ne by congruence. done.
  - by intros [= <-].
Qed.

Lemma record_value_nodes_maps E n outs : ∀ st st' v,
  foldR (record_value_node E n) outs st = Ok st' →
  value_node_map_ st' !! v
  = (if bool_decide (v ∈ omap (arg_value E) outs) then Some n
     else value_node_map_ st !! v) ∧
  value_to_stream_map st' !! v
  = (if bool_decide (v ∈ omap (arg_value E) outs) then node_stream_map_ E !! N.to_nat n
     else value_to_stream_map st !! v).
Proof.
  induction outs as [|a outs IH]; intros st st' v; simpl.
  - by intros [= <-].
  - intros (st1 & H1 & Hrest)%bind_Ok.
    destruct (record_value_node_maps E n st a st1 v H1) as [Hn1 Hs1].
    destruct (IH st1 st' v Hrest) as [-> ->]. rewrite Hn1, Hs1.
    destruct (arg_value E a) as [w|] eqn:Ha.
    + destruct (decide (v ∈ omap (arg_value E) outs)) as [Hin|Hnot].
      * rewrite !(bool_decide_true (v ∈ omap _ _)) by done.
        rewrite bool_decide_true; [done|]. by right.
      * rewrite !(bool_decide_false (v ∈ omap _ _)) by done.
        destruct (decide (w = v)) as [->|Hne].
        -- rewrite !bool_decide_true; [done|by left|done].
        -- rewrite !bool_decide_false; [done| |congruence].
           by intros [?|?]%elem_of_cons.
    + rewrite (bool_decide_false (None = Some v)) by done.
      by destruct (bool_decide _).
Qed.

Lemma add_dependences_values st c l :
  let st' := foldl (λ st it, add_dependence it c st) st l in
  value_node_map_ st' = value_node_map_ st ∧
  value_to_stream_map st' = value_to_stream_map st.
Proof.
  revert st. induction l as [|x l IH]; intros st; simpl; [done|].
  destruct (IH (add_dependence x c st)) as (-> & ->). done.
Qed.

Lemma emit_wait_values E B m i stream node st it st' :
  emit_wait E B m i stream node st it = Ok st' →
  value_node_map_ st' = value_node_map_ st ∧
  value_to_stream_map st' = value_to_stream_map st.
Proof.
  unfold emit_wait. destruct (in_stream stream it); simpl; [by intros [= <-]|].
  intros (n & _ & (current & _ & Hrest)%bind_Ok)%bind_Ok.
  apply bind_Ok in Hrest as (st2 & (_ & H2v & H2n)%push_step_frame & Hrest).
  apply bind_Ok in Hrest as (owner & _ & Hrest).
  apply bind_Ok in Hrest as (owner_stream & _ & Hrest).
  apply bind_Ok in Hrest as (owner_ep & _ & Hrest).
  simpl in H2v, H2n.
  destruct (GetWaitHandle B owner_ep (GetExecutionProviderType node)).
  - apply push_step_frame in Hrest as (_ & -> & ->). by rewrite H2v, H2n.
  - injection Hrest as <-. by rewrite H2v, H2n.
Qed.

Lemma emit_node_values E B m i stream st j c st' :
  emit_node E B m i stream st j c = Ok st' →
  value_node_map_ st' = value_node_map_ st ∧
  value_to_stream_map st' = value_to_stream_map st.
Proof.
  unfold emit_node.
  intros (st0 & H0 & (node & _ & Hrest)%bind_Ok)%bind_Ok.
  apply bind_Ok in Hrest as (st1 & Hwaits & Hrest).
  apply bind_Ok in Hrest as (st2 & (_ & H2v & H2n)%push_step_frame & Hrest).
  destruct (add_dependences_values st1 c (OutputNodes node)) as [Hdn Hdv].
  rewrite Hdv in H2v. rewrite Hdn in H2n.
  assert (value_node_map_ st0 = value_node_map_ st ∧
          value_to_stream_map st0 = value_to_stream_map st) as [H0n H0v].
  { case_bool_decide.
    - by apply bind_Ok in H0 as (previous & _ & [= <-]).
    - by injection H0 as <-. }
  assert (value_node_map_ st1 = value_node_map_ st0 ∧
          value_to_stream_map st1 = value_to_stream_map st0) as [H1n H1v].
  { revert Hwaits.
    apply (foldR_preserves
             (λ s s', value_node_map_ s' = value_node_map_ s ∧
                      value_to_stream_map s' = value_to_stream_map s)).
    - done.
    - intros s1 s2 s3 [-> ->] [-> ->]. done.
    - intros s x s'. apply emit_wait_values. }
  destruct (m !! c) as [n|].
  - apply bind_Ok in Hrest
      as (st3 & (_ & H3v & H3n)%push_step_frame & (_ & -> & ->)%push_step_frame).
    split; congruence.
  - injection Hrest as <-. split; congruence.
Qed.

Lemma last_definer_snoc E before n v :
  last_definer E (before ++ [n]) v
  = if bool_decide (v ∈ of_node E (node_defs E) n) then Some n
    else last_definer E before v.
Proof.
  unfold last_definer. rewrite filter_app, last_app.
  case_bool_decide.
  - by rewrite filter_cons_True.
  - by rewrite filter_cons_False.
Qed.

(** X14. The maps of values name the producer: when [BuildExecutionPlan]
    returns, [value_node_map_[v]] is the last node of the topological
    order that has [v] among its existing outputs (no entry when no node
    has), and [value_to_stream_map[v]] is the stream that
    [node_stream_map_] gives this node. *)
Theorem value_maps_name_the_producer E B st v :
  BuildExecutionPlan E B = Ok st →
  value_node_map_ st !! v
  = last_definer E (GetNodesInTopologicalOrder (graph_viewer_ E)) v ∧
  value_to_stream_map st !! v
  = value_node_map_ st !! v ≫= λ n, node_stream_map_ E !! N.to_nat n.
Proof.
  intros (notifications & plan & owners & st1 & _ & _ & _ & Hemit & Hvalues)
    %BuildExecutionPlan_Ok.
  assert (value_node_map_ st1 = ∅ ∧ value_to_stream_map st1 = ∅) as [Hn1 Hs1].
  { revert Hemit.
    apply (foldR_indexed_inv
             (λ s, value_node_map_ s = ∅ ∧ value_to_stream_map s = ∅)); [|done].
    intros s i stream s' Hs.
    apply (foldR_indexed_inv
             (λ s, value_node_map_ s = ∅ ∧ value_to_stream_map s = ∅)); [|done].
    intros s1 j c s2 [Hn Hv] [-> ->]%emit_node_values. done. }
  pose (P := λ (s : BuildState) (before : list NodeIndex),
          ∀ v, value_node_map_ s !! v = last_definer E before v ∧
               value_to_stream_map s !! v
               = value_node_map_ s !! v ≫= λ n, node_stream_map_ E !! N.to_nat n).
  apply (foldR_prefix_inv P _ _) with (before := []) in Hvalues; [by apply Hvalues| |].
  - intros s before n s' HP (node & Hnode%unchecked_Ok & Hrun)%bind_Ok w.
    destruct (record_value_nodes_maps E n _ _ _ w Hrun) as [-> ->].
    destruct (HP w) as [Hn Hs]. rewrite last_definer_snoc.
    unfold of_node, node_defs. rewrite Hnode.
    case_bool_decide; [done|]. by rewrite Hn in *.
  - intros w. by rewrite Hn1, Hs1, !lookup_empty.
Qed.

Lemma value_maps_name_the_producer_witness :
  value_node_map_ S2.built !! 2
  = last_definer S2.env (GetNodesInTopologicalOrder (graph_viewer_ S2.env)) 2 ∧
  value_to_stream_map S2.built !! 2
  = value_node_map_ S2.built !! 2 ≫= λ n, node_stream_map_ S2.env !! N.to_nat n.
Proof.
  apply (value_maps_name_the_producer S2.env S2.inputs S2.built 2).
  vm_compute. reflexivity.
Defined.

(** ** The provider of a stream *)

Lemma set_stream_provider_defined E B plan x plan' :
  set_stream_provider E B plan x = Ok plan' →
  length plan' = length plan ∧
  ∀ s, node_stream_map_ E !! N.to_nat x = Some s → (N.to_nat s < length plan)%nat.
Proof.
  unfold set_stream_provider.
  intros (node & _ & (s & Hs%unchecked_Ok & Hrun)%bind_Ok)%bind_Ok.
  apply bind_Ok in Hrun as (stream & Hstream%unchecked_Ok & Hrun).
  assert (length plan' = length plan) as Hlen.
  { destruct (ep_ stream).
    - by apply bind_Ok in Hrun as (? & _ & [= <-]).
    - injection Hrun as <-. by rewrite length_insert. }
  split; [done|]. intros s' Hs'. rewrite Hs in Hs'. injection Hs' as <-.
  by eapply lookup_lt_Some.
Qed.

Lemma set_stream_providers_defined E B streams : ∀ plan plan',
  foldR (λ plan stream, foldR (set_stream_provider E B) stream plan) streams plan
  = Ok plan' →
  length plan' = length plan ∧
  ∀ q s, q ∈ concat streams → node_stream_map_ E !! N.to_nat q = Some s →
         (N.to_nat s < length plan)%nat.
Proof.
  assert (∀ stream plan plan',
            foldR (set_stream_provider E B) stream plan = Ok plan' →
            length plan' = length plan ∧
            ∀ q s, q ∈ stream → node_stream_map_ E !! N.to_nat q = Some s →
                   (N.to_nat s < length plan)%nat) as Hstream.
  { induction stream as [|x stream IH]; intros plan plan'; simpl.
    - intros [= <-]. split; [done|]. by intros q s ?%elem_of_nil.
    - intros (plan1 & [Hlen1 Hx]%set_stream_provider_defined & [Hlen Hrest]%IH)%bind_Ok.
      split; [congruence|].
      intros q s [->|Hq]%elem_of_cons Hs; [by apply Hx|].
      rewrite <- Hlen1. by eapply Hrest. }
  induction streams as [|stream streams IH]; intros plan plan'; simpl.
  - intros [= <-]. split; [done|]. by intros q s ?%elem_of_nil.
  - intros (plan1 & [Hlen1 Hs]%Hstream & [Hlen Hrest]%IH)%bind_Ok.
    split; [congruence|].
    intros q s [Hq|Hq]%elem_of_app Hmap; [by eapply Hs|].
    rewrite <- Hlen1. by eapply Hrest.
Qed.

(** X15. A stream runs on one provider: when [BuildExecutionPlan]
    returns, the provider of a stream is the provider of each of its
    nodes whose provider is registered, so two nodes that
    [node_stream_map_] puts on the same stream never have two different
    registered providers. *)
Theorem one_provider_per_stream E B st q1 q2 node1 node2 s t1 t2 :
  BuildExecutionPlan E B = Ok st →
  q1 ∈ concat (stream_nodes_ E) → q2 ∈ concat (stream_nodes_ E) →
  GetNode (graph_viewer_ E) q1 = Some node1 → GetNode (graph_viewer_ E) q2 = Some node2 →
  node_stream_map_ E !! N.to_nat q1 = Some s → node_stream_map_ E !! N.to_nat q2 = Some s →
  Get_provider B (GetExecutionProviderType node1) = Some t1 →
  Get_provider B (GetExecutionProviderType node2) = Some t2 →
  stream_ep st (N.to_nat s) = Some t1 ∧ t1 = t2.
Proof.
  intros (notifications & plan & owners & st1 & _ & Hplan & _ & Hemit & Hvalues)
    %BuildExecutionPlan_Ok Hq1 Hq2 Hnode1 Hnode2 Hs1 Hs2 Ht1 Ht2.
  apply record_value_nodes_frame in Hvalues as (Hp & _).
  apply emit_streams_Ok in Hemit as [(_ & Hep & _) _].
  assert (stream_ep st (N.to_nat s) = plan !! N.to_nat s ≫= ep_) as Hstream_ep.
  { unfold stream_ep at 1. rewrite Hp. apply (Hep (N.to_nat s)). }
  pose proof (set_stream_providers_defined _ _ _ _ _ Hplan) as [Hlen Hdefined].
  destruct (lookup_lt_is_Some_2 plan (N.to_nat s)) as [logic_stream Hlogic].
  { rewrite Hlen. by eapply Hdefined. }
  eapply (set_stream_providers_agree E B _ _ _ []) in Hplan.
  2:{ by intros q node_q s' ls t ?%elem_of_nil. }
  rewrite app_nil_r in Hplan.
  pose proof (Hplan q1 node1 s logic_stream t1 Hq1 Hnode1 Hs1 Hlogic Ht1) as H1.
  pose proof (Hplan q2 node2 s logic_stream t2 Hq2 Hnode2 Hs2 Hlogic Ht2) as H2.
  rewrite Hstream_ep, Hlogic. simpl. split; [done|congruence].
Qed.

Lemma one_provider_per_stream_witness :
  stream_ep S2.built (N.to_nat 0) = Some "CPUExecutionProvider" ∧
  "CPUExecutionProvider" = "CPUExecutionProvider".
Proof.
  apply (one_provider_per_stream S2.env S2.inputs S2.built 0%N 2%N S1.node_A S1.node_C
           0%N "CPUExecutionProvider" "CPUExecutionProvider").
  - vm_compute. reflexivity.
  - simpl. rewrite !elem_of_cons. tauto.
  - simpl. rewrite !elem_of_cons. tauto.
  - vm_compute. reflexivity.
  - vm_compute. reflexivity.
  - reflexivity.
  - reflexivity.
  - vm_compute. reflexivity.
  - vm_compute. reflexivity.
Defined.

(** ** Size equality as a relation *)

Lemma same_dimension_sym d1 d2 : same_dimension d1 d2 = same_dimension d2 d1.
Proof.
  unfold same_dimension.
  destruct d1 as [v1|p1|], d2 as [v2|p2|]; simpl; try done.
  - by rewrite (bool_decide_ext (v1 = v2) (v2 = v1)).
  - destruct (decide (p1 = p2)) as [->|Hne]; [done|].
    by rewrite (bool_decide_false (p1 = p2)), (bool_decide_false (p2 = p1)) by congruence.
Qed.

Lemma SameShape_dims_sym s1 : ∀ s2,
  length s1 = length s2 → SameShape_dims s1 s2 = SameShape_dims s2 s1.
Proof.
  induction s1 as [|d1 s1 IH]; intros [|d2 s2] Hlen; simpl in *; try done.
  rewrite same_dimension_sym, IH by lia. done.
Qed.

Lemma SameShape_sym s1 s2 : SameShape s1 s2 = SameShape s2 s1.
Proof.
  unfold SameShape. destruct (decide (length s1 = length s2)) as [Hlen|Hlen].
  - rewrite !bool_decide_true by done. simpl. by apply SameShape_dims_sym.
  - by rewrite !bool_decide_false by congruence.
Qed.

Lemma SameShape_refl s : SameShape s s = forallb comparable s.
Proof.
  unfold SameShape. rewrite bool_decide_true by done. simpl.
  induction s as [|d s IH]; [done|]. simpl. rewrite IH.
  unfold same_dimension. destruct d as [v|p|]; simpl; try done.
  - by rewrite bool_decide_true.
  - rewrite (bool_decide_true (p = p)) by done. simpl. by destruct (negb _).
Qed.

Lemma dims_agree_trans d1 d2 d3 : dims_agree d1 d2 → dims_agree d2 d3 → dims_agree d1 d3.
Proof.
  intros [(v & -> & ->)|(p & -> & -> & Hp)] [(w & [= <-] & ->)|(q & [= <-] & -> & _)].
  - left. by exists v.
  - right. by exists p.
Qed.

Lemma shapes_agree_trans s1 s2 s3 :
  shapes_agree s1 s2 → shapes_agree s2 s3 → shapes_agree s1 s3.
Proof.
  intros [Hlen12 H12] [Hlen23 H23]. split; [congruence|].
  intros i d1 d3 Hd1 Hd3.
  destruct (lookup_lt_is_Some_2 s2 i) as [d2 Hd2].
  { rewrite <- Hlen12. by eapply lookup_lt_Some. }
  eapply dims_agree_trans; [by eapply H12|by eapply H23].
Qed.

(** X16. Two values have the same size symmetrically and transitively:
    [SameSize] gives the same answer (or fails alike) when its two
    arguments are exchanged, and same size of [a1], [a2] and of [a2],
    [a3] makes [a1], [a3] of the same size.  But a value is of its own
    size only when its shape is known and every dimension is a known
    value or a symbolic name that is not empty. *)
Theorem SameSize_partial_equivalence ctx a1 a2 a3 :
  SameSizeArgs ctx a1 a2 = SameSizeArgs ctx a2 a1 ∧
  (SameSizeArgs ctx a1 a2 = Ok true → SameSizeArgs ctx a2 a3 = Ok true →
   SameSizeArgs ctx a1 a3 = Ok true) ∧
  (SameSizeArgs ctx a1 a1 = Ok true ↔
   Exists a1 = true ∧ type_case a1 = kTensorType ∧
   elem_type a1 ≠ TensorProto_DataType_STRING ∧
   ∃ shape, GetShape ctx a1 = Some shape ∧ forallb comparable shape = true).
Proof.
  split_and!.
  - unfold SameSizeArgs. rewrite (orb_comm (negb (Exists a2))).
    destruct (negb (Exists a1) || negb (Exists a2)); [done|].
    destruct (GetShape ctx a1) as [s1|], (GetShape ctx a2) as [s2|]; try done.
    unfold SameSize, GetElementSize, ORT_ENFORCE, is_string_tensor.
    rewrite (SameShape_sym s2 s1).
    destruct (bool_decide (type_case a1 = kTensorType)),
      (bool_decide (type_case a2 = kTensorType)); simpl; try done.
    rewrite (orb_comm (bool_decide (elem_type a1 = TensorProto_DataType_STRING))).
    by rewrite (bool_decide_ext (elem_size a1 = elem_size a2) (elem_size a2 = elem_size a1)).
  - unfold SameSizeArgs.
    destruct (Exists a1), (Exists a2), (Exists a3); simpl; try done.
    destruct (GetShape ctx a1) as [s1|], (GetShape ctx a2) as [s2|],
      (GetShape ctx a3) as [s3|]; try done.
    rewrite !SameSize_rule.
    intros (H1 & H2 & (sz & Hsz1 & Hsz2) & Hshape12)
      (_ & H3 & (sz' & Hsz2' & Hsz3) & Hshape23).
    split_and!; [done..| |by eapply shapes_agree_trans].
    exists sz. split; [done|]. congruence.
  - unfold SameSizeArgs. destruct (Exists a1); simpl;
      [|split; [done|by intros [? _]]].
    destruct (GetShape ctx a1) as [shape|];
      [|split; [done|by intros (_ & _ & _ & ? & ? & _)]].
    unfold SameSize, GetElementSize, ORT_ENFORCE, is_string_tensor.
    rewrite SameShape_refl.
    destruct (decide (type_case a1 = kTensorType)) as [Htype|Htype].
    + rewrite !(bool_decide_true (type_case a1 = kTensorType)) by done. simpl.
      unfold mret, Result_ret. rewrite (bool_decide_true (elem_size a1 = elem_size a1)) by done.
      destruct (decide (elem_type a1 = TensorProto_DataType_STRING)) as [Hstr|Hstr].
      * rewrite !bool_decide_true by done. simpl.
        split; [done|by intros (_ & _ & ? & _)].
      * rewrite !bool_decide_false by done. simpl. split.
        -- intros [= Hall]. split_and!; try done. by exists shape.
        -- intros (_ & _ & _ & shape' & [= <-] & ->). done.
    + rewrite !(bool_decide_false (type_case a1 = kTensorType)) by done. simpl.
      split; [done|by intros (_ & ? & _)].
Qed.

(** ** One stream per provider *)

Lemma busy_nil i : ¬ busy [] i.
Proof. by intros (s & Hs & _). Qed.

Lemma busy_cons_empty streams i :
  busy ([] :: streams) i ↔ ∃ k, i = S k ∧ busy streams k.
Proof.
  split.
  - intros (s & Hs & Hne). destruct i as [|k]; simpl in Hs.
    + by injection Hs as <-.
    + exists k. split; [done|]. by exists s.
  - intros (k & -> & s & Hs & Hne). by exists s.
Qed.

Lemma busy_cons stream streams i :
  stream ≠ [] → busy (stream :: streams) i ↔ i = 0%nat ∨ ∃ k, i = S k ∧ busy streams k.
Proof.
  intros Hstream. split.
  - intros (s & Hs & Hne). destruct i as [|k]; [by left|]. right. exists k.
    split; [done|]. by exists s.
  - intros [->|(k & -> & s & Hs & Hne)]; [by exists stream|by exists s].
Qed.

Lemma IsSingleStream_from_spec plan streams : ∀ i seen,
  (∀ k, busy streams k → is_Some (provider_at plan (i + k))) →
  ∃ single, IsSingleStream_from plan i streams seen = Ok single ∧
    (single = true ↔
       (∀ k ep, busy streams k → provider_at plan (i + k) = Some ep → ep ∉ seen) ∧
       (∀ k l, k ≠ l → busy streams k → busy streams l →
          provider_at plan (i + k) ≠ provider_at plan (i + l))).
Proof.
  induction streams as [|stream rest IH]; intros i seen Hep; simpl.
  - exists true. split; [done|]. split; [|done]. intros _.
    split; intros k; intros; by destruct (busy_nil k).
  - case_bool_decide as Hstream.
    + subst stream. destruct (IH (S i) seen) as (single & -> & Hsingle).
      { intros k Hk. replace (S i + k)%nat with (i + S k)%nat by lia.
        apply Hep, busy_cons_empty. by exists k. }
      exists single. split; [done|]. rewrite Hsingle. clear Hsingle IH. split.
      * intros [Hseen Hpair]. split.
        -- intros k ep (k' & -> & Hk')%busy_cons_empty Hprov.
           apply (Hseen k'); [done|]. by replace (S i + k')%nat with (i + S k')%nat by lia.
        -- intros k l Hkl (k' & -> & Hk')%busy_cons_empty (l' & -> & Hl')%busy_cons_empty.
           replace (i + S k')%nat with (S i + k')%nat by lia.
           replace (i + S l')%nat with (S i + l')%nat by lia.
           apply Hpair; [congruence|done|done].
      * intros [Hseen Hpair]. split.
        -- intros k ep Hk Hprov. apply (Hseen (S k)); [apply busy_cons_empty; by exists k|].
           by replace (i + S k)%nat with (S i + k)%nat by lia.
        -- intros k l Hkl Hk Hl.
           replace (S i + k)%nat with (i + S k)%nat by lia.
           replace (S i + l)%nat with (i + S l)%nat by lia.
           apply Hpair; [congruence| |]; apply busy_cons_empty; by eexists.
    + pose proof (λ i, busy_cons stream rest i Hstream) as Hb.
      destruct (Hep 0%nat) as [ep Hfirst]; [apply busy_cons; [done|by left]|].
      pose proof Hfirst as Hfirst'. unfold provider_at in Hfirst'.
      replace (i + 0)%nat with i in Hfirst' by lia.
      destruct (plan !! i) as [logic_stream|]; [|done]. simpl in Hfirst'. simpl.
      rewrite Hfirst'. simpl. case_bool_decide as Hseen.
      * exists false. split; [done|]. split; [done|]. intros [Hnot _]. exfalso.
        apply (Hnot 0%nat ep); [apply busy_cons; [done|by left]|done|done].
      * destruct (IH (S i) ({[ep]} ∪ seen)) as (single & -> & Hsingle).
        { intros k Hk. replace (S i + k)%nat with (i + S k)%nat by lia.
          apply Hep, busy_cons; [done|]. right. by exists k. }
        exists single. split; [done|]. rewrite Hsingle. clear Hsingle IH. split.
        -- intros [Hnew Hpair]. split.
           ++ intros k ep' [->|(k' & -> & Hk')]%Hb Hprov; [congruence|].
              replace (i + S k')%nat with (S i + k')%nat in Hprov by lia.
              specialize (Hnew k' ep' Hk' Hprov). set_unfold. tauto.
           ++ assert (∀ k', busy rest k' → provider_at plan (i + 0) ≠ provider_at plan (i + S k'))
                as Hzero.
              { intros k' Hk' Heq. rewrite Hfirst in Heq. symmetry in Heq.
                replace (i + S k')%nat with (S i + k')%nat in Heq by lia.
                specialize (Hnew k' ep Hk' Heq). set_unfold. tauto. }
              intros k l Hkl [->|(k' & -> & Hk')]%Hb [->|(l' & -> & Hl')]%Hb; [done|..].
              ** by apply Hzero.
              ** intros Heq. by apply (Hzero k' Hk').
              ** replace (i + S k')%nat with (S i + k')%nat by lia.
                 replace (i + S l')%nat with (S i + l')%nat by lia.
                 apply Hpair; [congruence|done|done].
        -- intros [Hnot Hpair]. split.
           ++ intros k ep' Hk Hprov.
              assert (busy (stream :: rest) (S k)) as Hbusy.
              { apply busy_cons; [done|]. right. by exists k. }
              replace (S i + k)%nat with (i + S k)%nat in Hprov by lia.
              pose proof (Hnot (S k) ep' Hbusy Hprov) as Hout.
              assert (ep' ≠ ep) as Hne.
              { intros ->. apply (Hpair 0%nat (S k)); [done| |done|congruence].
                apply busy_cons; [done|by left]. }
              set_unfold. tauto.
           ++ intros k l Hkl Hk Hl.
              replace (S i + k)%nat with (i + S k)%nat by lia.
              replace (S i + l)%nat with (i + S l)%nat by lia.
              apply Hpair; [congruence| |]; (apply busy_cons; [done|]); right; by eexists.
Qed.

(** X17. [IsSingleStream] decides that no provider has two streams with
    nodes: when every stream that has nodes has a provider in the
    execution plan, it returns, and it returns [true] exactly when no two
    different streams with nodes have the same provider; streams without
    nodes are not looked at. *)
Theorem IsSingleStream_one_stream_per_provider E built :
  (∀ i, busy (stream_nodes_ E) i → is_Some (stream_ep built i)) →
  ∃ single, IsSingleStream E built = Ok single ∧
    (single = true ↔ one_stream_per_provider E built).
Proof.
  intros Hep.
  destruct (IsSingleStream_from_spec (execution_plan built) (stream_nodes_ E) 0 ∅)
    as (single & Hrun & Hsingle); [done|].
  exists single. split; [done|]. rewrite Hsingle. split.
  - intros [_ Hpair] i j. apply Hpair.
  - intros Hpair. split; [|apply Hpair]. intros k ep _ _. set_solver.
Qed.

Lemma IsSingleStream_one_stream_per_provider_witness :
  ∃ single, IsSingleStream S2.env S2.built = Ok single ∧
    (single = true ↔ one_stream_per_provider S2.env S2.built).
Proof.
  apply (IsSingleStream_one_stream_per_provider S2.env S2.built).
  intros i (stream & Hstream & _). destruct i as [|[|i]].
  - vm_compute. eexists. reflexivity.
  - vm_compute. eexists. reflexivity.
  - simpl in Hstream. discriminate Hstream.
Defined.

(** ** The dependents of a node *)

Lemma upstream_in_nodes graph n m :
  m ∈ upstream_of graph n → m ∈ graph_nodes_of graph.
Proof.
  unfold upstream_of, graph_nodes_of. intros Hm.
  destruct (graph !! n) as [ups|] eqn:Hn; simpl in Hm; [|by apply not_elem_of_empty in Hm].
  apply elem_of_union_r. revert n ups Hn Hm.
  apply (map_fold_weak_ind
           (λ (r : gset NodeIndex) (g : gmap NodeIndex (gset NodeIndex)),
              ∀ n ups, g !! n = Some ups → m ∈ ups → m ∈ r)).
  - intros n ups Hn. by rewrite lookup_empty in Hn.
  - intros i x g r Hi IH n ups Hn Hm. destruct (decide (n = i)) as [->|Hne].
    + rewrite lookup_insert_eq in Hn. injection Hn as ->. by apply elem_of_union_l.
    + rewrite lookup_insert_ne in Hn by done. apply elem_of_union_r. by eapply IH.
Qed.

Lemma search_space_upstream graph n x m :
  m ∈ upstream_of graph x → m ∈ search_space graph n.
Proof. intros Hm. unfold search_space. apply elem_of_union_r. by eapply upstream_in_nodes. Qed.

Lemma size_remaining (space before before' : gset NodeIndex) curr :
  curr ∈ space → curr ∉ before → {[curr]} ∪ before ⊆ before' →
  (size (space ∖ before') < size (space ∖ before))%nat.
Proof.
  intros Hspace Hnew Hsub. apply subset_size. split.
  - intros x [Hx Hout]%elem_of_difference. apply elem_of_difference. split; [done|].
    intros Hin. apply Hout, Hsub. by apply elem_of_union_r.
  - intros Hback. assert (curr ∈ space ∖ before') as [_ Hout]%elem_of_difference.
    { apply Hback. by apply elem_of_difference. }
    apply Hout, Hsub. by apply elem_of_union_l, elem_of_singleton.
Qed.

Lemma dfs_searched opt graph n :
  (∀ s x, x ∈ iteration_order opt s ↔ x ∈ s) →
  ∀ fuel before curr,
    before ⊆ search_space graph n → curr ∈ search_space graph n →
    (size (search_space graph n ∖ before) < fuel)%nat →
    ∃ after, dfs fuel opt graph before curr = Ok after ∧ curr ∈ after ∧
      searched graph (search_space graph n) curr before after.
Proof.
  intros Horder. induction fuel as [|fuel IH]; intros before curr Hbefore Hcurr Hfuel;
    [lia|].
  simpl. case_bool_decide as Hseen.
  { exists before. split; [done|]. split; [done|]. split; [done|]. split; [done|].
    intros x Hx Hnot. by destruct Hnot. }
  set (first := {[curr]} ∪ before).
  assert (first ⊆ search_space graph n) as Hfirst.
  { intros x [->%elem_of_singleton|Hx]%elem_of_union; [done|by apply Hbefore]. }
  assert (∀ l now, (∀ x, x ∈ l → x ∈ upstream_of graph curr) →
            first ⊆ now → now ⊆ search_space graph n →
            ∃ after, foldR (dfs fuel opt graph) l now = Ok after ∧
              (∀ x, x ∈ l → x ∈ after) ∧ now ⊆ after ∧
              after ⊆ search_space graph n ∧
              ∀ x, x ∈ after → x ∉ now →
                depends_on graph curr x ∧ upstream_of graph x ⊆ after) as Hloop.
  { induction l as [|dep l IHl]; intros now Hl Hnow Hspace; simpl.
    - exists now. split; [done|]. split; [by intros x Hx%elem_of_nil|].
      split; [done|]. split; [done|]. intros x Hx Hnot. by destruct Hnot.
    - assert (dep ∈ upstream_of graph curr) as Hdep by apply Hl, list_elem_of_here.
      destruct (IH now dep) as (next & -> & Hin & Hsub & Hnext & Hadded).
      { done. }
      { by eapply search_space_upstream. }
      { pose proof (size_remaining _ _ _ _ Hcurr Hseen Hnow). lia. }
      destruct (IHl next) as (after & Hrun & Hall & Hsub' & Hafter & Hadded').
      { intros x Hx. apply Hl. by apply list_elem_of_further. }
      { by etrans. }
      { done. }
      exists after. split; [done|]. split; [|split; [by etrans|split; [done|]]].
      + intros x [->|Hx]%elem_of_cons; [by apply Hsub'|by apply Hall].
      + intros x Hx Hnot. destruct (decide (x ∈ next)) as [Hxn|Hxn].
        * destruct (Hadded x Hxn Hnot) as [Hreach Hup]. split; [|by etrans].
          eapply rtc_l; [apply Hdep|done].
        * by apply Hadded'. }
  destruct (Hloop (iteration_order opt (upstream_of graph curr)) first)
    as (after & Hrun & Hall & Hsub & Hafter & Hadded).
  { intros x Hx. by apply Horder. }
  { done. }
  { done. }
  assert (curr ∈ after) as Hin by (apply Hsub, elem_of_union_l; by apply elem_of_singleton).
  exists after. split; [done|]. split; [done|]. split; [|split; [done|]].
  - intros x Hx. by apply Hsub, elem_of_union_r.
  - intros x Hx Hnot. destruct (decide (x = curr)) as [->|Hne].
    + split; [done|]. intros m Hm. by apply Hall, Horder.
    + apply Hadded; [done|]. intros [Heq%elem_of_singleton|Hold]%elem_of_union; done.
Qed.

Lemma search_space_size graph n :
  (size (search_space graph n ∖ ∅) < 2 + size (graph_nodes_of graph))%nat.
Proof.
  assert (size (search_space graph n ∖ ∅) ≤ size (search_space graph n))%nat as Hle.
  { apply subseteq_size. by intros x [Hx _]%elem_of_difference. }
  unfold search_space in *.
  pose proof (size_union_alt ({[n]} : gset NodeIndex) (graph_nodes_of graph)) as Hsize.
  rewrite size_singleton in Hsize.
  assert (size (graph_nodes_of graph ∖ {[n]}) ≤ size (graph_nodes_of graph))%nat.
  { apply subseteq_size. by intros x [Hx _]%elem_of_difference. }
  lia.
Qed.

(** X18. [fetch_all_dependents] computes reachability in the dependence
    graph: whatever the order in which the hash sets are walked (as long
    as a walk visits exactly the elements), the search ends and returns
    exactly the nodes that [node_index] depends on, directly or through
    other nodes, [node_index] itself among them. *)
Theorem fetch_all_dependents_reachable opt graph node_index :
  (∀ s x, x ∈ iteration_order opt s ↔ x ∈ s) →
  ∃ dependents, fetch_all_dependents opt graph node_index = Ok dependents ∧
    node_index ∈ dependents ∧
    ∀ m, m ∈ dependents ↔ depends_on graph node_index m.
Proof.
  intros Horder. unfold fetch_all_dependents.
  destruct (dfs_searched opt graph node_index Horder
              (2 + size (graph_nodes_of graph)) ∅ node_index)
    as (dependents & Hrun & Hin & _ & _ & Hadded).
  { intros x Hx. by apply not_elem_of_empty in Hx. }
  { unfold search_space. by apply elem_of_union_l, elem_of_singleton. }
  { apply search_space_size. }
  exists dependents. split; [done|]. split; [done|]. intros m. split.
  - intros Hm. apply (Hadded m Hm), not_elem_of_empty.
  - assert (∀ x, x ∈ dependents → upstream_of graph x ⊆ dependents) as Hclosed.
    { intros x Hx. apply (Hadded x Hx), not_elem_of_empty. }
    intros Hreach. clear Hrun Hadded. revert Hin.
    induction Hreach as [x|x y z Hstep _ IH]; [done|].
    intros Hx. apply IH. by apply (Hclosed x Hx).
Qed.

Lemma fetch_all_dependents_reachable_witness :
  ∃ dependents,
    fetch_all_dependents Race.ascending (dependence_graph_ Race.built) 3%N = Ok dependents ∧
    3%N ∈ dependents ∧
    ∀ m, m ∈ dependents ↔ depends_on (dependence_graph_ Race.built) 3%N m.
Proof.
  apply (fetch_all_dependents_reachable Race.ascending (dependence_graph_ Race.built) 3%N).
  intros s x. simpl. apply elem_of_elements.
Defined.

(** ** The buffers at the end of single-stream planning *)

(** X19. What single-stream planning leaves of the buffers: when
    [ComputeReuseCount] and [ComputeSingleStreamReusePlan] return, no
    value reuses a value that itself reuses another one (every recorded
    buffer is its own buffer); the freelist names no buffer twice, and
    each of its buffers is its own buffer with use count zero; and the
    buffer of a graph output is never on the freelist. *)
Theorem freelist_holds_dead_roots E st st0 st1 :
  defs_processed E st → plan_initial E st →
  NoDup (order_defs E (GetNodesInTopologicalOrder (graph_viewer_ E))) →
  concat (stream_nodes_ E) ≡ₚ GetNodesInTopologicalOrder (graph_viewer_ E) →
  inputs_defined_before E (GetNodesInTopologicalOrder (graph_viewer_ E)) →
  outputs_by_name E →
  ComputeReuseCount E st = Ok st0 →
  ComputeSingleStreamReusePlan E st0 = Ok st1 →
  buffers_are_roots st1 ∧
  NoDup (ml_value <$> freelist_ st1) ∧
  (∀ it, it ∈ freelist_ st1 →
     Buffer st1 (ml_value it) = Ok (ml_value it) ∧ UseCount st1 (ml_value it) = Ok 0) ∧
  (∀ g b, g ∈ graph_output_values E → Buffer st1 g = Ok b →
     b ∉ ml_value <$> freelist_ st1).
Proof.
  intros Hdefs Hinit Hnd Hperm Htopo Hby Hcount Hplan.
  pose proof Hinit as (_ & Hfl & Hempty).
  pose proof (ComputeReuseCount_inv E st st0 Hdefs Hfl Hperm Hcount) as Hinv.
  pose proof (ComputeReuseCount_frame _ _ _ Hcount) as [Hplan0 _].
  pose proof (plan_initial_facts E st st0 Hinit Hplan0) as Hfacts.
  destruct (plan_order_inv E (GetNodesInTopologicalOrder (graph_viewer_ E)) Hempty Hby
              [] 0%nat st0 st1 [] eq_refl Htopo Hnd Hinv Hfacts Hplan)
    as [(Hcover & _ & _ & Hroots & Hdistinct & Hdead) _].
  split; [done|]. split; [done|]. split.
  - intros it Hit. by destruct (Hdead it Hit) as (_ & Hroot & Hzero).
  - intros g b Hg Hb (it & -> & Hit)%list_elem_of_fmap.
    destruct (Hdead it Hit) as (_ & _ & Hzero).
    pose proof (Hcover _ _ Hzero) as Hle. simpl in Hle.
    pose proof (pending_on_elem st1 (graph_output_values E) _ g Hg Hb). lia.
Qed.

Lemma freelist_holds_dead_roots_witness :
  buffers_are_roots S1.planned ∧
  NoDup (ml_value <$> freelist_ S1.planned) ∧
  (∀ it, it ∈ freelist_ S1.planned →
     Buffer S1.planned (ml_value it) = Ok (ml_value it) ∧
     UseCount S1.planned (ml_value it) = Ok 0) ∧
  (∀ g b, g ∈ graph_output_values S1.env → Buffer S1.planned g = Ok b →
     b ∉ ml_value <$> freelist_ S1.planned).
Proof.
  apply (freelist_holds_dead_roots S1.env S1.init S1.counted S1.planned).
  - apply defs_processed_fresh. intros i info Hi.
    destruct i as [|[|[|[|i]]]]; simpl in Hi; try done; by injection Hi as <-.
  - apply plan_initial_entries; [|done|done]. by repeat constructor.
  - apply (bool_decide_unpack _). vm_compute. exact I.
  - vm_compute. reflexivity.
  - solve_topological.
  - solve_outputs_by_name [(0%N, S1.node_A); (1%N, S1.node_B); (2%N, S1.node_C)].
  - vm_compute. reflexivity.
  - vm_compute. reflexivity.
Defined.

(** ** What the optimizer leaves alone *)

Section optimizer_keeps.

Variable P : PlannerState → Prop.
Hypothesis set_reuse_keeps : ∀ st value target st',
  set_reuse st value target = Ok st' → P (planner st) → P (planner st').

Lemma reuse_input_keeps st reusable_input output_idx_global st' :
  reuse_input st reusable_input output_idx_global = Ok st' →
  P (planner st) → P (planner st').
Proof.
  unfold reuse_input. intros (st1 & Hset & [= <-])%bind_Ok Hp. simpl.
  by eapply set_reuse_keeps.
Qed.

Lemma TryReuseInput_alias_keeps E input_args j out alias_map st found st' :
  TryReuseInput_alias E input_args j out alias_map st = Ok (found, st') →
  P (planner st) → P (planner st').
Proof.
  intros Hrun Hp. induction alias_map as [|e rest IH]; simpl in Hrun.
  - by injection Hrun as _ <-.
  - destruct (paired_input input_args (Z.of_nat j) e) as [p|]; [|by apply IH].
    apply bind_Ok in Hrun as (candidate & _ & Hrun).
    destruct candidate as [r|]; [|by apply IH].
    apply bind_Ok in Hrun as (st1 & Hreuse & [= _ <-]). by eapply reuse_input_keeps.
Qed.

Lemma TryReuseInput_variadic_keeps E input_args j out offsets st found st' :
  TryReuseInput_variadic E input_args j out offsets st = Ok (found, st') →
  P (planner st) → P (planner st').
Proof.
  unfold TryReuseInput_variadic. intros Hrun Hp.
  destruct offsets as [[input_offset output_offset]|]; [|by injection Hrun as _ <-].
  destruct (at_index input_args _) as [p|]; [|by injection Hrun as _ <-].
  apply bind_Ok in Hrun as (candidate & _ & Hrun).
  destruct candidate as [r|]; [|by injection Hrun as _ <-].
  apply bind_Ok in Hrun as (st1 & Hreuse & [= _ <-]). by eapply reuse_input_keeps.
Qed.

Lemma TryReuseInput_inplace_keeps E input_args p_out j out st entry st' :
  TryReuseInput_inplace E input_args p_out j out st entry = Ok st' →
  P (planner st) → P (planner st').
Proof.
  unfold TryReuseInput_inplace. intros Hrun Hp.
  destruct (paired_input input_args (Z.of_nat j) entry) as [p|]; [|by injection Hrun as <-].
  apply bind_Ok in Hrun as (candidate & _ & Hrun).
  destruct candidate as [r|]; [|by injection Hrun as <-].
  case_bool_decide; [|by injection Hrun as <-].
  apply bind_Ok in Hrun as (same & _ & Hrun).
  destruct same; [|by injection Hrun as <-]. by eapply reuse_input_keeps.
Qed.

Lemma TryReuseInput_keeps E node_index st st' :
  TryReuseInput E node_index st = Ok st' → P (planner st) → P (planner st').
Proof.
  unfold TryReuseInput. intros (node & _ & Hrun)%bind_Ok Hp.
  revert Hp Hrun. apply (foldR_indexed_inv (λ s, P (planner s))). clear st st'.
  intros st j p_out st' Hp. unfold TryReuseInput_output.
  destruct (ort_value_name_idx_map_ E !! Name p_out) as [out|]; [|by intros [= <-]].
  intros (entry & _ & Hrun)%bind_Ok.
  destruct (negb _); [by injection Hrun as <-|].
  destruct (kernel_create_info_map_ E !! node_index) as [ci|]; [|by injection Hrun as <-].
  destruct (kernel_def ci) as [kd|]; [|by injection Hrun as <-].
  destruct (record_inputs_same E out (InputDefs node) st) as [Hsame _].
  rewrite <- Hsame in Hp.
  apply bind_Ok in Hrun as ([found st1] & Halias & Hrun).
  pose proof (TryReuseInput_alias_keeps _ _ _ _ _ _ _ _ Halias Hp) as Hp1.
  destruct found; [by injection Hrun as <-|].
  apply bind_Ok in Hrun as ([found st2] & Hvar & Hrun).
  pose proof (TryReuseInput_variadic_keeps _ _ _ _ _ _ _ _ Hvar Hp1) as Hp2.
  destruct found; [by injection Hrun as <-|].
  revert Hp2 Hrun. apply (foldR_inv (λ s, P (planner s))). intros s e s' Hs Hbody.
  by eapply TryReuseInput_inplace_keeps.
Qed.

Lemma offer_to_waiting_keeps E value_node_map node_index node_output shape out
    entries st taken st' :
  offer_to_waiting E value_node_map node_index node_output shape out entries st
    = Ok (taken, st') →
  P (planner st) → P (planner st').
Proof.
  intros Hrun Hp. induction entries as [|[downstream_arg owner] rest IH]; simpl in Hrun.
  - by injection Hrun as _ <-.
  - destruct (ort_value_name_idx_map_ E !! Name downstream_arg)
      as [downstream_value|]; [|by apply IH].
    case_bool_decide; [by apply IH|].
    apply bind_Ok in Hrun as (downstream_shape & _ & Hrun).
    apply bind_Ok in Hrun as (same & _ & Hrun).
    destruct same; simpl in Hrun; [|by apply IH].
    case_bool_decide; simpl in Hrun; [|by apply IH].
    case_bool_decide; [|by apply IH].
    apply bind_Ok in Hrun as (st1 & Hset & [= _ <-]). simpl.
    by eapply set_reuse_keeps.
Qed.

Lemma TryReuseOutput_keeps E opt graph value_node_map node_index st st' :
  TryReuseOutput E opt graph value_node_map node_index st = Ok st' →
  P (planner st) → P (planner st').
Proof.
  unfold TryReuseOutput. intros (deps & _ & Hrun)%bind_Ok Hp.
  apply bind_Ok in Hrun as (node & _ & Hrun).
  revert Hrun. apply (foldR_inv (λ s, P (planner s))); [|done].
  clear st st' Hp. intros st node_output st' Hp. unfold TryReuseOutput_output.
  destruct (Exists node_output); simpl; [|by intros [= <-]].
  destruct (ort_value_name_idx_map_ E !! Name node_output) as [out|];
    [|by intros [= <-]].
  intros (skip & _ & Hrun)%bind_Ok. destruct skip; [by injection Hrun as <-|].
  destruct (GetShape (context_ E) node_output) as [shape|]; [|by injection Hrun as <-].
  apply bind_Ok in Hrun as (entry & _ & Hrun).
  destruct (waiting_at st (location entry) (ByteSizeLong opt shape)) as [entries|].
  - apply bind_Ok in Hrun as ([get_reused st1] & Hoffer & Hrun).
    pose proof (offer_to_waiting_keeps _ _ _ _ _ _ _ _ _ _ Hoffer Hp) as Hp1.
    by destruct get_reused as [taken|]; injection Hrun as <-.
  - by injection Hrun as <-.
Qed.

Lemma traverse_keeps E opt graph value_node_map fuel :
  ∀ que dependents st st',
    traverse fuel E opt graph value_node_map que dependents st = Ok st' →
    P (planner st) → P (planner st').
Proof.
  induction fuel as [|fuel IH]; intros [|node_index que] dependents st st'; simpl;
    try by intros [= <-].
  intros (st1 & Hin & (st2 & Hout & Hrest)%bind_Ok)%bind_Ok Hp.
  eapply IH; [done|]. eapply TryReuseOutput_keeps; [done|].
  by eapply TryReuseInput_keeps.
Qed.

End optimizer_keeps.

Lemma set_reuse_same_placement baseline st value target st' :
  set_reuse st value target = Ok st' →
  same_placement baseline (planner st) → same_placement baseline (planner st').
Proof.
  unfold set_reuse. intros (entry & Hentry & [= <-])%bind_Ok (Hinfo & Hfree & Hloc).
  simpl. split; [done|]. split; [done|]. rewrite <- Hloc.
  apply unchecked_Ok in Hentry. unfold at_index in Hentry.
  case_bool_decide; [|done]. simpl. rewrite list_fmap_insert. simpl.
  apply list_insert_id. by rewrite list_lookup_fmap, Hentry.
Qed.

(** X20. The optimizer only rewrites kinds and reuse targets: when
    [OptimizeReusePlanForMultiStream] returns, the use counts, the buffers
    and the freelist are those of the baseline, every value is planned in
    the location it had, and every entry that was not [kAllocate] in the
    baseline is unchanged. *)
Theorem optimizer_keeps_placement E opt graph value_node_map st st' :
  OptimizeReusePlanForMultiStream E opt graph value_node_map st = Ok st' →
  same_placement st st' ∧
  ∀ v entry, AllocPlan st v = Ok entry → alloc_kind entry ≠ kAllocate →
             AllocPlan st' v = Ok entry.
Proof.
  intros Hrun. split.
  - unfold OptimizeReusePlanForMultiStream in Hrun.
    apply bind_Ok in Hrun as (st1 & Hrun & [= <-]).
    apply (traverse_keeps (same_placement st) (set_reuse_same_placement st)) in Hrun;
      [done|]. by split.
  - intros v entry Hentry Hkind.
    destruct (OptimizeReusePlanForMultiStream_entries _ _ _ _ _ _ Hrun v)
      as [->|[(old & Hold & Hallocate) _]]; [done|].
    congruence.
Qed.

Lemma optimizer_keeps_placement_witness :
  same_placement RacePlan.baseline RacePlan.optimized ∧
  ∀ v entry, AllocPlan RacePlan.baseline v = Ok entry → alloc_kind entry ≠ kAllocate →
             AllocPlan RacePlan.optimized v = Ok entry.
Proof.
  apply (optimizer_keeps_placement RacePlan.env Race.ascending
           (dependence_graph_ Race.built) (value_node_map_ Race.built)).
  vm_compute. reflexivity.
Defined.

(** ** Where values are placed *)

Lemma processes_none st st' :
  ort_value_info_ st' = ort_value_info_ st → freelist_ st' = freelist_ st →
  (λ p, (alloc_kind p, reused_buffer p)) <$> allocation_plan st' =
  (λ p, (alloc_kind p, reused_buffer p)) <$> allocation_plan st →
  processes (λ _, False) st st'.
Proof.
  intros Hinfo Hfree Hplan. split; [done|]. split; [|by rewrite Hinfo].
  intros v. left. by rewrite Hinfo.
Qed.

Lemma processes_same st : processes (λ _, False) st st.
Proof. by apply processes_none. Qed.

Lemma processes_iff (S S' : OrtValueIndex → Prop) st st' :
  (∀ v, S v ↔ S' v) → processes S st st' → processes S' st st'.
Proof.
  intros Hiff (Hdone & Hrest & Hframe). split; [|split; [|done]].
  - intros v Hv. by apply Hdone, Hiff.
  - intros v. destruct (Hrest v) as [?|[? ?]]; [by left|right]. split; [|done].
    by apply Hiff.
Qed.

Lemma processes_trans (S1 S2 : OrtValueIndex → Prop) st st1 st2 :
  processes S1 st st1 → processes S2 st1 st2 →
  processes (λ v, S1 v ∨ S2 v) st st2.
Proof.
  intros (Hdone1 & Hrest1 & Hlen1 & Hfree1 & Hplan1) (Hdone2 & Hrest2 & Hlen2 & Hfree2 & Hplan2).
  assert (∀ v, S1 v → processed_at st2 v) as Hkept.
  { intros v Hv. destruct (Hrest2 v) as [Heq|[_ ?]]; [|done].
    destruct (Hdone1 v Hv) as [d Hd]. exists d. by rewrite Heq. }
  split; [|split; [|split; [congruence|split; congruence]]].
  - intros v [Hv|Hv]; [by apply Hkept|by apply Hdone2].
  - intros v. destruct (Hrest2 v) as [Heq2|[Hv ?]]; [|right; split; [by right|done]].
    destruct (Hrest1 v) as [Heq1|[Hv ?]]; [left; congruence|].
    right. split; [by left|]. by apply Hkept.
Qed.

Lemma foldR_processes {A St} (located : St → PlannerState)
    (R : A → OrtValueIndex → Prop) (body : St → A → Result St) (l : list A) :
  (∀ s x s', body s x = Ok s' → processes (R x) (located s) (located s')) →
  ∀ st st', foldR body l st = Ok st' →
    processes (λ v, ∃ x, x ∈ l ∧ R x v) (located st) (located st').
Proof.
  intros Hbody. induction l as [|x l IH]; intros st st'; simpl.
  - intros [= <-]. eapply processes_iff; [|apply processes_same].
    intros v. split; [done|]. by intros (x & ?%elem_of_nil & _).
  - intros (st1 & H1%Hbody & Hrest%IH)%bind_Ok.
    eapply processes_iff; [|by eapply processes_trans]. intros v. cbv beta. split.
    + intros [HR|(y & Hy & HR)]; [exists x|exists y]; split; try done; [by left|by right].
    + intros (y & [->|Hy]%elem_of_cons & HR); [by left|]. right. by exists y.
Qed.

Lemma foldR_indexed_processes {A St} (located : St → PlannerState)
    (R : A → OrtValueIndex → Prop) (body : St → nat → A → Result St) (l : list A) :
  (∀ s i x s', body s i x = Ok s' → processes (R x) (located s) (located s')) →
  ∀ i st st', foldR_indexed body i l st = Ok st' →
    processes (λ v, ∃ x, x ∈ l ∧ R x v) (located st) (located st').
Proof.
  intros Hbody. induction l as [|x l IH]; intros i st st'; simpl.
  - intros [= <-]. eapply processes_iff; [|apply processes_same].
    intros v. split; [done|]. by intros (x & ?%elem_of_nil & _).
  - intros (st1 & H1%Hbody & Hrest%IH)%bind_Ok.
    eapply processes_iff; [|by eapply processes_trans]. intros v. cbv beta. split.
    + intros [HR|(y & Hy & HR)]; [exists x|exists y]; split; try done; [by left|by right].
    + intros (y & [->|Hy]%elem_of_cons & HR); [by left|]. right. by exists y.
Qed.

Lemma ProcessDef_processes st id p_def_site st' :
  ProcessDef st id p_def_site = Ok st' → processes (λ v, v = id) st st'.
Proof.
  intros Hrun. pose proof (update_info_lookup _ _ _ _ id Hrun) as Hid.
  rewrite decide_True in Hid by done.
  destruct (update_info_Ok _ _ _ _ Hrun) as (info & Hinfo & _).
  rewrite Hinfo in Hid. simpl in Hid.
  destruct (update_info_frame _ _ _ _ Hrun) as (Hplan & Hfree & Hlen).
  split; [|split; [|split; [done|split; [done|by rewrite Hplan]]]].
  - intros v ->. by exists p_def_site.
  - intros v. destruct (decide (v = id)) as [->|Hne].
    + right. split; [done|]. by exists p_def_site.
    + left. rewrite (update_info_lookup _ _ _ _ v Hrun). by rewrite decide_False.
Qed.

Lemma SetLocation_processes st index info st' :
  SetLocation st index info = Ok st' → processes (λ _, False) st st'.
Proof.
  unfold SetLocation. intros (entry & Hentry%unchecked_Ok & [= <-])%bind_Ok.
  apply processes_none; [done|done|]. simpl.
  apply at_index_Some in Hentry as [_ Hentry].
  rewrite list_fmap_insert. simpl. apply list_insert_id.
  by rewrite list_lookup_fmap, Hentry.
Qed.

Lemma process_input_processes E L node_index exec_provider is_implicit_input st input
    arg_idx st' :
  process_input E L node_index exec_provider is_implicit_input st input arg_idx = Ok st' →
  processes (λ _, False) (located st) (located st').
Proof.
  unfold process_input. destruct (_ || _); [|intros [= <-]; apply processes_same].
  intros (index & _ & Hrun)%bind_Ok. destruct is_implicit_input; simpl in Hrun.
  - destruct (_ && _).
    { apply bind_Ok in Hrun as (? & _ & Hrun).
      destruct (outer_scope_node_arg_to_location_map_ L !! Name input) as [outer_location|];
        [|injection Hrun as <-; apply processes_same].
      apply bind_Ok in Hrun as (p & Hset & [= <-]). by eapply SetLocation_processes. }
    case_bool_decide; [|injection Hrun as <-; apply processes_same].
    case_bool_decide; [|injection Hrun as <-; apply processes_same].
    destruct (map_implicitly_consumed_node_arg_to_ep st !! index) as [already_seen_ep|].
    + case_bool_decide.
      * apply bind_Ok in Hrun as (info & _ & Hrun).
        apply bind_Ok in Hrun as (p & Hset & [= <-]). by eapply SetLocation_processes.
      * apply bind_Ok in Hrun as (cpu_provider & _ & Hrun).
        apply bind_Ok in Hrun as (info & _ & Hrun).
        apply bind_Ok in Hrun as (p & Hset & [= <-]). by eapply SetLocation_processes.
    + apply bind_Ok in Hrun as (info & _ & Hrun).
      apply bind_Ok in Hrun as (p & Hset & [= <-]). by eapply SetLocation_processes.
  - apply bind_Ok in Hrun as (info & _ & Hrun).
    apply bind_Ok in Hrun as (p & Hset & [= <-]). by eapply SetLocation_processes.
Qed.

Lemma process_inputs_processes E L node_index exec_provider is_implicit_input args st st' :
  ForEachWithIndex_at args (process_input E L node_index exec_provider is_implicit_input) st
    = Ok st' →
  processes (λ _, False) (located st) (located st').
Proof.
  unfold ForEachWithIndex_at. intros Hrun.
  apply (foldR_indexed_processes located (λ _ _, False)) in Hrun.
  - eapply processes_iff; [|done]. intros v. split; [|done]. by intros (x & _ & ?).
  - intros s i x s'. destruct (Exists x); [|intros [= <-]; apply processes_same].
    apply process_input_processes.
Qed.

Lemma locate_output_processes E L node_index exec_provider st i node_output st' :
  locate_output E L node_index exec_provider st i node_output = Ok st' →
  processes (λ v, arg_value E node_output = Some v) (located st) (located st').
Proof.
  unfold locate_output. destruct (Exists node_output) eqn:Hexists; simpl.
  - intros (index & Hindex & Hrun)%bind_Ok.
    apply bind_Ok in Hrun as (p & Hdef%ProcessDef_processes & Hrun).
    apply bind_Ok in Hrun as (info & _ & Hrun).
    apply bind_Ok in Hrun as (p' & Hset%SetLocation_processes & [= <-]). simpl.
    eapply processes_iff; [|by eapply processes_trans]. intros v. cbv beta.
    rewrite <- (arg_value_Index E node_output v Hexists), Hindex.
    split; [intros [->|[]]; done|]. intros [= ->]. by left.
  - intros [= <-]. eapply processes_iff; [|apply processes_same].
    intros v. split; [done|]. unfold arg_value. by rewrite Hexists.
Qed.

Lemma ComputeValueLocation_node_processes E L st node_index st' :
  ComputeValueLocation_node E L st node_index = Ok st' →
  processes (λ v, v ∈ of_node E (node_defs E) node_index) (located st) (located st').
Proof.
  unfold ComputeValueLocation_node, of_node.
  destruct (GetNode (graph_viewer_ E) node_index) as [pnode|]; [|done].
  intros (kernel_create_info & _ & Hrun)%bind_Ok.
  apply bind_Ok in Hrun as (? & _ & Hrun).
  destruct (Get_provider _ _) as [exec_provider|]; [|done].
  apply bind_Ok in Hrun as (st1 & H1%process_inputs_processes & Hrun).
  apply bind_Ok in Hrun as (st2 & H2%process_inputs_processes & Hrun).
  apply (foldR_indexed_processes located (λ node_output v, arg_value E node_output = Some v))
    in Hrun; [|intros s0 i0 a s1; apply locate_output_processes].
  eapply processes_iff;
    [|eapply processes_trans; [eapply processes_trans; [exact H1|exact H2]|exact Hrun]].
  intros v. cbv beta. unfold node_defs. rewrite list_elem_of_omap. tauto.
Qed.

Lemma process_named_processes E st name p_def_site st' :
  process_named E st name p_def_site = Ok st' →
  processes (λ v, ort_value_name_idx_map_ E !! name = Some v) st st'.
Proof.
  unfold process_named. intros (index & Hindex%checked_Ok & Hrun%ProcessDef_processes)%bind_Ok.
  eapply processes_iff; [|done]. intros v. cbv beta. rewrite Hindex.
  split; [by intros ->|by intros [= ->]].
Qed.

Lemma ComputeValueLocation_processes E L st st' :
  ComputeValueLocation E L st = Ok st' →
  processes (λ v, v ∈ processed_values E) st st'.
Proof.
  unfold ComputeValueLocation. intros (st1 & H1 & Hrun)%bind_Ok.
  apply bind_Ok in Hrun as (st2 & H2 & Hrun).
  apply bind_Ok in Hrun as (st3 & H3 & Hrun).
  apply bind_Ok in Hrun as (st4 & H4 & [= <-]).
  apply (foldR_processes id (λ a v, ort_value_name_idx_map_ E !! Name a = Some v)) in H1;
    [|intros s x s'; apply process_named_processes].
  apply (foldR_processes id (λ a v, ort_value_name_idx_map_ E !! Name a = Some v)) in H2;
    [|intros s x s'; apply process_named_processes].
  apply (foldR_processes id (λ name v, ort_value_name_idx_map_ E !! name = Some v)) in H3;
    [|intros s x s'; apply process_named_processes].
  apply (foldR_processes located
           (λ stream v, ∃ n, n ∈ stream ∧ v ∈ of_node E (node_defs E) n)) in H4.
  2:{ intros s stream s'.
      apply (foldR_processes located (λ n v, v ∈ of_node E (node_defs E) n)).
      intros s0 n s1. apply ComputeValueLocation_node_processes. }
  simpl in H4.
  eapply processes_iff;
    [|eapply processes_trans;
       [eapply processes_trans; [eapply processes_trans; [exact H1|exact H2]|exact H3]
       |exact H4]].
  intros v. cbv beta. unfold processed_values, order_defs.
  rewrite elem_of_app, list_elem_of_omap, list_elem_of_bind. split.
  - intros [[[(a & Ha & Hv)|(a & Ha & Hv)]|(name & Hname & Hv)]|(stream & Hstream & n & Hn & Hv)].
    + left. exists (Name a). split; [|done]. apply elem_of_app. left.
      by apply list_elem_of_fmap_2.
    + left. exists (Name a). split; [|done]. apply elem_of_app. right.
      apply elem_of_app. left. by apply list_elem_of_fmap_2.
    + left. exists name. split; [|done]. apply elem_of_app. right.
      apply elem_of_app. by right.
    + right. exists n. split; [done|]. apply elem_of_concat. by exists stream.
  - intros [(name & [Hname|[Hname|Hname]%elem_of_app]%elem_of_app & Hv)
           |(n & Hv & (stream & Hn & Hstream)%elem_of_concat)].
    + apply list_elem_of_fmap in Hname as (a & -> & Ha). left. left. left. by exists a.
    + apply list_elem_of_fmap in Hname as (a & -> & Ha). left. left. right. by exists a.
    + left. right. by exists name.
    + right. exists stream. split; [done|]. by exists n.
Qed.

Lemma resize_new {A} (n : nat) (fresh : A) : resize n fresh [] = replicate n fresh.
Proof. unfold resize. rewrite take_nil. simpl. by rewrite Nat.sub_0_r. Qed.

Lemma at_index_replicate {A} (n : nat) (x y : A) (v : Z) :
  at_index (replicate n x) v = Some y → y = x.
Proof. intros [_ Hv]%at_index_Some. by apply lookup_replicate in Hv as [-> _]. Qed.

Lemma located_infos E L unset num_ml_values st :
  ComputeValueLocation E L (PlannerImpl_Initialize unset num_ml_values new_planner) = Ok st →
  ∀ v info, at_index (ort_value_info_ st) v = Some info →
    usecount info = 0 ∧
    ((reused_buffer_index info = v ∧ v ∈ processed_values E) ∨
     (reused_buffer_index info = -1 ∧ 0 ≤ v)).
Proof.
  intros (_ & Hrest & _)%ComputeValueLocation_processes v info Hinfo.
  destruct (Hrest v) as [Heq|[Hv [d Hd]]].
  - rewrite Hinfo in Heq. symmetry in Heq. simpl in Heq. rewrite resize_new in Heq.
    pose proof Heq as [Hge _]%at_index_Some.
    apply at_index_replicate in Heq as ->. split; [done|]. by right.
  - rewrite Hinfo in Hd. injection Hd as ->. split; [done|]. by left.
Qed.

(** X21. [Initialize] and [ComputeValueLocation] prepare reuse planning:
    when [ComputeValueLocation] returns on a planner that has just been
    initialized, a value owns its buffer exactly when it is the value of
    a graph input, of an outer-scope argument, of an initializer or of an
    existing output of a node of the streams, and every other value has
    buffer [-1]; all use counts are zero, the freelist is empty, and of
    the plan only locations have been set.  If the streams hold the nodes
    of the topological order, this is the state [defs_processed] that
    reuse planning starts from. *)
Theorem ComputeValueLocation_processes_defs E L unset num_ml_values st :
  concat (stream_nodes_ E) ≡ₚ GetNodesInTopologicalOrder (graph_viewer_ E) →
  ComputeValueLocation E L (PlannerImpl_Initialize unset num_ml_values new_planner) = Ok st →
  defs_processed E st ∧
  (∀ v, Buffer st v = Ok v ↔ v ∈ processed_values E) ∧
  (∀ v c, UseCount st v = Ok c → c = 0) ∧
  freelist_ st = [] ∧
  length (ort_value_info_ st) = num_ml_values ∧
  (λ p, (alloc_kind p, reused_buffer p)) <$> allocation_plan st =
  replicate num_ml_values (alloc_kind unset, reused_buffer unset).
Proof.
  intros Hperm Hrun. pose proof (located_infos _ _ _ _ _ Hrun) as Hinfos.
  destruct (ComputeValueLocation_processes _ _ _ _ Hrun)
    as (Hdone & _ & Hlen & Hfree & Hplan).
  assert (∀ v, v ∈ processed_values E → Buffer st v = Ok v) as Hown.
  { intros v [d Hd]%Hdone. unfold Buffer. by rewrite Hd. }
  assert (∀ v b, Buffer st v = Ok b →
            (b = v ∧ v ∈ processed_values E) ∨ (b = -1 ∧ 0 ≤ v)) as Hbuffer.
  { intros v b. unfold Buffer.
    destruct (at_index (ort_value_info_ st) v) as [info|] eqn:Hinfo; [|done].
    intros [= <-]. by destruct (Hinfos v info Hinfo) as [_ ?]. }
  assert (∀ v c, UseCount st v = Ok c → c = 0) as Hcount.
  { intros v c. unfold UseCount.
    destruct (at_index (ort_value_info_ st) v) as [info|] eqn:Hinfo; [|done].
    intros [= <-]. by destruct (Hinfos v info Hinfo) as [? _]. }
  split; [unfold defs_processed; split_and!|split_and!].
  - intros v c ->%Hcount. done.
  - intros v b [[-> _]|[-> _]]%Hbuffer; [by left|by right].
  - intros v b Hv Hb. assert (v ∈ processed_values E) as Hin.
    { apply elem_of_app. right. unfold order_defs in *. by rewrite Hperm. }
    apply Hown in Hin. congruence.
  - intros v. split; [|apply Hown].
    intros [[_ ?]|[-> ?]]%Hbuffer; [done|lia].
  - done.
  - done.
  - rewrite Hlen. simpl. by rewrite resize_new, length_replicate.
  - rewrite Hplan. simpl. by rewrite resize_new, fmap_replicate.
Qed.

Lemma ComputeValueLocation_processes_defs_witness :
  defs_processed S1.env Located.located ∧
  (∀ v, Buffer Located.located v = Ok v ↔ v ∈ processed_values S1.env) ∧
  (∀ v c, UseCount Located.located v = Ok c → c = 0) ∧
  freelist_ Located.located = [] ∧
  length (ort_value_info_ Located.located) = 4%nat ∧
  (λ p, (alloc_kind p, reused_buffer p)) <$> allocation_plan Located.located =
  replicate 4 (kNotSet, 0).
Proof.
  apply (ComputeValueLocation_processes_defs S1.env Located.inputs Located.unset 4
           Located.located).
  - vm_compute. reflexivity.
  - vm_compute. reflexivity.
Defined.

(** ** An explicit consumer decides the location *)

Lemma foldR_indexed_inv_at {A St} (P : St → Prop) (body : St → nat → A → Result St)
    (l : list A) :
  ∀ i0, (∀ s p x s', l !! p = Some x → P s → body s (i0 + p)%nat x = Ok s' → P s') →
  ∀ s s', P s → foldR_indexed body i0 l s = Ok s' → P s'.
Proof.
  induction l as [|x l IH]; intros i0 Hbody s s' Hs; simpl.
  - by intros [= <-].
  - intros (s1 & H1 & Hrest)%bind_Ok. eapply (IH (S i0)); [| |done].
    + intros s2 p y s3 Hp. replace (S i0 + p)%nat with (i0 + S p)%nat by lia.
      by apply Hbody.
    + eapply (Hbody s 0%nat x); [done|done|]. by rewrite Nat.add_0_r.
Qed.

Lemma foldR_indexed_reaches {A St} (P Q : St → Prop) (body : St → nat → A → Result St)
    (l : list A) :
  ∀ (p : nat) (x : A) i0, l !! p = Some x →
  (∀ s q y s', l !! q = Some y → P s → body s (i0 + q)%nat y = Ok s' →
               P s' ∧ (Q s → Q s')) →
  (∀ s s', P s → body s (i0 + p)%nat x = Ok s' → Q s') →
  ∀ s s', P s → foldR_indexed body i0 l s = Ok s' → P s' ∧ Q s'.
Proof.
  induction l as [|y l IH]; intros p x i0 Hp Hkeep Hhere s s' Hs; [done|].
  simpl. intros (s1 & H1 & Hrest)%bind_Ok.
  assert (∀ s q z s', l !! q = Some z → P s → body s (S i0 + q)%nat z = Ok s' →
                      P s' ∧ (Q s → Q s')) as Hkeep'.
  { intros s2 q z s3 Hq. replace (S i0 + q)%nat with (i0 + S q)%nat by lia.
    by apply Hkeep. }
  destruct (Hkeep s 0%nat y s1) as [Hs1 _]; [done|done|by rewrite Nat.add_0_r|].
  destruct p as [|p]; simpl in Hp.
  - injection Hp as ->. rewrite Nat.add_0_r in Hhere.
    pose proof (Hhere s s1 Hs H1) as Hq1. revert Hrest.
    apply (foldR_indexed_inv_at (λ s, P s ∧ Q s)); [|done].
    intros s2 q z s3 Hq [Hp2 Hq2] Hstep.
    destruct (Hkeep' s2 q z s3 Hq Hp2 Hstep) as [? Hmono]. split; [done|by apply Hmono].
  - eapply (IH p x (S i0)); [done|done| |done|done]. intros s2 s3.
    replace (S i0 + p)%nat with (i0 + S p)%nat by lia. apply Hhere.
Qed.

Lemma foldR_reaches {A St} (P Q : St → Prop) (body : St → A → Result St)
    (l : list A) (x : A) :
  x ∈ l →
  (∀ s y s', y ∈ l → P s → body s y = Ok s' → P s' ∧ (Q s → Q s')) →
  (∀ s s', P s → body s x = Ok s' → Q s') →
  ∀ s s', P s → foldR body l s = Ok s' → P s' ∧ Q s'.
Proof.
  induction l as [|y l IH]; intros Hx Hkeep Hhere s s' Hs.
  { by apply elem_of_nil in Hx. }
  simpl. intros (s1 & H1 & Hrest)%bind_Ok.
  assert (∀ s z s', z ∈ l → P s → body s z = Ok s' → P s' ∧ (Q s → Q s')) as Hkeep'.
  { intros s2 z s3 Hz. apply Hkeep. by right. }
  destruct (Hkeep s y s1) as [Hs1 _]; [by left|done|done|].
  apply elem_of_cons in Hx as [->|Hx].
  - pose proof (Hhere s s1 Hs H1) as Hq1. revert Hrest.
    apply (foldR_inv_elem (λ s, P s ∧ Q s)); [|done].
    intros s2 z s3 Hz [Hp2 Hq2] Hstep.
    destruct (Hkeep' s2 z s3 Hz Hp2 Hstep) as [? Hmono]. split; [done|by apply Hmono].
  - by eapply IH.
Qed.

Lemma SetLocation_location st index info st' :
  SetLocation st index info = Ok st' →
  ∀ v, location_of st' v = if decide (v = index) then Some info else location_of st v.
Proof.
  unfold SetLocation. intros (entry & Hentry%unchecked_Ok & [= <-])%bind_Ok.
  intros v. unfold location_of. simpl.
  rewrite (at_index_insert _ _ _ _ _ Hentry). by case_decide.
Qed.

Lemma ProcessDef_location st id p_def_site st' v :
  ProcessDef st id p_def_site = Ok st' → location_of st' v = location_of st v.
Proof.
  intros (Hplan & _)%update_info_frame. unfold location_of. by rewrite Hplan.
Qed.

Section explicit_consumer.

Variable E : PlannerEnv.
Variable L : LocationInputs.
Variable v : OrtValueIndex.
Variable place : OrtMemoryInfo.
Hypothesis consumers_agree : ∀ n pnode k,
  explicit_consumer E L v n pnode k → consumer_location L pnode k = Some place.
Hypothesis not_defined : v ∉ order_defs E (concat (stream_nodes_ E)).

Lemma explicit_input_placed n pnode exec_provider k input st st' :
  n ∈ concat (stream_nodes_ E) → GetNode (graph_viewer_ E) n = Some pnode →
  Get_provider (execution_providers_ L) (GetExecutionProviderType pnode) = Some exec_provider →
  InputDefs pnode !! k = Some input → Exists input = true →
  process_input E L (Node_Index pnode) exec_provider false st input k = Ok st' →
  explicit_placed v place st →
  explicit_placed v place st' ∧ (v ∈ set_node_arg_has_explicit_consumer st → v ∈ set_node_arg_has_explicit_consumer st') ∧
  (explicit_consumer E L v n pnode k → v ∈ set_node_arg_has_explicit_consumer st').
Proof.
  intros Hn Hnode Hep Hinput Hexists. unfold process_input.
  destruct (_ || _) eqn:Hgraph.
  - intros (index & Hindex%checked_Ok & Hrun)%bind_Ok Hplaced. simpl in Hrun.
    apply bind_Ok in Hrun as (info & Hinfo%unchecked_Ok & Hrun).
    apply bind_Ok in Hrun as (p & Hset & [= <-]).
    unfold explicit_placed. simpl. rewrite (SetLocation_location _ _ _ _ Hset). split; [|split].
    + destruct (decide (v = index)) as [Heq|Hv].
      * intros _. f_equal.
        assert (consumer_location L pnode k = Some place) as Hplace.
        { apply (consumers_agree n). split; [done|]. split; [done|]. exists input.
          split; [done|]. split; [done|]. split; [|by rewrite Heq].
          apply orb_true_iff in Hgraph as [?%bool_decide_eq_true|?%bool_decide_eq_true];
            [by left|by right]. }
        unfold consumer_location in Hplace. rewrite Hep in Hplace. simpl in Hplace.
        congruence.
      * intros [?%elem_of_singleton|?]%elem_of_union; [done|]. by apply Hplaced.
    + intros ?. by apply elem_of_union_r.
    + intros (_ & _ & input' & Hinput' & _ & _ & Hv).
      rewrite Hinput in Hinput'. injection Hinput' as <-.
      rewrite Hindex in Hv. injection Hv as ->. apply elem_of_union_l.
      by apply elem_of_singleton.
  - intros [= <-] Hplaced. split; [done|]. split; [done|].
    intros (_ & _ & input' & Hinput' & _ & Hnamed & _).
    rewrite Hinput in Hinput'. injection Hinput' as <-.
    apply orb_false_iff in Hgraph as [Hg%bool_decide_eq_false Ho%bool_decide_eq_false].
    tauto.
Qed.

Lemma implicit_input_placed node_index exec_provider k input st st' :
  process_input E L node_index exec_provider true st input k = Ok st' →
  explicit_placed v place st →
  explicit_placed v place st' ∧
  set_node_arg_has_explicit_consumer st' = set_node_arg_has_explicit_consumer st.
Proof.
  unfold process_input. destruct (_ || _); [|by intros [= <-]].
  intros (index & _ & Hrun)%bind_Ok Hplaced. simpl in Hrun.
  assert (∀ p info, index ∉ set_node_arg_has_explicit_consumer st →
            SetLocation (located st) index info = Ok p →
            v ∈ set_node_arg_has_explicit_consumer st → location_of p v = Some place)
    as Hother.
  { intros p info Hnew Hset Hv. rewrite (SetLocation_location _ _ _ _ Hset).
    rewrite decide_False by (by intros ->). by apply Hplaced. }
  destruct (_ && _) eqn:Hcase1.
  { apply andb_true_iff in Hcase1 as [_ Hnew%bool_decide_eq_true].
    apply bind_Ok in Hrun as (? & _ & Hrun).
    destruct (outer_scope_node_arg_to_location_map_ L !! Name input) as [outer_location|];
      [|by injection Hrun as <-].
    apply bind_Ok in Hrun as (p & Hset & [= <-]). split; [|done].
    unfold explicit_placed. simpl. by eapply Hother. }
  case_bool_decide as Hnew; [|by injection Hrun as <-].
  case_bool_decide; [|by injection Hrun as <-].
  destruct (map_implicitly_consumed_node_arg_to_ep st !! index) as [already_seen_ep|].
  - case_bool_decide.
    + apply bind_Ok in Hrun as (info & _ & Hrun).
      apply bind_Ok in Hrun as (p & Hset & [= <-]). split; [|done].
      unfold explicit_placed. simpl. by eapply Hother.
    + apply bind_Ok in Hrun as (cpu_provider & _ & Hrun).
      apply bind_Ok in Hrun as (info & _ & Hrun).
      apply bind_Ok in Hrun as (p & Hset & [= <-]). split; [|done].
      unfold explicit_placed. simpl. by eapply Hother.
  - apply bind_Ok in Hrun as (info & _ & Hrun).
    apply bind_Ok in Hrun as (p & Hset & [= <-]). split; [|done].
    unfold explicit_placed. simpl. by eapply Hother.
Qed.

Lemma located_output_placed n pnode exec_provider i node_output st st' :
  n ∈ concat (stream_nodes_ E) → GetNode (graph_viewer_ E) n = Some pnode →
  node_output ∈ OutputDefs pnode →
  locate_output E L (Node_Index pnode) exec_provider st i node_output = Ok st' →
  explicit_placed v place st →
  explicit_placed v place st' ∧
  set_node_arg_has_explicit_consumer st' = set_node_arg_has_explicit_consumer st.
Proof.
  intros Hn Hnode Hout. unfold locate_output.
  destruct (Exists node_output) eqn:Hexists; simpl; [|by intros [= <-]].
  intros (index & Hindex & Hrun)%bind_Ok Hplaced.
  apply bind_Ok in Hrun as (p & Hdef & Hrun).
  apply bind_Ok in Hrun as (info & _ & Hrun).
  apply bind_Ok in Hrun as (p' & Hset & [= <-]).
  split; [|done]. unfold explicit_placed. simpl. intros Hv. rewrite (SetLocation_location _ _ _ _ Hset).
  rewrite decide_False; [rewrite (ProcessDef_location _ _ _ _ _ Hdef); by apply Hplaced|].
  intros ->. apply not_defined. unfold order_defs. apply list_elem_of_bind.
  exists n. split; [|done]. unfold of_node. rewrite Hnode. unfold node_defs.
  apply list_elem_of_omap. exists node_output. split; [done|].
  by apply (arg_value_Index E node_output index Hexists).
Qed.

Lemma located_node_placed n st st' :
  n ∈ concat (stream_nodes_ E) →
  ComputeValueLocation_node E L st n = Ok st' →
  explicit_placed v place st →
  explicit_placed v place st' ∧ (v ∈ set_node_arg_has_explicit_consumer st → v ∈ set_node_arg_has_explicit_consumer st') ∧
  (∀ pnode k, explicit_consumer E L v n pnode k → v ∈ set_node_arg_has_explicit_consumer st').
Proof.
  intros Hn. unfold ComputeValueLocation_node.
  destruct (GetNode (graph_viewer_ E) n) as [pnode|] eqn:Hnode; [|done].
  intros (kernel_create_info & _ & Hrun)%bind_Ok Hplaced.
  apply bind_Ok in Hrun as (? & _ & Hrun).
  destruct (Get_provider _ _) as [exec_provider|] eqn:Hep; [|done].
  apply bind_Ok in Hrun as (st1 & Hexplicit & Hrun).
  apply bind_Ok in Hrun as (st2 & Himplicit & Houtputs).
  unfold ForEachWithIndex_at in Hexplicit, Himplicit.
  assert (∀ s q input s', InputDefs pnode !! q = Some input → explicit_placed v place s →
            (if Exists input
             then process_input E L (Node_Index pnode) exec_provider false s input (0 + q)
             else mret s) = Ok s' →
            explicit_placed v place s' ∧ (v ∈ set_node_arg_has_explicit_consumer s → v ∈ set_node_arg_has_explicit_consumer s') ∧
            (explicit_consumer E L v n pnode q → v ∈ set_node_arg_has_explicit_consumer s')) as Hstep.
  { intros s q input s' Hq Hs. destruct (Exists input) eqn:Hexists.
    - intros Hrun'. by eapply explicit_input_placed.
    - intros [= <-]. split; [done|]. split; [done|].
      intros (_ & _ & input' & Hinput' & Hexists' & _). congruence. }
  assert (explicit_placed v place st1 ∧ (v ∈ set_node_arg_has_explicit_consumer st → v ∈ set_node_arg_has_explicit_consumer st1))
    as [Hplaced1 Hkept1].
  { revert Hexplicit.
    apply (foldR_indexed_inv_at
             (λ s, explicit_placed v place s ∧ (v ∈ set_node_arg_has_explicit_consumer st → v ∈ set_node_arg_has_explicit_consumer s)));
      [|done].
    intros s q input s' Hq [Hs Hkept] Hrun'.
    destruct (Hstep s q input s' Hq Hs Hrun') as (? & Hmono & _). split; [done|].
    intros ?. by apply Hmono, Hkept. }
  assert (∀ pnode' k, explicit_consumer E L v n pnode' k → v ∈ set_node_arg_has_explicit_consumer st1) as Hseen1.
  { intros pnode' k Hconsumer.
    pose proof Hconsumer as (_ & Hnode' & input & Hinput & _).
    rewrite Hnode in Hnode'. injection Hnode' as <-.
    eapply (foldR_indexed_reaches (explicit_placed v place)
              (λ s, v ∈ set_node_arg_has_explicit_consumer s) _ _ k input 0%nat Hinput); [| |exact Hplaced|exact Hexplicit].
    - intros s q y s' Hq Hs Hrun'.
      destruct (Hstep s q y s' Hq Hs Hrun') as (? & ? & _). by split.
    - intros s s' Hs Hrun'.
      destruct (Hstep s k input s' Hinput Hs Hrun') as (_ & _ & Hreach). by apply Hreach. }
  assert (explicit_placed v place st2 ∧
          set_node_arg_has_explicit_consumer st2 = set_node_arg_has_explicit_consumer st1)
    as [Hplaced2 Hsame2].
  { revert Himplicit.
    apply (foldR_indexed_inv
             (λ s, explicit_placed v place s ∧
                   set_node_arg_has_explicit_consumer s =
                   set_node_arg_has_explicit_consumer st1)); [|done].
    intros s i input s' [Hs Hsame]. destruct (Exists input); [|by intros [= <-]].
    intros [? Heq]%implicit_input_placed; [|done]. split; [done|congruence]. }
  assert (explicit_placed v place st' ∧
          set_node_arg_has_explicit_consumer st' = set_node_arg_has_explicit_consumer st1)
    as [Hplaced3 Hsame3].
  { revert Houtputs.
    apply (foldR_indexed_inv_elem
             (λ s, explicit_placed v place s ∧
                   set_node_arg_has_explicit_consumer s =
                   set_node_arg_has_explicit_consumer st1)); [|by split].
    intros s i node_output s' Hout [Hs Hsame] Hrun'.
    destruct (located_output_placed n pnode exec_provider i node_output s s')
      as [? Heq]; try done.
    split; [done|congruence]. }
  split; [done|]. rewrite Hsame3. split; [done|]. intros pnode' k. apply Hseen1.
Qed.

Lemma located_streams_placed st st' :
  foldR (λ st stream_execution_order,
           foldR (ComputeValueLocation_node E L) stream_execution_order st)
        (stream_nodes_ E) st = Ok st' →
  explicit_placed v place st →
  (∃ n pnode k, explicit_consumer E L v n pnode k) →
  location_of (located st') v = Some place.
Proof.
  intros Hrun Hplaced (n & pnode & k & Hconsumer).
  pose proof Hconsumer as ((stream & Hn & Hstream)%elem_of_concat & _).
  assert (∀ stream' s s', stream' ∈ stream_nodes_ E → explicit_placed v place s →
            foldR (ComputeValueLocation_node E L) stream' s = Ok s' →
            explicit_placed v place s' ∧ (v ∈ set_node_arg_has_explicit_consumer s → v ∈ set_node_arg_has_explicit_consumer s')) as Hkeep.
  { intros stream' s s' Hin Hs Hrun'. revert Hrun'.
    apply (foldR_inv_elem
             (λ s0, explicit_placed v place s0 ∧ (v ∈ set_node_arg_has_explicit_consumer s → v ∈ set_node_arg_has_explicit_consumer s0)));
      [|done].
    intros s0 m s1 Hm [Hs0 Hkept] Hstep.
    destruct (located_node_placed m s0 s1) as (? & Hmono & _); [|done|done|].
    { apply elem_of_concat. by exists stream'. }
    split; [done|]. intros ?. by apply Hmono, Hkept. }
  destruct (foldR_reaches (explicit_placed v place) (λ s, v ∈ set_node_arg_has_explicit_consumer s)
              (λ st stream_execution_order,
                 foldR (ComputeValueLocation_node E L) stream_execution_order st)
              (stream_nodes_ E) stream Hstream) with (s := st) (s' := st')
    as [Hend Hseen]; [| |done|done|by apply Hend].
  - intros s stream' s' Hin Hs Hrun'. by apply (Hkeep stream').
  - intros s s' Hs.
    apply (foldR_reaches (explicit_placed v place) (λ s, v ∈ set_node_arg_has_explicit_consumer s)
             (ComputeValueLocation_node E L) stream n Hn); [| |done].
    + intros s0 m s1 Hm Hs0 Hstep.
      destruct (located_node_placed m s0 s1) as (? & ? & _); [|done|done|by split].
      apply elem_of_concat. by exists stream.
    + intros s0 s1 Hs0 Hstep.
      destruct (located_node_placed n s0 s1) as (_ & _ & Hreach); [|done|done|].
      { apply elem_of_concat. by exists stream. }
      by eapply Hreach.
Qed.

End explicit_consumer.

(** X22. An explicit consumer decides where a graph input is placed: if
    value [v] is read as an explicit input (under the name of a graph
    input, initializer or outer-scope argument) by some node of the
    streams, all such readers ask for the same location, and no node
    defines [v], then after [ComputeValueLocation] the value is planned
    at that location, whatever nodes read it as an implicit input and in
    whatever order the nodes are visited. *)
Theorem explicit_consumer_decides_location E L v place st st' :
  (∃ n pnode k, explicit_consumer E L v n pnode k) →
  (∀ n pnode k, explicit_consumer E L v n pnode k →
     consumer_location L pnode k = Some place) →
  v ∉ order_defs E (concat (stream_nodes_ E)) →
  ComputeValueLocation E L st = Ok st' →
  location_of st' v = Some place.
Proof.
  intros Hconsumer Hagree Hnew. unfold ComputeValueLocation.
  intros (st1 & _ & Hrun)%bind_Ok.
  apply bind_Ok in Hrun as (st2 & _ & Hrun).
  apply bind_Ok in Hrun as (st3 & _ & Hrun).
  apply bind_Ok in Hrun as (st4 & Hstreams & [= <-]).
  eapply (located_streams_placed E L v place Hagree Hnew); [exact Hstreams| |done].
  intros Hin. simpl in Hin. by apply not_elem_of_empty in Hin.
Qed.

Lemma explicit_consumer_decides_location_witness :
  location_of Located.located 0 = Some S1.cpu.
Proof.
  apply (explicit_consumer_decides_location S1.env Located.inputs 0 S1.cpu
           Located.initial Located.located).
  - exists 0%N, S1.node_A, 0%nat. split; [by left|]. split; [reflexivity|].
    exists S1.x. split; [reflexivity|]. split; [reflexivity|]. split; [left; by left|].
    vm_compute. reflexivity.
  - intros n pnode k (Hn & Hnode & _). simpl in Hn.
    apply elem_of_cons in Hn as [->|Hn]; [|apply elem_of_cons in Hn as [->|Hn]];
      [| |apply elem_of_cons in Hn as [->|Hn]; [|by apply elem_of_nil in Hn]];
      vm_compute in Hnode; injection Hnode as <-; vm_compute; reflexivity.
  - apply (bool_decide_unpack _). vm_compute. exact I.
  - vm_compute. reflexivity.
Defined.

(** ** The optimizer ends *)

Lemma stops_Ok {A} (a : A) : stops_at_check (Ok a).
Proof. by intros f [=]. Qed.

Lemma stops_bind {A B} (m : Result A) (f : A → Result B) :
  stops_at_check m → (∀ a, m = Ok a → stops_at_check (f a)) → stops_at_check (m ≫= f).
Proof.
  destruct m as [a|e]; simpl.
  - intros _ H. by apply H.
  - intros H _ f' [= <-]. by apply H.
Qed.

Lemma stops_checked {A} (o : option A) : stops_at_check (checked o).
Proof. destruct o; intros f [= <-]. by left. Qed.

Lemma stops_unchecked {A} (o : option A) : stops_at_check (unchecked o).
Proof. destruct o; intros f [= <-]. right. by right. Qed.

Lemma stops_ENFORCE b : stops_at_check (ORT_ENFORCE b).
Proof. destruct b; intros f [= <-]. by left. Qed.

Lemma stops_foldR {A St} (body : St → A → Result St) (l : list A) :
  (∀ s x, stops_at_check (body s x)) → ∀ s, stops_at_check (foldR body l s).
Proof.
  intros Hbody. induction l as [|x l IH]; intros s; simpl; [apply stops_Ok|].
  apply stops_bind; [apply Hbody|]. intros s1 _. apply IH.
Qed.

Lemma stops_foldR_indexed {A St} (body : St → nat → A → Result St) (l : list A) :
  (∀ s i x, stops_at_check (body s i x)) → ∀ i s, stops_at_check (foldR_indexed body i l s).
Proof.
  intros Hbody. induction l as [|x l IH]; intros i s; simpl; [apply stops_Ok|].
  apply stops_bind; [apply Hbody|]. intros s1 _. apply IH.
Qed.

Create HintDb stops.
#[local] Hint Resolve stops_checked stops_unchecked stops_ENFORCE : stops.

Ltac stops_step :=
  match goal with
  | |- stops_at_check _ => solve [auto with stops]
  | |- stops_at_check (Ok _) => exact (stops_Ok _)
  | |- stops_at_check (mret _) => exact (stops_Ok _)
  | |- stops_at_check (_ ≫= _) => apply stops_bind; [|intros ? _]
  | |- stops_at_check (if ?b then _ else _) => destruct b
  | |- stops_at_check (match ?x with _ => _ end) => destruct x
  end.

Ltac stops_auto := repeat stops_step.

Lemma stops_plan_at st idx : stops_at_check (plan_at st idx).
Proof. unfold plan_at. stops_auto. Qed.

Lemma stops_SameSize s1 a1 s2 a2 : stops_at_check (SameSize s1 a1 s2 a2).
Proof. unfold SameSize, GetElementSize. stops_auto. Qed.

#[local] Hint Resolve stops_plan_at stops_SameSize : stops.

Lemma stops_SameSizeArgs ctx a1 a2 : stops_at_check (SameSizeArgs ctx a1 a2).
Proof. unfold SameSizeArgs. stops_auto. Qed.

Lemma stops_set_reuse st value target : stops_at_check (set_reuse st value target).
Proof. unfold set_reuse. stops_auto. Qed.

#[local] Hint Resolve stops_SameSizeArgs stops_set_reuse : stops.

Lemma stops_reuse_input st r out : stops_at_check (reuse_input st r out).
Proof. unfold reuse_input. stops_auto. Qed.

Lemma stops_allocated_input E st p : stops_at_check (allocated_input E st p).
Proof. unfold allocated_input. stops_auto. Qed.

#[local] Hint Resolve stops_reuse_input stops_allocated_input : stops.

Lemma stops_TryReuseInput E node_index st : stops_at_check (TryReuseInput E node_index st).
Proof.
  assert (∀ args j out m s, stops_at_check (TryReuseInput_alias E args j out m s)) as Halias.
  { intros args j out m s. induction m as [|e m IH]; simpl; stops_auto. }
  assert (∀ args j out o s, stops_at_check (TryReuseInput_variadic E args j out o s))
    as Hvar.
  { intros args j out o s. unfold TryReuseInput_variadic. stops_auto. }
  assert (∀ args p j out s e, stops_at_check (TryReuseInput_inplace E args p j out s e))
    as Hin.
  { intros args p j out s e. unfold TryReuseInput_inplace. stops_auto. }
  unfold TryReuseInput. apply stops_bind; [stops_auto|]. intros node _.
  apply stops_foldR_indexed. intros s j p_out. unfold TryReuseInput_output.
  destruct (ort_value_name_idx_map_ E !! Name p_out) as [out|]; [|apply stops_Ok].
  apply stops_bind; [stops_auto|]. intros entry _.
  destruct (negb _); [apply stops_Ok|].
  destruct (kernel_create_info_map_ E !! node_index) as [ci|]; [|apply stops_Ok].
  destruct (kernel_def ci) as [kd|]; [|apply stops_Ok].
  apply stops_bind; [apply Halias|]. intros [found s1] _.
  destruct found; [apply stops_Ok|].
  apply stops_bind; [apply Hvar|]. intros [found s2] _.
  destruct found; [apply stops_Ok|]. apply stops_foldR. intros s3 e. apply Hin.
Qed.

Lemma stops_offer_to_waiting E value_node_map node_index node_output shape out entries st :
  stops_at_check
    (offer_to_waiting E value_node_map node_index node_output shape out entries st).
Proof.
  induction entries as [|[downstream_arg owner] rest IH]; simpl; [apply stops_Ok|].
  destruct (ort_value_name_idx_map_ E !! Name downstream_arg); [|done].
  case_bool_decide; [done|].
  apply stops_bind; [stops_auto|]. intros downstream_shape _.
  apply stops_bind; [stops_auto|]. intros same _.
  destruct same; simpl; [|done].
  destruct (negb _); [done|]. case_bool_decide; [|done]. stops_auto.
Qed.

Lemma stops_fetch_all_dependents opt graph node_index :
  walks_once opt → stops_at_check (fetch_all_dependents opt graph node_index).
Proof.
  intros Hwalk. destruct (dfs_searched opt graph node_index) with
    (fuel := (2 + size (graph_nodes_of graph))%nat) (before := (∅ : gset NodeIndex))
    (curr := node_index) as (after & Hrun & _).
  - intros s x. apply Hwalk.
  - intros x Hx. by apply not_elem_of_empty in Hx.
  - unfold search_space. by apply elem_of_union_l, elem_of_singleton.
  - apply search_space_size.
  - unfold fetch_all_dependents. rewrite Hrun. apply stops_Ok.
Qed.

Lemma stops_TryReuseOutput E opt graph value_node_map node_index st :
  walks_once opt →
  stops_at_check (TryReuseOutput E opt graph value_node_map node_index st).
Proof.
  intros Hwalk. unfold TryReuseOutput.
  apply stops_bind; [by apply stops_fetch_all_dependents|]. intros deps _.
  apply stops_bind; [stops_auto|]. intros node _.
  apply stops_foldR. intros s node_output. unfold TryReuseOutput_output.
  destruct (negb _); [apply stops_Ok|].
  destruct (ort_value_name_idx_map_ E !! Name node_output) as [out|]; [|apply stops_Ok].
  apply stops_bind; [stops_auto|]. intros skip _. destruct skip; [apply stops_Ok|].
  destruct (GetShape (context_ E) node_output) as [shape|]; [|apply stops_Ok].
  apply stops_bind; [stops_auto|]. intros entry _.
  destruct (waiting_at s (location entry) (ByteSizeLong opt shape)) as [entries|];
    [|apply stops_Ok].
  apply stops_bind; [apply stops_offer_to_waiting|]. intros [get_reused s1] _.
  destruct get_reused; apply stops_Ok.
Qed.

(** *** The counters of the traverse *)

Lemma release_dependents_spec ups : ∀ que (dependents : gmap NodeIndex Z),
  NoDup ups →
  (foldl release_dependent (que, dependents) ups).1 =
    que ++ filter (λ u, default 0 (dependents !! u) = 1) ups ∧
  ∀ u, default 0 ((foldl release_dependent (que, dependents) ups).2 !! u) =
       default 0 (dependents !! u) - (if decide (u ∈ ups) then 1 else 0).
Proof.
  induction ups as [|w ups IH]; intros que dependents Hnd.
  - simpl. split; [by rewrite app_nil_r|]. intros u. lia.
  - apply NoDup_cons in Hnd as [Hw Hnd]. simpl.
    unfold release_dependent at 2. simpl.
    set (count := default 0 (dependents !! w) - 1).
    destruct (IH (if bool_decide (count = 0) then que ++ [w] else que)
                 (<[w := count]> dependents) Hnd) as [-> Hcounts].
    split.
    + rewrite filter_cons.
      rewrite (filter_ext_elem (λ u, default 0 (<[w := count]> dependents !! u) = 1)
                 (λ u, default 0 (dependents !! u) = 1) ups).
      2:{ intros u Hu. rewrite lookup_insert_ne; [done|]. by intros ->. }
      subst count. case_bool_decide as Hzero.
      * rewrite decide_True by lia. by rewrite <- app_assoc.
      * by rewrite decide_False by lia.
    + intros u. rewrite Hcounts. destruct (decide (u = w)) as [->|Hne].
      * rewrite lookup_insert_eq. simpl. rewrite decide_False by done.
        rewrite decide_True by (by left). subst count. lia.
      * rewrite lookup_insert_ne by done.
        destruct (decide (u ∈ ups)) as [Hin|Hout].
        -- rewrite decide_True by (by right). done.
        -- rewrite decide_False; [done|]. intros [?|?]%elem_of_cons; done.
Qed.

Lemma count_upstream_spec ups : ∀ dependents : gmap NodeIndex Z,
  NoDup ups →
  ∀ u, default 0 (foldl (λ dependents node_index,
                           <[node_index := default 0 (dependents !! node_index) + 1]>
                             dependents) dependents ups !! u) =
       default 0 (dependents !! u) + (if decide (u ∈ ups) then 1 else 0).
Proof.
  induction ups as [|w ups IH]; intros dependents Hnd u.
  - simpl. lia.
  - apply NoDup_cons in Hnd as [Hw Hnd]. simpl. rewrite IH by done.
    destruct (decide (u = w)) as [->|Hne].
    + rewrite lookup_insert_eq. simpl. rewrite decide_False by done.
      rewrite decide_True by (by left). lia.
    + rewrite lookup_insert_ne by done.
      destruct (decide (u ∈ ups)) as [Hin|Hout].
      * by rewrite decide_True by (by right).
      * rewrite decide_False; [done|]. intros [?|?]%elem_of_cons; done.
Qed.

Lemma count_dependents_spec opt graph u :
  walks_once opt →
  default 0 (count_dependents opt graph !! u) =
  Z.of_nat (length (waiting_for opt graph ∅ u)).
Proof.
  intros Hwalk. unfold count_dependents, waiting_for.
  assert (∀ (visited : gset NodeIndex) ds (dependents : gmap NodeIndex Z),
            (∀ d, d ∉ visited) →
            default 0 (foldl (λ dependents downstream,
                                foldl (λ dependents node_index,
                                         <[node_index :=
                                             default 0 (dependents !! node_index) + 1]>
                                           dependents)
                                      dependents
                                      (iteration_order opt (upstream_of graph downstream)))
                             dependents ds !! u) =
            default 0 (dependents !! u) +
            Z.of_nat (length (filter (λ d, u ∈ upstream_of graph d ∧ d ∉ visited) ds)))
    as Hall.
  { intros visited ds dependents Hnone. revert dependents.
    induction ds as [|d ds IH]; intros dependents; [simpl; lia|]. cbn [foldl].
    rewrite IH, count_upstream_spec by apply Hwalk. rewrite filter_cons.
    destruct (decide (u ∈ iteration_order opt (upstream_of graph d))) as [Hin|Hout].
    - rewrite decide_True; [cbn [length]; lia|]. split; [by apply Hwalk|apply Hnone].
    - rewrite decide_False; [lia|]. intros [Hin _]. by apply Hout, Hwalk. }
  rewrite (Hall ∅) by apply not_elem_of_empty. rewrite lookup_empty. apply Z.add_0_l.
Qed.

Lemma waiting_for_visit opt graph visited x u :
  walks_once opt → x ∉ visited →
  length (waiting_for opt graph visited u) =
  (length (waiting_for opt graph (visited ∪ {[x]}) u) +
   if decide (u ∈ upstream_of graph x) then 1 else 0)%nat.
Proof.
  intros Hwalk Hx. unfold waiting_for.
  destruct (Hwalk (dom graph)) as [Hnd Hdom].
  assert (u ∈ upstream_of graph x → x ∈ iteration_order opt (dom graph)) as Hin.
  { intros Hu. apply Hdom, elem_of_dom. unfold upstream_of in Hu.
    destruct (graph !! x); [done|]. by apply not_elem_of_empty in Hu. }
  revert Hnd Hin. generalize (iteration_order opt (dom graph)). intros l.
  induction l as [|d l IH]; intros Hnd Hin.
  - simpl. case_decide as Hu; [|done]. by apply Hin, elem_of_nil in Hu.
  - apply NoDup_cons in Hnd as [Hd Hnd]. rewrite !filter_cons.
    destruct (decide (d = x)) as [->|Hne].
    + rewrite (decide_False (P := _ ∧ x ∉ visited ∪ {[x]})).
      2:{ intros [_ Hout]. apply Hout, elem_of_union_r. by apply elem_of_singleton. }
      rewrite (filter_ext_elem (λ d, u ∈ upstream_of graph d ∧ d ∉ visited ∪ {[x]})
                 (λ d, u ∈ upstream_of graph d ∧ d ∉ visited) l).
      2:{ intros y Hy. rewrite elem_of_union, elem_of_singleton.
          assert (y ≠ x) by (by intros ->). tauto. }
      destruct (decide (u ∈ upstream_of graph x)) as [Hu|Hu].
      * rewrite decide_True by done. simpl. lia.
      * rewrite decide_False by tauto. lia.
    + assert (u ∈ upstream_of graph x → x ∈ l) as Hin'.
      { intros Hu. by apply Hin, elem_of_cons in Hu as [?|?]. }
      specialize (IH Hnd Hin').
      destruct (decide (u ∈ upstream_of graph d ∧ d ∉ visited)) as [Hd'|Hd'].
      * rewrite decide_True.
        2:{ split; [tauto|]. rewrite elem_of_union, elem_of_singleton. intros [?|?]; [tauto|done]. }
        simpl. lia.
      * rewrite decide_False; [done|].
        rewrite elem_of_union, elem_of_singleton. tauto.
Qed.

Lemma queue_inv_initial opt graph :
  walks_once opt →
  queue_inv opt graph ∅
    (filter (λ n, default 0 (count_dependents opt graph !! n) = 0)
            (iteration_order opt (dom graph)))
    (count_dependents opt graph).
Proof.
  intros Hwalk. destruct (Hwalk (dom graph)) as [Hnd Hdom]. split_and!.
  - by apply NoDup_filter.
  - intros x [_ Hx%Hdom]%list_elem_of_filter. split; [apply not_elem_of_empty|].
    unfold graph_nodes_of. by apply elem_of_union_l.
  - intros x Hx. by apply not_elem_of_empty in Hx.
  - intros u. by apply count_dependents_spec.
  - intros u [[Hzero _]%list_elem_of_filter|Hu]; [|by apply not_elem_of_empty in Hu].
    rewrite count_dependents_spec in Hzero by done.
    apply length_zero_iff_nil. lia.
Qed.

Lemma queue_inv_step opt graph visited x que dependents :
  walks_once opt →
  queue_inv opt graph visited (x :: que) dependents →
  queue_inv opt graph (visited ∪ {[x]})
    (foldl release_dependent (que, dependents)
           (iteration_order opt (upstream_of graph x))).1
    (foldl release_dependent (que, dependents)
           (iteration_order opt (upstream_of graph x))).2.
Proof.
  intros Hwalk (Hnd & Hque & Hvisited & Hcount & Hfree).
  destruct (Hwalk (upstream_of graph x)) as [Hups Hup].
  destruct (release_dependents_spec (iteration_order opt (upstream_of graph x))
              que dependents Hups) as [-> Hcounts].
  apply NoDup_cons in Hnd as [Hx Hnd].
  destruct (Hque x) as [Hnew Hnode]; [by left|].
  assert (∀ u, Z.of_nat (length (waiting_for opt graph (visited ∪ {[x]}) u)) =
               default 0 (dependents !! u) -
               (if decide (u ∈ iteration_order opt (upstream_of graph x)) then 1 else 0))
    as Hwait.
  { intros u. rewrite Hcount, (waiting_for_visit opt graph visited x u Hwalk Hnew).
    destruct (decide (u ∈ upstream_of graph x)) as [Hu|Hu].
    - rewrite decide_True by (by apply Hup). lia.
    - rewrite decide_False; [lia|]. intros ?. by apply Hu, Hup. }
  assert (∀ u, u ∈ filter (λ u, default 0 (dependents !! u) = 1)
                          (iteration_order opt (upstream_of graph x)) →
               (u ∉ x :: que) ∧ (u ∉ visited) ∧ u ∈ graph_nodes_of graph ∧
               waiting_for opt graph (visited ∪ {[x]}) u = []) as Hpushed.
  { intros u [Hone Hu]%list_elem_of_filter.
    assert (¬ (u ∈ x :: que ∨ u ∈ visited)) as Hfresh.
    { intros Hold%Hfree. rewrite Hcount, Hold in Hone. done. }
    split; [tauto|]. split; [tauto|]. split.
    - apply Hup in Hu. by eapply upstream_in_nodes.
    - apply length_zero_iff_nil. specialize (Hwait u). rewrite decide_True in Hwait by done.
      lia. }
  split_and!.
  - apply NoDup_app. split; [done|]. split; [|by apply NoDup_filter].
    intros u Hu Hu'. destruct (Hpushed u Hu') as [Hout _]. apply Hout. by right.
  - intros u [Hu|Hu]%elem_of_app.
    + destruct (Hque u) as [? ?]; [by right|]. split; [|done].
      rewrite elem_of_union, elem_of_singleton. intros [? | ->]; done.
    + destruct (Hpushed u Hu) as (Hout & ? & ? & _). split; [|done].
      rewrite elem_of_union, elem_of_singleton. intros [? | ->]; [done|].
      apply Hout. by left.
  - intros u [? | ->%elem_of_singleton]%elem_of_union; [by apply Hvisited|done].
  - intros u. by rewrite Hcounts, Hwait.
  - intros u Hu.
    assert (u ∈ x :: que ∨ u ∈ visited ∨
            u ∈ filter (λ u, default 0 (dependents !! u) = 1)
                       (iteration_order opt (upstream_of graph x))) as [Hold|[Hold|Hpush]].
    { destruct Hu as [[?|?]%elem_of_app|[? | ->%elem_of_singleton]%elem_of_union].
      - left. by right.
      - right. by right.
      - right. by left.
      - left. by left. }
    + apply length_zero_iff_nil. specialize (Hwait u).
      rewrite Hcount, (Hfree u) in Hwait by (by left). simpl in Hwait.
      case_decide; lia.
    + apply length_zero_iff_nil. specialize (Hwait u).
      rewrite Hcount, (Hfree u) in Hwait by (by right). simpl in Hwait.
      case_decide; lia.
    + by destruct (Hpushed u Hpush) as (_ & _ & _ & ?).
Qed.

Lemma stops_traverse E opt graph value_node_map :
  walks_once opt →
  ∀ fuel visited que dependents st,
    queue_inv opt graph visited que dependents →
    (size (graph_nodes_of graph ∖ visited) ≤ fuel)%nat →
    stops_at_check (traverse fuel E opt graph value_node_map que dependents st).
Proof.
  intros Hwalk. induction fuel as [|fuel IH]; intros visited que dependents st Hinv Hfuel.
  - destruct que as [|x que]; [apply stops_Ok|]. exfalso.
    destruct Hinv as (_ & Hque & _). destruct (Hque x) as [Hnew Hnode]; [by left|].
    pose proof (size_remaining (graph_nodes_of graph) visited ({[x]} ∪ visited) x
                  Hnode Hnew) as Hlt.
    specialize (Hlt ltac:(done)). lia.
  - destruct que as [|x que]; [apply stops_Ok|]. simpl.
    apply stops_bind; [apply stops_TryReuseInput|]. intros st1 _.
    apply stops_bind; [by apply stops_TryReuseOutput|]. intros st2 _.
    apply (IH (visited ∪ {[x]})); [by apply queue_inv_step|].
    destruct Hinv as (_ & Hque & _). destruct (Hque x) as [Hnew Hnode]; [by left|].
    pose proof (size_remaining (graph_nodes_of graph) visited (visited ∪ {[x]}) x
                  Hnode Hnew) as Hlt.
    assert ({[x]} ∪ visited ⊆ visited ∪ {[x]}) as Hsub.
    { intros y. rewrite !elem_of_union. tauto. }
    specialize (Hlt Hsub). lia.
Qed.

(** X23. The optimizer ends: when a walk over a hash set visits every
    element once, the traverse of [OptimizeReusePlanForMultiStream] takes
    no node off its queue twice, so its loop ends after at most as many
    turns as the dependence graph has nodes, and every search for
    dependents ends; the optimizer returns a plan, or stops at a failed
    [ORT_ENFORCE] or at an access out of bounds, and no assertion
    fails. *)
Theorem optimizer_ends E opt graph value_node_map st :
  walks_once opt →
  stops_at_check (OptimizeReusePlanForMultiStream E opt graph value_node_map st) ∧
  OptimizeReusePlanForMultiStream E opt graph value_node_map st ≠ Throw OutOfFuel ∧
  OptimizeReusePlanForMultiStream E opt graph value_node_map st ≠ Throw AssertFailed.
Proof.
  intros Hwalk.
  assert (stops_at_check (OptimizeReusePlanForMultiStream E opt graph value_node_map st))
    as Hstops.
  { unfold OptimizeReusePlanForMultiStream. apply stops_bind; [|intros s _; apply stops_Ok].
    apply (stops_traverse E opt graph value_node_map Hwalk _ ∅).
    - by apply queue_inv_initial.
    - apply subseteq_size. by intros x [? _]%elem_of_difference. }
  split; [done|].
  split; intros Hthrow; by destruct (Hstops _ Hthrow) as [?|[?|?]].
Qed.

Lemma optimizer_ends_witness :
  stops_at_check (OptimizeReusePlanForMultiStream RacePlan.env Race.ascending
                    (dependence_graph_ Race.built) (value_node_map_ Race.built)
                    RacePlan.baseline) ∧
  OptimizeReusePlanForMultiStream RacePlan.env Race.ascending
    (dependence_graph_ Race.built) (value_node_map_ Race.built) RacePlan.baseline
    ≠ Throw OutOfFuel ∧
  OptimizeReusePlanForMultiStream RacePlan.env Race.ascending
    (dependence_graph_ Race.built) (value_node_map_ Race.built) RacePlan.baseline
    ≠ Throw AssertFailed.
Proof.
  apply (optimizer_ends RacePlan.env Race.ascending (dependence_graph_ Race.built)
           (value_node_map_ Race.built) RacePlan.baseline).
  intros s. split; [apply NoDup_elements|]. intros x. simpl. apply elem_of_elements.
Defined.

(** ** The plan of inputs and weights *)

Lemma foldR_preserves_elem {A S} (R : S → S → Prop) (body : S → A → Result S)
    (l : list A) :
  (∀ s, R s s) → (∀ s1 s2 s3, R s1 s2 → R s2 s3 → R s1 s3) →
  (∀ s x s', x ∈ l → body s x = Ok s' → R s s') →
  ∀ s s', foldR body l s = Ok s' → R s s'.
Proof.
  intros Hrefl Htrans. induction l as [|x l IH]; intros Hbody s s'; simpl.
  - intros [= <-]. apply Hrefl.
  - intros (s1 & H1 & Hrest)%bind_Ok. eapply Htrans.
    + eapply Hbody; [by left|done].
    + apply IH; [|done]. intros s2 y s3 Hy. apply Hbody. by right.
Qed.

Lemma foldR_indexed_preserves {A S} (R : S → S → Prop) (body : S → nat → A → Result S)
    (l : list A) :
  (∀ s, R s s) → (∀ s1 s2 s3, R s1 s2 → R s2 s3 → R s1 s3) →
  (∀ s i x s', body s i x = Ok s' → R s s') →
  ∀ i s s', foldR_indexed body i l s = Ok s' → R s s'.
Proof.
  intros Hrefl Htrans Hbody. induction l as [|x l IH]; intros i s s'; simpl.
  - intros [= <-]. apply Hrefl.
  - intros (s1 & H1 & Hrest)%bind_Ok. eapply Htrans; [by eapply Hbody|by eapply IH].
Qed.

Lemma only_appends_refl locations : only_appends locations locations.
Proof. split; [done|]. intros v seen Hv. exists []. by rewrite app_nil_r. Qed.

Lemma only_appends_trans l1 l2 l3 :
  only_appends l1 l2 → only_appends l2 l3 → only_appends l1 l3.
Proof.
  intros [Hlen1 H1] [Hlen2 H2]. split; [congruence|]. intros v seen Hv.
  destruct (H1 v seen Hv) as [more1 Hv1]. destruct (H2 v _ Hv1) as [more2 Hv2].
  exists (more1 ++ more2). by rewrite app_assoc.
Qed.

Lemma record_location_Ok locations wt_index place locations' :
  record_location locations wt_index place = Ok locations' →
  ∃ seen, at_index locations wt_index = Some seen ∧
    length locations' = length locations ∧
    ∀ v, at_index locations' v =
         if decide (v = wt_index) then Some (seen ++ [place]) else at_index locations v.
Proof.
  unfold record_location. intros (seen & Hseen%unchecked_Ok & [= <-])%bind_Ok.
  exists seen. split; [done|]. split; [by rewrite length_insert|].
  intros v. by rewrite (at_index_insert _ _ _ _ _ Hseen).
Qed.

Lemma record_location_appends locations wt_index place locations' :
  record_location locations wt_index place = Ok locations' →
  only_appends locations locations'.
Proof.
  intros (seen & Hseen & Hlen & Hat)%record_location_Ok. split; [done|].
  intros v old Hv. rewrite Hat. case_decide as Heq.
  - subst v. exists [place]. congruence.
  - exists []. by rewrite app_nil_r.
Qed.

Lemma record_weight_use_appends E L W parent kernel_create_info_map graph_depth node
    locations k input_node_arg locations' :
  record_weight_use E L W parent kernel_create_info_map graph_depth node locations k
    input_node_arg = Ok locations' →
  only_appends locations locations'.
Proof.
  unfold record_weight_use.
  destruct (negb (Exists input_node_arg)); [intros [= <-]; apply only_appends_refl|].
  destruct (negb _); [intros [= <-]; apply only_appends_refl|].
  intros (shadow & _ & Hrun)%bind_Ok.
  destruct shadow; [injection Hrun as <-; apply only_appends_refl|].
  apply bind_Ok in Hrun as (wt_index & _ & Hrun).
  apply bind_Ok in Hrun as (location & _ & Hrun). by eapply record_location_appends.
Qed.

Lemma record_level_uses_appends E L W parent kernel_create_info_map graph_depth nodes
    locations locations' :
  record_level_uses E L W parent kernel_create_info_map graph_depth nodes locations
    = Ok locations' →
  only_appends locations locations'.
Proof.
  unfold record_level_uses.
  apply (foldR_preserves only_appends); [apply only_appends_refl|apply only_appends_trans|].
  intros s node s'.
  apply (foldR_indexed_preserves only_appends);
    [apply only_appends_refl|apply only_appends_trans|].
  intros s0 k input_node_arg s1. apply record_weight_use_appends.
Qed.

Lemma GeneratePlanForWeightsHelper_appends E L W graph_viewer :
  ∀ kernel_create_info_map key_base graph_depth locations locations',
    GeneratePlanForWeightsHelper E L W graph_viewer kernel_create_info_map key_base
      graph_depth locations = Ok locations' →
    only_appends locations locations'.
Proof.
  induction graph_viewer as [parent nodes IH] using NestedGraph_induction.
  intros kernel_create_info_map key_base graph_depth locations locations'.
  cbn [GeneratePlanForWeightsHelper].
  intros (locations1 & Hlevel%record_level_uses_appends & Hrun)%bind_Ok.
  eapply only_appends_trans; [exact Hlevel|]. revert Hrun.
  apply (foldR_preserves_elem only_appends);
    [apply only_appends_refl|apply only_appends_trans|].
  intros s node s' Hnode.
  apply (foldR_preserves_elem only_appends);
    [apply only_appends_refl|apply only_appends_trans|].
  intros s0 name_to_subgraph s1 Hsubgraph (m & _ & Hrun)%bind_Ok.
  rewrite Forall_forall in IH. specialize (IH node Hnode).
  rewrite Forall_forall in IH. by eapply (IH name_to_subgraph Hsubgraph).
Qed.

Lemma record_weight_use_tracked E L W parent node v locations k input_node_arg
    locations' seen :
  0 ≤ v →
  record_weight_use E L W parent (kernel_create_info_map_ E) 0 node locations k
    input_node_arg = Ok locations' →
  at_index locations v = Some seen →
  ∃ places,
    located_uses E L W (if uses_weight E v input_node_arg then [(node, k)] else []) places ∧
    at_index locations' v = Some (seen ++ places).
Proof.
  intros Hv. unfold record_weight_use, uses_weight.
  destruct (Exists input_node_arg); simpl.
  2:{ intros [= <-] Hseen. exists []. split; [constructor|by rewrite app_nil_r]. }
  case_bool_decide as Hweight; simpl.
  2:{ intros [= <-] Hseen. exists []. split; [constructor|by rewrite app_nil_r]. }
  intros (wt_index & Hindex%checked_Ok & Hrun)%bind_Ok Hseen.
  apply bind_Ok in Hrun as (location & Hlocation & Hrun).
  apply record_location_Ok in Hrun as (old & Hold & _ & Hat).
  rewrite Hat, Hindex. destruct (decide (v = wt_index)) as [->|Hne].
  - rewrite bool_decide_eq_true_2 by done. exists [location].
    split; [by repeat constructor|congruence].
  - rewrite bool_decide_eq_false_2 by congruence. exists [].
    split; [constructor|by rewrite app_nil_r].
Qed.

Lemma located_uses_app E L W uses1 uses2 places1 places2 :
  located_uses E L W uses1 places1 → located_uses E L W uses2 places2 →
  located_uses E L W (uses1 ++ uses2) (places1 ++ places2).
Proof. apply Forall2_app. Qed.

Lemma record_node_uses_tracked E L W parent node v inputs :
  0 ≤ v →
  ∀ k locations locations' seen,
    foldR_indexed (record_weight_use E L W parent (kernel_create_info_map_ E) 0 node)
                  k inputs locations = Ok locations' →
    at_index locations v = Some seen →
    ∃ places,
      located_uses E L W (weight_uses_from E v node k inputs) places ∧
      at_index locations' v = Some (seen ++ places).
Proof.
  intros Hv. induction inputs as [|input_node_arg rest IH];
    intros k locations locations' seen; simpl.
  - intros [= <-] Hseen. exists []. split; [constructor|by rewrite app_nil_r].
  - intros (locations1 & Hstep & Hrest)%bind_Ok Hseen.
    destruct (record_weight_use_tracked _ _ _ _ _ _ _ _ _ _ _ Hv Hstep Hseen)
      as (places1 & Hplaces1 & Hseen1).
    destruct (IH _ _ _ _ Hrest Hseen1) as (places2 & Hplaces2 & Hseen2).
    exists (places1 ++ places2). split; [by apply located_uses_app|].
    by rewrite app_assoc.
Qed.

Lemma record_level_uses_tracked E L W parent v nodes :
  0 ≤ v →
  ∀ locations locations' seen,
    record_level_uses E L W parent (kernel_create_info_map_ E) 0 nodes locations
      = Ok locations' →
    at_index locations v = Some seen →
    ∃ places,
      located_uses E L W (weight_uses E v nodes) places ∧
      at_index locations' v = Some (seen ++ places).
Proof.
  intros Hv. unfold record_level_uses, weight_uses.
  induction nodes as [|node rest IH]; intros locations locations' seen; simpl.
  - intros [= <-] Hseen. exists []. split; [constructor|by rewrite app_nil_r].
  - intros (locations1 & Hstep & Hrest)%bind_Ok Hseen.
    destruct (record_node_uses_tracked _ _ _ _ _ _ _ Hv _ _ _ _ Hstep Hseen)
      as (places1 & Hplaces1 & Hseen1).
    destruct (IH _ _ _ Hrest Hseen1) as (places2 & Hplaces2 & Hseen2).
    exists (places1 ++ places2). split; [by apply located_uses_app|].
    by rewrite app_assoc.
Qed.

Lemma at_index_zip_with {A B C} (f : A → B → C) (l : list A) (k : list B) (v : Z) x y :
  at_index l v = Some x → at_index k v = Some y →
  at_index (zip_with f l k) v = Some (f x y).
Proof.
  intros [Hv Hx]%at_index_Some [_ Hy]%at_index_Some. apply at_index_Some.
  split; [done|]. rewrite lookup_zip_with, Hx. simpl. by rewrite Hy.
Qed.

Lemma at_index_replicate_Some {A} (n : nat) (x : A) (v : Z) :
  0 ≤ v < Z.of_nat n → at_index (replicate n x) v = Some x.
Proof.
  intros Hv. apply at_index_Some. split; [lia|]. apply lookup_replicate. split; [done|lia].
Qed.

(** X24. A weight is planned where the main graph first uses it: when
    [GeneratePlanForWeights] returns, use counts, buffers and freelist
    are untouched and every entry is unchanged or has become
    [kAllocateStatically] (with its reuse target kept); and a value whose
    name is an initializer and an input of a node of the main graph is
    planned [kAllocateStatically] at the location of its first such use
    in the order of the walk, whatever its uses in subgraphs. *)
Theorem weights_planned_at_first_use E L W st st' :
  GeneratePlanForWeights E L W st = Ok st' →
  ort_value_info_ st' = ort_value_info_ st ∧ freelist_ st' = freelist_ st ∧
  length (allocation_plan st') = length (allocation_plan st) ∧
  ∀ v entry, AllocPlan st v = Ok entry →
    (∃ entry', AllocPlan st' v = Ok entry' ∧
       reused_buffer entry' = reused_buffer entry ∧
       (entry' = entry ∨ alloc_kind entry' = kAllocateStatically)) ∧
    (∀ node k, head (weight_uses E v (main_nodes W)) = Some (node, k) →
       ∃ place,
         GetLocationForNodeInput L W k node (kernel_create_info_map_ E) = Ok place ∧
         AllocPlan st' v = Ok (mkAllocPlan kAllocateStatically (reused_buffer entry) place)).
Proof.
  unfold GeneratePlanForWeights, main_nodes.
  intros (locations & Hrun & [= <-])%bind_Ok. simpl.
  pose proof (GeneratePlanForWeightsHelper_appends _ _ _ _ _ _ _ _ _ Hrun) as [Hlen _].
  rewrite length_replicate in Hlen.
  split; [done|]. split; [done|]. split.
  { rewrite length_zip_with. lia. }
  intros v entry Hentry%checked_Ok.
  pose proof (at_index_lt _ _ _ Hentry) as Hv.
  destruct (nested_graph W) as [parent nodes]. cbn [GeneratePlanForWeightsHelper] in Hrun.
  apply bind_Ok in Hrun as (locations1 & Hlevel & Hrest).
  destruct (record_level_uses_tracked E L W parent v (node_of <$> nodes) (proj1 Hv)
              _ _ [] Hlevel) as (places & Hplaces & Hseen1).
  { by apply at_index_replicate_Some. }
  assert (only_appends locations1 locations) as [_ Hmore].
  { revert Hrest.
    apply (foldR_preserves only_appends); [apply only_appends_refl|apply only_appends_trans|].
    intros s node s'.
    apply (foldR_preserves only_appends);
      [apply only_appends_refl|apply only_appends_trans|].
    intros s0 name_to_subgraph s1 (m & _ & Hhelper)%bind_Ok.
    by eapply GeneratePlanForWeightsHelper_appends. }
  destruct (Hmore v _ Hseen1) as [more Hseen]. simpl in Hseen.
  assert (AllocPlan
            (mkPlannerState (ort_value_info_ st)
               (zip_with plan_weight locations (allocation_plan st)) (freelist_ st)) v =
          Ok (plan_weight (places ++ more) entry)) as Hplanned.
  { unfold AllocPlan. simpl. by rewrite (at_index_zip_with _ _ _ _ _ _ Hseen Hentry). }
  rewrite Hplanned. split.
  - eexists. split; [done|]. unfold plan_weight.
    destruct (places ++ more); [by split; [|left]|by split; [|right]].
  - intros node k Hfirst. destruct (weight_uses E v (node_of <$> nodes)) as [|use uses];
      [done|]. injection Hfirst as ->.
    apply Forall2_cons_inv_l in Hplaces as (place & places' & Hplace & _ & ->).
    exists place. by split.
Qed.

Lemma weights_planned_at_first_use_witness :
  AllocPlan Weighted.planned 1 = Ok (mkAllocPlan kAllocateStatically 0 Weighted.device).
Proof.
  destruct (weights_planned_at_first_use Weighted.env Weighted.inputs Weighted.weights
              (match foldR (setup_preexisting Weighted.env) [Weighted.x] Weighted.located
               with Ok st => st | Throw _ => Weighted.initial end)
              Weighted.planned) as (_ & _ & _ & Hplan).
  - vm_compute. reflexivity.
  - destruct (Hplan 1 (mkAllocPlan kNotSet 0 Weighted.device)) as [_ Hfirst].
    + vm_compute. reflexivity.
    + destruct (Hfirst Weighted.node_M 1%nat) as (place & Hplace & Hentry).
      * vm_compute. reflexivity.
      * vm_compute in Hplace. injection Hplace as <-. exact Hentry.
Defined.

(** ** The state that reuse planning starts from *)

Lemma kinds_set_refl st : kinds_set st st.
Proof. split; [done|]. split; [done|]. intros v. by left. Qed.

Lemma kinds_set_trans st1 st2 st3 :
  kinds_set st1 st2 → kinds_set st2 st3 → kinds_set st1 st3.
Proof.
  intros (Hi1 & Hf1 & H1) (Hi2 & Hf2 & H2). split; [congruence|]. split; [congruence|].
  intros v. destruct (H2 v) as [Heq2|(e2 & e3 & He2 & He3 & Hk3 & Hr3)].
  - rewrite Heq2. apply H1.
  - right. destruct (H1 v) as [Heq1|(e1 & e2' & He1 & He2' & _ & Hr2)].
    + exists e2, e3. by rewrite <- Heq1.
    + exists e1, e3. split; [done|]. split; [done|]. split; [done|]. congruence.
Qed.

Lemma kinds_set_keeps_input v st st' :
  kinds_set st st' → planned_as_input v st → planned_as_input v st'.
Proof.
  intros (_ & _ & Hplan) (entry & Hentry & Hkind).
  destruct (Hplan v) as [Heq|(e & e' & _ & He' & Hk' & _)].
  - exists entry. by rewrite Heq.
  - by exists e'.
Qed.

Lemma setup_preexisting_kinds E st node_arg st' :
  setup_preexisting E st node_arg = Ok st' →
  kinds_set st st' ∧
  ∀ v, ort_value_name_idx_map_ E !! Name node_arg = Some v → planned_as_input v st'.
Proof.
  unfold setup_preexisting. intros (input_index & Hindex%checked_Ok & Hset)%bind_Ok.
  apply set_alloc_kind_Ok in Hset as (p & Hp & Hplan & Hinfo & Hfree). split.
  - split; [done|]. split; [done|]. intros v. rewrite Hplan. case_decide as Hv.
    + subst v. right. exists p. eexists. split; [done|]. split; [done|]. by split; [left|].
    + by left.
  - intros v Hv. rewrite Hindex in Hv. injection Hv as ->. eexists.
    rewrite Hplan, decide_True by done. split; [done|]. by left.
Qed.

Lemma setup_preexisting_loop E args st st' :
  foldR (setup_preexisting E) args st = Ok st' →
  kinds_set st st' ∧
  ∀ node_arg v, node_arg ∈ args →
    ort_value_name_idx_map_ E !! Name node_arg = Some v → planned_as_input v st'.
Proof.
  intros Hrun. split.
  - revert Hrun.
    apply (foldR_preserves kinds_set); [apply kinds_set_refl|apply kinds_set_trans|].
    intros s a s' Hstep. by apply setup_preexisting_kinds in Hstep as [? _].
  - intros node_arg v Hin Hv.
    destruct (foldR_reaches (λ _, True) (planned_as_input v) (setup_preexisting E)
                args node_arg Hin) with (s := st) (s' := st') as [_ Hreached]; try done.
    + intros s a s' _ _ [Hkinds _]%setup_preexisting_kinds. split; [done|].
      by apply kinds_set_keeps_input.
    + intros s s' _ [_ Hhere]%setup_preexisting_kinds. by apply Hhere.
Qed.

Lemma GeneratePlanForWeights_kinds E L W st st' :
  GeneratePlanForWeights E L W st = Ok st' → kinds_set st st'.
Proof.
  unfold GeneratePlanForWeights. intros (locations & Hrun & [= <-])%bind_Ok.
  apply GeneratePlanForWeightsHelper_appends in Hrun as [Hlen Hmore].
  split; [done|]. split; [done|]. intros v. unfold AllocPlan. simpl.
  destruct (at_index (allocation_plan st) v) as [entry|] eqn:Hentry.
  - pose proof (at_index_lt _ _ _ Hentry) as Hv.
    destruct (Hmore v []) as [more Hseen]; [by apply at_index_replicate_Some|].
    rewrite (at_index_zip_with _ _ _ _ _ _ Hseen Hentry). simpl.
    unfold plan_weight. destruct more as [|first more]; [by left|]. right.
    exists entry. eexists. split; [done|]. split; [done|]. by split; [right|].
  - left. unfold at_index in *. case_bool_decide; [|done].
    rewrite lookup_zip_with, Hentry. by destruct (locations !! Z.to_nat v).
Qed.

Lemma located_kinds E L unset num_ml_values st v entry :
  ComputeValueLocation E L (PlannerImpl_Initialize unset num_ml_values new_planner) = Ok st →
  AllocPlan st v = Ok entry → alloc_kind entry = alloc_kind unset.
Proof.
  intros (_ & _ & _ & _ & Hplan)%ComputeValueLocation_processes [_ Hentry]%checked_Ok%at_index_Some.
  simpl in Hplan. rewrite resize_new, fmap_replicate in Hplan.
  assert (((λ p, (alloc_kind p, reused_buffer p)) <$> allocation_plan st) !! Z.to_nat v =
          Some (alloc_kind entry, reused_buffer entry)) as Hpair.
  { by rewrite list_lookup_fmap, Hentry. }
  rewrite Hplan in Hpair. apply lookup_replicate in Hpair as [[= -> _] _]. done.
Qed.

(** X25. The planner is ready for reuse planning: when
    [ComputeValueLocation] and [ComputePlanForInputsAndWeights] return on
    a freshly initialized planner (whose entries start as [kNotSet]),
    every entry is [kNotSet], [kPreExisting] or [kAllocateStatically],
    so none is [kReuse] or [kAllocate]; the values of the graph inputs
    and of the outer-scope arguments are [kPreExisting] or, when they
    are weights in use, [kAllocateStatically]; use counts and buffers
    are as [ComputeValueLocation] left them, so every use count is zero
    and every node output owns its buffer; and the freelist is empty.
    With streams that hold the nodes of the topological order this is
    the state ([defs_processed] and [plan_initial]) from which reuse
    planning is proved correct. *)
Theorem planner_ready_for_reuse E L W unset num_ml_values st1 st2 :
  alloc_kind unset = kNotSet →
  ort_value_name_idx_map_ E !! EmptyString = None →
  concat (stream_nodes_ E) ≡ₚ GetNodesInTopologicalOrder (graph_viewer_ E) →
  ComputeValueLocation E L (PlannerImpl_Initialize unset num_ml_values new_planner) = Ok st1 →
  ComputePlanForInputsAndWeights E L W st1 = Ok st2 →
  defs_processed E st2 ∧ plan_initial E st2 ∧
  (∀ v entry, AllocPlan st2 v = Ok entry →
     alloc_kind entry = kNotSet ∨ input_kind (alloc_kind entry)) ∧
  (∀ node_arg v,
     node_arg ∈ GetInputs (graph_viewer_ E) ++ outer_scope_node_args_ E →
     ort_value_name_idx_map_ E !! Name node_arg = Some v → planned_as_input v st2) ∧
  ort_value_info_ st2 = ort_value_info_ st1 ∧
  (∀ v c, UseCount st2 v = Ok c → c = 0) ∧
  freelist_ st2 = [].
Proof.
  intros Hunset Hempty Hperm Hlocated Hplanned.
  unfold ComputePlanForInputsAndWeights in Hplanned.
  apply bind_Ok in Hplanned as (sta & [Hka Hina]%setup_preexisting_loop & Hplanned).
  apply bind_Ok in Hplanned as (stb & [Hkb Hinb]%setup_preexisting_loop & Hweights).
  apply GeneratePlanForWeights_kinds in Hweights as Hkw.
  pose proof (kinds_set_trans _ _ _ (kinds_set_trans _ _ _ Hka Hkb) Hkw)
    as (Hinfo & Hfree & Hplan).
  pose proof (located_infos _ _ _ _ _ Hlocated) as Hinfos.
  destruct (ComputeValueLocation_processes _ _ _ _ Hlocated) as (Hdone & _ & _ & Hfree1 & _).
  assert (∀ v entry, AllocPlan st2 v = Ok entry →
            alloc_kind entry = kNotSet ∨ input_kind (alloc_kind entry)) as Hkinds.
  { intros v entry Hentry. destruct (Hplan v) as [Heq|(e & e' & _ & He' & Hk' & _)].
    - left. rewrite Heq in Hentry. rewrite <- Hunset. by eapply located_kinds.
    - right. congruence. }
  assert (∀ v c, UseCount st2 v = Ok c → c = 0) as Hzero.
  { unfold UseCount. rewrite Hinfo. intros v c.
    destruct (at_index (ort_value_info_ st1) v) as [info|] eqn:Hv; [|done].
    intros [= <-]. by destruct (Hinfos v info Hv) as [-> _]. }
  split; [|split; [|split; [done|split; [|split; [done|split; [done|]]]]]].
  - unfold defs_processed, self_owned, UseCount, Buffer. rewrite Hinfo. split_and!.
    + intros v c. destruct (at_index (ort_value_info_ st1) v) as [info|] eqn:Hv; [|done].
      intros [= <-]. destruct (Hinfos v info Hv) as [-> _]. done.
    + intros v b. destruct (at_index (ort_value_info_ st1) v) as [info|] eqn:Hv; [|done].
      intros [= <-]. destruct (Hinfos v info Hv) as [_ [[? _]|[? _]]]; [by left|by right].
    + intros v b Hv. destruct (Hdone v) as [d Hd].
      { apply elem_of_app. right. unfold order_defs in *. by rewrite Hperm. }
      rewrite Hd. by intros [= <-].
  - split; [|split; [|done]].
    + intros v entry [Hk|[Hk|Hk]]%Hkinds; rewrite Hk; done.
    + rewrite Hfree, Hfree1. done.
  - intros node_arg v [Hin|Hin]%elem_of_app Hv.
    + apply (kinds_set_keeps_input v stb); [done|].
      apply (kinds_set_keeps_input v sta); [done|]. by eapply Hina.
    + apply (kinds_set_keeps_input v stb); [done|]. by eapply Hinb.
  - rewrite Hfree, Hfree1. done.
Qed.

Lemma planner_ready_for_reuse_witness :
  defs_processed Weighted.env Weighted.planned ∧ plan_initial Weighted.env Weighted.planned ∧
  (∀ v entry, AllocPlan Weighted.planned v = Ok entry →
     alloc_kind entry = kNotSet ∨ input_kind (alloc_kind entry)) ∧
  (∀ node_arg v,
     node_arg ∈ GetInputs (graph_viewer_ Weighted.env) ++
                outer_scope_node_args_ Weighted.env →
     ort_value_name_idx_map_ Weighted.env !! Name node_arg = Some v →
     planned_as_input v Weighted.planned) ∧
  ort_value_info_ Weighted.planned = ort_value_info_ Weighted.located ∧
  (∀ v c, UseCount Weighted.planned v = Ok c → c = 0) ∧
  freelist_ Weighted.planned = [].
Proof.
  apply (planner_ready_for_reuse Weighted.env Weighted.inputs Weighted.weights
           Located.unset 3 Weighted.located Weighted.planned).
  - reflexivity.
  - vm_compute. reflexivity.
  - vm_compute. reflexivity.
  - vm_compute. reflexivity.
  - vm_compute. reflexivity.
Defined.

(** ** [CreatePlan] fails no assertion *)

Lemma stops_no_assert {A} (r : Result A) : stops_at_check r → no_assert r.
Proof. intros Hstops Hthrow. by destruct (Hstops _ Hthrow) as [?|[?|?]]. Qed.

Lemma stops_Throw {A} (f : Failure) : a_check f → stops_at_check (Throw f : Result A).
Proof. by intros Hf f' [= <-]. Qed.

Ltac stops_go :=
  repeat match goal with
  | |- stops_at_check _ => solve [auto with stops]
  | |- stops_at_check (Ok _) => exact (stops_Ok _)
  | |- stops_at_check (mret _) => exact (stops_Ok _)
  | |- stops_at_check (Throw _) => apply stops_Throw; unfold a_check; tauto
  | |- stops_at_check (_ ≫= _) => apply stops_bind; [|intros ? _]
  | |- stops_at_check (foldR _ _ _) => apply stops_foldR; intros
  | |- stops_at_check (foldR_indexed _ _ _ _) => apply stops_foldR_indexed; intros
  | |- stops_at_check (if ?b then _ else _) => destruct b
  | |- stops_at_check (match ?x with _ => _ end) => destruct x
  end.

Lemma stops_Index E name : stops_at_check (Index E name).
Proof. unfold Index. stops_go. Qed.

Lemma stops_Buffer st v : stops_at_check (Buffer st v).
Proof. unfold Buffer. stops_go. Qed.

Lemma stops_UseCount st v : stops_at_check (UseCount st v).
Proof. unfold UseCount. stops_go. Qed.

Lemma stops_update_info f st n : stops_at_check (update_info f st n).
Proof. unfold update_info. stops_go. Qed.

Lemma stops_update_plan f st n : stops_at_check (update_plan f st n).
Proof. unfold update_plan, AllocPlan. stops_go. Qed.

Lemma stops_stream_of E n : stops_at_check (stream_of E n).
Proof. unfold stream_of. stops_go. Qed.

#[local] Hint Resolve stops_Index stops_Buffer stops_UseCount stops_update_info
  stops_update_plan stops_stream_of : stops.

Lemma stops_PartitionIntoStreams cfg file is_open g sn :
  stops_at_check (PartitionIntoStreams cfg file is_open g sn).
Proof.
  unfold PartitionIntoStreams, CreateNodePartitioner, PartitionNodes, assign_node_streams,
    DumpPartition.
  apply stops_bind; [stops_go|]. intros [p file0] _.
  apply stops_bind; [stops_go|]. intros [] _.
  apply stops_bind.
  { destruct (negb _); [apply stops_Ok|].
    apply stops_bind.
    - destruct (_ && _); [|apply stops_Ok].
      apply stops_bind; [|intros; apply stops_Ok].
      apply stops_foldR. intros s n. unfold partition_by_provider.
      apply stops_bind; [stops_go|]. intros node _.
      destruct (ep_to_stream s !! _); stops_go.
    - intros p1 _. apply stops_bind; [|intros; apply stops_Ok].
      apply stops_foldR. intros s n. unfold place_node. stops_go. }
  intros [p1 sn1] _.
  apply stops_bind.
  { apply stops_foldR_indexed. intros m i stream. apply stops_foldR. intros m' n.
    unfold assign_node_stream. stops_go. }
  intros nsm _. apply stops_bind; [|intros; apply stops_Ok].
  destruct (need_dump_ p1); [|apply stops_Ok].
  apply stops_bind; [|intros; apply stops_Ok].
  case_bool_decide; [apply stops_Ok|]. destruct is_open; [|apply stops_Ok].
  apply stops_bind; [|intros; apply stops_Ok].
  apply stops_foldR. intros out nodes. unfold dump_names. stops_go.
Qed.

Lemma stops_ProcessDef st id d : stops_at_check (ProcessDef st id d).
Proof. unfold ProcessDef. stops_go. Qed.

Lemma stops_SetLocation st index info : stops_at_check (SetLocation st index info).
Proof. unfold SetLocation. stops_go. Qed.

Lemma stops_allocator_info L ep mem_type : stops_at_check (allocator_info L ep mem_type).
Proof. unfold allocator_info. stops_go. Qed.

#[local] Hint Resolve stops_ProcessDef stops_SetLocation stops_allocator_info : stops.

Lemma stops_process_input E L node_index ep implicit st input k :
  stops_at_check (process_input E L node_index ep implicit st input k).
Proof. unfold process_input. stops_go. Qed.

Lemma stops_ComputeValueLocation E L st : stops_at_check (ComputeValueLocation E L st).
Proof.
  unfold ComputeValueLocation, process_named.
  apply stops_bind; [stops_go|]. intros st1 _.
  apply stops_bind; [stops_go|]. intros st2 _.
  apply stops_bind; [stops_go|]. intros st3 _.
  apply stops_bind; [|intros; apply stops_Ok].
  apply stops_foldR. intros s stream. apply stops_foldR. intros s0 n.
  unfold ComputeValueLocation_node, GetKernelCreateInfo, ForEachWithIndex_at.
  destruct (GetNode _ n) as [pnode|]; [|stops_go].
  apply stops_bind; [stops_go|]. intros ci _.
  apply stops_bind; [stops_go|]. intros [] _.
  destruct (Get_provider _ _) as [ep|]; [|stops_go].
  apply stops_bind.
  { apply stops_foldR_indexed. intros s1 i a. destruct (Exists a); [|apply stops_Ok].
    apply stops_process_input. }
  intros s1 _. apply stops_bind.
  { apply stops_foldR_indexed. intros s2 i a. destruct (Exists a); [|apply stops_Ok].
    apply stops_process_input. }
  intros s2 _. apply stops_foldR_indexed. intros s3 i0 node_output.
  unfold locate_output. stops_go.
Qed.

Lemma stops_record_level_uses E L W parent m depth nodes locations :
  stops_at_check (record_level_uses E L W parent m depth nodes locations).
Proof.
  unfold record_level_uses. apply stops_foldR. intros s node.
  apply stops_foldR_indexed. intros s0 k a.
  unfold record_weight_use, GetLocationForNodeInput, GetKernelCreateInfo, record_location.
  stops_go.
Qed.

Lemma stops_GeneratePlanForWeightsHelper E L W graph_viewer :
  ∀ m key_base depth locations,
    stops_at_check (GeneratePlanForWeightsHelper E L W graph_viewer m key_base depth locations).
Proof.
  induction graph_viewer as [parent nodes IH] using NestedGraph_induction.
  intros m key_base depth locations. cbn [GeneratePlanForWeightsHelper].
  apply stops_bind; [apply stops_record_level_uses|]. intros locations1 _.
  revert locations1. induction IH as [|node nodes Hnode _ IHnodes]; intros locations1.
  { apply stops_Ok. }
  cbn [foldR]. apply stops_bind; [|intros s _; apply IHnodes].
  generalize locations1. clear locations1.
  induction Hnode as [|subgraph subgraphs Hsubgraph _ IHsubgraphs]; intros locations1.
  { apply stops_Ok. }
  cbn [foldR]. apply stops_bind; [|intros s _; apply IHsubgraphs].
  apply stops_bind; [stops_go|]. intros m' _. apply Hsubgraph.
Qed.

Lemma stops_ComputePlanForInputsAndWeights E L W st :
  stops_at_check (ComputePlanForInputsAndWeights E L W st).
Proof.
  unfold ComputePlanForInputsAndWeights, setup_preexisting, set_alloc_kind,
    GeneratePlanForWeights.
  apply stops_bind; [stops_go|]. intros st1 _.
  apply stops_bind; [stops_go|]. intros st2 _.
  apply stops_bind; [apply stops_GeneratePlanForWeightsHelper|]. intros; apply stops_Ok.
Qed.

Lemma stops_push_step i step st : stops_at_check (push_step i step st).
Proof. unfold push_step. stops_go. Qed.

#[local] Hint Resolve stops_push_step : stops.

Lemma stops_BuildExecutionPlan E B : stops_at_check (BuildExecutionPlan E B).
Proof.
  unfold BuildExecutionPlan, assign_notifications.
  apply stops_bind.
  { apply stops_foldR. intros acc stream. apply stops_foldR. intros acc' n.
    unfold assign_notification. stops_go. }
  intros notifications _. apply stops_bind.
  { apply stops_foldR. intros plan stream. apply stops_foldR. intros plan' n.
    unfold set_stream_provider. stops_go. }
  intros plan _. apply stops_bind.
  { apply stops_foldR. intros owners n. unfold set_notification_owner. stops_go. }
  intros owners _. apply stops_bind.
  { apply stops_foldR_indexed. intros st i stream. apply stops_foldR_indexed.
    intros st' j n. unfold emit_node.
    apply stops_bind; [stops_go|]. intros st1 _.
    apply stops_bind; [stops_go|]. intros node _.
    apply stops_bind.
    { apply stops_foldR. intros st2 it. unfold emit_wait. stops_go. }
    intros st2 _. stops_go. }
  intros st _. apply stops_foldR. intros st' n.
  apply stops_bind; [stops_go|]. intros node _.
  apply stops_foldR. intros st'' a. unfold record_value_node. stops_go.
Qed.

Lemma stops_build_value_node_map E built : stops_at_check (build_value_node_map E built).
Proof. unfold build_value_node_map. stops_go. Qed.

Lemma stops_GenerateDeallocationPlan E st : stops_at_check (GenerateDeallocationPlan E st).
Proof.
  unfold GenerateDeallocationPlan, collect_consumers, build_release_actions.
  apply stops_bind.
  { apply stops_foldR. intros vc stream. apply stops_foldR. intros vc' n.
    unfold record_node_consumers, ForEachWithIndex.
    apply stops_bind; [stops_go|]. intros node _.
    apply stops_bind; apply stops_foldR || (intros vc2 _; apply stops_foldR);
      intros vc3 a; unfold record_consumer; stops_go. }
  intros value_consumers _. apply stops_foldR. intros plan i. unfold release_value.
  destruct (value_consumers !! i) as [[|first others]|]; try apply stops_Ok.
  apply stops_bind; [stops_go|]. intros stream_idx _.
  apply stops_bind.
  { induction others as [|n rest IH]; simpl; stops_go. }
  intros same _. destruct same; [unfold process_consumer; stops_go|].
  apply stops_foldR. intros plan' n. unfold process_consumer. stops_go.
Qed.

Lemma stops_IsSingleStream E built : stops_at_check (IsSingleStream E built).
Proof.
  unfold IsSingleStream. generalize 0%nat (∅ : gset string).
  induction (stream_nodes_ E) as [|stream rest IH]; intros i seen; simpl; stops_go.
Qed.

Lemma stops_ComputeReuseCount E st : stops_at_check (ComputeReuseCount E st).
Proof.
  unfold ComputeReuseCount, add_UseCount_name, add_UseCount, set_UseCount.
  apply stops_bind; [stops_go|]. intros st1 _.
  apply stops_bind; [stops_go|]. intros st2 _.
  apply stops_bind; [stops_go|]. intros st3 _.
  apply stops_bind; [|intros st4 _; stops_go].
  apply stops_foldR. intros s stream. apply stops_foldR. intros s0 n.
  unfold ComputeReuseCount_node, ForEachWithIndex, HasExternalOutputs, GetKernelCreateInfo,
    add_UseCount_name, add_UseCount, set_UseCount.
  stops_go.
Qed.

Lemma PartitionIntoStreams_covers cfg file is_open g sn sn' nsm n file' :
  PartitionIntoStreams cfg file is_open g sn = Ok (sn', nsm, n, file') →
  concat sn' ≡ₚ GetNodesInTopologicalOrder g.
Proof.
  unfold PartitionIntoStreams. intros ([p file0] & _ & Hrun)%bind_Ok.
  apply bind_Ok in Hrun as (? & Hok & Hrun).
  assert (IsOK (status_ p) = true) as Hstatus.
  { unfold ORT_ENFORCE in Hok. by destruct (IsOK (status_ p)). }
  apply bind_Ok in Hrun as ([p1 sn1] & Hpartition & Hrun).
  apply bind_Ok in Hrun as (nsm1 & _ & Hrun).
  apply bind_Ok in Hrun as (file1 & _ & [= Hsn _ _ _]).
  apply PartitionNodes_Ok in Hpartition as (s & Hplace & Hplaced & _); [|done].
  apply place_nodes_permutation in Hplace as (_ & Hperm & _). congruence.
Qed.

Lemma located_defs_processed E L unset num_ml_values st1 st2 :
  concat (stream_nodes_ E) ≡ₚ GetNodesInTopologicalOrder (graph_viewer_ E) →
  ComputeValueLocation E L (PlannerImpl_Initialize unset num_ml_values new_planner) = Ok st1 →
  ort_value_info_ st2 = ort_value_info_ st1 →
  defs_processed E st2.
Proof.
  intros Hperm Hlocated Hinfo.
  pose proof (located_infos _ _ _ _ _ Hlocated) as Hinfos.
  destruct (ComputeValueLocation_processes _ _ _ _ Hlocated) as (Hdone & _).
  unfold defs_processed, self_owned, UseCount, Buffer. rewrite Hinfo. split_and!.
  - intros v c. destruct (at_index (ort_value_info_ st1) v) as [info|] eqn:Hv; [|done].
    intros [= <-]. destruct (Hinfos v info Hv) as [-> _]. done.
  - intros v b. destruct (at_index (ort_value_info_ st1) v) as [info|] eqn:Hv; [|done].
    intros [= <-]. destruct (Hinfos v info Hv) as [_ [[? _]|[? _]]]; [by left|by right].
  - intros v b Hv. destruct (Hdone v) as [d Hd].
    { apply elem_of_app. right. unfold order_defs in *. by rewrite Hperm. }
    rewrite Hd. by intros [= <-].
Qed.

Lemma ComputePlanForInputsAndWeights_kinds E L W st st' :
  ComputePlanForInputsAndWeights E L W st = Ok st' → kinds_set st st'.
Proof.
  unfold ComputePlanForInputsAndWeights.
  intros (sta & [Hka _]%setup_preexisting_loop & Hrun)%bind_Ok.
  apply bind_Ok in Hrun as (stb & [Hkb _]%setup_preexisting_loop & Hkw%GeneratePlanForWeights_kinds).
  eapply kinds_set_trans; [|exact Hkw]. by eapply kinds_set_trans.
Qed.

Lemma no_assert_ComputeReusePlan E opt parallel built st :
  walks_once opt → defs_processed E st →
  NoDup (order_defs E (GetNodesInTopologicalOrder (graph_viewer_ E))) →
  concat (stream_nodes_ E) ≡ₚ GetNodesInTopologicalOrder (graph_viewer_ E) →
  no_assert (ComputeReusePlan E opt parallel built st).
Proof.
  intros Hwalk Hdefs Hnd Hperm. unfold ComputeReusePlan.
  apply no_assert_bind; [apply stops_no_assert, stops_IsSingleStream|]. intros single _.
  set (E' := if single then E else with_context E parallel).
  assert (defs_processed E' st ∧
          NoDup (order_defs E' (GetNodesInTopologicalOrder (graph_viewer_ E'))) ∧
          concat (stream_nodes_ E') ≡ₚ GetNodesInTopologicalOrder (graph_viewer_ E'))
    as (Hdefs' & Hnd' & Hperm').
  { subst E'. by destruct single. }
  apply no_assert_bind; [apply stops_no_assert, stops_ComputeReuseCount|]. intros st0 Hcount.
  destruct (ComputeReuseCount_covers E' st st0 Hdefs' Hperm' Hcount) as [Hcover Hown].
  apply no_assert_bind.
  { apply (keeps_no_assert _ (λ st', counts_cover st' [])).
    apply plan_order_keeps; [by rewrite app_nil_r|done|done]. }
  intros st1 _. destruct single; [apply no_assert_Ok|].
  apply stops_no_assert. unfold OptimizeReusePlanForMultiStream.
  apply stops_bind; [|intros s _; apply stops_Ok].
  apply (stops_traverse E' opt _ _ Hwalk _ ∅).
  - by apply queue_inv_initial.
  - apply subseteq_size. by intros x [? _]%elem_of_difference.
Qed.


Example CreatePlan_S1 :
  match CreatePlan S1.env Created.inputs with
  | Ok plan =>
      created_streams plan = stream_nodes_ S1.env ∧
      created_values plan = S1.planned ∧
      created_release plan = S1.released
  | Throw _ => False
  end.
Proof. vm_compute. split_and!; reflexivity. Qed.


(** ** The kernel decides the location of an output *)

Section output_location.

Variable E : PlannerEnv.
Variable L : LocationInputs.
Variable v : OrtValueIndex.
Variable place : OrtMemoryInfo.
Hypothesis definers_agree : ∀ n pnode i,
  definer E v n pnode i → output_location L pnode i = Some place.
Hypothesis inside : made_inside E L v.

Lemma input_keeps_output_place node_index exec_provider is_implicit_input st input k st' :
  process_input E L node_index exec_provider is_implicit_input st input k = Ok st' →
  location_of (located st') v = location_of (located st) v.
Proof.
  unfold process_input. destruct (_ || _) eqn:Hgraph; [|by intros [= <-]].
  intros (index & Hindex%checked_Ok & Hrun)%bind_Ok.
  assert (v ≠ index) as Hne.
  { intros ->. destruct (inside _ Hindex) as [Hg Ho].
    apply orb_true_iff in Hgraph as [?%bool_decide_eq_true|?%bool_decide_eq_true]; done. }
  assert (∀ p info, SetLocation (located st) index info = Ok p →
                    location_of p v = location_of (located st) v) as Hother.
  { intros p info Hset. rewrite (SetLocation_location _ _ _ _ Hset).
    by rewrite decide_False. }
  destruct is_implicit_input; simpl in Hrun.
  - destruct (_ && _).
    { apply bind_Ok in Hrun as (? & _ & Hrun).
      destruct (outer_scope_node_arg_to_location_map_ L !! Name input) as [outer_location|];
        [|by injection Hrun as <-].
      apply bind_Ok in Hrun as (p & Hset & [= <-]). by eapply Hother. }
    case_bool_decide; [|by injection Hrun as <-].
    case_bool_decide; [|by injection Hrun as <-].
    destruct (map_implicitly_consumed_node_arg_to_ep st !! index) as [already_seen_ep|].
    + case_bool_decide.
      * apply bind_Ok in Hrun as (info & _ & Hrun).
        apply bind_Ok in Hrun as (p & Hset & [= <-]). by eapply Hother.
      * apply bind_Ok in Hrun as (cpu_provider & _ & Hrun).
        apply bind_Ok in Hrun as (info & _ & Hrun).
        apply bind_Ok in Hrun as (p & Hset & [= <-]). by eapply Hother.
    + apply bind_Ok in Hrun as (info & _ & Hrun).
      apply bind_Ok in Hrun as (p & Hset & [= <-]). by eapply Hother.
  - apply bind_Ok in Hrun as (info & _ & Hrun).
    apply bind_Ok in Hrun as (p & Hset & [= <-]). by eapply Hother.
Qed.

Lemma inputs_keep_output_place node_index exec_provider is_implicit_input args st st' :
  ForEachWithIndex_at args (process_input E L node_index exec_provider is_implicit_input) st
    = Ok st' →
  location_of (located st') v = location_of (located st) v.
Proof.
  unfold ForEachWithIndex_at.
  apply (foldR_indexed_preserves
           (λ s s', location_of (located s') v = location_of (located s) v));
    [done|congruence|].
  intros s i input s'. destruct (Exists input); [|by intros [= <-]].
  apply input_keeps_output_place.
Qed.

Lemma output_placed n pnode exec_provider i node_output st st' :
  n ∈ concat (stream_nodes_ E) → GetNode (graph_viewer_ E) n = Some pnode →
  Get_provider (execution_providers_ L) (GetExecutionProviderType pnode) = Some exec_provider →
  OutputDefs pnode !! i = Some node_output →
  locate_output E L (Node_Index pnode) exec_provider st i node_output = Ok st' →
  (location_of (located st) v = Some place → location_of (located st') v = Some place) ∧
  (definer E v n pnode i → location_of (located st') v = Some place).
Proof.
  intros Hn Hnode Hep Hout. unfold locate_output.
  destruct (Exists node_output) eqn:Hexists; simpl.
  2:{ intros [= <-]. split; [done|].
      intros (_ & _ & out & Hout' & Hexists' & _). congruence. }
  intros (index & Hindex%checked_Ok & Hrun)%bind_Ok.
  apply bind_Ok in Hrun as (p & Hdef & Hrun).
  apply bind_Ok in Hrun as (info & Hinfo%checked_Ok & Hrun).
  apply bind_Ok in Hrun as (p' & Hset & [= <-]). simpl.
  rewrite (SetLocation_location _ _ _ _ Hset), (ProcessDef_location _ _ _ _ _ Hdef).
  assert (definer E v n pnode i → v = index) as Hsame.
  { intros (_ & _ & out & Hout' & _ & Hv). congruence. }
  assert (v = index → info = place) as Hplace.
  { intros ->. assert (output_location L pnode i = Some place) as Hwhere.
    { apply (definers_agree n). split; [done|]. split; [done|]. by exists node_output. }
    unfold output_location in Hwhere. rewrite Hep in Hwhere. simpl in Hwhere. congruence. }
  split.
  - case_decide as Hv; [|done]. intros _. f_equal. by apply Hplace.
  - intros Hv%Hsame. rewrite decide_True by done. f_equal. by apply Hplace.
Qed.

Lemma node_places_output n st st' :
  n ∈ concat (stream_nodes_ E) →
  ComputeValueLocation_node E L st n = Ok st' →
  (location_of (located st) v = Some place → location_of (located st') v = Some place) ∧
  (∀ pnode i, definer E v n pnode i → location_of (located st') v = Some place).
Proof.
  intros Hn. unfold ComputeValueLocation_node.
  destruct (GetNode (graph_viewer_ E) n) as [pnode|] eqn:Hnode; [|done].
  intros (kernel_create_info & _ & Hrun)%bind_Ok.
  apply bind_Ok in Hrun as (? & _ & Hrun).
  destruct (Get_provider _ _) as [exec_provider|] eqn:Hep; [|done].
  apply bind_Ok in Hrun as (st1 & H1%inputs_keep_output_place & Hrun).
  apply bind_Ok in Hrun as (st2 & H2%inputs_keep_output_place & Houtputs).
  rewrite <- H1, <- H2. split.
  - intros Hplaced. revert Hplaced Houtputs.
    apply (foldR_indexed_inv_at (λ s, location_of (located s) v = Some place)).
    intros s q node_output s' Hq Hs Hstep. cbn [Nat.add] in Hstep.
    destruct (output_placed n pnode exec_provider q node_output s s') as [Hkeep _];
      try done.
    by apply Hkeep.
  - intros pnode' i Hdefiner.
    pose proof Hdefiner as (_ & Hnode' & node_output & Hout & _).
    rewrite Hnode in Hnode'. injection Hnode' as <-.
    eapply (foldR_indexed_reaches (λ _, True)
              (λ s, location_of (located s) v = Some place) _ _ i node_output 0%nat Hout);
      [| |done|exact Houtputs].
    + intros s q y s' Hq _ Hstep. cbn [Nat.add] in Hstep. split; [done|].
      by destruct (output_placed n pnode exec_provider q y s s') as [Hkeep _].
    + intros s s' _ Hstep. cbn [Nat.add] in Hstep.
      destruct (output_placed n pnode exec_provider i node_output s s') as [_ Hhere];
        try done.
      by apply Hhere.
Qed.

Lemma streams_place_output st st' :
  foldR (λ st stream_execution_order,
           foldR (ComputeValueLocation_node E L) stream_execution_order st)
        (stream_nodes_ E) st = Ok st' →
  (∃ n pnode i, definer E v n pnode i) →
  location_of (located st') v = Some place.
Proof.
  intros Hrun (n & pnode & i & Hdefiner).
  pose proof Hdefiner as ((stream & Hn & Hstream)%elem_of_concat & _).
  assert (∀ stream' s s', stream' ∈ stream_nodes_ E →
            foldR (ComputeValueLocation_node E L) stream' s = Ok s' →
            location_of (located s) v = Some place →
            location_of (located s') v = Some place) as Hkeep.
  { intros stream' s s' Hin Hrun' Hs. revert Hs Hrun'.
    apply (foldR_inv_elem (λ s, location_of (located s) v = Some place)).
    intros s0 m s1 Hm Hs0 Hstep.
    destruct (node_places_output m s0 s1) as [Hkept _]; [|done|by apply Hkept].
    apply elem_of_concat. by exists stream'. }
  destruct (foldR_reaches (λ _, True) (λ s, location_of (located s) v = Some place)
              (λ st stream_execution_order,
                 foldR (ComputeValueLocation_node E L) stream_execution_order st)
              (stream_nodes_ E) stream Hstream) with (s := st) (s' := st')
    as [_ Hend]; [| |done|done|done].
  - intros s stream' s' Hin _ Hrun'. split; [done|]. by apply (Hkeep stream').
  - intros s s' _.
    intros Hrun'.
    destruct (foldR_reaches (λ _, True) (λ s, location_of (located s) v = Some place)
                (ComputeValueLocation_node E L) stream n Hn) with (s := s) (s' := s')
      as [_ Hreached]; [| |done|done|done].
    + intros s0 m s1 Hm _ Hstep. split; [done|].
      destruct (node_places_output m s0 s1) as [Hkept _]; [|done|done].
      apply elem_of_concat. by exists stream.
    + intros s0 s1 _ Hstep.
      destruct (node_places_output n s0 s1) as [_ Hhere]; [|done|by eapply Hhere].
      apply elem_of_concat. by exists stream.
Qed.

End output_location.

(** X27. The kernel decides where an output is placed: if value [v] is
    an existing output of some node of the streams, every node that
    defines it asks for the same location (the allocator of its provider
    for the memory type its kernel declares for that output), and no
    name of [v] is a graph input, an initializer or an outer-scope
    argument, then after [ComputeValueLocation] the value is planned at
    that location. *)
Theorem kernel_decides_output_location E L v place st st' :
  (∃ n pnode i, definer E v n pnode i) →
  (∀ n pnode i, definer E v n pnode i → output_location L pnode i = Some place) →
  made_inside E L v →
  ComputeValueLocation E L st = Ok st' →
  location_of st' v = Some place.
Proof.
  intros Hdefiner Hagree Hinside. unfold ComputeValueLocation.
  intros (st1 & _ & Hrun)%bind_Ok.
  apply bind_Ok in Hrun as (st2 & _ & Hrun).
  apply bind_Ok in Hrun as (st3 & _ & Hrun).
  apply bind_Ok in Hrun as (st4 & Hstreams & [= <-]).
  by eapply (streams_place_output E L v place Hagree Hinside).
Qed.

Lemma kernel_decides_output_location_witness :
  location_of Located.located 2 = Some S1.cpu.
Proof.
  apply (kernel_decides_output_location S1.env Located.inputs 2 S1.cpu
           Located.initial Located.located).
  - exists 1%N, S1.node_B, 0%nat. split; [right; by left|]. split; [reflexivity|].
    exists S1.b. split; [reflexivity|]. split; [reflexivity|]. vm_compute. reflexivity.
  - intros n pnode i (Hn & Hnode & _). simpl in Hn.
    apply elem_of_cons in Hn as [->|Hn]; [|apply elem_of_cons in Hn as [->|Hn]];
      [| |apply elem_of_cons in Hn as [->|Hn]; [|by apply elem_of_nil in Hn]];
      vm_compute in Hnode; injection Hnode as <-; vm_compute; reflexivity.
  - intros name Hname. simpl.
    assert (name ≠ "x") as Hne by (intros ->; vm_compute in Hname; congruence).
    split; [|apply not_elem_of_nil]. by intros ->%list_elem_of_singleton.
  - vm_compute. reflexivity.
Defined.

(** ** The inputs of group query attention *)

Section group_query_attention.

Import group_query_attention_helper.

Lemma dims_4 (dims : list Z) a b c d :
  length dims = 4%nat →
  dims !! 0%nat = Some a → dims !! 1%nat = Some b →
  dims !! 2%nat = Some c → dims !! 3%nat = Some d →
  dims = [a; b; c; d].
Proof.
  destruct dims as [|? [|? [|? [|? [|]]]]]; try discriminate. intros _. simpl. congruence.
Qed.

Lemma dims_3 (dims : list Z) a b c :
  length dims = 3%nat →
  dims !! 0%nat = Some a → dims !! 1%nat = Some b → dims !! 2%nat = Some c →
  dims = [a; b; c].
Proof.
  destruct dims as [|? [|? [|? [|]]]]; try discriminate. intros _. simpl. congruence.
Qed.

Ltac gqa_step :=
  match goal with
  | H : (_ ≫= _) = Ok _ |- _ => apply bind_Ok in H as (? & ? & H)
  | H : unchecked _ = Ok _ |- _ => apply unchecked_Ok in H
  | H : (if bool_decide _ then _ else _) = Ok _ |- _ =>
      case_bool_decide; [try discriminate H|]
  | H : mret _ = Ok _ |- _ => injection H as H
  | H : inl _ = inr _ |- _ => discriminate H
  | H : INVALID_ARGUMENT _ = OK |- _ => discriminate H
  | H : context [match ?p with (_, _) => _ end] |- _ => destruct p
  | H : match ?x with inl _ => _ | inr _ => _ end = Ok _ |- _ => destruct x as [?|?]
  | H : ¬ (_ ≠ _) |- _ => apply dec_stable in H
  end.

(** What [check_past] has seen when it lets [CheckInputs] go on. *)
Lemma check_past_inr past_key past_value is_past_bsnh kv_share_buffer B N H past max format :
  check_past past_key past_value is_past_bsnh kv_share_buffer B N H
    = Ok (inr (past, max, format)) →
  (past_key = None ∧ past_value = None ∧ kv_share_buffer = false ∧
   past = 0 ∧ max = 0 ∧ format = Q_K_V_BSNH) ∨
  ∃ S_past,
    shape past_key = Some (past_shape is_past_bsnh B N S_past H) ∧
    shape past_value = Some (past_shape is_past_bsnh B N S_past H) ∧
    past = to_int S_past ∧
    max = (if kv_share_buffer then to_int S_past else 0) ∧
    format = (if is_past_bsnh then Q_K_V_BSNH else Q_K_V_BNSH).
Proof.
  unfold check_past. destruct past_key as [pk|], past_value as [pv|]; simpl.
  - intros Hrun. right. repeat gqa_step.
    destruct is_past_bsnh; simpl in *; repeat gqa_step; simplify_eq;
      eexists; (split_and!; [f_equal; by apply dims_4 | f_equal; by apply dims_4 | done..]).
  - discriminate.
  - discriminate.
  - destruct kv_share_buffer; [discriminate|]. intros [= <- <- <-]. by left.
Qed.

Lemma check_past_shaped pk pv is_past_bsnh kv_share_buffer B N H S_past :
  GetDims pk = past_shape is_past_bsnh B N S_past H →
  GetDims pv = past_shape is_past_bsnh B N S_past H →
  check_past (Some pk) (Some pv) is_past_bsnh kv_share_buffer B N H
    = Ok (inr (to_int S_past,
               if kv_share_buffer then to_int S_past else 0,
               if is_past_bsnh then Q_K_V_BSNH else Q_K_V_BNSH)).
Proof.
  unfold check_past. intros -> ->.
  destruct is_past_bsnh; simpl; rewrite !bool_decide_eq_false_2 by (intros Hne; by apply Hne);
    reflexivity.
Qed.

(** What [check_mask] has seen when it lets [CheckInputs] go on. *)
Lemma check_mask_inr attention_mask B S_kv length has_mask is_prompt :
  check_mask attention_mask B S_kv = Ok (inr (length, has_mask, is_prompt)) →
  (attention_mask = None ∧ length = 0 ∧ has_mask = false ∧ is_prompt = false) ∨
  ∃ mask total rest,
    attention_mask = Some mask ∧ GetDims mask = B :: total :: rest ∧
    length = to_int total ∧ has_mask = true ∧ is_prompt = bool_decide (total = S_kv).
Proof.
  unfold check_mask. destruct attention_mask as [mask|]; simpl.
  - intros Hrun. right. repeat gqa_step. simplify_eq.
    destruct (GetDims mask) as [|? [|? rest]] eqn:Hdims; simplify_eq/=.
    by eexists _, _, _.
  - intros [= <- <- <-]. by left.
Qed.

Lemma check_mask_shaped mask B S_kv total rest :
  GetDims mask = B :: total :: rest →
  check_mask (Some mask) B S_kv = Ok (inr (to_int total, true, bool_decide (total = S_kv))).
Proof.
  unfold check_mask. intros ->. simpl.
  by rewrite bool_decide_eq_false_2 by (intros Hne; by apply Hne).
Qed.

(** What [CheckInputs] has seen, and what it has written, when it
    returns [OK]. *)
Lemma CheckInputs_OK_inv query key value past_key past_value parameters num_heads
    kv_num_heads attention_mask is_past_bsnh kv_share_buffer scale written :
  CheckInputs query key value past_key past_value parameters num_heads kv_num_heads
    attention_mask is_past_bsnh kv_share_buffer scale = Ok (OK, written) →
  ∃ B S D S_kv D_kv S_past head_size mask_length has_mask is_prompt,
    accepted query key value past_key past_value num_heads kv_num_heads attention_mask
      is_past_bsnh kv_share_buffer B S D S_kv D_kv S_past ∧
    int_div (to_int D) num_heads = Some head_size ∧
    check_mask attention_mask (to_int B) (to_int S_kv)
      = Ok (inr (mask_length, has_mask, is_prompt)) ∧
    written =
      (parameters ≫= λ _,
         let present :=
           if kv_share_buffer then to_int S_past
           else int_add (to_int S_past) (to_int S_kv) in
         Some (mkGroupQueryAttentionParameters (to_int B) (to_int S) (to_int S_past)
                 (to_int S_kv) present present mask_length (to_int D) num_heads head_size
                 (to_int D_kv) kv_num_heads kv_share_buffer true has_mask is_prompt scale
                 Q_K_V_BSNH (if is_Some_dec past_key
                             then if is_past_bsnh then Q_K_V_BSNH else Q_K_V_BNSH
                             else Q_K_V_BSNH))).
Proof.
  unfold CheckInputs. intros Hrun.
  apply bind_Ok in Hrun as (q & ->%unchecked_Ok & Hrun).
  apply bind_Ok in Hrun as (k & ->%unchecked_Ok & Hrun).
  case_bool_decide as Hq; [by injection Hrun|].
  apply bind_Ok in Hrun as (B & HB%unchecked_Ok & Hrun).
  apply bind_Ok in Hrun as (S & HS%unchecked_Ok & Hrun).
  apply bind_Ok in Hrun as (D & HD%unchecked_Ok & Hrun).
  apply bind_Ok in Hrun as (head_size & Hhead%unchecked_Ok & Hrun).
  apply bind_Ok in Hrun as (S_kv & HS_kv%unchecked_Ok & Hrun).
  apply bind_Ok in Hrun as (D_kv & HD_kv%unchecked_Ok & Hrun).
  apply bind_Ok in Hrun as ([message|[[past max] format]] & Hpast & Hrun);
    [by injection Hrun|].
  case_bool_decide as Hk; [by injection Hrun|].
  apply bind_Ok in Hrun as (B_k & HB_k%unchecked_Ok & Hrun).
  case_bool_decide as HBk; [by injection Hrun|]. subst B_k.
  apply bind_Ok in Hrun as (remainder & Hrem%unchecked_Ok & Hrun).
  case_bool_decide as Hr; [by injection Hrun|]. subst remainder.
  apply bind_Ok in Hrun as (v & ->%unchecked_Ok & Hrun).
  case_bool_decide as Hv; [by injection Hrun|].
  apply bind_Ok in Hrun as (B_v & HB_v%unchecked_Ok & Hrun).
  case_bool_decide as HBv; [by injection Hrun|]. subst B_v.
  apply bind_Ok in Hrun as (S_v & HS_v%unchecked_Ok & Hrun).
  case_bool_decide as HSv; [by injection Hrun|]. subst S_v.
  apply bind_Ok in Hrun as (D_v & HD_v%unchecked_Ok & Hrun).
  case_bool_decide as HDv; [by injection Hrun|]. subst D_v.
  apply bind_Ok in Hrun as ([message|[[mask_length has_mask] is_prompt]] & Hmask & Hrun);
    [by injection Hrun|].
  destruct (kv_share_buffer && bool_decide (attention_mask = None)) eqn:Hshared;
    [by injection Hrun|].
  destruct (if kv_share_buffer then (max, max)
            else (int_add past (to_int S_kv), int_add past (to_int S_kv)))
    as [present max'] eqn:Hlengths.
  assert (written = parameters ≫= λ _,
            Some (mkGroupQueryAttentionParameters (to_int B) (to_int S) past (to_int S_kv)
                    present max' mask_length (to_int D) num_heads head_size (to_int D_kv)
                    kv_num_heads kv_share_buffer true has_mask is_prompt scale
                    Q_K_V_BSNH format)) as ->.
  { destruct parameters as [p|]; simpl in *; [|by injection Hrun].
    rewrite Hhead in Hrun. simpl in Hrun. by injection Hrun. }
  clear Hrun.
  assert (shape (Some q) = Some [B; S; D]) as Hquery
    by (simpl; f_equal; by apply dims_3).
  assert (shape (Some k) = Some [B; S_kv; D_kv]) as Hkey
    by (simpl; f_equal; by apply dims_3).
  assert (shape (Some v) = Some [B; to_int S_kv; to_int D_kv]) as Hvalue
    by (simpl; f_equal; by apply dims_3).
  assert (∀ mask, attention_mask = Some mask →
            ∃ total rest, GetDims mask = to_int B :: total :: rest) as Hmasked.
  { intros mask ->.
    apply check_mask_inr in Hmask as [(? & _)|(? & total & rest & [= <-] & ? & _)];
      [done|by exists total, rest]. }
  exists B, S, D, S_kv, D_kv.
  apply check_past_inr in Hpast
    as [(-> & -> & -> & -> & -> & ->)|(S_past & Hpk & Hpv & -> & -> & ->)].
  - exists 0, head_size, mask_length, has_mask, is_prompt. injection Hlengths as <- <-.
    split; [|done]. unfold accepted. split_and!; try done.
    exists head_size. split; [done|]. by left.
  - exists S_past, head_size, mask_length, has_mask, is_prompt.
    assert (is_Some past_key) as Hsome.
    { destruct past_key; [by eexists|discriminate Hpk]. }
    destruct (is_Some_dec past_key) as [_|Hnone]; [|by destruct Hnone].
    destruct kv_share_buffer; simpl in Hlengths, Hshared; injection Hlengths as <- <-.
    + split; [|done]. unfold accepted. split_and!; try done.
      * exists head_size. split; [done|]. by right.
      * intros _. destruct attention_mask; [by eexists|]. done.
    + split; [|done]. unfold accepted. split_and!; try done.
      exists head_size. split; [done|]. by right.
Qed.

Lemma CheckInputs_accepts query key value past_key past_value parameters num_heads
    kv_num_heads attention_mask is_past_bsnh kv_share_buffer scale B S D S_kv D_kv S_past :
  accepted query key value past_key past_value num_heads kv_num_heads attention_mask
    is_past_bsnh kv_share_buffer B S D S_kv D_kv S_past →
  ∃ written,
    CheckInputs query key value past_key past_value parameters num_heads kv_num_heads
      attention_mask is_past_bsnh kv_share_buffer scale = Ok (OK, written).
Proof.
  intros (Hquery & Hkey & Hvalue & (head_size & Hhead & Hpast) & Hrem & Hmask & Hshared).
  destruct query as [q|]; [|discriminate Hquery]. injection Hquery as Hquery.
  destruct key as [k|]; [|discriminate Hkey]. injection Hkey as Hkey.
  destruct value as [v|]; [|discriminate Hvalue]. injection Hvalue as Hvalue.
  unfold CheckInputs. simpl. rewrite Hquery, Hkey, Hvalue. simpl.
  rewrite Hhead, Hrem. simpl.
  assert (∃ max format,
            check_past past_key past_value is_past_bsnh kv_share_buffer (to_int B)
              kv_num_heads head_size = Ok (inr (to_int S_past, max, format)))
    as (max & format & ->).
  { destruct Hpast as [(-> & -> & -> & ->)|[Hpk Hpv]]; [by eexists _, _|].
    destruct past_key as [pk|]; [|discriminate Hpk]. injection Hpk as Hpk.
    destruct past_value as [pv|]; [|discriminate Hpv]. injection Hpv as Hpv.
    eexists _, _. by apply check_past_shaped. }
  simpl. rewrite !bool_decide_eq_false_2 by (intros Hne; by apply Hne).
  assert (∃ length has_mask is_prompt,
            check_mask attention_mask (to_int B) (to_int S_kv)
              = Ok (inr (length, has_mask, is_prompt)))
    as (length & has_mask & is_prompt & ->).
  { destruct attention_mask as [mask|]; [|by eexists _, _, _].
    destruct (Hmask mask eq_refl) as (total & rest & Hdims).
    eexists _, _, _. by apply (check_mask_shaped _ _ _ total rest). }
  simpl. destruct kv_share_buffer; simpl.
  - destruct (Hshared eq_refl) as [mask ->]. simpl.
    destruct parameters; by eexists.
  - destruct parameters; by eexists.
Qed.

Lemma int_div_Some a b q : int_div a b = Some q → b ≠ 0 ∧ q = a ÷ b.
Proof.
  unfold int_div. case_bool_decide; [done|]. destruct (is_int (a ÷ b)); [|done].
  by intros [= <-].
Qed.

(** A status other than [OK] leaves [parameters] as they were. *)
Lemma CheckInputs_invalid query key value past_key past_value parameters num_heads
    kv_num_heads attention_mask is_past_bsnh kv_share_buffer scale message written :
  CheckInputs query key value past_key past_value parameters num_heads kv_num_heads
    attention_mask is_past_bsnh kv_share_buffer scale
    = Ok (INVALID_ARGUMENT message, written) →
  written = parameters.
Proof.
  unfold CheckInputs. intros Hrun.
  repeat first
    [ gqa_step
    | match goal with
      | H : (if ?b && _ then _ else _) = Ok _ |- _ => destruct b; simpl in H
      | H : match ?o with Some _ => _ | None => _ end = Ok _ |- _ => destruct o
      | H : OK = INVALID_ARGUMENT _ |- _ => discriminate H
      end ];
    by simplify_eq.
Qed.

(** X28. [CheckInputs] returns [OK] for exactly the accepted inputs:
    query, key and value are present with shapes (B, S, D), (B, S_kv,
    D_kv) and (B, S_kv, D_kv) (the last two numbers as [int]), the head
    size D / num_heads is defined, the past tensors are both absent
    (without a shared buffer) or both of the shape that [is_past_bsnh]
    asks for, num_heads is a multiple of kv_num_heads, and a mask has
    at least two dimensions, the first one B, and is present with a
    shared buffer.  The sum of the past and the new length is not
    looked at. *)
Theorem CheckInputs_OK_iff_accepted query key value past_key past_value parameters
    num_heads kv_num_heads attention_mask is_past_bsnh kv_share_buffer scale :
  (∃ written,
     CheckInputs query key value past_key past_value parameters num_heads kv_num_heads
       attention_mask is_past_bsnh kv_share_buffer scale = Ok (OK, written)) ↔
  (∃ B S D S_kv D_kv S_past,
     accepted query key value past_key past_value num_heads kv_num_heads attention_mask
       is_past_bsnh kv_share_buffer B S D S_kv D_kv S_past).
Proof.
  split.
  - intros [written Hrun].
    apply CheckInputs_OK_inv in Hrun
      as (B & S & D & S_kv & D_kv & S_past & _ & _ & _ & _ & Haccepted & _).
    by exists B, S, D, S_kv, D_kv, S_past.
  - intros (B & S & D & S_kv & D_kv & S_past & Haccepted).
    by eapply CheckInputs_accepts.
Qed.

(** X29. [CheckInputs] reads dimensions 1 and 2 of the key before it
    looks at the number of its dimensions: for a query of three
    dimensions and a key of fewer than three, the call is a read outside
    of the shape (or, before it, a division that is not defined), and no
    status is returned. *)
Theorem CheckInputs_reads_key_before_its_rank q k value past_key past_value parameters
    num_heads kv_num_heads attention_mask is_past_bsnh kv_share_buffer scale :
  length (GetDims q) = 3%nat →
  (length (GetDims k) < 3)%nat →
  CheckInputs (Some q) (Some k) value past_key past_value parameters num_heads
    kv_num_heads attention_mask is_past_bsnh kv_share_buffer scale = Throw OutOfBounds.
Proof.
  intros Hq Hk. unfold CheckInputs. simpl.
  destruct (GetDims q) as [|B [|S [|D [|]]]]; try discriminate Hq. simpl.
  destruct (int_div (to_int D) num_heads) as [head_size|]; [|reflexivity]. simpl.
  destruct (GetDims k) as [|B_k [|S_kv [|D_kv rest]]]; simpl; try reflexivity.
  simpl in Hk. lia.
Qed.

Lemma CheckInputs_reads_key_before_its_rank_witness :
  CheckInputs (Some Decoding.query) (Some (mkTensor [2; 1])) (Some Decoding.value)
    None None None 8 4 None false false 0 = Throw OutOfBounds.
Proof.
  apply CheckInputs_reads_key_before_its_rank; [reflexivity|simpl; lia].
Defined.

(** X30. What the overload of [CheckInputs] with [max_threads_per_block]
    does to [parameters]: with a status other than [OK] they are as
    before; with [OK], num_heads is no larger than a positive
    [max_threads_per_block], a null pointer stays null, and parameters
    that are written hold the arguments, a head size of hidden size /
    num_heads, and equal present and maximal lengths: the past length
    with a shared buffer, and without one the sum of the past and the
    new length as an [int], wrapped around when it leaves [int]. *)
Theorem CheckInputs_writes_parameters query key value past_key past_value parameters
    num_heads kv_num_heads attention_mask is_past_bsnh kv_share_buffer scale
    max_threads_per_block status written :
  CheckInputs_max_threads query key value past_key past_value parameters num_heads
    kv_num_heads attention_mask is_past_bsnh kv_share_buffer scale max_threads_per_block
    = Ok (status, written) →
  match status with
  | INVALID_ARGUMENT _ => written = parameters
  | OK =>
      (0 < max_threads_per_block → num_heads ≤ max_threads_per_block) ∧
      match parameters with
      | None => written = None
      | Some _ =>
          ∃ p, written = Some p ∧
            group_query_attention_helper.num_heads p = num_heads ∧
            group_query_attention_helper.kv_num_heads p = kv_num_heads ∧
            group_query_attention_helper.kv_share_buffer p = kv_share_buffer ∧
            group_query_attention_helper.scale p = scale ∧
            is_unidirectional p = true ∧
            num_heads ≠ 0 ∧ head_size p = hidden_size p ÷ num_heads ∧
            max_sequence_length p = present_sequence_length p ∧
            present_sequence_length p =
              (if kv_share_buffer then past_sequence_length p
               else int_add (past_sequence_length p) (kv_sequence_length p))
      end
  end.
Proof.
  unfold CheckInputs_max_threads.
  destruct (bool_decide (0 < max_threads_per_block)
            && bool_decide (max_threads_per_block < num_heads)) eqn:Hthreads.
  { by intros [= <- <-]. }
  intros Hrun. destruct status as [|message].
  - split.
    { intros Hmax. apply andb_false_iff in Hthreads as [Hle|Hle];
        apply bool_decide_eq_false in Hle; lia. }
    apply CheckInputs_OK_inv in Hrun
      as (B & S & D & S_kv & D_kv & S_past & head_size & mask_length & has_mask
          & is_prompt & _ & [Hnum ->]%int_div_Some & _ & ->).
    destruct parameters as [before|]; [|reflexivity].
    eexists. split; [reflexivity|]. simpl. split_and!; try done.
  - by eapply CheckInputs_invalid.
Qed.

Lemma CheckInputs_writes_parameters_witness :
  (0 < 1024 → 8 ≤ 1024) ∧
  ∃ p, Some Overflowing.after = Some p ∧
    group_query_attention_helper.num_heads p = 8 ∧
    group_query_attention_helper.kv_num_heads p = 4 ∧
    group_query_attention_helper.kv_share_buffer p = false ∧
    group_query_attention_helper.scale p = 0 ∧
    is_unidirectional p = true ∧
    8 ≠ 0 ∧ head_size p = hidden_size p ÷ 8 ∧
    max_sequence_length p = present_sequence_length p ∧
    present_sequence_length p
      = int_add (past_sequence_length p) (kv_sequence_length p).
Proof.
  apply (CheckInputs_writes_parameters (Some Decoding.query) (Some Decoding.key)
           (Some Decoding.value) (Some Overflowing.past_key) (Some Overflowing.past_value)
           (Some Decoding.before) 8 4 None false false 0 1024
           OK (Some Overflowing.after)).
  vm_compute. reflexivity.
Defined.

(** A decoding step on 16 past tokens with a mask. *)
Example CheckInputs_decoding :
  CheckInputs (Some Decoding.query) (Some Decoding.key) (Some Decoding.value)
    (Some Decoding.past_key) (Some Decoding.past_value) (Some Decoding.before)
    8 4 (Some Decoding.attention_mask) false false 0 = Ok (OK, Some Decoding.after).
Proof. vm_compute. reflexivity. Qed.

(** A past length of 2147483647 and one new token: nothing is checked,
    the status is [OK] and the present length has wrapped around. *)
Example CheckInputs_wraps_the_present_length :
  CheckInputs (Some Decoding.query) (Some Decoding.key) (Some Decoding.value)
    (Some Overflowing.past_key) (Some Overflowing.past_value) (Some Decoding.before)
    8 4 None false false 0 = Ok (OK, Some Overflowing.after).
Proof. vm_compute. reflexivity. Qed.

End group_query_attention.
